(** * synthpops: workplace assignment and contact-layer assembly

    A shallow embedding of [synthpops/workplaces.py], of
    [synthpops/contact_networks.py] and of the seeding step of
    [synthpops/pop.py].

    Python statements that mutate their arguments in place are written in a
    state-and-exception monad: a run returns an outcome (a value, a raised
    exception, or exhaustion of the fuel that bounds a [while] loop) together
    with the state reached, so that the state at the moment of a [raise] can
    be observed.

    The pseudorandom generator is the stream of numbers it is going to
    deliver.  Every sampling primitive maps the next number of the stream onto
    the outcomes that have positive probability, so that quantifying over the
    stream quantifies over every run the Python code can make. *)

From Stdlib Require Import ZArith QArith Lia.
From stdpp Require Import base option list sorting gmap sets strings.

Local Open Scope nat_scope.

(** ** Outcomes and the state monad *)

Inductive exn : Type :=
  | ValueError
  | KeyError
  | IndexError
  | NetworkXError
  | NetworkXException.

Inductive outcome (A : Type) : Type :=
  | Ok (a : A)
  | Raise (e : exn)
  | OutOfFuel.

Arguments Ok {A} a.
Arguments Raise {A} e.
Arguments OutOfFuel {A}.

Definition M (St A : Type) : Type := St -> outcome A * St.

Definition ret {St A : Type} (a : A) : M St A := fun s => (Ok a, s).

Definition bind {St A B : Type} (m : M St A) (k : A -> M St B) : M St B :=
  fun s =>
    match m s with
    | (Ok a, s') => k a s'
    | (Raise e, s') => (Raise e, s')
    | (OutOfFuel, s') => (OutOfFuel, s')
    end.

Definition raise {St A : Type} (e : exn) : M St A := fun s => (Raise e, s).

Definition out_of_fuel {St A : Type} : M St A := fun s => (OutOfFuel, s).

Definition get {St : Type} : M St St := fun s => (Ok s, s).

Definition gets {St A : Type} (f : St -> A) : M St A := fun s => (Ok (f s), s).

Definition modify {St : Type} (f : St -> St) : M St unit := fun s => (Ok tt, f s).

(** [d[k]] of a Python container: the exception [e] when the entry is
    missing. *)
Definition lift_opt {St A : Type} (e : exn) (o : option A) : M St A :=
  match o with
  | Some a => ret a
  | None => raise e
  end.

(** Runs a computation on a component of the state. *)
Definition zoom {St T A : Type} (proj : St -> T) (upd : T -> St -> St)
    (m : M T A) : M St A :=
  fun s => let (o, t) := m (proj s) in (o, upd t s).

Declare Scope py_scope.
Delimit Scope py_scope with py.

Notation "'let*' x ':=' m 'in' k" := (bind m (fun x => k))
  (at level 10, x pattern, m at level 100, k at level 200) : py_scope.
Notation "m '>>' k" := (bind m (fun _ => k))
  (at level 100, k at level 200, right associativity) : py_scope.

Local Open Scope py_scope.

(** [for x in xs: body(x)] *)
Fixpoint for_each {St A : Type} (xs : list A) (body : A -> M St unit) : M St unit :=
  match xs with
  | [] => ret tt
  | x :: xs' => body x >> for_each xs' body
  end.

(** [[f(x) for x in xs]] *)
Fixpoint map_m {St A B : Type} (f : A -> M St B) (xs : list A) : M St (list B) :=
  match xs with
  | [] => ret []
  | x :: xs' =>
      let* y := f x in
      let* ys := map_m f xs' in
      ret (y :: ys)
  end.

(** A loop that threads local variables [acc] through its iterations. *)
Fixpoint fold_m {St A B : Type} (body : B -> A -> M St B) (xs : list A) (acc : B)
    : M St B :=
  match xs with
  | [] => ret acc
  | x :: xs' => let* acc' := body acc x in fold_m body xs' acc'
  end.

(** [for _ in range(n)] with threaded local variables. *)
Fixpoint repeat_m {St B : Type} (n : nat) (body : B -> M St B) (acc : B) : M St B :=
  match n with
  | O => ret acc
  | S n' => let* acc' := body acc in repeat_m n' body acc'
  end.

(** ** Python dictionaries whose iteration order is observed

    A [dict] is the list of its items in insertion order.  Assigning to a key
    that is present keeps its position; a new key goes to the end. *)

Section pydict.
Context {V : Type}.

Fixpoint dict_get (k : nat) (d : list (nat * V)) : option V :=
  match d with
  | [] => None
  | (k', v) :: d' => if decide (k' = k) then Some v else dict_get k d'
  end.

Fixpoint dict_set (k : nat) (v : V) (d : list (nat * V)) : list (nat * V) :=
  match d with
  | [] => [(k, v)]
  | (k', v') :: d' =>
      if decide (k' = k) then (k', v) :: d' else (k', v') :: dict_set k v d'
  end.

(** [d.pop(k, None)] *)
Fixpoint dict_pop (k : nat) (d : list (nat * V)) : list (nat * V) :=
  match d with
  | [] => []
  | (k', v') :: d' =>
      if decide (k' = k) then d' else (k', v') :: dict_pop k d'
  end.

Definition dict_keys (d : list (nat * V)) : list nat := d.*1.

Definition dict_values (d : list (nat * V)) : list V := d.*2.

(** [[d[a] for a in d]] *)
Definition dict_self_values (d : list (nat * V)) : list V :=
  omap (fun a => dict_get a d) (dict_keys d).
End pydict.

(** ** Sums and weights *)

Fixpoint Zsum (l : list Z) : Z :=
  match l with
  | [] => 0%Z
  | x :: l' => (x + Zsum l')%Z
  end.

Fixpoint Qsum (p : list Q) : Q :=
  match p with
  | [] => 0%Q
  | x :: p' => (x + Qsum p')%Q
  end.

Definition Qpositive (x : Q) : bool := negb (Qle_bool x 0).

(** The positions of a weight vector that carry positive weight, counted
    from [i]. *)
Fixpoint support_from (i : nat) (p : list Q) : list nat :=
  match p with
  | [] => []
  | x :: p' =>
      if Qpositive x then i :: support_from (S i) p' else support_from (S i) p'
  end.

Definition support (p : list Q) : list nat := support_from 0 p.

(** ** The generator and numpy's sampling primitives *)

Definition rng : Type := list nat.

(** The next number of the stream; an exhausted stream keeps delivering 0. *)
Definition draw : M rng nat :=
  fun g =>
    match g with
    | [] => (Ok 0, [])
    | r :: g' => (Ok r, g')
    end.

(** [np.random.choice(a)]: a uniform draw; [ValueError] on an empty [a]. *)
Definition np_choice {A : Type} (a : list A) : M rng A :=
  match a with
  | [] => raise ValueError
  | _ :: _ =>
      let* r := draw in
      lift_opt ValueError (a !! (r mod length a))
  end.

(** [np.random.choice(a, p=p)]: numpy rejects a [p] of another length, with
    a negative entry, or that does not sum to one (a [nan] produced by 0/0
    included); an entry of weight zero is never drawn. *)
Definition np_choice_p {A : Type} (a : list A) (p : list Q) : M rng A :=
  if negb (length a =? length p) then raise ValueError
  else if negb (forallb (Qle_bool 0) p) then raise ValueError
  else if negb (Qeq_bool (Qsum p) 1) then raise ValueError
  else
    let* r := draw in
    lift_opt ValueError
      (support p !! (r mod length (support p)) ≫= fun i => a !! i).

(** Draws [k] items of [pool] one after the other, without putting any
    back. *)
Fixpoint sample_without_replacement {A : Type} (k : nat) (pool : list A)
    : M rng (list A) :=
  match k with
  | O => ret []
  | S k' =>
      let* r := draw in
      let i := r mod length pool in
      let* x := lift_opt ValueError (pool !! i) in
      let* rest := sample_without_replacement k' (delete i pool) in
      ret (x :: rest)
  end.

(** [np.random.choice(a, size=size, replace=False)]: [ValueError] on a
    negative size and on a size larger than the population. *)
Definition np_choice_noreplace {A : Type} (a : list A) (size : Z)
    : M rng (list A) :=
  if (size <? 0)%Z then raise ValueError
  else if (Z.of_nat (length a) <? size)%Z then raise ValueError
  else sample_without_replacement (Z.to_nat size) a.

(** [np.random.shuffle(l)] *)
Definition np_shuffle {A : Type} (l : list A) : M rng (list A) :=
  sample_without_replacement (length l) l.

(** [np.random.randint(2, size=n)] *)
Definition np_randint2 (n : nat) : M rng (list Z) :=
  map_m (fun _ => let* r := draw in ret (Z.of_nat (r mod 2))) (seq 0 n).

(** ** workplaces.py: [generate_workplace_sizes] *)

(** Modelled from the spec: [base.norm_dic] is not among the sources.  The
    spec has a table of counts "renormalized to a valid probability
    distribution": every value is divided by the total.  A table whose total
    is zero is returned as it is, which is the case both callers in
    [workplaces.py] test for ([sum(...values()) == 0], line 154). *)
Definition norm_dic (d : list (nat * Q)) : list (nat * Q) :=
  let total := Qsum (dict_self_values d) in
  if Qeq_bool total 0 then d
  else (fun kv => (kv.1, (kv.2 / total)%Q)) <$> d.

(** The [while nworkers > 0] loop of [generate_workplace_sizes]
    (lines 81-85). *)
Fixpoint draw_workplace_sizes (fuel : nat) (sorted_brackets : list nat)
    (prob_by_sorted_brackets : list Q)
    (workplace_size_brackets : list (nat * list Z))
    (nworkers : Z) (workplace_sizes : list Z) : M rng (Z * list Z) :=
  if (0 <? nworkers)%Z then
    match fuel with
    | O => out_of_fuel
    | S fuel' =>
        let* size_bracket := np_choice_p sorted_brackets prob_by_sorted_brackets in
        let* sizes := lift_opt KeyError (dict_get size_bracket workplace_size_brackets) in
        let* size := np_choice sizes in
        draw_workplace_sizes fuel' sorted_brackets prob_by_sorted_brackets
          workplace_size_brackets (nworkers - size)%Z (workplace_sizes ++ [size])
    end
  else ret (nworkers, workplace_sizes).

(** [workplace_sizes[-1] = workplace_sizes[-1] + nworkers] (line 87) *)
Definition correct_last (workplace_sizes : list Z) (nworkers : Z)
    : option (list Z) :=
  match reverse workplace_sizes with
  | [] => None
  | l :: pre => Some (reverse pre ++ [(l + nworkers)%Z])
  end.

Definition generate_workplace_sizes (fuel : nat)
    (workplace_size_distr_by_bracket : list (nat * Q))
    (workplace_size_brackets : list (nat * list Z))
    (workers_by_age_to_assign_count : list (nat * Z)) : M rng (list Z) :=
  let nworkers := Zsum (dict_self_values workers_by_age_to_assign_count) in
  let workplace_size_distr_by_bracket := norm_dic workplace_size_distr_by_bracket in
  let sorted_brackets := merge_sort Nat.le (dict_keys workplace_size_brackets) in
  let* prob_by_sorted_brackets :=
    map_m (fun b => lift_opt KeyError (dict_get b workplace_size_distr_by_bracket))
      sorted_brackets in
  let* (nworkers, workplace_sizes) :=
    draw_workplace_sizes fuel sorted_brackets prob_by_sorted_brackets
      workplace_size_brackets nworkers [] in
  let* workplace_sizes :=
    if (nworkers <? 0)%Z
    then lift_opt IndexError (correct_last workplace_sizes nworkers)
    else ret workplace_sizes in
  np_shuffle workplace_sizes.


(** ** workplaces.py: [assign_rest_of_workers] *)

(** The array [contact_matrix_dic['W']]: [shape[1]] is [ncols], [shape[0]]
    the number of rows. *)
Record matrix : Type := Matrix {
  ncols : nat;
  rows : list (list Q)
}.

(** [W[:, j] = 0] *)
Definition zero_column (j : nat) (m : matrix) : matrix :=
  Matrix (ncols m) ((fun r => <[j := 0%Q]> r) <$> rows m).

(** The objects [assign_rest_of_workers] mutates in place: three of its
    arguments, the workplace matrix inside [contact_matrix_dic], and the
    process-wide generator. *)
Record wstate : Type := WState {
  potential_worker_uids : list (nat * nat);
  potential_worker_uids_by_age : list (nat * list nat);
  workers_by_age_to_assign_count : list (nat * Z);
  contact_matrix_W : matrix;
  w_gen : rng
}.

Definition set_potential_worker_uids
    (f : list (nat * nat) -> list (nat * nat)) (s : wstate) : wstate :=
  WState (f (potential_worker_uids s)) (potential_worker_uids_by_age s)
    (workers_by_age_to_assign_count s) (contact_matrix_W s) (w_gen s).

Definition set_potential_worker_uids_by_age
    (f : list (nat * list nat) -> list (nat * list nat)) (s : wstate) : wstate :=
  WState (potential_worker_uids s) (f (potential_worker_uids_by_age s))
    (workers_by_age_to_assign_count s) (contact_matrix_W s) (w_gen s).

Definition set_workers_by_age_to_assign_count
    (f : list (nat * Z) -> list (nat * Z)) (s : wstate) : wstate :=
  WState (potential_worker_uids s) (potential_worker_uids_by_age s)
    (f (workers_by_age_to_assign_count s)) (contact_matrix_W s) (w_gen s).

Definition set_contact_matrix_W (f : matrix -> matrix) (s : wstate) : wstate :=
  WState (potential_worker_uids s) (potential_worker_uids_by_age s)
    (workers_by_age_to_assign_count s) (f (contact_matrix_W s)) (w_gen s).

Definition set_w_gen (g : rng) (s : wstate) : wstate :=
  WState (potential_worker_uids s) (potential_worker_uids_by_age s)
    (workers_by_age_to_assign_count s) (contact_matrix_W s) g.

Definition w_random {A : Type} (m : M rng A) : M wstate A :=
  zoom w_gen set_w_gen m.

(** [workers_by_age_to_assign_count[a]] *)
Definition count_of (a : nat) : M wstate Z :=
  let* counts := gets workers_by_age_to_assign_count in
  lift_opt KeyError (dict_get a counts).

(** [workers_by_age_to_assign_count[a] -= 1] *)
Definition decrement_count (a : nat) : M wstate unit :=
  let* c := count_of a in
  modify (set_workers_by_age_to_assign_count (dict_set a (c - 1)%Z)).

(** The three statements that take the next worker of age [a] out of the
    pools (lines 167-169, 192-196 and 215-219):
    [uid = potential_worker_uids_by_age[a][0]],
    [potential_worker_uids_by_age[a].remove(uid)] (the first occurrence of
    [uid] is the head of the list) and [potential_worker_uids.pop(uid, None)]. *)
Definition take_first_worker (a : nat) : M wstate nat :=
  let* pools := gets potential_worker_uids_by_age in
  let* pool := lift_opt KeyError (dict_get a pools) in
  let* uid := lift_opt IndexError (head pool) in
  modify (set_potential_worker_uids_by_age (dict_set a (tail pool))) >>
  modify (set_potential_worker_uids (dict_pop uid)) >>
  ret uid.

(** [[workers_by_age_to_assign_count[a] for a in age_brackets[b]]] *)
Definition workers_in_bracket (age_brackets : list (nat * list nat)) (b : nat)
    : M wstate (list Z) :=
  let* ages := lift_opt KeyError (dict_get b age_brackets) in
  map_m count_of ages.

(** One element of the comprehension of lines 204 and 211: the count of
    age [a] when [len(potential_worker_uids_by_age[a]) > 0], nothing
    otherwise. *)
Definition count_if_pool_not_empty (a : nat) : M wstate (list Z) :=
  let* pools := gets potential_worker_uids_by_age in
  let* pool := lift_opt KeyError (dict_get a pools) in
  if 0 <? length pool
  then (let* c := count_of a in ret [c])
  else ret [].

(** [[workers_by_age_to_assign_count[a] for a in age_brackets[b]
      if len(potential_worker_uids_by_age[a]) > 0]] *)
Definition workers_left_in_bracket (age_brackets : list (nat * list nat))
    (b : nat) : M wstate (list Z) :=
  let* ages := lift_opt KeyError (dict_get b age_brackets) in
  let* picked := map_m count_if_pool_not_empty ages in
  ret (concat picked).

(** [b_prob = b_prob / sum_b_prob] under [if sum_b_prob > 0] *)
Definition normalize_row (b_prob : list Q) : list Q :=
  let sum_b_prob := Qsum b_prob in
  if Qpositive sum_b_prob then (fun x => (x / sum_b_prob)%Q) <$> b_prob
  else b_prob.

(** Lines 145-150: the columns of the brackets that have no worker to
    assign are switched off. *)
Definition turn_off_empty_brackets (age_brackets : list (nat * list nat))
    : M wstate unit :=
  for_each (dict_keys age_brackets) (fun b =>
    let* workers_left_in_bracket := workers_in_bracket age_brackets b in
    if (Zsum workers_left_in_bracket =? 0)%Z then
      let* W := gets contact_matrix_W in
      if ncols W =? 0 then raise IndexError
      else modify (set_contact_matrix_W (zero_column (Nat.min b (ncols W - 1))))
    else ret tt).

(** Lines 192-196: one iteration of [for i in range(count[ai])]. *)
Definition place_next_of_age (ai : nat) (locals : list nat * list nat)
    : M wstate (list nat * list nat) :=
  let '(new_work, new_work_uids) := locals in
  let* uid := take_first_worker ai in
  ret (new_work ++ [ai], new_work_uids ++ [uid]).

(** Lines 191-197: one iteration of [for ai in
    workers_by_age_to_assign_count]; the count is read once, before the
    inner loop, and set to zero after it. *)
Definition place_all_of_age (locals : list nat * list nat) (ai : nat)
    : M wstate (list nat * list nat) :=
  let* c := count_of ai in
  let* locals := repeat_m (Z.to_nat c) (place_next_of_age ai) locals in
  modify (set_workers_by_age_to_assign_count (dict_set ai 0%Z)) >>
  ret locals.

(** Lines 190-198: everyone who is still to be placed goes into the
    workplace under construction. *)
Definition place_everyone_left (new_work new_work_uids : list nat)
    : M wstate (list nat * list nat) :=
  let* counts := gets workers_by_age_to_assign_count in
  fold_m place_all_of_age (dict_keys counts) (new_work, new_work_uids).

(** The number of workers still to assign: line 184. *)
Definition workers_left (s : wstate) : Z :=
  Zsum (dict_self_values (workers_by_age_to_assign_count s)).

Section assign_rest_of_workers.

(** [sampling.fast_choice] is not among the sources: it is a parameter of
    the model.  It receives a vector of weights and returns an index. *)
Variable fast_choice : list Q -> M rng nat.

(** The bound on the iterations of the [while] loop of line 208. *)
Variable fuel : nat.

Variable age_brackets : list (nat * list nat).
Variable age_by_brackets_dic : list (nat * nat).

(** Lines 208-211: brackets are drawn again until one with workers left in
    a non-empty pool comes up. *)
Fixpoint resample_bracket (fuel : nat) (loop_b_prob : list Q) (bi : nat)
    (workers_left : list Z) : M wstate nat :=
  if (Zsum workers_left =? 0)%Z then
    match fuel with
    | O => out_of_fuel
    | S fuel' =>
        if length loop_b_prob <=? bi then raise IndexError
        else
          let loop_b_prob := <[bi := 0%Q]> loop_b_prob in
          let* bi := w_random (fast_choice loop_b_prob) in
          let* workers_left := workers_left_in_bracket age_brackets bi in
          resample_bracket fuel' loop_b_prob bi workers_left
    end
  else ret bi.

(** Lines 207-221, under [if np.sum(b_prob)]: a bracket with workers left
    is settled on, an age is drawn in it by the counts left, and the next
    worker of that age joins the workplace. *)
Definition place_from_bracket (b_prob : list Q) (bi : nat)
    (workers_left : list Z) (new_work new_work_uids : list nat)
    : M wstate (nat * (list nat * list nat)) :=
  let* bi := resample_bracket fuel b_prob bi workers_left in
  let* ages := lift_opt KeyError (dict_get bi age_brackets) in
  let* a_prob := map_m count_of ages in
  let* k := w_random (fast_choice (inject_Z <$> a_prob)) in
  let* ai := lift_opt IndexError (ages !! k) in
  let* uid := take_first_worker ai in
  decrement_count ai >>
  ret (bi, (new_work ++ [ai], new_work_uids ++ [uid])).

(** Lines 224-230: when nobody is left in bracket [bi] its column is set to
    zero and the row of the anchor is read and normalised again. *)
Definition turn_off_bracket_if_empty (bindex bi : nat) (b_prob : list Q)
    : M wstate (list Q) :=
  let* workers_left := workers_in_bracket age_brackets bi in
  if (Zsum workers_left =? 0)%Z then
    let* W := gets contact_matrix_W in
    if ncols W <=? bi then raise IndexError
    else
      modify (set_contact_matrix_W (zero_column bi)) >>
      let* W := gets contact_matrix_W in
      let* b_prob := lift_opt IndexError (rows W !! bindex) in
      ret (normalize_row b_prob)
  else ret b_prob.

(** Lines 202-230: one iteration of [for i in range(1, size)].  The locals
    it updates are [new_work], [new_work_uids] and [b_prob]. *)
Definition fill_one_slot (bindex : nat)
    (locals : list nat * list nat * list Q) : M wstate (list nat * list nat * list Q) :=
  let '(new_work, new_work_uids, b_prob) := locals in
  let* bi := w_random (fast_choice b_prob) in
  let* workers_left := workers_left_in_bracket age_brackets bi in
  let* (bi, placed) :=
    if negb (Qeq_bool (Qsum b_prob) 0)
    then place_from_bracket b_prob bi workers_left new_work new_work_uids
    else ret (bi, (new_work, new_work_uids)) in
  let* b_prob := turn_off_bracket_if_empty bindex bi b_prob in
  ret (placed.1, placed.2, b_prob).

(** Lines 160-173: the first member of the workplace.  Its age is drawn by
    the counts left; the worker is the head of the pool of that age. *)
Definition choose_anchor (sorted_worker_age_keys : list nat)
    : M wstate (nat * nat) :=
  let* a_prob := map_m count_of sorted_worker_age_keys in
  let a_prob := (fun c => (inject_Z c / inject_Z (Zsum a_prob))%Q) <$> a_prob in
  let* aindex := w_random (np_choice_p sorted_worker_age_keys a_prob) in
  let* uid := take_first_worker aindex in
  decrement_count aindex >>
  ret (aindex, uid).

(** Lines 175-180: the row of the anchor's bracket, normalised when it has
    weight.  [bindex] is clamped to the last row; with no row at all the
    index -1 is out of bounds. *)
Definition anchor_row (aindex : nat) : M wstate (nat * list Q) :=
  let* bindex := lift_opt KeyError (dict_get aindex age_by_brackets_dic) in
  let* W := gets contact_matrix_W in
  if length (rows W) =? 0 then raise IndexError
  else
    let bindex := Nat.min bindex (length (rows W) - 1) in
    let* b_prob := lift_opt IndexError (rows W !! bindex) in
    ret (bindex, normalize_row b_prob).

(** Lines 182-186: the size that is asked for is limited by the number of
    potential workers and by the number of workers left to assign. *)
Definition clamp_size (size : Z) (n_potential : nat) (workers_left_count : Z) : Z :=
  let size :=
    if (Z.of_nat n_potential - 1 <? size)%Z
    then (Z.of_nat n_potential - 1)%Z else size in
  if (workers_left_count <? size)%Z then (workers_left_count + 1)%Z else size.

(** Lines 189-230: either everyone left is placed, or the remaining
    [size - 1] slots go through the mixing loop. *)
Definition fill_workplace (size : Z) (bindex : nat) (b_prob : list Q)
    (new_work new_work_uids : list nat) : M wstate (list nat * list nat) :=
  let* potential := gets potential_worker_uids in
  let* workers_left_count := gets workers_left in
  if (Z.of_nat (length potential) <=? size)%Z || (workers_left_count <=? size)%Z
  then place_everyone_left new_work new_work_uids
  else
    let* locals :=
      repeat_m (Z.to_nat (size - 1)) (fill_one_slot bindex)
        (new_work, new_work_uids, b_prob) in
    ret (locals.1.1, locals.1.2).

(** Lines 153-235: the body of [for n, size in enumerate(workplace_sizes)].
    [None] is the [break]; otherwise the pair [(new_work, new_work_uids)]
    that is appended to the two result lists. *)
Definition build_workplace (sorted_worker_age_keys : list nat) (size : Z)
    : M wstate (option (list nat * list nat)) :=
  let* counts := gets workers_by_age_to_assign_count in
  let workers_by_age_to_assign_distr :=
    norm_dic ((fun kv => (kv.1, inject_Z kv.2)) <$> counts) in
  if Qeq_bool (Qsum (dict_values workers_by_age_to_assign_distr)) 0 then ret None
  else
  let* pools := gets potential_worker_uids_by_age in
  if (Zsum ((fun v => Z.of_nat (length v)) <$> dict_values pools) =? 0)%Z then ret None
  else
  let* (aindex, uid) := choose_anchor sorted_worker_age_keys in
  let* (bindex, b_prob) := anchor_row aindex in
  let* potential := gets potential_worker_uids in
  let* workers_left_count := gets workers_left in
  let size := clamp_size size (length potential) workers_left_count in
  let* (new_work, new_work_uids) :=
    fill_workplace size bindex b_prob [aindex] [uid] in
  ret (Some (new_work, new_work_uids)).

(** The loop over [workplace_sizes], with its [break]. *)
Fixpoint assign_workplaces (sorted_worker_age_keys : list nat)
    (workplace_sizes : list Z) : M wstate (list (list nat) * list (list nat)) :=
  match workplace_sizes with
  | [] => ret ([], [])
  | size :: workplace_sizes' =>
      let* built := build_workplace sorted_worker_age_keys size in
      match built with
      | None => ret ([], [])
      | Some (new_work, new_work_uids) =>
          let* (syn_workplaces, syn_workplace_uids) :=
            assign_workplaces sorted_worker_age_keys workplace_sizes' in
          ret (new_work :: syn_workplaces, new_work_uids :: syn_workplace_uids)
      end
  end.

(** Returns [(syn_workplaces, syn_workplace_uids)]; the other three
    components of the tuple the Python function returns are its mutated
    arguments, which are read off the final state. *)
Definition assign_rest_of_workers (workplace_sizes : list Z)
    : M wstate (list (list nat) * list (list nat)) :=
  let* counts := gets workers_by_age_to_assign_count in
  let sorted_worker_age_keys := merge_sort Nat.le (dict_keys counts) in
  turn_off_empty_brackets age_brackets >>
  assign_workplaces sorted_worker_age_keys workplace_sizes.

End assign_rest_of_workers.

(** An instance of the parameter [fast_choice], used to run the model: the
    next number of the stream selects one of the positions of positive
    weight; a vector without positive weight gives position 0. *)
Definition fast_choice_weighted (weights : list Q) : M rng nat :=
  match support weights with
  | [] => ret 0
  | _ :: _ =>
      let* r := draw in
      lift_opt ValueError (support weights !! (r mod length (support weights)))
  end.

(** The uids waiting in the pools, all ages together. *)
Definition pool_uids (s : wstate) : list nat :=
  concat (dict_values (potential_worker_uids_by_age s)).

(** No age has a negative number of workers to assign. *)
Definition counts_nonneg (s : wstate) : Prop :=
  Forall (fun kv => (0 <= kv.2)%Z) (workers_by_age_to_assign_count s).

(** A draw by weight never returns a position without weight. *)
Definition draws_by_weight (fast_choice : list Q -> M rng nat) : Prop :=
  forall weights g k g',
    fast_choice weights g = (Ok k, g') ->
    Forall (fun x => (0 <= x)%Q) weights ->
    Exists (fun x => (0 < x)%Q) weights ->
    exists x, weights !! k = Some x /\ (0 < x)%Q.

(** States that differ in the generator at most. *)
Definition same_but_gen (s s' : wstate) : Prop :=
  potential_worker_uids s' = potential_worker_uids s /\
  potential_worker_uids_by_age s' = potential_worker_uids_by_age s /\
  workers_by_age_to_assign_count s' = workers_by_age_to_assign_count s /\
  contact_matrix_W s' = contact_matrix_W s.

(** [cs] are counts left of ages of bracket [b]. *)
Definition left_in_bracket (age_brackets : list (nat * list nat)) (s : wstate)
    (b : nat) (cs : list Z) : Prop :=
  exists ages, dict_get b age_brackets = Some ages /\
    Forall (fun c => exists a, a ∈ ages /\
              dict_get a (workers_by_age_to_assign_count s) = Some c) cs.

(** Between [s] and [s'] the worker [uid], the head of the pool of age [ai],
    left the pools, and the count of that age went from [c] to [c - 1]. *)
Definition placed_one (s s' : wstate) (ai uid : nat) (c : Z) : Prop :=
  exists pool,
    dict_get ai (potential_worker_uids_by_age s) = Some (uid :: pool) /\
    dict_get ai (workers_by_age_to_assign_count s) = Some c /\
    potential_worker_uids s' = dict_pop uid (potential_worker_uids s) /\
    potential_worker_uids_by_age s'
      = dict_set ai pool (potential_worker_uids_by_age s) /\
    workers_by_age_to_assign_count s'
      = dict_set ai (c - 1)%Z (workers_by_age_to_assign_count s).

(** Between [s] and [s'] only the generator and the matrix may differ. *)
Definition placed_none (s s' : wstate) : Prop :=
  potential_worker_uids s' = potential_worker_uids s /\
  potential_worker_uids_by_age s' = potential_worker_uids_by_age s /\
  workers_by_age_to_assign_count s' = workers_by_age_to_assign_count s.

(** Row [i] of the matrix carries no weight. *)
Definition row_is_zero (W : matrix) (i : nat) : Prop :=
  forall row, rows W !! i = Some row -> Forall (fun x => (x == 0)%Q) row.

(** No entry of the matrix is negative. *)
Definition matrix_nonneg (W : matrix) : Prop :=
  Forall (Forall (fun x => (0 <= x)%Q)) (rows W).

(** ** contact_networks.py: the population dictionary *)

(** The values of a person's attributes: [None], an integer or a string. *)
Inductive pyval : Type :=
  | PyNone
  | PyInt (z : Z)
  | PyStr (s : string).

(** [popdict[uid]]: the attributes ([age], [sex], [hhid], ...) and, under
    the key [contacts], one set of uids per layer. *)
Record person : Type := Person {
  attrs : gmap string pyval;
  contacts : gmap string (gset nat)
}.

(** The state of the assembly: the population dictionary, which is mutated
    in place, and the generator. *)
Record cstate : Type := CState {
  popdict : gmap nat person;
  c_gen : rng
}.

Definition set_popdict (f : gmap nat person -> gmap nat person) (s : cstate)
    : cstate :=
  CState (f (popdict s)) (c_gen s).

Definition set_c_gen (g : rng) (s : cstate) : cstate := CState (popdict s) g.

Definition c_random {A : Type} (m : M rng A) : M cstate A :=
  zoom c_gen set_c_gen m.

(** [popdict[uid]] *)
Definition person_of (uid : nat) : M cstate person :=
  let* pd := gets popdict in
  lift_opt KeyError (pd !! uid).

(** [popdict[uid][key] = v] *)
Definition set_attr (uid : nat) (key : string) (v : pyval) : M cstate unit :=
  let* p := person_of uid in
  modify (set_popdict <[uid := Person (<[key := v]> (attrs p)) (contacts p)]>).

(** [popdict[uid]['contacts'][layer] = c] *)
Definition set_contacts (uid : nat) (layer : string) (c : gset nat)
    : M cstate unit :=
  let* p := person_of uid in
  modify (set_popdict <[uid := Person (attrs p) (<[layer := c]> (contacts p))]>).

(** [popdict[uid]['contacts'][layer]] *)
Definition get_contacts (uid : nat) (layer : string) : M cstate (gset nat) :=
  let* p := person_of uid in
  lift_opt KeyError (contacts p !! layer).

(** [popdict[uid]['contacts'][layer].add(v)] *)
Definition add_contact (uid : nat) (layer : string) (v : nat) : M cstate unit :=
  let* c := get_contacts uid layer in
  set_contacts uid layer ({[v]} ∪ c).

(** [popdict[uid]['contacts'][layer].remove(v)]: [KeyError] when [v] is not
    in the set. *)
Definition remove_contact (uid : nat) (layer : string) (v : nat)
    : M cstate unit :=
  let* c := get_contacts uid layer in
  if decide (v ∈ c) then set_contacts uid layer (c ∖ {[v]})
  else raise KeyError.

(** The contact set of [uid] in [layer], empty when there is none. *)
Definition contact_set (pd : gmap nat person) (layer : string) (uid : nat)
    : gset nat :=
  default ∅ (pd !! uid ≫= fun p => contacts p !! layer).

(** ** contact_networks.py: graphs of networkx

    A graph on the nodes [0 .. n-1] is the set of its edges, each written
    with the smaller node first. *)

Definition edge (i j : nat) : nat * nat := if i <=? j then (i, j) else (j, i).

(** [nx.complete_graph(n)] *)
Definition complete_graph (n : nat) : gset (nat * nat) :=
  list_to_set
    (flat_map (fun i => flat_map (fun j => if i <? j then [(i, j)] else []) (seq 0 n))
       (seq 0 n)).

(** [G.neighbors(i)] *)
Definition neighbors (n : nat) (G : gset (nat * nat)) (i : nat) : list nat :=
  List.filter (fun j => bool_decide (edge i j ∈ G)) (seq 0 n).

(** [G.add_edge(i, j)] *)
Definition add_edge (i j : nat) (G : gset (nat * nat)) : gset (nat * nat) :=
  {[edge i j]} ∪ G.

(** [G.remove_edge(i, j)]: [NetworkXError] when the edge is not in the
    graph. *)
Definition remove_edge {St : Type} (i j : nat) (G : gset (nat * nat))
    : M St (gset (nat * nat)) :=
  if decide (edge i j ∈ G) then ret (G ∖ {[edge i j]})
  else raise NetworkXError.

(** The block of node [i] for blocks of the given sizes. *)
Fixpoint block_of (sizes : list nat) (i : nat) : nat :=
  match sizes with
  | [] => 0
  | n :: sizes' => if i <? n then 0 else S (block_of sizes' (i - n))
  end.

(** The checks of [nx.stochastic_block_model(sizes, p)]: [p] is square of
    the size of [sizes], symmetric, with entries between 0 and 1. *)
Definition sbm_accepts (sizes : list nat) (p : list (list Q)) : bool :=
  (length p =? length sizes)
  && forallb (fun row => length row =? length p) p
  && forallb (fun a => forallb (fun b =>
        match p !! a ≫= (.!! b), p !! b ≫= (.!! a) with
        | Some x, Some y => Qeq_bool x y
        | _, _ => false
        end) (seq 0 (length p))) (seq 0 (length p))
  && forallb (forallb (fun x => Qle_bool 0 x && Qle_bool x 1)) p.

(** The pairs [(i, j)] with [i < j < n]. *)
Definition node_pairs (n : nat) : list (nat * nat) :=
  flat_map (fun i => flat_map (fun j => if i <? j then [(i, j)] else []) (seq 0 n))
    (seq 0 n).

(** [nx.stochastic_block_model(sizes, p)], undirected and without
    self-loops: the pair [(i, j)] is an edge with the probability [p] gives
    for the blocks of [i] and [j]; with a probability strictly between 0 and
    1 the generator decides. *)
Definition stochastic_block_model (sizes : list nat) (p : list (list Q))
    : M rng (gset (nat * nat)) :=
  if negb (sbm_accepts sizes p) then raise NetworkXException
  else
    fold_m
      (fun (G : gset (nat * nat)) (ij : nat * nat) =>
         let pij :=
           default 0%Q (p !! block_of sizes ij.1 ≫= (.!! block_of sizes ij.2)) in
         if Qle_bool pij 0 then ret G
         else if Qle_bool 1 pij then ret ({[ij]} ∪ G)
         else
           let* r := draw in
           ret (if r mod 2 =? 1 then {[ij]} ∪ G else G))
      (node_pairs (foldr Nat.add 0 sizes)) ∅.

(** ** contact_networks.py: [create_reduced_contacts_with_group_types] *)

(** [l.remove(x)]: the first occurrence goes. *)
Fixpoint list_remove_first (x : nat) (l : list nat) : list nat :=
  match l with
  | [] => []
  | y :: l' => if decide (y = x) then l' else y :: list_remove_first x l'
  end.

(** [d.setdefault(k, v)] *)
Definition setdefault {V : Type} (k : string) (v : V) (d : gmap string V)
    : gmap string V :=
  match d !! k with
  | Some _ => d
  | None => <[k := v]> d
  end.

(** [[j for j in G.neighbors(i) if j in nodes]] *)
Definition neighbors_in (n : nat) (G : gset (nat * nat)) (nodes : list nat)
    (i : nat) : list nat :=
  List.filter (fun j => bool_decide (j ∈ nodes)) (neighbors n G i).

(** Lines 324-326: one iteration of [for k in range(ncut)]. *)
Definition cut_one_edge (i : nat) (locals : gset (nat * nat) * list nat)
    : M rng (gset (nat * nat) * list nat) :=
  let '(G, group_1_neighbors) := locals in
  let* j := np_choice group_1_neighbors in
  let* G := remove_edge i j G in
  ret (G, list_remove_first j group_1_neighbors).

(** Lines 316-326: a node of group 1 with more than [average_degree]
    neighbours in group 1 loses the surplus. *)
Definition cut_surplus_edges (n : nat) (n1 : list nat) (average_degree : Z)
    (G : gset (nat * nat)) (i : nat) : M rng (gset (nat * nat)) :=
  let group_1_neighbors := neighbors_in n G n1 i in
  if (average_degree <? Z.of_nat (length group_1_neighbors))%Z then
    let ncut := (Z.of_nat (length group_1_neighbors) - average_degree)%Z in
    let* locals :=
      repeat_m (Z.to_nat ncut) (cut_one_edge i) (G, group_1_neighbors) in
    ret locals.1
  else ret G.

(** Lines 340-343 *)
Definition group_2_to_group_2_connections (n : nat) (n2 : list nat)
    (G : gset (nat * nat)) : list nat :=
  List.filter (fun i => 0 <? length (neighbors_in n G n2 i)) n2.

(** Lines 348-354: a node of group 1 without a neighbour in group 2 is
    given one. *)
Definition add_cross_edge (n : nat) (n2 : list nat) (G : gset (nat * nat))
    (i : nat) : M rng (gset (nat * nat)) :=
  let group_2_neighbors := neighbors_in n G n2 i in
  if length group_2_neighbors =? 0 then
    let* random_group_2_j := np_choice n2 in
    ret (add_edge i random_group_2_j G)
  else ret G.

(** Lines 359-373: the same, and the node of group 2 that was drawn gives
    up one of its edges inside group 2 when it has one. *)
Definition swap_cross_edge (n : nat) (n2 : list nat) (G : gset (nat * nat))
    (i : nat) : M rng (gset (nat * nat)) :=
  let group_2_neighbors := neighbors_in n G n2 i in
  if length group_2_neighbors =? 0 then
    let* random_group_2_j := np_choice n2 in
    let random_group_2_neighbors := neighbors_in n G n2 random_group_2_j in
    let G := add_edge i random_group_2_j G in
    if 0 <? length random_group_2_neighbors then
      let* random_group_2_neighbor_cut := np_choice random_group_2_neighbors in
      remove_edge random_group_2_j random_group_2_neighbor_cut G
    else ret G
  else ret G.

(** Lines 308-373: the graph on the positions of [group]. *)
Definition reduced_graph (n_1 n_2 : nat) (average_degree : Z)
    (p_matrix : option (list (list Q))) : M rng (gset (nat * nat)) :=
  let n1 := seq 0 n_1 in
  let n2 := seq n_1 n_2 in
  let n := n_1 + n_2 in
  let sizes := [n_1; n_2] in
  if (Z.of_nat n <=? average_degree)%Z then ret (complete_graph n)
  else if n_2 <? 2 then
    fold_m (cut_surplus_edges n n1 average_degree) n1 (complete_graph n)
  else
    let k := (inject_Z average_degree / inject_Z (Z.of_nat (foldr Nat.add 0%nat sizes)))%Q in
    let share_k_matrix := [[k; k]; [k; k]] in
    let p_matrix := default share_k_matrix p_matrix in
    let* G := stochastic_block_model sizes p_matrix in
    if length (group_2_to_group_2_connections n n2 G) =? 0
    then fold_m (add_cross_edge n n2) n1 G
    else fold_m (swap_cross_edge n n2) n1 G.

(** Lines 376-383: one iteration of [for e in E]. *)
Definition add_edge_contacts (group : list nat) (setting : string)
    (e : nat * nat) : M cstate unit :=
  let '(i, j) := e in
  let* id_i := lift_opt IndexError (group !! i) in
  let* id_j := lift_opt IndexError (group !! j) in
  add_contact id_i setting id_j >>
  add_contact id_j setting id_i.

(** Lines 304-305: [for i in popdict:
    popdict[i]['contacts'].setdefault(setting, set())]. *)
Definition setdefault_layer (setting : string) (pd : gmap nat person)
    : gmap nat person :=
  fmap (fun p => Person (attrs p) (setdefault setting ∅ (contacts p))) pd.

(** The function mutates [popdict] in place and returns it: the value
    returned is read off the state.  [force_cross_edges] is accepted and not
    used. *)
Definition create_reduced_contacts_with_group_types (group_1 group_2 : list nat)
    (setting : string) (average_degree : Z) (p_matrix : option (list (list Q)))
    (force_cross_edges : bool) : M cstate unit :=
  if (length group_1 =? 0) || (length group_2 =? 0) then raise ValueError
  else if (average_degree <? 2)%Z then raise ValueError
  else
    let group := group_1 ++ group_2 in
    modify (set_popdict (setdefault_layer setting)) >>
    let* G :=
      c_random (reduced_graph (length group_1) (length group_2) average_degree
                  p_matrix) in
    for_each (elements G) (add_edge_contacts group setting).

(** ** contact_networks.py: [make_contacts_from_microstructure_objects] *)

Local Open Scope string_scope.

(** [enumerate(l)] *)
Definition enumerate {A : Type} (l : list A) : list (nat * A) :=
  imap (fun i x => (i, x)) l.

(** [s = set(l); s.remove(x)]: [None] stands for the [KeyError]. *)
Definition set_remove (x : nat) (s : gset nat) : option (gset nat) :=
  if decide (x ∈ s) then Some (s ∖ {[x]}) else None.

(** [min(l)]; [None] stands for the [ValueError] on an empty list. *)
Definition list_min (l : list Z) : option Z :=
  match l with
  | [] => None
  | x :: l' => Some (foldr Z.min x l')
  end.

Definition layer_keys (use_ltcf : bool) : list string :=
  if use_ltcf then ["H"; "S"; "W"; "C"; "LTCF"] else ["H"; "S"; "W"; "C"].

(** Lines 117-137: the record of a person as the first loop leaves it. *)
Definition new_person (use_ltcf : bool) (age sex : Z) : person :=
  Person
    (list_to_map
       ([("age", PyInt age); ("sex", PyInt sex); ("loc", PyNone)]
        ++ (if use_ltcf then [("snf_res", PyNone); ("snf_staff", PyNone)] else [])
        ++ [("hhid", PyNone); ("scid", PyNone); ("sc_student", PyNone);
            ("sc_teacher", PyNone); ("sc_staff", PyNone); ("sc_type", PyNone);
            ("sc_mixing_type", PyNone); ("wpid", PyNone); ("wpindcode", PyNone)]
        ++ (if use_ltcf then [("snfid", PyNone)] else [])))
    (list_to_map ((fun k => (k, ∅)) <$> layer_keys use_ltcf)).

(** Lines 116-137 *)
Definition create_people (use_ltcf : bool) (age_by_uid_dic : list (nat * Z))
    (sexes : list Z) : M cstate unit :=
  for_each (enumerate (dict_keys age_by_uid_dic)) (fun '(u, uid) =>
    let* age := lift_opt KeyError (dict_get uid age_by_uid_dic) in
    let* sex := lift_opt IndexError (sexes !! u) in
    modify (set_popdict <[uid := new_person use_ltcf age sex]>)).

(** Lines 159-162 and 164-167: a resident or a member of the staff is in
    contact with all the others of the facility. *)
Definition connect_to_facility (facility facility_staff : list nat) (uid : nat)
    : M cstate unit :=
  set_contacts uid "LTCF" (list_to_set facility) >>
  let* c := get_contacts uid "LTCF" in
  set_contacts uid "LTCF" (c ∪ list_to_set facility_staff) >>
  remove_contact uid "LTCF" uid.

(** Lines 141-167: one iteration of [for nf, facility in
    enumerate(facilities_by_uids)]. *)
Definition add_facility (facilities_staff_uids : list (list nat))
    (use_two_group_reduction : bool) (average_LTCF_degree : Z)
    (nf_facility : nat * list nat) : M cstate unit :=
  let '(nf, facility) := nf_facility in
  let* facility_staff := lift_opt IndexError (facilities_staff_uids !! nf) in
  for_each facility (fun u =>
    set_attr u "snf_res" (PyInt 1) >> set_attr u "snfid" (PyInt (Z.of_nat nf))) >>
  for_each facility_staff (fun u =>
    set_attr u "snf_staff" (PyInt 1) >> set_attr u "snfid" (PyInt (Z.of_nat nf))) >>
  if use_two_group_reduction then
    create_reduced_contacts_with_group_types facility facility_staff "LTCF"
      average_LTCF_degree None true
  else
    for_each facility (connect_to_facility facility facility_staff) >>
    for_each facility_staff (connect_to_facility facility facility_staff).

(** Lines 140-167: [if use_ltcf: for nf, facility in
    enumerate(facilities_by_uids)]. *)
Definition add_facilities (facilities_by_uids : option (list (list nat)))
    (facilities_staff_uids : list (list nat)) (use_two_group_reduction : bool)
    (average_LTCF_degree : Z) : M cstate unit :=
  match facilities_by_uids with
  | Some facilities =>
      for_each (enumerate facilities)
        (add_facility facilities_staff_uids use_two_group_reduction
           average_LTCF_degree)
  | None => ret tt
  end.

(** Lines 171-175: one iteration of [for nh, household in
    enumerate(homes_by_uids)]. *)
Definition add_household (nh_household : nat * list nat) : M cstate unit :=
  let '(nh, household) := nh_household in
  for_each household (fun uid =>
    set_contacts uid "H" (list_to_set household) >>
    remove_contact uid "H" uid >>
    set_attr uid "hhid" (PyInt (Z.of_nat nh))).

(** Lines 238-246: the contacts a worker draws among the others of the
    workplace, [max_W_size] of them at most. *)
Definition sample_contacts_of_worker (max_W_size : Z)
    (workplaces_by_industry_codes : option (list Z)) (nw : nat)
    (workplace : list nat) (uid : nat) : M cstate unit :=
  let* uids := lift_opt KeyError (set_remove uid (list_to_set workplace)) in
  let* uids :=
    if (max_W_size <? Z.of_nat (size uids))%Z then
      let* drawn := c_random (np_choice_noreplace (elements uids) max_W_size) in
      ret (list_to_set drawn)
    else ret uids in
  set_contacts uid "W" uids >>
  set_attr uid "wpid" (PyInt (Z.of_nat nw)) >>
  match workplaces_by_industry_codes with
  | None => ret tt
  | Some codes =>
      let* code := lift_opt IndexError (codes !! nw) in
      set_attr uid "wpindcode" (PyInt code)
  end.

(** Lines 237-246 *)
Definition sample_workplace_contacts (max_W_size : Z)
    (workplaces_by_industry_codes : option (list Z))
    (workplaces_by_uids : list (list nat)) : M cstate unit :=
  for_each (enumerate workplaces_by_uids) (fun '(nw, workplace) =>
    for_each workplace
      (sample_contacts_of_worker max_W_size workplaces_by_industry_codes nw
         workplace)).

(** Lines 250-251: one iteration of [for uid in popdict.keys()]. *)
Definition pair_contacts_of (uid : nat) : M cstate unit :=
  let* c := get_contacts uid "W" in
  for_each (elements c) (fun c => add_contact c "W" uid).

(** Lines 249-251: "add pairing contacts back in".  The dictionary is a
    finite map, which keeps no insertion order: the keys are visited in the
    order of [elements].  The contact sets that result are the same for
    every order ([pairing_loop_Ok]). *)
Definition add_pairing_contacts : M cstate unit :=
  let* pd := gets popdict in
  for_each (elements (dom pd)) pair_contacts_of.

(** Lines 253-259: without trimming a workplace is a clique. *)
Definition connect_workplaces (workplaces_by_industry_codes : option (list Z))
    (workplaces_by_uids : list (list nat)) : M cstate unit :=
  for_each (enumerate workplaces_by_uids) (fun '(nw, workplace) =>
    for_each workplace (fun uid =>
      set_contacts uid "W" (list_to_set workplace) >>
      remove_contact uid "W" uid >>
      set_attr uid "wpid" (PyInt (Z.of_nat nw)) >>
      match workplaces_by_industry_codes with
      | None => ret tt
      | Some codes =>
          let* code := lift_opt IndexError (codes !! nw) in
          set_attr uid "wpindcode" (PyInt code)
      end)).

(** Lines 232-259.  [max_contacts] is the argument as the caller gave it;
    [sc.mergedicts({'W': 20}, max_contacts)] puts the default cap under the
    keys given. *)
Definition add_workplaces (max_contacts : option (gmap string Z))
    (workplaces_by_industry_codes : option (list Z))
    (workplaces_by_uids : list (list nat)) : M cstate unit :=
  let do_trim := bool_decide (is_Some max_contacts) in
  let max_contacts : gmap string Z := default ∅ max_contacts ∪ {["W" := 20%Z]} in
  if do_trim && bool_decide (is_Some (max_contacts !! "W")) then
    let* cap := lift_opt KeyError (max_contacts !! "W") in
    let max_W_size := (cap / 2)%Z in
    sample_workplace_contacts max_W_size workplaces_by_industry_codes
      workplaces_by_uids >>
    add_pairing_contacts
  else connect_workplaces workplaces_by_industry_codes workplaces_by_uids.

Section make_contacts.

(** The functions of [schools.py] are not among the sources; they are
    parameters of the model, taken with the configuration arguments this
    call passes on to them already applied: [add_school_edges] (students,
    their ages, teachers, other staff, mixing type),
    [generate_random_contacts_across_school] (the members of the school),
    [add_contacts_from_edgelist] (edges, layer), and the table
    [school_type_by_age] merged with its defaults. *)
Variable add_school_edges :
  list nat -> list Z -> list nat -> list nat -> pyval -> M cstate unit.
Variable generate_random_contacts_across_school :
  list nat -> M rng (list (nat * nat)).
Variable add_contacts_from_edgelist : list (nat * nat) -> string -> M cstate unit.
Variable school_type_by_age : Z -> option string.

(** Lines 195-210: the contacts inside one school; returns
    [(this_school_type, this_school_mixing_type)]. *)
Definition add_school_contacts (age_by_uid_dic : list (nat * Z))
    (with_school_types : bool) (school_mixing_type_dic : gmap string string)
    (students teachers non_teaching_staff : list nat) : M cstate (pyval * pyval) :=
  if with_school_types then
    let* student_ages :=
      map_m (fun i => lift_opt KeyError (dict_get i age_by_uid_dic)) students in
    let* min_age := lift_opt ValueError (list_min student_ages) in
    let* this_school_type := lift_opt KeyError (school_type_by_age min_age) in
    let* this_school_mixing_type :=
      lift_opt KeyError (school_mixing_type_dic !! this_school_type) in
    add_school_edges students student_ages teachers non_teaching_staff
      (PyStr this_school_mixing_type) >>
    ret (PyStr this_school_type, PyStr this_school_mixing_type)
  else
    let school := (students ++ teachers ++ non_teaching_staff)%list in
    let* school_edges := c_random (generate_random_contacts_across_school school) in
    add_contacts_from_edgelist school_edges "S" >>
    ret (PyNone, PyNone).

(** Lines 212-229 *)
Definition tag_school_members (ns : nat) (role : string)
    (this_school_type this_school_mixing_type : pyval) (members : list nat)
    : M cstate unit :=
  for_each members (fun uid =>
    set_attr uid "scid" (PyInt (Z.of_nat ns)) >>
    set_attr uid role (PyInt 1) >>
    set_attr uid "sc_type" this_school_type >>
    set_attr uid "sc_mixing_type" this_school_mixing_type).

(** Lines 183-229: one iteration of [for ns, students in
    enumerate(schools_by_uids)]. *)
Definition add_school (age_by_uid_dic : list (nat * Z))
    (teachers_by_uids : list (list nat))
    (non_teaching_staff_uids : option (list (list nat)))
    (with_school_types : bool) (school_mixing_type_dic : gmap string string)
    (ns_students : nat * list nat) : M cstate unit :=
  let '(ns, students) := ns_students in
  let* teachers := lift_opt IndexError (teachers_by_uids !! ns) in
  let* non_teaching_staff :=
    match non_teaching_staff_uids with
    | None => ret []
    | Some [] => ret []
    | Some l => lift_opt IndexError (l !! ns)
    end in
  let* (this_school_type, this_school_mixing_type) :=
    add_school_contacts age_by_uid_dic with_school_types school_mixing_type_dic
      students teachers non_teaching_staff in
  tag_school_members ns "sc_student" this_school_type this_school_mixing_type
    students >>
  tag_school_members ns "sc_teacher" this_school_type this_school_mixing_type
    teachers >>
  tag_school_members ns "sc_staff" this_school_type this_school_mixing_type
    non_teaching_staff.

(** [schools_by_uids], [teachers_by_uids] and [workplaces_by_uids] are
    lists (their default [None] cannot be iterated over); the arguments that
    only the functions of [schools.py] read are inside the parameters
    above.  The value returned is [popdict]. *)
Definition make_contacts_from_microstructure_objects
    (age_by_uid_dic : list (nat * Z))
    (homes_by_uids : list (list nat))
    (schools_by_uids teachers_by_uids : list (list nat))
    (non_teaching_staff_uids : option (list (list nat)))
    (workplaces_by_uids : list (list nat))
    (facilities_by_uids : option (list (list nat)))
    (facilities_staff_uids : list (list nat))
    (use_two_group_reduction : bool) (average_LTCF_degree : Z)
    (with_school_types : bool)
    (school_mixing_type : string + gmap string string)
    (workplaces_by_industry_codes : option (list Z))
    (max_contacts : option (gmap string Z)) : M cstate (gmap nat person) :=
  modify (set_popdict (fun _ => ∅)) >>
  let school_mixing_type_dic : gmap string string :=
    match school_mixing_type with
    | inl s => list_to_map ((fun k => (k, s)) <$> ["pk"; "es"; "ms"; "hs"; "uv"])
    | inr d => d
    end in
  let use_ltcf := bool_decide (is_Some facilities_by_uids) in
  let* sexes := c_random (np_randint2 (length age_by_uid_dic)) in
  create_people use_ltcf age_by_uid_dic sexes >>
  add_facilities facilities_by_uids facilities_staff_uids use_two_group_reduction
    average_LTCF_degree >>
  for_each (enumerate homes_by_uids) add_household >>
  for_each (enumerate schools_by_uids)
    (add_school age_by_uid_dic teachers_by_uids non_teaching_staff_uids
       with_school_types school_mixing_type_dic) >>
  add_workplaces max_contacts workplaces_by_industry_codes workplaces_by_uids >>
  gets popdict.

End make_contacts.

Local Close Scope string_scope.

(** Instances of the parameters of [schools.py], used to run the model: a
    school layer in which no pair of members is drawn as a contact, and the
    edge list merged into a layer one edge after the other, as lines 376-383
    do inline. *)
Definition draw_no_school_edge
    : list nat -> list Z -> list nat -> list nat -> pyval -> M cstate unit :=
  fun _ _ _ _ _ => ret tt.

Definition draw_no_random_contact : list nat -> M rng (list (nat * nat)) :=
  fun _ => ret [].

Definition add_contacts_edge_by_edge (edgelist : list (nat * nat))
    (setting : string) : M cstate unit :=
  for_each edgelist (fun '(i, j) =>
    add_contact i setting j >> add_contact j setting i).

Definition no_school_type : Z -> option string := fun _ => None.

(** ** Predicates used in the statements about contacts *)

(** Every edge of [G] joins two different nodes below [n], the smaller one
    first. *)
Definition wf_graph (n : nat) (G : gset (nat * nat)) : Prop :=
  forall a b, (a, b) ∈ G -> a < b /\ b < n.

(** [uid] is a person of the dictionary and has a contact set for
    [layer]. *)
Definition has_layer (pd : gmap nat person) (layer : string) (uid : nat) : Prop :=
  exists p c, pd !! uid = Some p /\ contacts p !! layer = Some c.

(** Nobody is in one of their own contact sets. *)
Definition no_self_contact (pd : gmap nat person) : Prop :=
  forall uid p layer c,
    pd !! uid = Some p -> contacts p !! layer = Some c -> uid ∉ c.

(** The contact relation of [layer] is symmetric. *)
Definition symmetric_layer (pd : gmap nat person) (layer : string) : Prop :=
  forall u v, v ∈ contact_set pd layer u <-> u ∈ contact_set pd layer v.

(** The caller's [p_matrix], when there is one, passes the checks of
    [nx.stochastic_block_model]. *)
Definition p_matrix_accepted (n_1 n_2 : nat) (p_matrix : option (list (list Q)))
    : Prop :=
  match p_matrix with
  | None => True
  | Some p => sbm_accepts [n_1; n_2] p = true
  end.

(** What the loop of lines 323-326 keeps true: the nodes still in the list
    are neighbours of [i], each once. *)
Definition cut_invariant (n i : nat) (G0 : gset (nat * nat)) (len0 : nat)
    (k : nat) (locals : gset (nat * nat) * list nat) : Prop :=
  NoDup locals.2 /\ (forall j, j ∈ locals.2 -> edge i j ∈ locals.1) /\
  locals.1 ⊆ G0 /\ length locals.2 + k = len0.


(** [pd'] is [pd] after [popdict[uid]['contacts'][layer] = c]. *)
Definition write_layer (uid : nat) (layer : string) (c : gset nat)
    (pd pd' : gmap nat person) : Prop :=
  exists p, pd !! uid = Some p /\
    pd' = <[uid := Person (attrs p) (<[layer := c]> (contacts p))]> pd.

(** [pd'] is [pd] after an attribute of [uid] was assigned. *)
Definition write_attr (uid : nat) (pd pd' : gmap nat person) : Prop :=
  exists p a, pd !! uid = Some p /\ pd' = <[uid := Person a (contacts p)]> pd.

(** Every person of [pd'] was a person of [pd] with the same contact set,
    or absence of one, for [layer]. *)
Definition same_layer (layer : string) (pd pd' : gmap nat person) : Prop :=
  forall uid p', pd' !! uid = Some p' ->
    exists p, pd !! uid = Some p /\ contacts p' !! layer = contacts p !! layer.

(** What the statements ask of a function of [schools.py]: it leaves the
    layers other than the school layer as they are, and it puts nobody into
    their own contact set. *)
Definition touches_school_layer_only {A : Type} (m : M cstate A) : Prop :=
  forall s a s' layer,
    m s = (Ok a, s') -> layer <> "S"%string ->
    same_layer layer (popdict s) (popdict s').

Definition keeps_no_self_contact {A : Type} (m : M cstate A) : Prop :=
  forall s a s',
    m s = (Ok a, s') ->
    no_self_contact (popdict s) -> no_self_contact (popdict s').

(** [pd'] is [pd] after [popdict[uid]['contacts'][layer].add(v)]. *)
Definition adds_contact (uid : nat) (layer : string) (v : nat)
    (pd pd' : gmap nat person) : Prop :=
  has_layer pd layer uid /\
  write_layer uid layer ({[v]} ∪ contact_set pd layer uid) pd pd'.

(** Every uid of the list is a person of the dictionary. *)
Definition all_people (pd : gmap nat person) (uids : list nat) : Prop :=
  Forall (fun uid => is_Some (pd !! uid)) uids.

(** [pd'] has the people of [pd], each with the contact sets they have in
    [pd]: only attributes differ. *)
Definition same_contacts (pd pd' : gmap nat person) : Prop :=
  forall uid, contacts <$> pd' !! uid = contacts <$> pd !! uid.

(** What lines 238-243 leave as the contact set of [uid]: at most
    [max_W_size] people, all of them other members of a workplace of
    [uid]. *)
Definition sampled_from (workplaces_by_uids : list (list nat)) (max_W_size : Z)
    (uid : nat) (c : gset nat) : Prop :=
  (Z.of_nat (size c) <= max_W_size)%Z /\
  forall v, v ∈ c ->
    v <> uid /\ exists workplace,
      workplace ∈ workplaces_by_uids /\ uid ∈ workplace /\ v ∈ workplace.

(** Every person is as lines 117-137 create them. *)
Definition fresh_people (use_ltcf : bool) (pd : gmap nat person) : Prop :=
  forall uid p, pd !! uid = Some p -> exists age sex, p = new_person use_ltcf age sex.

(** Everybody has a community layer, and it is empty. *)
Definition community_layer_empty (pd : gmap nat person) : Prop :=
  forall uid p, pd !! uid = Some p -> contacts p !! "C"%string = Some ∅.

(** With the two-group reduction, the residents and the staff of a facility
    are listed once each. *)
Definition facility_members_distinct (use_two_group_reduction : bool)
    (facilities_by_uids : option (list (list nat)))
    (facilities_staff_uids : list (list nat)) : Prop :=
  use_two_group_reduction = true ->
  forall facilities nf facility staff,
    facilities_by_uids = Some facilities ->
    facilities !! nf = Some facility -> facilities_staff_uids !! nf = Some staff ->
    NoDup (facility ++ staff).

(** ** pop.py: [Pop]

    [Pop.__init__] stores its arguments, seeds the generator when
    [rand_seed] is given (lines 139-141) and calls [generate], which runs the
    stages of the construction one after the other on the process-wide
    generator. *)

(** The arguments of [Pop] that reach the functions of [workplaces.py] and
    [contact_networks.py]; [pop_n] stands for the ones that only the earlier
    stages read. *)
Record pop_pars : Type := PopPars {
  pop_n : Z;
  pop_max_contacts : option (gmap string Z);
  pop_use_two_group_reduction : bool;
  pop_average_LTCF_degree : Z;
  pop_with_school_types : bool;
  pop_school_mixing_type : string + gmap string string
}.

(** What the stages before the workplaces hand on (lines 201-268): the
    people and their homes, the facilities, the schools with their staff, the
    tables of workplace sizes, the pools of workers and the contact matrix of
    the workplace setting. *)
Record microstructure : Type := Microstructure {
  ms_age_by_uid_dic : list (nat * Z);
  ms_homes_by_uids : list (list nat);
  ms_facilities_by_uids : list (list nat);
  ms_school_uids : list (list nat);
  ms_teacher_uids : list (list nat);
  ms_non_teaching_staff_uids : list (list nat);
  ms_facilities_staff_uids : list (list nat);
  ms_workplace_size_distr_by_brackets : list (nat * Q);
  ms_workplace_size_brackets : list (nat * list Z);
  ms_potential_worker_uids : list (nat * nat);
  ms_potential_worker_uids_by_age : list (nat * list nat);
  ms_workers_by_age_to_assign_count : list (nat * Z);
  ms_age_brackets : list (nat * list nat);
  ms_age_by_brackets_dic : list (nat * nat);
  ms_contact_matrix_W : matrix
}.

(** Runs a function of [workplaces.py] on the pools of [ms] and the
    generator; the pools it leaves are not read again. *)
Definition on_workers {A : Type} (ms : microstructure) (m : M wstate A) : M rng A :=
  fun g =>
    let (o, s') :=
      m (WState (ms_potential_worker_uids ms) (ms_potential_worker_uids_by_age ms)
           (ms_workers_by_age_to_assign_count ms) (ms_contact_matrix_W ms) g) in
    (o, w_gen s').

(** Runs [make_contacts_from_microstructure_objects], which builds its own
    dictionary, on the generator. *)
Definition on_contacts {A : Type} (m : M cstate A) : M rng A :=
  fun g => let (o, s') := m (CState ∅ g) in (o, c_gen s').

Section Pop.

(** Modelled from the spec: [sampling.set_seed] is not among the sources.
    The spec has one process-wide pseudorandom generator, in which "a fixed
    seed must deterministically reproduce an identical network given
    identical inputs": seeding puts the generator into the state that the seed
    determines, whatever its state before.  [seeded] is that state. *)
Variable seeded : Z -> rng.

Definition set_seed (seed : Z) : M rng unit := fun _ => (Ok tt, seeded seed).

(** The stages of [generate] before the workplaces (facilities, households,
    schools, teachers, staff and the data tables) are functions of modules
    that are not among the sources: one parameter of the model, which draws
    from the generator like every other stage. *)
Variable earlier_stages : pop_pars -> M rng microstructure.

Variable fast_choice : list Q -> M rng nat.
Variable fuel : nat.
Variable add_school_edges :
  list nat -> list Z -> list nat -> list nat -> pyval -> M cstate unit.
Variable generate_random_contacts_across_school :
  list nat -> M rng (list (nat * nat)).
Variable add_contacts_from_edgelist : list (nat * nat) -> string -> M cstate unit.
Variable school_type_by_age : Z -> option string.

(** Lines 270-308 of [Pop.generate].  Returns the workplace memberships
    [syn_workplace_uids] and the population; the last loop of the method,
    which turns every contact set into a list, is left out. *)
Definition generate (pars : pop_pars) : M rng (list (list nat) * gmap nat person) :=
  let* ms := earlier_stages pars in
  let* workplace_sizes :=
    generate_workplace_sizes fuel (ms_workplace_size_distr_by_brackets ms)
      (ms_workplace_size_brackets ms) (ms_workers_by_age_to_assign_count ms) in
  let* (syn_workplaces, syn_workplace_uids) :=
    on_workers ms
      (assign_rest_of_workers fast_choice fuel (ms_age_brackets ms)
         (ms_age_by_brackets_dic ms) workplace_sizes) in
  let homes_by_uids :=
    drop (length (ms_facilities_by_uids ms)) (ms_homes_by_uids ms) in
  let* population :=
    on_contacts
      (make_contacts_from_microstructure_objects
         add_school_edges generate_random_contacts_across_school
         add_contacts_from_edgelist school_type_by_age
         (ms_age_by_uid_dic ms) homes_by_uids (ms_school_uids ms)
         (ms_teacher_uids ms) (Some (ms_non_teaching_staff_uids ms))
         syn_workplace_uids (Some (ms_facilities_by_uids ms))
         (ms_facilities_staff_uids ms) (pop_use_two_group_reduction pars)
         (pop_average_LTCF_degree pars) (pop_with_school_types pars)
         (pop_school_mixing_type pars) None
         (Some (default ∅ (pop_max_contacts pars) ∪ {["W"%string := 20%Z]}))) in
  ret (syn_workplace_uids, population).

(** [Pop(rand_seed=..., ...)], lines 139-141 and 159. *)
Definition Pop (rand_seed : option Z) (pars : pop_pars)
    : M rng (list (list nat) * gmap nat person) :=
  match rand_seed with
  | Some seed => set_seed seed
  | None => ret tt
  end >>
  generate pars.

End Pop.

(** ** workplaces.py: [get_uids_potential_workers]

    The generator is the only state; the three dictionaries the function
    builds are local until it returns them. *)

(** The keys lines 27-30 give both [potential_worker_uids_by_age] and
    [potential_worker_ages_left_count]: [a in range(101)] with [a >= 15]. *)
Definition working_ages : list nat := List.filter (fun a => 15 <=? a) (seq 0 101).

(** Lines 33-35: [for school in syn_school_uids: for uid in school:
    potential_worker_uids.pop(uid, None)]. *)
Definition remove_students (syn_school_uids : list (list nat))
    (potential_worker_uids : list (nat * nat)) : list (nat * nat) :=
  foldl (fun pw school => foldl (fun pw uid => dict_pop uid pw) pw school)
    potential_worker_uids syn_school_uids.

(** Lines 37-39: one iteration of [for uid in age_by_uid_dic]. *)
Definition remove_if_unrated {R : Type} (employment_rates : list (nat * R))
    (age_by_uid_dic : list (nat * nat)) (potential_worker_uids : list (nat * nat))
    (uid : nat) : M rng (list (nat * nat)) :=
  let* a := lift_opt KeyError (dict_get uid age_by_uid_dic) in
  if dict_get a employment_rates is Some _ then ret potential_worker_uids
  else ret (dict_pop uid potential_worker_uids).

(** Lines 41-49: one iteration of [for uid in potential_worker_uids]; the
    locals are the two dictionaries by age. *)
Definition pool_worker (potential_worker_uids : list (nat * nat))
    (locals : list (nat * list nat) * list (nat * Z)) (uid : nat)
    : M rng (list (nat * list nat) * list (nat * Z)) :=
  let '(potential_worker_uids_by_age, potential_worker_ages_left_count) := locals in
  let* ai := lift_opt KeyError (dict_get uid potential_worker_uids) in
  if bool_decide (ai ∈ dict_keys potential_worker_uids_by_age) then
    let* pool := lift_opt KeyError (dict_get ai potential_worker_uids_by_age) in
    let* c := lift_opt KeyError (dict_get ai potential_worker_ages_left_count) in
    ret (dict_set ai (pool ++ [uid]) potential_worker_uids_by_age,
         dict_set ai (c + 1)%Z potential_worker_ages_left_count)
  else ret locals.

(** Lines 52-53: one iteration of [for ai in potential_worker_uids_by_age]. *)
Definition shuffle_pool (potential_worker_uids_by_age : list (nat * list nat))
    (ai : nat) : M rng (list (nat * list nat)) :=
  let* pool := lift_opt KeyError (dict_get ai potential_worker_uids_by_age) in
  let* pool := np_shuffle pool in
  ret (dict_set ai pool potential_worker_uids_by_age).

(** Returns [(potential_worker_uids, potential_worker_uids_by_age,
    potential_worker_ages_left_count)].  Only the keys of
    [employment_rates] are read. *)
Definition get_uids_potential_workers {R : Type} (syn_school_uids : list (list nat))
    (employment_rates : list (nat * R)) (age_by_uid_dic : list (nat * nat))
    : M rng (list (nat * nat) * list (nat * list nat) * list (nat * Z)) :=
  let potential_worker_uids := age_by_uid_dic in
  let potential_worker_uids_by_age := (fun a => (a, [])) <$> working_ages in
  let potential_worker_ages_left_count := (fun a => (a, 0%Z)) <$> working_ages in
  let potential_worker_uids := remove_students syn_school_uids potential_worker_uids in
  let* potential_worker_uids :=
    fold_m (remove_if_unrated employment_rates age_by_uid_dic)
      (dict_keys age_by_uid_dic) potential_worker_uids in
  let* (potential_worker_uids_by_age, potential_worker_ages_left_count) :=
    fold_m (pool_worker potential_worker_uids) (dict_keys potential_worker_uids)
      (potential_worker_uids_by_age, potential_worker_ages_left_count) in
  let* potential_worker_uids_by_age :=
    fold_m shuffle_pool (dict_keys potential_worker_uids_by_age)
      potential_worker_uids_by_age in
  ret (potential_worker_uids, potential_worker_uids_by_age,
       potential_worker_ages_left_count).

(** ** workplaces.py: [get_workers_by_age_to_assign] *)

Section get_workers_by_age_to_assign.

(** The employment rates are floating-point numbers.  [int_of_scaled r n]
    stands for [int(r * n)]; [None] when the conversion raises (a rate that
    is not a number, an infinite product). *)
Context {R : Type}.
Variable int_of_scaled : R -> nat -> option Z.

(** Lines 108-111: the [try] block with its bare [except]. *)
Definition employed_count (employment_rates_a : R)
    (uids_by_age_dic : list (nat * list nat)) (a : nat) : Z :=
  default 0%Z
    (dict_get a uids_by_age_dic ≫= fun uids =>
     int_of_scaled employment_rates_a (length uids)).

(** Lines 106-113: one iteration of [for a in
    potential_worker_ages_left_count]. *)
Definition count_workers_of_age (employment_rates : list (nat * R))
    (potential_worker_ages_left_count : list (nat * Z))
    (uids_by_age_dic : list (nat * list nat))
    (workers_by_age_to_assign_count : list (nat * Z)) (a : nat)
    : M unit (list (nat * Z)) :=
  match dict_get a employment_rates with
  | Some r =>
      let c := employed_count r uids_by_age_dic a in
      let* left_a := lift_opt KeyError (dict_get a potential_worker_ages_left_count) in
      let number_of_people_who_can_be_assigned := Z.min c left_a in
      ret (dict_set a number_of_people_who_can_be_assigned
             workers_by_age_to_assign_count)
  | None => ret workers_by_age_to_assign_count
  end.

(** The function reads and writes nothing but its arguments: the state is
    [unit]. *)
Definition get_workers_by_age_to_assign (employment_rates : list (nat * R))
    (potential_worker_ages_left_count : list (nat * Z))
    (uids_by_age_dic : list (nat * list nat)) : M unit (list (nat * Z)) :=
  let workers_by_age_to_assign_count := (fun a => (a, 0%Z)) <$> seq 0 101 in
  fold_m
    (count_workers_of_age employment_rates potential_worker_ages_left_count
       uids_by_age_dic)
    (dict_keys potential_worker_ages_left_count) workers_by_age_to_assign_count.

End get_workers_by_age_to_assign.

(** An instance of [int_of_scaled] for rates that are exact fractions:
    [int] truncates towards zero. *)
Definition int_of_scaled_Q (r : Q) (n : nat) : option Z :=
  let x := (r * inject_Z (Z.of_nat n))%Q in
  Some (Z.quot (Qnum x) (Zpos (Qden x))).

(** [uid] is a student of one of the schools. *)
Definition is_student (syn_school_uids : list (list nat)) (uid : nat) : Prop :=
  Exists (fun school => uid ∈ school) syn_school_uids.

#[export] Instance is_student_dec syn_school_uids uid :
  Decision (is_student syn_school_uids uid).
Proof. unfold is_student. apply _. Defined.

(** The uids of the potential workers whose age is [a], in the order of the
    dictionary. *)
Definition uids_of_age (a : nat) (potential_worker_uids : list (nat * nat))
    : list nat :=
  (List.filter (fun kv => bool_decide (kv.2 = a)) potential_worker_uids).*1.

(** [by_age'] has the keys of [by_age], in its order, and under each key a
    rearrangement of the list [by_age] has there. *)
Definition pools_shuffled (by_age by_age' : list (nat * list nat)) : Prop :=
  Forall2 (fun kv kv' => kv.1 = kv'.1 /\ kv.2 ≡ₚ kv'.2) by_age by_age'.

(** What line 113 assigns for age [a]: nothing when [a] has no employment
    rate. *)
Definition assigned_count {R : Type} (int_of_scaled : R -> nat -> option Z)
    (employment_rates : list (nat * R))
    (potential_worker_ages_left_count : list (nat * Z))
    (uids_by_age_dic : list (nat * list nat)) (a : nat) : option Z :=
  r ← dict_get a employment_rates;
  left_a ← dict_get a potential_worker_ages_left_count;
  Some (Z.min (employed_count int_of_scaled r uids_by_age_dic a) left_a).

(** ** What [assign_rest_of_workers] does to its mutable arguments

    The function takes workers out of the pools in three places (lines
    167-170, 192-196 and 215-220), always in the same way: the worker is the
    head of the pool of the age chosen, and leaves that pool and
    [potential_worker_uids].  [take_from_pools] does this for a list of ages,
    one after the other, and returns the uids taken with what is left of the
    two dictionaries; it is [None] when the pool of an age is missing or
    empty. *)
Fixpoint take_from_pools (ages : list nat)
    (potential_worker_uids : list (nat * nat))
    (potential_worker_uids_by_age : list (nat * list nat))
    : option (list nat * list (nat * nat) * list (nat * list nat)) :=
  match ages with
  | [] => Some ([], potential_worker_uids, potential_worker_uids_by_age)
  | ai :: ages' =>
      match dict_get ai potential_worker_uids_by_age with
      | Some (uid :: pool) =>
          match take_from_pools ages' (dict_pop uid potential_worker_uids)
                  (dict_set ai pool potential_worker_uids_by_age) with
          | Some (uids, pw, by_age) => Some (uid :: uids, pw, by_age)
          | None => None
          end
      | _ => None
      end
  end.

(** [workers_by_age_to_assign_count[ai] -= 1] for every age of [ages] in
    turn; [None] when an age has no count. *)
Fixpoint decrement_counts (ages : list nat) (counts : list (nat * Z))
    : option (list (nat * Z)) :=
  match ages with
  | [] => Some counts
  | ai :: ages' =>
      match dict_get ai counts with
      | Some c => decrement_counts ages' (dict_set ai (c - 1)%Z counts)
      | None => None
      end
  end.

(** Between [s] and [s'] the workers [uids], of the ages [ages], were taken
    out of the pools in this order; the counts keep their keys, and when
    draws are by weight and no count was negative the count of an age went
    down by one for every worker of that age. *)
Definition workers_moved (fast_choice : list Q -> M rng nat) (s : wstate)
    (ages uids : list nat) (s' : wstate) : Prop :=
  take_from_pools ages (potential_worker_uids s) (potential_worker_uids_by_age s)
    = Some (uids, potential_worker_uids s', potential_worker_uids_by_age s') /\
  dict_keys (workers_by_age_to_assign_count s')
    = dict_keys (workers_by_age_to_assign_count s) /\
  (draws_by_weight fast_choice -> counts_nonneg s ->
     counts_nonneg s' /\
     decrement_counts ages (workers_by_age_to_assign_count s)
       = Some (workers_by_age_to_assign_count s')).

(** The uids placed with age [a], in the order of placement. *)
Definition placed_of_age (a : nat) (ages uids : list nat) : list nat :=
  (List.filter (fun p => bool_decide (p.1 = a)) (zip ages uids)).*2.

(** The number of workers placed with age [a]. *)
Definition number_placed (a : nat) (ages : list nat) : Z :=
  Z.of_nat (length (List.filter (fun a' => bool_decide (a' = a)) ages)).

(** The two tests that end the loop over the sizes before a workplace is
    started (lines 153-157). *)
Definition loop_breaks (s : wstate) : Prop :=
  Qeq_bool (Qsum (dict_values
     (norm_dic ((fun kv => (kv.1, inject_Z kv.2))
                  <$> workers_by_age_to_assign_count s)))) 0 = true \/
  Zsum ((fun v => Z.of_nat (length v))
          <$> dict_values (potential_worker_uids_by_age s)) = 0%Z.

(** ** pop.py: [Pop.generate], lines 252-260

    Between [get_workers_by_age_to_assign] and the assignment of teachers the
    residents of the facilities are taken out of the potential workers, out
    of the pools and, while a count is positive, out of the counts. *)

(** [l.remove(x)]: the list without the first occurrence of [x]; [None]
    stands for the [ValueError] of a list that does not hold [x]. *)
Fixpoint list_remove (x : nat) (l : list nat) : option (list nat) :=
  match l with
  | [] => None
  | y :: l' => if decide (y = x) then Some l' else (y ::.) <$> list_remove x l'
  end.

(** Lines 254-260: the body of [for uid in fc]. *)
Definition remove_facility_resident (age_by_uid_dic : list (nat * nat)) (uid : nat)
    : M wstate unit :=
  let* aindex := lift_opt KeyError (dict_get uid age_by_uid_dic) in
  let* potential := gets potential_worker_uids in
  if dict_get uid potential is Some _ then
    let* pools := gets potential_worker_uids_by_age in
    let* pool := lift_opt KeyError (dict_get aindex pools) in
    let* pool := lift_opt ValueError (list_remove uid pool) in
    modify (set_potential_worker_uids_by_age (dict_set aindex pool)) >>
    modify (set_potential_worker_uids (dict_pop uid)) >>
    let* c := count_of aindex in
    if (0 <? c)%Z then decrement_count aindex else ret tt
  else ret tt.

(** Lines 252-260. *)
Definition remove_facility_residents (age_by_uid_dic : list (nat * nat))
    (facilities_by_uids : list (list nat)) : M wstate unit :=
  for_each facilities_by_uids (fun fc =>
    for_each fc (remove_facility_resident age_by_uid_dic)).

(** The pools agree with [potential_worker_uids]: no key and no pooled uid is
    listed twice, and a uid pooled under an age is a potential worker of that
    age. *)
Definition pools_agree (s : wstate) : Prop :=
  NoDup (dict_keys (potential_worker_uids s)) /\
  NoDup (dict_keys (potential_worker_uids_by_age s)) /\
  NoDup (pool_uids s) /\
  forall a pool uid,
    dict_get a (potential_worker_uids_by_age s) = Some pool -> uid ∈ pool ->
    dict_get uid (potential_worker_uids s) = Some a.

(** Every pool without the uids of [removed]. *)
Definition pools_without (removed : list nat) (pools : list (nat * list nat))
    : list (nat * list nat) :=
  (fun kv => (kv.1, filter (fun uid => uid ∉ removed) kv.2)) <$> pools.

(** The counts [counts'] have the keys of [counts]; no count went up, and
    none went below zero that was not below zero before. *)
Definition counts_lowered (counts counts' : list (nat * Z)) : Prop :=
  dict_keys counts' = dict_keys counts /\
  forall a c, dict_get a counts = Some c ->
    exists c', dict_get a counts' = Some c' /\ (Z.min c 0 <= c' <= c)%Z.

(** Between [s] and [s'] the uids [removed] left the potential workers and
    the pools; each of them has an age in [age_by_uid_dic], and the ones that
    were potential workers were pooled under that age. *)
Definition residents_removed (age_by_uid_dic : list (nat * nat)) (removed : list nat)
    (s s' : wstate) : Prop :=
  potential_worker_uids s'
    = foldl (fun d uid => dict_pop uid d) (potential_worker_uids s) removed /\
  potential_worker_uids_by_age s'
    = pools_without removed (potential_worker_uids_by_age s) /\
  counts_lowered (workers_by_age_to_assign_count s) (workers_by_age_to_assign_count s') /\
  contact_matrix_W s' = contact_matrix_W s /\
  w_gen s' = w_gen s /\
  (forall uid, uid ∈ removed -> is_Some (dict_get uid age_by_uid_dic)) /\
  (forall uid, uid ∈ removed -> is_Some (dict_get uid (potential_worker_uids s)) ->
     exists a pool,
       dict_get uid age_by_uid_dic = Some a /\
       dict_get a (potential_worker_uids_by_age s) = Some pool /\ uid ∈ pool).

(** ** [create_reduced_contacts_with_group_types]: the forced cross edges *)

(** Node [i] has a neighbour among the nodes of group 2, which are the nodes
    [n_1 .. n_1 + n_2 - 1]. *)
Definition cross_linked (n_1 n_2 : nat) (G : gset (nat * nat)) (i : nat) : Prop :=
  exists j, n_1 <= j < n_1 + n_2 /\ (i, j) ∈ G.

(** ** [make_contacts_from_microstructure_objects]: groups whose members are
    all connected *)

(** [uid] is a person of [pd] whose contact set for [layer] is [c]. *)
Definition contacts_are (pd : gmap nat person) (layer : string) (uid : nat)
    (c : gset nat) : Prop :=
  exists p, pd !! uid = Some p /\ contacts p !! layer = Some c.

(** Between [pd] and [pd'] every member was given, for [layer], the contact
    set [X] without the member, and the contact sets of everybody else are as
    they were. *)
Definition connects (layer : string) (members : list nat) (X : gset nat)
    (pd pd' : gmap nat person) : Prop :=
  (forall uid, uid ∈ members -> contacts_are pd' layer uid (X ∖ {[uid]})) /\
  (forall u, u ∉ members -> contacts <$> pd' !! u = contacts <$> pd !! u).

(** ** Concrete inputs used by the examples *)

(** Two size brackets, 1-2 and 3-5 workers, the second three times as
    frequent as the first; seven workers to place. *)
Definition ex_size_distr : list (nat * Q) := [(0, 1%Q); (1, 3%Q)].

Definition ex_size_brackets : list (nat * list Z) :=
  [(0, [1; 2]%Z); (1, [3; 4; 5]%Z)].

Definition ex_counts_7 : list (nat * Z) := [(20, 4%Z); (30, 3%Z)].

Definition ex_stream : rng := [1; 2; 0; 1; 5; 1].

(** One age bracket, holding the single age 20, and the 1 x 1 matrix of
    weight one. *)
Definition ex_one_bracket : list (nat * list nat) := [(0, [20])].

Definition ex_age_to_one_bracket : list (nat * nat) := [(20, 0)].

Definition ex_matrix_one : matrix := Matrix 1 [[1%Q]].

(** Three potential workers of age 20, all three to assign. *)
Definition ex_three_workers : wstate :=
  WState [(1, 20); (2, 20); (3, 20)] [(20, [1; 2; 3])] [(20, 3%Z)]
    ex_matrix_one [].

(** Two potential workers of age 20, of whom one is to assign. *)
Definition ex_two_potential_workers : wstate :=
  WState [(1, 20); (2, 20)] [(20, [1; 2])] [(20, 1%Z)] ex_matrix_one [].

(** Five potential workers of age 20, of whom three are to assign. *)
Definition ex_five_potential_workers : wstate :=
  WState [(1, 20); (2, 20); (3, 20); (4, 20); (5, 20)] [(20, [1; 2; 3; 4; 5])]
    [(20, 3%Z)] ex_matrix_one [].

(** Two brackets, the ages 20 and 30.  The row of the first bracket carries
    no weight.  One worker of age 20 and six of age 30, all to assign. *)
Definition ex_two_brackets : list (nat * list nat) := [(0, [20]); (1, [30])].

Definition ex_age_to_two_brackets : list (nat * nat) := [(20, 0); (30, 1)].

Definition ex_zero_row_workers : wstate :=
  WState [(1, 20); (2, 30); (3, 30); (4, 30); (5, 30); (6, 30); (7, 30)]
    [(20, [1]); (30, [2; 3; 4; 5; 6; 7])] [(20, 1%Z); (30, 6%Z)]
    (Matrix 2 [[0; 0]; [0; 1]]%Q) [].

(** A population dictionary of people without attributes or contacts. *)
Definition ex_person : person := Person ∅ ∅.

Definition ex_people (uids : list nat) : gmap nat person :=
  list_to_map ((fun uid => (uid, ex_person)) <$> uids).

Definition ex_cstate (uids : list nat) (g : rng) : cstate :=
  CState (ex_people uids) g.

(** Five people in two households, one school with a student and a
    teacher, and one workplace that employs all five; no facility. *)
Definition ex_ages : list (nat * Z) :=
  [(1, 30%Z); (2, 40%Z); (3, 10%Z); (4, 50%Z); (5, 35%Z)].

Definition ex_make_contacts (max_contacts : option (gmap string Z))
    : M cstate (gmap nat person) :=
  make_contacts_from_microstructure_objects
    draw_no_school_edge draw_no_random_contact add_contacts_edge_by_edge
    no_school_type
    ex_ages [[1; 2; 3]; [4; 5]] [[3]] [[2]] None [[1; 2; 3; 4; 5]] None []
    false 20%Z false (inl "random"%string) None max_contacts.

(** What the earlier stages hand on in the examples: three people of age 20
    in one household, all three potential workers, no school and no
    facility. *)
Definition ex_microstructure : microstructure :=
  Microstructure [(1, 20%Z); (2, 20%Z); (3, 20%Z)] [[1; 2; 3]] [] [] [] [] []
    ex_size_distr ex_size_brackets
    [(1, 20); (2, 20); (3, 20)] [(20, [1; 2; 3])] [(20, 3%Z)]
    ex_one_bracket ex_age_to_one_bracket ex_matrix_one.

Definition ex_pop_pars : pop_pars :=
  PopPars 3 None true 20 false (inl "random"%string).

Definition ex_seeded (seed : Z) : rng := [Z.to_nat seed; 1; 0; 2].

Definition ex_Pop (rand_seed : option Z) : M rng (list (list nat) * gmap nat person) :=
  Pop ex_seeded (fun _ => ret ex_microstructure) fast_choice_weighted 5
    draw_no_school_edge draw_no_random_contact add_contacts_edge_by_edge
    no_school_type rand_seed ex_pop_pars.

(** Six people: uid 3 is a student, uid 4 is too young to have an
    employment rate, uid 6 has a rate but is under 15. *)
Definition ex_population_ages : list (nat * nat) :=
  [(1, 30); (2, 40); (3, 16); (4, 10); (5, 30); (6, 14)].

Definition ex_employment_rates : list (nat * Q) :=
  [(14, (1 # 2)%Q); (16, (1 # 2)%Q); (30, (1 # 2)%Q); (40, 1%Q)].

(** What [get_uids_potential_workers] returns for them on the stream
    [3; 1; 4], and the counts that [get_workers_by_age_to_assign] derives when
    the population has three people of age 30 and one of age 40. *)
Definition ex_potential_workers : list (nat * nat) :=
  [(1, 30); (2, 40); (5, 30); (6, 14)].

Definition ex_pools : list (nat * list nat) :=
  (fun a => (a, if decide (a = 30) then [5; 1]
                else if decide (a = 40) then [2] else [])) <$> seq 15 86.

Definition ex_left_count : list (nat * Z) :=
  (fun a => (a, if decide (a = 30) then 2%Z
                else if decide (a = 40) then 1%Z else 0%Z)) <$> seq 15 86.

Definition ex_uids_by_age : list (nat * list nat) := [(30, [1; 5; 7]); (40, [2])].

Definition ex_counts_to_assign : list (nat * Z) :=
  (fun a => (a, if decide (a = 30) then 1%Z
                else if decide (a = 40) then 1%Z else 0%Z)) <$> seq 0 101.

(** The potential workers of [ex_population_ages], pooled, with as many
    workers to assign as there are potential workers. *)
Definition ex_pooled_workers : wstate :=
  WState ex_potential_workers ex_pools ex_left_count (Matrix 2 [[1%Q; 1%Q]; [1%Q; 1%Q]]) [].

Definition ex_brackets_30_40 : list (nat * list nat) := [(0, [30]); (1, [40])].

Definition ex_age_to_brackets_30_40 : list (nat * nat) := [(30, 0); (40, 1)].

(** Five people: a facility with the residents 1 and 2 and 3 as its staff,
    one household, no school, one workplace; no two-group reduction. *)
Definition ex_make_contacts_ltcf : M cstate (gmap nat person) :=
  make_contacts_from_microstructure_objects
    draw_no_school_edge draw_no_random_contact add_contacts_edge_by_edge
    no_school_type
    ex_ages [[4; 5]] [] [] None [[3; 4; 5]] (Some [[1; 2]]) [[3]]
    false 20%Z false (inl "random"%string) None None.
(** ** Inversion of successful runs *)

Lemma bind_Ok {St A B : Type} (m : M St A) (k : A -> M St B) s b s2 :
  bind m k s = (Ok b, s2) ->
  exists a s1, m s = (Ok a, s1) /\ k a s1 = (Ok b, s2).
Proof.
  unfold bind. destruct (m s) as [[a | e |] s1]; intros H; try discriminate.
  exists a, s1. split; [reflexivity | exact H].
Qed.

Lemma bind_Ok_intro {St A B : Type} (m : M St A) (k : A -> M St B) s a s1 :
  m s = (Ok a, s1) -> bind m k s = k a s1.
Proof. unfold bind. intros ->. reflexivity. Qed.

Lemma lift_opt_Ok {St A : Type} (e : exn) (o : option A) (s : St) a s' :
  lift_opt e o s = (Ok a, s') -> o = Some a /\ s' = s.
Proof. destruct o; cbn; intros H; inversion H; subst; auto. Qed.

Lemma zoom_Ok {St T A : Type} (proj : St -> T) (upd : T -> St -> St) (m : M T A)
    s a s' :
  zoom proj upd m s = (Ok a, s') ->
  exists t, m (proj s) = (Ok a, t) /\ s' = upd t s.
Proof.
  unfold zoom. destruct (m (proj s)) as [o t]. intros H. inversion H; subst.
  exists t. auto.
Qed.

Ltac monad_inv :=
  repeat match goal with
  | H : bind _ _ _ = (Ok _, _) |- _ =>
      let a := fresh "a" in
      let s := fresh "s" in
      let Hm := fresh "Hm" in
      apply bind_Ok in H; destruct H as (a & s & Hm & H)
  | H : ret _ _ = (Ok _, _) |- _ => inversion H; subst; clear H
  | H : raise _ _ = (Ok _, _) |- _ => discriminate H
  | H : out_of_fuel _ = (Ok _, _) |- _ => discriminate H
  | H : get _ = (Ok _, _) |- _ => inversion H; subst; clear H
  | H : gets _ _ = (Ok _, _) |- _ => inversion H; subst; clear H
  | H : modify _ _ = (Ok _, _) |- _ => inversion H; subst; clear H
  | H : lift_opt _ _ _ = (Ok _, _) |- _ =>
      let Ho := fresh "Ho" in
      apply lift_opt_Ok in H; destruct H as [Ho ->]
  | H : zoom _ _ _ _ = (Ok _, _) |- _ =>
      let t := fresh "g" in
      let Hz := fresh "Hz" in
      apply zoom_Ok in H; destruct H as (t & Hz & ->)
  end.

(** A property of the state that every iteration keeps is kept by the loop. *)
Lemma for_each_invariant {St A : Type} (I : St -> Prop) (xs : list A)
    (body : A -> M St unit) :
  (forall x s u s', x ∈ xs -> I s -> body x s = (Ok u, s') -> I s') ->
  forall s u s', I s -> for_each xs body s = (Ok u, s') -> I s'.
Proof.
  induction xs as [| x xs IH]; intros Hbody s u s' HI Hrun; cbn in Hrun.
  - monad_inv. exact HI.
  - monad_inv. eapply IH; [| | exact Hrun].
    + intros y t v t' Hy. apply Hbody. by apply list_elem_of_further.
    + eapply Hbody; [apply list_elem_of_here | exact HI | exact Hm].
Qed.

(** The same for a loop with threaded locals: the invariant may mention
    them. *)
Lemma fold_m_invariant {St A B : Type} (I : B -> St -> Prop) (xs : list A)
    (body : B -> A -> M St B) :
  (forall x b s b' s', x ∈ xs -> I b s -> body b x s = (Ok b', s') -> I b' s') ->
  forall b s b' s', I b s -> fold_m body xs b s = (Ok b', s') -> I b' s'.
Proof.
  induction xs as [| x xs IH]; intros Hbody b s b' s' HI Hrun; cbn in Hrun.
  - monad_inv. exact HI.
  - monad_inv. eapply IH; [| | exact Hrun].
    + intros y c t c' t' Hy. apply Hbody. by apply list_elem_of_further.
    + eapply Hbody; [apply list_elem_of_here | exact HI | exact Hm].
Qed.

Lemma repeat_m_invariant {St B : Type} (I : nat -> B -> St -> Prop) (n : nat)
    (body : B -> M St B) :
  (forall k b s b' s', k < n -> I k b s -> body b s = (Ok b', s') -> I (S k) b' s') ->
  forall b s b' s', I 0 b s -> repeat_m n body b s = (Ok b', s') -> I n b' s'.
Proof.
  intros Hbody.
  assert (Hgen : forall m k b s b' s', k + m = n -> I k b s ->
            repeat_m m body b s = (Ok b', s') -> I n b' s').
  { induction m as [| m IH]; intros k b s b' s' Hk HI Hrun; cbn in Hrun.
    - assert (k = n) as <- by lia. monad_inv. exact HI.
    - monad_inv. eapply (IH (S k)); [lia | | exact Hrun].
      eapply Hbody; [lia | exact HI | exact Hm]. }
  intros b s b' s'. apply (Hgen n 0). lia.
Qed.


(** ** Loops that do return *)

Lemma for_each_total {St A : Type} (I : St -> Prop) (xs : list A)
    (body : A -> M St unit) :
  (forall x s, x ∈ xs -> I s -> exists s', body x s = (Ok tt, s') /\ I s') ->
  forall s, I s -> exists s', for_each xs body s = (Ok tt, s') /\ I s'.
Proof.
  induction xs as [| x xs IH]; intros Hbody s HI; cbn.
  - exists s. auto.
  - destruct (Hbody x s) as (s1 & Hx & HI1); [apply list_elem_of_here | exact HI |].
    rewrite (bind_Ok_intro _ _ _ _ _ Hx). apply IH; [| exact HI1].
    intros y t Hy. apply Hbody. by apply list_elem_of_further.
Qed.

Lemma fold_m_total {St A B : Type} (I : B -> St -> Prop) (xs : list A)
    (body : B -> A -> M St B) :
  (forall x b s, x ∈ xs -> I b s -> exists b' s', body b x s = (Ok b', s') /\ I b' s') ->
  forall b s, I b s -> exists b' s', fold_m body xs b s = (Ok b', s') /\ I b' s'.
Proof.
  induction xs as [| x xs IH]; intros Hbody b s HI; cbn.
  - exists b, s. auto.
  - destruct (Hbody x b s) as (b1 & s1 & Hx & HI1); [apply list_elem_of_here | exact HI |].
    rewrite (bind_Ok_intro _ _ _ _ _ Hx). apply IH; [| exact HI1].
    intros y c t Hy. apply Hbody. by apply list_elem_of_further.
Qed.

Lemma repeat_m_total {St B : Type} (I : nat -> B -> St -> Prop) (n : nat)
    (body : B -> M St B) :
  (forall k b s, k < n -> I k b s ->
     exists b' s', body b s = (Ok b', s') /\ I (S k) b' s') ->
  forall b s, I 0 b s -> exists b' s', repeat_m n body b s = (Ok b', s') /\ I n b' s'.
Proof.
  intros Hbody.
  assert (Hgen : forall m k b s, k + m = n -> I k b s ->
            exists b' s', repeat_m m body b s = (Ok b', s') /\ I n b' s').
  { induction m as [| m IH]; intros k b s Hk HI; cbn.
    - assert (k = n) as <- by lia. exists b, s. auto.
    - destruct (Hbody k b s) as (b1 & s1 & Hx & HI1); [lia | exact HI |].
      rewrite (bind_Ok_intro _ _ _ _ _ Hx). apply (IH (S k)); [lia | exact HI1]. }
  intros b s. apply (Hgen n 0). lia.
Qed.

(** A loop invariant that may mention the elements already visited. *)
Lemma for_each_steps {St A : Type} (I : list A -> St -> Prop) (xs : list A)
    (body : A -> M St unit) :
  (forall visited x s u s',
     x ∈ xs -> I visited s -> body x s = (Ok u, s') -> I (visited ++ [x]) s') ->
  forall s u s', I [] s -> for_each xs body s = (Ok u, s') -> I xs s'.
Proof.
  intros Hbody.
  assert (Hgen : forall ys visited s u s',
            (forall y, y ∈ ys -> y ∈ xs) -> I visited s ->
            for_each ys body s = (Ok u, s') -> I (visited ++ ys) s').
  { induction ys as [| y ys IH]; intros visited s u s' Hin HI Hrun; cbn in Hrun.
    - monad_inv. by rewrite app_nil_r.
    - monad_inv. rewrite (cons_middle y visited ys), app_assoc.
      eapply IH; [| | exact Hrun].
      + intros z Hz. apply Hin. by apply list_elem_of_further.
      + eapply Hbody; [apply Hin, list_elem_of_here | exact HI | exact Hm]. }
  intros s u s' HI Hrun. exact (Hgen xs [] s u s' (fun _ H => H) HI Hrun).
Qed.
(** ** Facts about dictionaries, sums and the sampling primitives *)

Section pydict_facts.
Context {V : Type}.
Implicit Types (d : list (nat * V)) (k : nat) (v : V).

Lemma dict_get_elem d k v : dict_get k d = Some v -> (k, v) ∈ d.
Proof.
  induction d as [| [k' v'] d IH]; cbn; [discriminate |].
  destruct (decide (k' = k)) as [-> | Hne].
  - intros [= ->]. apply list_elem_of_here.
  - intros H. apply list_elem_of_further. auto.
Qed.

Lemma dict_get_is_Some d k : k ∈ dict_keys d -> is_Some (dict_get k d).
Proof.
  induction d as [| [k' v'] d IH]; cbn.
  - intros H. by apply elem_of_nil in H.
  - intros H. destruct (decide (k' = k)) as [-> | Hne]; [eauto |].
    apply IH. apply elem_of_cons in H as [-> | H]; [congruence | exact H].
Qed.

Lemma dict_get_key d k v : dict_get k d = Some v -> k ∈ dict_keys d.
Proof.
  intros H. apply dict_get_elem in H.
  unfold dict_keys. apply list_elem_of_fmap. exists (k, v). auto.
Qed.

Lemma dict_keys_set_present d k v :
  is_Some (dict_get k d) -> dict_keys (dict_set k v d) = dict_keys d.
Proof.
  induction d as [| [k' v'] d IH]; cbn.
  - intros [? [=]].
  - destruct (decide (k' = k)) as [-> | Hne]; cbn; [reflexivity |].
    intros H. f_equal. apply IH, H.
Qed.

Lemma dict_get_set d k k' v :
  dict_get k' (dict_set k v d) = if decide (k = k') then Some v else dict_get k' d.
Proof.
  induction d as [| [k0 v0] d IH]; cbn.
  - destruct (decide (k = k')); reflexivity.
  - destruct (decide (k0 = k)) as [-> | Hne]; cbn.
    + destruct (decide (k = k')); reflexivity.
    + destruct (decide (k0 = k')) as [-> | Hne'].
      * destruct (decide (k = k')); [congruence | reflexivity].
      * exact IH.
Qed.
End pydict_facts.

Lemma Zsum_app (l1 l2 : list Z) : Zsum (l1 ++ l2) = (Zsum l1 + Zsum l2)%Z.
Proof. induction l1 as [| x l1 IH]; cbn; [reflexivity | rewrite IH; lia]. Qed.

Lemma Zsum_Permutation (l1 l2 : list Z) : l1 ≡ₚ l2 -> Zsum l1 = Zsum l2.
Proof. induction 1; cbn; lia. Qed.

Lemma Zsum_nonneg (l : list Z) : Forall (fun x => (0 <= x)%Z) l -> (0 <= Zsum l)%Z.
Proof. induction 1; cbn; lia. Qed.

Lemma Qsum_Permutation (l1 l2 : list Q) : l1 ≡ₚ l2 -> (Qsum l1 == Qsum l2)%Q.
Proof.
  induction 1 as [| x l1 l2 _ IH | x y l | l1 l2 l3 _ IH1 _ IH2]; cbn.
  - reflexivity.
  - rewrite IH. reflexivity.
  - ring.
  - rewrite IH1. exact IH2.
Qed.

Lemma Qsum_scale (t : Q) (l : list Q) :
  (Qsum ((fun v => v / t) <$> l) == Qsum l / t)%Q.
Proof.
  induction l as [| x l IH]; cbn.
  - unfold Qdiv. ring.
  - rewrite IH. unfold Qdiv. ring.
Qed.

Lemma Qsum_nonneg (l : list Q) : Forall (fun x => (0 <= x)%Q) l -> (0 <= Qsum l)%Q.
Proof.
  induction 1 as [| x l Hx _ IH]; cbn; [apply Qle_refl |].
  replace 0%Q with (0 + 0)%Q by reflexivity. apply Qplus_le_compat; assumption.
Qed.

Lemma Qpositive_spec (x : Q) : Qpositive x = true <-> (0 < x)%Q.
Proof.
  unfold Qpositive. rewrite negb_true_iff. split.
  - intros H. apply Qnot_le_lt. intros Hle. apply Qle_bool_iff in Hle. congruence.
  - intros H. destruct (Qle_bool x 0) eqn:E; [| reflexivity].
    apply Qle_bool_iff in E. exfalso. eapply Qlt_not_le; eauto.
Qed.

Lemma support_from_spec (p : list Q) (i k : nat) :
  k ∈ support_from i p <->
  i <= k /\ exists x, p !! (k - i) = Some x /\ Qpositive x = true.
Proof.
  revert i. induction p as [| x p IH]; intros i; cbn.
  - split; [intros H; by apply elem_of_nil in H | intros (_ & y & [=] & _)].
  - assert (Hrest : k ∈ support_from (S i) p <->
              i < k /\ exists y, (x :: p) !! (k - i) = Some y /\ Qpositive y = true).
    { rewrite IH. split.
      - intros (Hle & y & Hy & Hp). split; [lia |]. exists y. split; [| exact Hp].
        replace (k - i) with (S (k - S i)) by lia. exact Hy.
      - intros (Hlt & y & Hy & Hp). split; [lia |]. exists y. split; [| exact Hp].
        replace (k - i) with (S (k - S i)) in Hy by lia. exact Hy. }
    destruct (Qpositive x) eqn:E.
    + rewrite elem_of_cons, Hrest. split.
      * intros [-> | (Hlt & Hy)]; [| split; [lia | exact Hy]].
        split; [lia |]. exists x. rewrite Nat.sub_diag. auto.
      * intros (Hle & y & Hy & Hp). destruct (decide (k = i)) as [-> | Hne]; [by left |].
        right. split; [lia |]. eauto.
    + rewrite Hrest. split.
      * intros (Hlt & Hy). split; [lia | exact Hy].
      * intros (Hle & y & Hy & Hp). destruct (decide (k = i)) as [-> | Hne].
        -- rewrite Nat.sub_diag in Hy. cbn in Hy. congruence.
        -- split; [lia |]. eauto.
Qed.

Lemma support_lt (p : list Q) (k : nat) : k ∈ support p -> k < length p.
Proof.
  unfold support. rewrite support_from_spec. intros (_ & x & Hx & _).
  apply lookup_lt_Some in Hx. lia.
Qed.

(** Non-negative weights without support sum to zero. *)
Lemma support_nil_Qsum (p : list Q) :
  forallb (Qle_bool 0) p = true -> support p = [] -> (Qsum p == 0)%Q.
Proof.
  unfold support. generalize 0. induction p as [| x p IH]; intros i; cbn.
  - reflexivity.
  - rewrite andb_true_iff. intros [Hx Hp]. destruct (Qpositive x) eqn:E; [discriminate |].
    intros Hs. rewrite (IH _ Hp Hs). apply Qle_bool_iff in Hx.
    unfold Qpositive in E. rewrite negb_false_iff in E. apply Qle_bool_iff in E.
    rewrite Qplus_0_r. apply Qle_antisym; assumption.
Qed.

Lemma draw_Ok (g : rng) : exists r g', draw g = (Ok r, g').
Proof. destruct g; cbn; eauto. Qed.

Lemma np_choice_Ok {A : Type} (a : list A) g x g' :
  np_choice a g = (Ok x, g') -> x ∈ a.
Proof.
  destruct a as [| y a]; [discriminate |]. unfold np_choice. intros H. monad_inv.
  eapply list_elem_of_lookup_2. exact Ho.
Qed.

Lemma np_choice_total {A : Type} (a : list A) g :
  a <> [] -> exists x g', np_choice a g = (Ok x, g').
Proof.
  destruct a as [| y a]; [congruence |]. intros _. unfold np_choice.
  destruct (draw_Ok g) as (r & g' & Hd). rewrite (bind_Ok_intro _ _ _ _ _ Hd).
  destruct (lookup_lt_is_Some_2 (y :: a) (r mod length (y :: a))) as [x Hx].
  { apply Nat.mod_upper_bound. cbn. lia. }
  rewrite Hx. cbn. eauto.
Qed.

Lemma np_choice_p_Ok {A : Type} (a : list A) (p : list Q) g x g' :
  np_choice_p a p g = (Ok x, g') ->
  exists i w, a !! i = Some x /\ p !! i = Some w /\ (0 < w)%Q.
Proof.
  unfold np_choice_p.
  destruct (negb (length a =? length p)); [discriminate |].
  destruct (negb (forallb (Qle_bool 0) p)); [discriminate |].
  destruct (negb (Qeq_bool (Qsum p) 1)); [discriminate |].
  intros H. monad_inv.
  destruct (support p !! (a0 mod length (support p))) as [i |] eqn:Ei; [| discriminate].
  cbn in Ho. apply list_elem_of_lookup_2 in Ei.
  apply support_from_spec in Ei as (_ & w & Hw & Hpos).
  rewrite Nat.sub_0_r in Hw. exists i, w. split; [exact Ho |].
  split; [exact Hw |]. by apply Qpositive_spec.
Qed.

Lemma np_choice_p_total {A : Type} (a : list A) (p : list Q) g :
  length a = length p ->
  Forall (fun x => (0 <= x)%Q) p ->
  (Qsum p == 1)%Q ->
  exists x g', np_choice_p a p g = (Ok x, g').
Proof.
  intros Hlen Hnn Hsum. unfold np_choice_p.
  assert (Hfb : forallb (Qle_bool 0) p = true).
  { apply forallb_forall. intros x Hx. apply Qle_bool_iff.
    rewrite Forall_forall in Hnn. apply Hnn. by apply list_elem_of_In. }
  rewrite Hlen, Nat.eqb_refl, Hfb. cbn.
  assert (Hq : Qeq_bool (Qsum p) 1 = true) by (by apply Qeq_bool_iff).
  rewrite Hq. cbn.
  destruct (draw_Ok g) as (r & g' & Hd). rewrite (bind_Ok_intro _ _ _ _ _ Hd).
  assert (Hs : support p <> []).
  { intros Hnil. pose proof (support_nil_Qsum p Hfb Hnil) as H0.
    rewrite H0 in Hsum. discriminate Hsum. }
  destruct (lookup_lt_is_Some_2 (support p) (r mod length (support p))) as [i Hi].
  { apply Nat.mod_upper_bound. destruct (support p); [congruence | cbn; lia]. }
  rewrite Hi. cbn. pose proof (list_elem_of_lookup_2 _ _ _ Hi) as Hin.
  apply support_lt in Hin.
  destruct (lookup_lt_is_Some_2 a i) as [x Hx]; [lia |].
  rewrite Hx. cbn. eauto.
Qed.

Lemma sample_without_replacement_Ok {A : Type} (k : nat) (pool : list A) g out g' :
  sample_without_replacement k pool g = (Ok out, g') ->
  length out = k /\ exists rest, pool ≡ₚ out ++ rest.
Proof.
  revert pool g out g'. induction k as [| k IH]; intros pool g out g' H; cbn in H.
  - monad_inv. split; [reflexivity |]. exists pool. reflexivity.
  - monad_inv. apply IH in Hm1 as (Hlen & rest & Hperm). split; [cbn; lia |].
    exists rest. cbn. rewrite <- Hperm. by apply delete_Permutation.
Qed.

Lemma sample_without_replacement_total {A : Type} (k : nat) (pool : list A) g :
  k <= length pool ->
  exists out g', sample_without_replacement k pool g = (Ok out, g').
Proof.
  revert pool g. induction k as [| k IH]; intros pool g Hk; cbn.
  - eauto.
  - destruct (draw_Ok g) as (r & g1 & Hd). rewrite (bind_Ok_intro _ _ _ _ _ Hd).
    destruct (lookup_lt_is_Some_2 pool (r mod length pool)) as [x Hx].
    { apply Nat.mod_upper_bound. lia. }
    rewrite Hx. cbn.
    destruct (IH (delete (r mod length pool) pool) g1) as (out & g2 & Hrun).
    { rewrite length_delete by eauto. lia. }
    rewrite (bind_Ok_intro _ _ _ _ _ Hrun). cbn. eauto.
Qed.

Lemma np_shuffle_Ok {A : Type} (l : list A) g out g' :
  np_shuffle l g = (Ok out, g') -> out ≡ₚ l.
Proof.
  intros H. apply sample_without_replacement_Ok in H as (Hlen & rest & Hperm).
  assert (rest = []) as ->.
  { apply Permutation_length in Hperm. rewrite length_app in Hperm.
    destruct rest; [reflexivity | cbn in Hperm; lia]. }
  rewrite app_nil_r in Hperm. by symmetry.
Qed.

Lemma np_shuffle_total {A : Type} (l : list A) g :
  exists out g', np_shuffle l g = (Ok out, g').
Proof. apply sample_without_replacement_total. lia. Qed.

(** ** [generate_workplace_sizes] *)

Lemma map_m_lookup_Ok {St A B : Type} (e : exn) (f : A -> option B)
    (xs : list A) (s : St) ys s' :
  map_m (fun x => lift_opt e (f x)) xs s = (Ok ys, s') ->
  ys = omap f xs /\ length ys = length xs /\ s' = s.
Proof.
  revert s ys s'. induction xs as [| x xs IH]; intros s ys s' H; cbn in H.
  - monad_inv. auto.
  - monad_inv. apply IH in Hm0 as (-> & Hlen & ->). cbn. rewrite Ho.
    repeat split. cbn. lia.
Qed.

Lemma map_m_lookup_total {St A B : Type} (e : exn) (f : A -> option B)
    (xs : list A) (s : St) :
  Forall (fun x => is_Some (f x)) xs ->
  map_m (fun x => lift_opt e (f x)) xs s = (Ok (omap f xs), s).
Proof.
  induction 1 as [| x xs [y Hy] _ IH]; [reflexivity |].
  change (map_m (fun x => lift_opt e (f x)) (x :: xs) s)
    with (bind (lift_opt e (f x)) (fun y => bind (map_m (fun x => lift_opt e (f x)) xs)
            (fun ys => ret (y :: ys))) s).
  unfold bind. rewrite Hy. cbn. rewrite IH, Hy. reflexivity.
Qed.

Lemma dict_get_fmap_value {V W : Type} (f : V -> W) (d : list (nat * V)) (k : nat) :
  dict_get k ((fun kv => (kv.1, f kv.2)) <$> d) = f <$> dict_get k d.
Proof.
  induction d as [| [k' v] d IH]; cbn; [reflexivity |].
  destruct (decide (k' = k)); [reflexivity | exact IH].
Qed.

Lemma dict_keys_fmap_value {V W : Type} (f : V -> W) (d : list (nat * V)) :
  dict_keys ((fun kv => (kv.1, f kv.2)) <$> d) = dict_keys d.
Proof.
  unfold dict_keys. rewrite <- list_fmap_compose. reflexivity.
Qed.

Lemma dict_self_values_fmap_value {V W : Type} (f : V -> W) (d : list (nat * V)) :
  dict_self_values ((fun kv => (kv.1, f kv.2)) <$> d) = f <$> dict_self_values d.
Proof.
  unfold dict_self_values. rewrite dict_keys_fmap_value.
  rewrite list_fmap_omap. apply list_omap_ext.
  induction (dict_keys d) as [| k ks IH]; constructor; [| exact IH].
  rewrite dict_get_fmap_value. destruct (dict_get k d); by constructor.
Qed.

Lemma dict_self_values_length {V : Type} (d : list (nat * V)) :
  length (dict_self_values d) = length d.
Proof.
  unfold dict_self_values.
  assert (H : forall ks, Forall (fun k => is_Some (dict_get k d)) ks ->
            length (omap (fun a => dict_get a d) ks) = length ks).
  { induction 1 as [| k ks [v Hv] _ IH]; cbn; [reflexivity |].
    rewrite Hv. cbn. lia. }
  rewrite H; [unfold dict_keys; by rewrite length_fmap |].
  apply Forall_forall. intros k Hk. by apply dict_get_is_Some.
Qed.

(** What the sampling loop returns: the sizes it drew, the head count that
    was left (never positive), and a last draw that was taken while some
    head count was still left. *)
Lemma draw_workplace_sizes_Ok fuel sorted prob brackets nworkers sizes g
    nworkers' sizes' g' :
  draw_workplace_sizes fuel sorted prob brackets nworkers sizes g
    = (Ok (nworkers', sizes'), g') ->
  exists drawn,
    sizes' = sizes ++ drawn /\
    nworkers' = (nworkers - Zsum drawn)%Z /\
    (nworkers' <= 0)%Z /\
    ((nworkers <= 0)%Z -> drawn = []) /\
    (drawn = [] \/ exists pre l, drawn = pre ++ [l] /\ (0 < nworkers' + l)%Z).
Proof.
  revert nworkers sizes g. induction fuel as [| fuel IH]; intros nworkers sizes g H;
    cbn in H; destruct (0 <? nworkers)%Z eqn:Epos.
  - discriminate H.
  - monad_inv. exists []. rewrite app_nil_r. cbn.
    repeat split; [lia | lia | by left].
  - monad_inv. apply IH in H as (drawn & -> & -> & Hle & _ & Hlast).
    exists (a1 :: drawn). rewrite <- app_assoc. cbn.
    repeat split; [lia | lia | lia |]. right.
    destruct Hlast as [-> | (pre & l & -> & Hl)].
    + exists [], a1. cbn. split; [reflexivity |]. cbn in *. lia.
    + exists (a1 :: pre), l. split; [reflexivity | exact Hl].
  - monad_inv. exists []. rewrite app_nil_r. cbn.
    repeat split; [lia | lia | by left].
Qed.

(** With a usable table and enough fuel the loop does return. *)
Lemma draw_workplace_sizes_total fuel sorted prob brackets nworkers sizes g :
  length sorted = length prob ->
  Forall (fun x => (0 <= x)%Q) prob ->
  (Qsum prob == 1)%Q ->
  Forall (fun b => exists l, dict_get b brackets = Some l /\ l <> [] /\
                             Forall (fun x => (1 <= x)%Z) l) sorted ->
  (nworkers <= Z.of_nat fuel)%Z ->
  exists nworkers' sizes' g',
    draw_workplace_sizes fuel sorted prob brackets nworkers sizes g
      = (Ok (nworkers', sizes'), g').
Proof.
  intros Hlen Hnn Hsum Hbr. revert nworkers sizes g.
  induction fuel as [| fuel IH]; intros nworkers sizes g Hfuel;
    cbn [draw_workplace_sizes]; destruct (0 <? nworkers)%Z eqn:Epos;
    try (unfold ret; by eauto).
  - apply Z.ltb_lt in Epos. lia.
  - destruct (np_choice_p_total sorted prob g Hlen Hnn Hsum) as (b & g1 & Hb).
    rewrite (bind_Ok_intro _ _ _ _ _ Hb).
    pose proof (np_choice_p_Ok _ _ _ _ _ Hb) as (i & w & Hi & _).
    apply list_elem_of_lookup_2 in Hi.
    rewrite Forall_forall in Hbr. destruct (Hbr b Hi) as (l & Hl & Hne & Hpos).
    rewrite (bind_Ok_intro _ _ _ l g1) by (by rewrite Hl).
    destruct (np_choice_total l g1 Hne) as (x & g2 & Hx).
    rewrite (bind_Ok_intro _ _ _ _ _ Hx).
    apply np_choice_Ok in Hx. rewrite Forall_forall in Hpos. specialize (Hpos x Hx).
    apply IH. lia.
Qed.

Lemma correct_last_snoc (pre : list Z) (l n : Z) :
  correct_last (pre ++ [l]) n = Some (pre ++ [(l + n)%Z]).
Proof.
  unfold correct_last. rewrite reverse_snoc, reverse_involutive. reflexivity.
Qed.

(** Whatever the tables are: a list that [generate_workplace_sizes] returns
    sums to the head count, and it is the list of the sizes drawn, in some
    order, with the last draw alone reduced by the overshoot. *)
Lemma generate_workplace_sizes_Ok fuel distr brackets counts g out g' :
  generate_workplace_sizes fuel distr brackets counts g = (Ok out, g') ->
  let N := Zsum (dict_self_values counts) in
  let sorted := merge_sort Nat.le (dict_keys brackets) in
  let prob := omap (fun b => dict_get b (norm_dic distr)) sorted in
  exists drawn g1,
    draw_workplace_sizes fuel sorted prob brackets N [] g
      = (Ok ((N - Zsum drawn)%Z, drawn), g1) /\
    Zsum out = N /\
    (N = 0%Z -> out = []) /\
    ((Zsum drawn <= N)%Z -> out ≡ₚ drawn) /\
    ((N < Zsum drawn)%Z ->
       exists pre l, drawn = pre ++ [l] /\
         out ≡ₚ pre ++ [(l - (Zsum drawn - N))%Z] /\
         (0 < l - (Zsum drawn - N))%Z).
Proof.
  intros H N sorted prob. unfold generate_workplace_sizes in H.
  fold N sorted in H. monad_inv.
  apply map_m_lookup_Ok in Hm as (-> & _ & ->). fold prob in Hm0.
  destruct a0 as [nworkers' sizes'].
  pose proof (draw_workplace_sizes_Ok _ _ _ _ _ _ _ _ _ _ Hm0)
    as (drawn & Hs & Hn & Hle & Hnil & Hlast).
  cbn in Hs. subst sizes'. exists drawn, s0. split; [by rewrite <- Hn |].
  cbv beta iota in H. fold N in Hnil. clear Hm0.
  destruct (nworkers' <? 0)%Z eqn:Eneg; monad_inv; apply np_shuffle_Ok in H.
  - apply Z.ltb_lt in Eneg.
    destruct Hlast as [Hd | (pre & l & Hd & Hl)]; rewrite Hd in *;
      [cbn in Ho; discriminate |].
    rewrite correct_last_snoc in Ho. injection Ho as <-.
    rewrite Zsum_app in *. cbn in *.
    split; [rewrite (Zsum_Permutation _ _ H), Zsum_app; cbn; lia |].
    split; [intros HN; destruct pre; by (discriminate Hnil; lia) |].
    split; [intros Hsum; lia |].
    intros _. exists pre, l. split; [reflexivity |].
    replace (l - (Zsum pre + (l + 0) - N))%Z with (l + nworkers')%Z by lia.
    split; [exact H | lia].
  - apply Z.ltb_ge in Eneg.
    split; [rewrite (Zsum_Permutation _ _ H); lia |].
    split.
    + intros HN. rewrite Hnil in H by lia.
      apply Permutation_nil_r in H. by symmetry.
    + split; [intros _; exact H | intros Hlt; lia].
Qed.
Lemma norm_dic_keys (d : list (nat * Q)) : dict_keys (norm_dic d) = dict_keys d.
Proof.
  unfold norm_dic. destruct (Qeq_bool _ _); [reflexivity |].
  apply (dict_keys_fmap_value (fun v => (v / Qsum (dict_self_values d))%Q)).
Qed.

Lemma norm_dic_self_values (d : list (nat * Q)) :
  Qeq_bool (Qsum (dict_self_values d)) 0 = false ->
  dict_self_values (norm_dic d)
    = (fun v => (v / Qsum (dict_self_values d))%Q) <$> dict_self_values d.
Proof.
  intros E. unfold norm_dic. rewrite E.
  apply (dict_self_values_fmap_value (fun v => (v / Qsum (dict_self_values d))%Q)).
Qed.

(** The probabilities handed to [np.random.choice] are a distribution when
    the table of counts has the brackets' keys, no negative count and a
    positive total. *)
Lemma norm_dic_distribution (distr : list (nat * Q)) (ks : list nat) :
  ks ≡ₚ dict_keys distr ->
  Forall (fun v => (0 <= v)%Q) (dict_self_values distr) ->
  (0 < Qsum (dict_self_values distr))%Q ->
  let prob := omap (fun b => dict_get b (norm_dic distr)) ks in
  length ks = length prob /\
  Forall (fun x => (0 <= x)%Q) prob /\
  (Qsum prob == 1)%Q.
Proof.
  intros Hks Hnn Hpos prob.
  assert (E : Qeq_bool (Qsum (dict_self_values distr)) 0 = false).
  { destruct (Qeq_bool _ _) eqn:E; [| reflexivity]. apply Qeq_bool_iff in E.
    rewrite E in Hpos. by apply Qlt_irrefl in Hpos. }
  assert (Hp : prob ≡ₚ (fun v => (v / Qsum (dict_self_values distr))%Q)
                         <$> dict_self_values distr).
  { rewrite <- (norm_dic_self_values _ E). unfold prob, dict_self_values.
    rewrite norm_dic_keys. by rewrite Hks. }
  split; [| split].
  - rewrite (Permutation_length Hp), length_fmap, dict_self_values_length.
    rewrite (Permutation_length Hks). unfold dict_keys. by rewrite length_fmap.
  - rewrite Hp. apply Forall_fmap. eapply Forall_impl; [exact Hnn |].
    intros v Hv. cbn. apply Qle_shift_div_l; [exact Hpos |].
    by rewrite Qmult_0_l.
  - rewrite (Qsum_Permutation _ _ Hp), Qsum_scale. unfold Qdiv.
    apply Qmult_inv_r. intros H0. rewrite H0 in Hpos. by apply Qlt_irrefl in Hpos.
Qed.

(** C3.  For a head count N >= 0 read off the table of workers to assign, a
    table of bracket counts with the brackets' keys, no negative entry and a
    positive total, brackets whose sizes are all at least one, and fuel for N
    iterations: [generate_workplace_sizes] returns a list that sums to N
    exactly; it is the list of the sizes it drew, shuffled, in which only the
    last draw was reduced (by the overshoot, and to a size that is still
    positive); and for N = 0 it is the empty list. *)
Theorem generate_workplace_sizes_sum fuel distr brackets counts g :
  let N := Zsum (dict_self_values counts) in
  let sorted := merge_sort Nat.le (dict_keys brackets) in
  let prob := omap (fun b => dict_get b (norm_dic distr)) sorted in
  (0 <= N)%Z ->
  Z.to_nat N <= fuel ->
  dict_keys brackets ≡ₚ dict_keys distr ->
  Forall (fun v => (0 <= v)%Q) (dict_self_values distr) ->
  (0 < Qsum (dict_self_values distr))%Q ->
  Forall (fun kv => kv.2 <> [] /\ Forall (fun x => (1 <= x)%Z) kv.2) brackets ->
  exists out g' drawn g1,
    generate_workplace_sizes fuel distr brackets counts g = (Ok out, g') /\
    draw_workplace_sizes fuel sorted prob brackets N [] g
      = (Ok ((N - Zsum drawn)%Z, drawn), g1) /\
    Zsum out = N /\
    (N = 0%Z -> out = []) /\
    ((Zsum drawn <= N)%Z -> out ≡ₚ drawn) /\
    ((N < Zsum drawn)%Z ->
       exists pre l, drawn = pre ++ [l] /\
         out ≡ₚ pre ++ [(l - (Zsum drawn - N))%Z] /\
         (0 < l - (Zsum drawn - N))%Z).
Proof.
  intros N sorted prob HN Hfuel Hkeys Hnn Hpos Hbr.
  assert (Hsorted : sorted ≡ₚ dict_keys distr).
  { unfold sorted. by rewrite merge_sort_Permutation. }
  destruct (norm_dic_distribution distr sorted Hsorted Hnn Hpos) as (Hlen & Hpnn & Hsum).
  fold prob in Hlen, Hpnn, Hsum.
  assert (Hsome : Forall (fun b => is_Some (dict_get b (norm_dic distr))) sorted).
  { apply Forall_forall. intros b Hb. apply dict_get_is_Some.
    rewrite norm_dic_keys. by rewrite <- Hsorted. }
  assert (Hsizes : Forall (fun b => exists l, dict_get b brackets = Some l /\ l <> [] /\
                             Forall (fun x => (1 <= x)%Z) l) sorted).
  { apply Forall_forall. intros b Hb.
    destruct (dict_get_is_Some brackets b) as [l Hl].
    { unfold sorted in Hb. by rewrite merge_sort_Permutation in Hb. }
    exists l. split; [exact Hl |]. apply dict_get_elem in Hl.
    rewrite Forall_forall in Hbr. apply (Hbr _ Hl). }
  destruct (draw_workplace_sizes_total fuel sorted prob brackets N [] g
              Hlen Hpnn Hsum Hsizes) as (nworkers' & sizes' & g1 & Hloop); [lia |].
  pose proof (draw_workplace_sizes_Ok _ _ _ _ _ _ _ _ _ _ Hloop)
    as (drawn & Hs & Hn & Hle & Hnil & Hlast).
  cbn in Hs. subst sizes'.
  assert (Hfix : exists sizes,
            (if (nworkers' <? 0)%Z
             then lift_opt IndexError (correct_last drawn nworkers')
             else ret drawn) g1 = (Ok sizes, g1)).
  { destruct (nworkers' <? 0)%Z eqn:Eneg; [| by eexists].
    apply Z.ltb_lt in Eneg.
    destruct Hlast as [Hd | (pre & l & Hd & Hl)]; rewrite Hd in *.
    - cbn in Hn. lia.
    - rewrite correct_last_snoc. by eexists. }
  destruct Hfix as (sizes & Hfix).
  destruct (np_shuffle_total sizes g1) as (out & g' & Hshuffle).
  assert (Hrun : generate_workplace_sizes fuel distr brackets counts g = (Ok out, g')).
  { unfold generate_workplace_sizes. fold N sorted.
    rewrite (bind_Ok_intro _ _ _ _ _ (map_m_lookup_total KeyError _ sorted g Hsome)).
    fold prob. rewrite (bind_Ok_intro _ _ _ _ _ Hloop). cbv beta iota.
    rewrite (bind_Ok_intro _ _ _ _ _ Hfix). exact Hshuffle. }
  exists out, g'.
  destruct (generate_workplace_sizes_Ok _ _ _ _ _ _ _ Hrun) as (drawn' & g1' & H).
  exists drawn', g1'. split; [exact Hrun | exact H].
Qed.
Lemma generate_workplace_sizes_sum_witness :
  exists out g',
    generate_workplace_sizes 7 ex_size_distr ex_size_brackets ex_counts_7 ex_stream
      = (Ok out, g') /\
    Zsum out = 7%Z.
Proof.
  destruct (generate_workplace_sizes_sum 7 ex_size_distr ex_size_brackets
              ex_counts_7 ex_stream)
    as (out & g' & drawn & g1 & Hrun & _ & Hsum & _).
  - vm_compute. discriminate.
  - vm_compute. lia.
  - reflexivity.
  - repeat constructor; vm_compute; discriminate.
  - reflexivity.
  - repeat constructor; try discriminate; vm_compute; discriminate.
  - exists out, g'. split; [exact Hrun | exact Hsum].
Defined.
(** ** [assign_rest_of_workers]: what each step does to the state *)

Lemma count_of_Ok a s c s' :
  count_of a s = (Ok c, s') ->
  s' = s /\ dict_get a (workers_by_age_to_assign_count s) = Some c.
Proof. unfold count_of. intros H. monad_inv. auto. Qed.

Lemma decrement_count_Ok a s u s' :
  decrement_count a s = (Ok u, s') ->
  exists c, dict_get a (workers_by_age_to_assign_count s) = Some c /\
    s' = set_workers_by_age_to_assign_count (dict_set a (c - 1)%Z) s.
Proof.
  unfold decrement_count. intros H. monad_inv.
  apply count_of_Ok in Hm as [-> Hc]. eauto.
Qed.

Lemma take_first_worker_Ok a s uid s' :
  take_first_worker a s = (Ok uid, s') ->
  exists pool, dict_get a (potential_worker_uids_by_age s) = Some (uid :: pool) /\
    s' = set_potential_worker_uids (dict_pop uid)
           (set_potential_worker_uids_by_age (dict_set a pool) s).
Proof.
  unfold take_first_worker. intros H. monad_inv.
  match goal with Hh : head ?l = Some _ |- _ =>
    destruct l as [| u pool]; [discriminate Hh |]; cbn in Hh; injection Hh as ->
  end.
  exists pool. split; [assumption | reflexivity].
Qed.

Lemma w_random_Ok {A : Type} (m : M rng A) s x s' :
  w_random m s = (Ok x, s') ->
  exists g', m (w_gen s) = (Ok x, g') /\ s' = set_w_gen g' s.
Proof. unfold w_random. intros H. monad_inv. eauto. Qed.

Lemma map_m_pure {St A B : Type} (f : A -> M St B) (xs : list A) :
  (forall x s y s', f x s = (Ok y, s') -> s' = s) ->
  forall s ys s', map_m f xs s = (Ok ys, s') -> s' = s /\ length ys = length xs.
Proof.
  intros Hf. induction xs as [| x xs IH]; intros s ys s' H; cbn in H; monad_inv.
  - auto.
  - apply Hf in Hm as ->. apply IH in Hm0 as [-> Hlen]. cbn. auto.
Qed.

Lemma map_m_count_of_Ok (ages : list nat) s cs s' :
  map_m count_of ages s = (Ok cs, s') ->
  s' = s /\
  Forall2 (fun a c => dict_get a (workers_by_age_to_assign_count s) = Some c) ages cs.
Proof.
  revert cs s'. induction ages as [| a ages IH]; intros cs s' H; cbn in H; monad_inv.
  - auto.
  - apply count_of_Ok in Hm as [-> Hc]. apply IH in Hm0 as [-> Hall].
    split; [reflexivity |]. by constructor.
Qed.

Lemma workers_in_bracket_Ok age_brackets b s cs s' :
  workers_in_bracket age_brackets b s = (Ok cs, s') ->
  s' = s /\ exists ages, dict_get b age_brackets = Some ages /\
    Forall2 (fun a c => dict_get a (workers_by_age_to_assign_count s) = Some c) ages cs.
Proof.
  unfold workers_in_bracket. intros H. monad_inv.
  apply map_m_count_of_Ok in H as [-> Hall]. eauto.
Qed.

Lemma count_if_pool_not_empty_Ok a s cs s' :
  count_if_pool_not_empty a s = (Ok cs, s') ->
  s' = s /\
  Forall (fun c => dict_get a (workers_by_age_to_assign_count s) = Some c) cs.
Proof.
  unfold count_if_pool_not_empty. intros H. monad_inv.
  match goal with H : (if ?c then _ else _) _ = _ |- _ => destruct c end; monad_inv.
  - match goal with H : count_of _ _ = _ |- _ => apply count_of_Ok in H as [-> Hc] end.
    split; [reflexivity | by repeat constructor].
  - split; [reflexivity | constructor].
Qed.

Lemma workers_left_in_bracket_Ok age_brackets b s cs s' :
  workers_left_in_bracket age_brackets b s = (Ok cs, s') ->
  s' = s /\ exists ages, dict_get b age_brackets = Some ages /\
    Forall (fun c => exists a, a ∈ ages /\
              dict_get a (workers_by_age_to_assign_count s) = Some c) cs.
Proof.
  unfold workers_left_in_bracket. intros H. monad_inv.
  assert (Hgen : forall ages picked s1 s2,
            map_m count_if_pool_not_empty ages s1 = (Ok picked, s2) ->
            s2 = s1 /\
            Forall (fun c => exists a, a ∈ ages /\
              dict_get a (workers_by_age_to_assign_count s1) = Some c) (concat picked)).
  { clear. induction ages as [| a ages IH]; intros picked s1 s2 H; cbn in H; monad_inv.
    - split; [reflexivity | constructor].
    - match goal with H : count_if_pool_not_empty _ _ = _ |- _ =>
        apply count_if_pool_not_empty_Ok in H as [-> Ha] end.
      match goal with H : map_m _ _ _ = _ |- _ => apply IH in H as [-> Hrest] end.
      split; [reflexivity |]. cbn.
      apply Forall_app. split.
      + eapply Forall_impl; [exact Ha |]. intros c Hc. exists a.
        split; [apply list_elem_of_here | exact Hc].
      + eapply Forall_impl; [exact Hrest |]. intros c (a' & Ha' & Hc). exists a'.
        split; [by apply list_elem_of_further | exact Hc]. }
  match goal with H : map_m _ _ _ = _ |- _ => apply Hgen in H as [-> Hall] end.
  eauto.
Qed.
Lemma same_but_gen_refl s : same_but_gen s s.
Proof. by repeat split. Qed.

Lemma same_but_gen_trans s1 s2 s3 :
  same_but_gen s1 s2 -> same_but_gen s2 s3 -> same_but_gen s1 s3.
Proof.
  intros (H1 & H2 & H3 & H4) (K1 & K2 & K3 & K4).
  repeat split; congruence.
Qed.

Lemma w_random_same {A : Type} (m : M rng A) s x s' :
  w_random m s = (Ok x, s') -> same_but_gen s s'.
Proof. intros H. apply w_random_Ok in H as (g' & _ & ->). by repeat split. Qed.

Lemma Zsum_pos_Exists (cs : list Z) :
  Forall (fun c => (0 <= c)%Z) cs -> Zsum cs <> 0%Z -> Exists (fun c => (0 < c)%Z) cs.
Proof.
  induction 1 as [| c cs Hc _ IH]; cbn; [congruence |].
  intros Hne. destruct (decide (c = 0%Z)) as [-> | Hc0].
  - apply Exists_cons_tl, IH. lia.
  - apply Exists_cons_hd. lia.
Qed.

Lemma dict_set_Forall {V : Type} (P : nat * V -> Prop) (d : list (nat * V)) k v :
  Forall P d -> P (k, v) -> Forall P (dict_set k v d).
Proof.
  intros Hd Hkv. induction Hd as [| [k' v'] d Hx Hd IH]; cbn.
  - by repeat constructor.
  - destruct (decide (k' = k)) as [-> | Hne]; constructor; auto.
Qed.

Lemma dict_values_set_Permutation {A : Type} (d : list (nat * list A)) k x pool :
  dict_get k d = Some (x :: pool) ->
  concat (dict_values d) ≡ₚ x :: concat (dict_values (dict_set k pool d)).
Proof.
  induction d as [| [k' v'] d IH]; cbn; [discriminate |].
  destruct (decide (k' = k)) as [-> | Hne].
  - intros [= ->]. reflexivity.
  - intros H. cbn. rewrite (IH H). by rewrite Permutation_middle.
Qed.

Lemma placed_one_pool s s' ai uid c :
  placed_one s s' ai uid c -> pool_uids s ≡ₚ uid :: pool_uids s'.
Proof.
  intros (pool & Hpool & _ & _ & Hp & _). unfold pool_uids. rewrite Hp.
  by apply dict_values_set_Permutation.
Qed.

Lemma placed_one_nonneg s s' ai uid c :
  placed_one s s' ai uid c -> (0 < c)%Z -> counts_nonneg s -> counts_nonneg s'.
Proof.
  intros (pool & _ & _ & _ & _ & Hc) Hpos Hnn. unfold counts_nonneg. rewrite Hc.
  apply dict_set_Forall; [exact Hnn | cbn; lia].
Qed.

Lemma placed_none_pool s s' : placed_none s s' -> pool_uids s' = pool_uids s.
Proof. intros (_ & Hp & _). unfold pool_uids. by rewrite Hp. Qed.

Lemma placed_none_nonneg s s' : placed_none s s' -> counts_nonneg s -> counts_nonneg s'.
Proof. intros (_ & _ & Hc). unfold counts_nonneg. by rewrite Hc. Qed.

(** [take_first_worker] followed by [decrement_count]. *)
Lemma take_and_decrement_Ok ai s uid s1 u s' :
  take_first_worker ai s = (Ok uid, s1) ->
  decrement_count ai s1 = (Ok u, s') ->
  exists c, placed_one s s' ai uid c /\ contact_matrix_W s' = contact_matrix_W s.
Proof.
  intros Ht Hd. apply take_first_worker_Ok in Ht as (pool & Hpool & ->).
  apply decrement_count_Ok in Hd as (c & Hc & ->). cbn in Hc.
  exists c. split; [| reflexivity]. exists pool. by repeat split.
Qed.

Lemma resample_bracket_Ok fast_choice age_brackets n lbp bi wl s bi' s' :
  resample_bracket fast_choice age_brackets n lbp bi wl s = (Ok bi', s') ->
  left_in_bracket age_brackets s bi wl ->
  same_but_gen s s' /\
  exists wl', left_in_bracket age_brackets s bi' wl' /\ Zsum wl' <> 0%Z.
Proof.
  revert lbp bi wl s. induction n as [| n IH]; intros lbp bi wl s H Hwl;
    cbn in H; destruct (Zsum wl =? 0)%Z eqn:E; try discriminate H.
  - monad_inv. split; [apply same_but_gen_refl |]. exists wl.
    split; [exact Hwl |]. by apply Z.eqb_neq.
  - destruct (length lbp <=? bi); [discriminate H |]. monad_inv.
    match goal with H : w_random _ _ = _ |- _ => apply w_random_same in H as Hsame end.
    match goal with H : workers_left_in_bracket _ _ _ = _ |- _ =>
      apply workers_left_in_bracket_Ok in H as [-> Hleft] end.
    match goal with H : resample_bracket _ _ _ _ _ _ _ = _ |- _ =>
      apply IH in H as (Hsame' & wl' & Hwl' & Hne) end.
    + split; [eapply same_but_gen_trans; eassumption |].
      exists wl'. split; [| exact Hne].
      destruct Hwl' as (ages & Hages & Hall). exists ages. split; [exact Hages |].
      destruct Hsame as (_ & _ & <- & _). exact Hall.
    + exact Hleft.
  - monad_inv. split; [apply same_but_gen_refl |]. exists wl.
    split; [exact Hwl |]. by apply Z.eqb_neq.
Qed.

(** A draw by weight among the ages of a bracket that has a positive count
    left returns an age whose count is positive. *)
Lemma drawn_age_has_count fast_choice age_brackets s b wl ages cs g k g' ai c :
  draws_by_weight fast_choice ->
  counts_nonneg s ->
  left_in_bracket age_brackets s b wl -> Zsum wl <> 0%Z ->
  dict_get b age_brackets = Some ages ->
  Forall2 (fun a c => dict_get a (workers_by_age_to_assign_count s) = Some c) ages cs ->
  fast_choice (inject_Z <$> cs) g = (Ok k, g') ->
  ages !! k = Some ai ->
  dict_get ai (workers_by_age_to_assign_count s) = Some c ->
  (0 < c)%Z.
Proof.
  intros Hfc Hnn (ages' & Hages' & Hwl) Hsum Hages Hcs Hdraw Hai Hc.
  assert (ages' = ages) as -> by congruence.
  assert (Hcount_nn : forall a x,
            dict_get a (workers_by_age_to_assign_count s) = Some x -> (0 <= x)%Z).
  { intros a x Hx. apply dict_get_elem in Hx. unfold counts_nonneg in Hnn.
    rewrite Forall_forall in Hnn. apply (Hnn _ Hx). }
  assert (Hwl_nn : Forall (fun x => (0 <= x)%Z) wl).
  { eapply Forall_impl; [exact Hwl |]. intros x (a & _ & Hx). eauto. }
  pose proof (Zsum_pos_Exists wl Hwl_nn Hsum) as Hex.
  apply Exists_exists in Hex as (x & Hx & Hxpos).
  rewrite Forall_forall in Hwl. destruct (Hwl x Hx) as (a & Ha & Hax).
  assert (Hcs_nn : Forall (fun q => (0 <= q)%Q) (inject_Z <$> cs)).
  { apply Forall_fmap. apply Forall_forall. intros y Hy. cbn.
    apply list_elem_of_lookup_1 in Hy as (i & Hi).
    destruct (Forall2_lookup_r _ _ _ _ _ Hcs Hi) as (a' & _ & Hy').
    change 0%Q with (inject_Z 0). rewrite <- Zle_Qle. eauto. }
  assert (Hcs_pos : Exists (fun q => (0 < q)%Q) (inject_Z <$> cs)).
  { apply Exists_exists. exists (inject_Z x). split.
    - apply list_elem_of_fmap. exists x. split; [reflexivity |].
      apply list_elem_of_lookup_1 in Ha as (i & Hi).
      destruct (Forall2_lookup_l _ _ _ _ _ Hcs Hi) as (x' & Hx' & Hax').
      assert (x' = x) as -> by congruence.
      eapply list_elem_of_lookup_2. exact Hx'.
    - change 0%Q with (inject_Z 0). by rewrite <- Zlt_Qlt. }
  destruct (Hfc _ _ _ _ Hdraw Hcs_nn Hcs_pos) as (q & Hq & Hqpos).
  rewrite list_lookup_fmap in Hq.
  destruct (cs !! k) as [c' |] eqn:Ek; [| discriminate]. cbn in Hq. injection Hq as <-.
  destruct (Forall2_lookup_r _ _ _ _ _ Hcs Ek) as (a' & Ha' & Hc').
  assert (a' = ai) as -> by congruence. assert (c' = c) as -> by congruence.
  change 0%Q with (inject_Z 0) in Hqpos. by rewrite <- Zlt_Qlt in Hqpos.
Qed.
Lemma place_from_bracket_Ok fast_choice fuel age_brackets bp bi wl nw nwu s
    bi' nw' nwu' s' :
  place_from_bracket fast_choice fuel age_brackets bp bi wl nw nwu s
    = (Ok (bi', (nw', nwu')), s') ->
  left_in_bracket age_brackets s bi wl ->
  exists ai uid c,
    nw' = nw ++ [ai] /\ nwu' = nwu ++ [uid] /\
    placed_one s s' ai uid c /\
    contact_matrix_W s' = contact_matrix_W s /\
    (draws_by_weight fast_choice -> counts_nonneg s -> (0 < c)%Z).
Proof.
  unfold place_from_bracket. intros H Hwl. monad_inv.
  match goal with H : resample_bracket _ _ _ _ _ _ _ = _ |- _ =>
    apply resample_bracket_Ok in H as (Hsame & wl' & Hwl' & Hne); [| exact Hwl] end.
  match goal with H : map_m count_of _ _ = _ |- _ =>
    apply map_m_count_of_Ok in H as [-> Hcs] end.
  match goal with H : w_random _ _ = _ |- _ =>
    apply w_random_Ok in H as (g' & Hdraw & ->) end.
  match goal with
  | Ht : take_first_worker _ _ = _, Hd : decrement_count _ _ = _ |- _ =>
      destruct (take_and_decrement_Ok _ _ _ _ _ _ Ht Hd) as (c & Hplaced & Hmat)
  end.
  destruct Hsame as (E1 & E2 & E3 & E4).
  destruct Hplaced as (pool & Hpool & Hc & Hp1 & Hp2 & Hp3). cbn in Hpool, Hc, Hp1, Hp2, Hp3, Hmat.
  rewrite E3 in Hcs. rewrite ?E1, ?E2, ?E3, ?E4 in *.
  eexists _, _, c. split; [reflexivity |]. split; [reflexivity |].
  split; [exists pool; by repeat split |]. split; [exact Hmat |].
  intros Hfc Hnn.
  eapply (drawn_age_has_count fast_choice age_brackets s bi' wl'); eauto.
Qed.

Lemma zero_column_rows j W i row :
  rows (zero_column j W) !! i = Some row ->
  exists row0, rows W !! i = Some row0 /\ row = <[j := 0%Q]> row0.
Proof.
  unfold zero_column. cbn. rewrite list_lookup_fmap.
  destruct (rows W !! i) as [row0 |]; [| discriminate]. cbn. intros [= <-]. eauto.
Qed.

(** What lines 224-230 return and leave behind: either nothing changed, or
    column [bi] was set to zero and [b_prob] is the normalised row of the
    anchor in the matrix so changed. *)
Lemma turn_off_bracket_if_empty_Ok age_brackets bindex bi bp s bp' s' :
  turn_off_bracket_if_empty age_brackets bindex bi bp s = (Ok bp', s') ->
  placed_none s s' /\ w_gen s' = w_gen s /\
  ((contact_matrix_W s' = contact_matrix_W s /\ bp' = bp) \/
   (contact_matrix_W s' = zero_column bi (contact_matrix_W s) /\
    exists row, rows (contact_matrix_W s) !! bindex = Some row /\
      bp' = normalize_row (<[bi := 0%Q]> row))).
Proof.
  unfold turn_off_bracket_if_empty. intros H. monad_inv.
  match goal with H : workers_in_bracket _ _ _ = _ |- _ =>
    apply workers_in_bracket_Ok in H as [-> _] end.
  match goal with H : (if ?c then _ else _) _ = _ |- _ => destruct c end; monad_inv.
  - match goal with H : (if ?c then _ else _) _ = _ |- _ => destruct c end;
      [discriminate |]. monad_inv.
    split; [by repeat split |]. split; [reflexivity |]. right.
    split; [reflexivity |].
    match goal with H : rows _ !! _ = Some _ |- _ =>
      apply zero_column_rows in H as (row0 & Hrow0 & ->) end.
    eauto.
  - split; [by repeat split |]. split; [reflexivity |]. by left.
Qed.

Lemma placed_none_refl s : placed_none s s.
Proof. by repeat split. Qed.

Lemma same_but_gen_placed_none s s' : same_but_gen s s' -> placed_none s s'.
Proof. intros (H1 & H2 & H3 & _). by repeat split. Qed.

Lemma placed_none_trans s1 s2 s3 :
  placed_none s1 s2 -> placed_none s2 s3 -> placed_none s1 s3.
Proof. intros (H1 & H2 & H3) (K1 & K2 & K3). repeat split; congruence. Qed.

Lemma placed_one_then_none s1 s2 s3 ai uid c :
  placed_one s1 s2 ai uid c -> placed_none s2 s3 -> placed_one s1 s3 ai uid c.
Proof.
  intros (pool & Hpool & Hc & H1 & H2 & H3) (K1 & K2 & K3).
  exists pool. repeat split; congruence.
Qed.

Lemma placed_none_then_one s1 s2 s3 ai uid c :
  placed_none s1 s2 -> placed_one s2 s3 ai uid c -> placed_one s1 s3 ai uid c.
Proof.
  intros (K1 & K2 & K3) (pool & Hpool & Hc & H1 & H2 & H3).
  exists pool. repeat split; congruence.
Qed.

(** One iteration of the mixing loop: a zero row places nobody; otherwise
    exactly one worker is placed.  In both cases the matrix is either left
    alone or loses one column. *)
Lemma fill_one_slot_Ok fast_choice fuel age_brackets bindex nw nwu bp s
    nw' nwu' bp' s' :
  fill_one_slot fast_choice fuel age_brackets bindex (nw, nwu, bp) s
    = (Ok (nw', nwu', bp'), s') ->
  ((Qeq_bool (Qsum bp) 0 = true /\ nw' = nw /\ nwu' = nwu /\ placed_none s s') \/
   (Qeq_bool (Qsum bp) 0 = false /\
    exists ai uid c,
      nw' = nw ++ [ai] /\ nwu' = nwu ++ [uid] /\ placed_one s s' ai uid c /\
      (draws_by_weight fast_choice -> counts_nonneg s -> (0 < c)%Z))) /\
  ((contact_matrix_W s' = contact_matrix_W s /\ bp' = bp) \/
   (exists bi row,
      contact_matrix_W s' = zero_column bi (contact_matrix_W s) /\
      rows (contact_matrix_W s) !! bindex = Some row /\
      bp' = normalize_row (<[bi := 0%Q]> row))).
Proof.
  unfold fill_one_slot. intros H. monad_inv.
  match goal with H : w_random _ _ = _ |- _ => apply w_random_same in H as Hsame end.
  match goal with H : workers_left_in_bracket _ _ _ = _ |- _ =>
    apply workers_left_in_bracket_Ok in H as [-> Hleft] end.
  match goal with x : (nat * (list nat * list nat))%type |- _ =>
    destruct x as [bi [nw1 nwu1]] end.
  cbv beta iota in H. monad_inv. cbn [fst snd].
  match goal with H : turn_off_bracket_if_empty _ _ _ _ _ = _ |- _ =>
    apply turn_off_bracket_if_empty_Ok in H as (Hnone & _ & Hmat) end.
  destruct (Qeq_bool (Qsum bp) 0) eqn:E; cbn [negb] in *; monad_inv.
  - split.
    + left. do 3 (split; [reflexivity |]).
      eapply placed_none_trans; [apply same_but_gen_placed_none, Hsame | exact Hnone].
    + destruct Hsame as (_ & _ & _ & E4).
      destruct Hmat as [[HW ->] | (HW & row & Hrow & ->)].
      * left. split; [congruence | reflexivity].
      * right. exists bi, row. rewrite <- E4. by split.
  - match goal with H : place_from_bracket _ _ _ _ _ _ _ _ _ = _ |- _ =>
      apply place_from_bracket_Ok in H
        as (ai & uid & c & -> & -> & Hplaced & Hmat1 & Hpos); [| exact Hleft] end.
    destruct Hsame as (E1 & E2 & E3 & E4).
    split.
    + right. split; [reflexivity |]. exists ai, uid, c.
      split; [reflexivity |]. split; [reflexivity |]. split.
      * eapply placed_one_then_none; [| exact Hnone].
        eapply placed_none_then_one; [| exact Hplaced]. by repeat split.
      * intros Hfc Hnn. apply Hpos; [exact Hfc |].
        unfold counts_nonneg. by rewrite E3.
    + destruct Hmat as [[HW ->] | (HW & row & Hrow & ->)].
      * left. split; [congruence | reflexivity].
      * right. exists bi, row. rewrite HW, Hmat1, E4. split; [reflexivity |].
        split; [| reflexivity]. by rewrite <- E4, <- Hmat1.
Qed.
(** The mixing loop of a workplace of [n] further slots places [n] workers
    at most, all taken from the pools. *)
Lemma mixing_loop_Ok fast_choice fuel age_brackets bindex n nw nwu bp s
    nw' nwu' bp' s' :
  repeat_m n (fill_one_slot fast_choice fuel age_brackets bindex) (nw, nwu, bp) s
    = (Ok (nw', nwu', bp'), s') ->
  exists ea eu,
    nw' = nw ++ ea /\ nwu' = nwu ++ eu /\ length ea = length eu /\
    length eu <= n /\
    pool_uids s ≡ₚ eu ++ pool_uids s' /\
    (draws_by_weight fast_choice -> counts_nonneg s -> counts_nonneg s').
Proof.
  intros H.
  pose (I := fun (k : nat) (b : list nat * list nat * list Q) (t : wstate) =>
    exists ea eu,
      b.1.1 = nw ++ ea /\ b.1.2 = nwu ++ eu /\ length ea = length eu /\
      length eu <= k /\
      pool_uids s ≡ₚ eu ++ pool_uids t /\
      (draws_by_weight fast_choice -> counts_nonneg s -> counts_nonneg t)).
  assert (HI : I n (nw', nwu', bp') s').
  { eapply (repeat_m_invariant I); [| | exact H].
    - intros k [[nwk nwuk] bpk] t [[nwk' nwuk'] bpk'] t' Hk
        (ea & eu & Ha & Hu & Hlen & Hle & Hperm & Hnn) Hstep.
      cbn in Ha, Hu. subst nwk nwuk.
      apply fill_one_slot_Ok in Hstep
        as [[(_ & -> & -> & Hnone) | (_ & ai & uid & c & -> & -> & Hone & Hpos)] _].
      + exists ea, eu. cbn. do 3 (split; [done |]). split; [lia |]. split.
        * by rewrite (placed_none_pool _ _ Hnone).
        * intros Hfc Hs. eapply placed_none_nonneg; [exact Hnone | by apply Hnn].
      + exists (ea ++ [ai]), (eu ++ [uid]). cbn. rewrite !app_assoc.
        do 2 (split; [done |]). rewrite !length_app. cbn.
        split; [lia |]. split; [lia |]. split.
        * rewrite Hperm, (placed_one_pool _ _ _ _ _ Hone).
          by rewrite <- app_assoc.
        * intros Hfc Hs. eapply placed_one_nonneg; [exact Hone | |]; auto.
    - exists [], []. cbn. rewrite !app_nil_r. repeat split; auto. }
  destruct HI as (ea & eu & HI). exists ea, eu. exact HI.
Qed.

Lemma Qsum_zero (row : list Q) : Forall (fun x => (x == 0)%Q) row -> (Qsum row == 0)%Q.
Proof. induction 1 as [| x row Hx _ IH]; cbn; [reflexivity | by rewrite Hx, IH]. Qed.

Lemma normalize_row_zero (row : list Q) :
  Forall (fun x => (x == 0)%Q) row ->
  Qeq_bool (Qsum (normalize_row row)) 0 = true.
Proof.
  intros Hz. pose proof (Qsum_zero row Hz) as Hs. unfold normalize_row.
  destruct (Qpositive (Qsum row)) eqn:E.
  - apply Qpositive_spec in E. rewrite Hs in E. by apply Qlt_irrefl in E.
  - by apply Qeq_bool_iff.
Qed.

Lemma row_is_zero_zero_column W i j : row_is_zero W i -> row_is_zero (zero_column j W) i.
Proof.
  intros Hz row Hrow. apply zero_column_rows in Hrow as (row0 & Hrow0 & ->).
  apply Forall_insert; [by apply Hz | reflexivity].
Qed.

(** With a zero row the mixing loop places nobody, however many slots it
    has to fill. *)
Lemma mixing_loop_zero_row fast_choice fuel age_brackets bindex n nw nwu bp s
    nw' nwu' bp' s' :
  repeat_m n (fill_one_slot fast_choice fuel age_brackets bindex) (nw, nwu, bp) s
    = (Ok (nw', nwu', bp'), s') ->
  Qeq_bool (Qsum bp) 0 = true ->
  row_is_zero (contact_matrix_W s) bindex ->
  nw' = nw /\ nwu' = nwu /\ placed_none s s'.
Proof.
  intros H Hbp Hrow.
  pose (I := fun (k : nat) (b : list nat * list nat * list Q) (t : wstate) =>
    b.1.1 = nw /\ b.1.2 = nwu /\ placed_none s t /\
    Qeq_bool (Qsum b.2) 0 = true /\ row_is_zero (contact_matrix_W t) bindex).
  assert (HI : I n (nw', nwu', bp') s').
  { eapply (repeat_m_invariant I); [| | exact H].
    - intros k [[nwk nwuk] bpk] t [[nwk' nwuk'] bpk'] t' Hk
        (Ha & Hu & Hnone & Hz & Hr) Hstep.
      cbn in Ha, Hu, Hz. subst nwk nwuk.
      apply fill_one_slot_Ok in Hstep
        as [[(_ & -> & -> & Hnone') | (Hnz & _)] Hmat]; [| congruence].
      cbn. do 2 (split; [done |]).
      split; [eapply placed_none_trans; eassumption |].
      destruct Hmat as [[HW ->] | (bi & row & HW & Hrow' & ->)].
      + split; [exact Hz | by rewrite HW].
      + split.
        * apply normalize_row_zero.
          apply Forall_insert; [by apply Hr | reflexivity].
        * rewrite HW. by apply row_is_zero_zero_column.
    - cbn. repeat split; auto. }
  destruct HI as (Ha & Hu & Hnone & _). cbn in Ha, Hu. auto.
Qed.
Lemma place_next_of_age_loop_Ok ai n nw nwu s nw' nwu' s' :
  repeat_m n (place_next_of_age ai) (nw, nwu) s = (Ok (nw', nwu'), s') ->
  exists ea eu,
    nw' = nw ++ ea /\ nwu' = nwu ++ eu /\ length ea = n /\ length eu = n /\
    pool_uids s ≡ₚ eu ++ pool_uids s' /\
    workers_by_age_to_assign_count s' = workers_by_age_to_assign_count s /\
    contact_matrix_W s' = contact_matrix_W s.
Proof.
  revert nw nwu s. induction n as [| n IH]; intros nw nwu s H; cbn in H; monad_inv.
  - exists [], []. rewrite !app_nil_r. by repeat split.
  - match goal with H : take_first_worker _ _ = (Ok ?u, _) |- _ =>
      rename u into uid; apply take_first_worker_Ok in H as (pool & Hpool & ->) end.
    apply IH in H as (ea & eu & -> & -> & Hla & Hlu & Hperm & Hc & HW).
    cbn in Hperm, Hc, HW.
    exists (ai :: ea), (uid :: eu). rewrite <- !app_assoc. cbn.
    do 2 (split; [reflexivity |]). split; [lia |]. split; [lia |].
    split; [| by split].
    unfold pool_uids at 1. rewrite (dict_values_set_Permutation _ _ _ _ Hpool).
    constructor. exact Hperm.
Qed.

Lemma Zsum_omap_get_set_zero (d : list (nat * Z)) (k : nat) (ks : list nat) :
  Forall (fun kv => (0 <= kv.2)%Z) d ->
  (Zsum (omap (fun a => dict_get a (dict_set k 0%Z d)) ks)
     <= Zsum (omap (fun a => dict_get a d) ks))%Z.
Proof.
  intros Hnn. induction ks as [| a ks IH]; cbn; [lia |].
  rewrite dict_get_set. destruct (decide (k = a)) as [-> | Hne].
  - destruct (dict_get a d) as [c |] eqn:Ec; cbn.
    + apply dict_get_elem in Ec. rewrite Forall_forall in Hnn.
      specialize (Hnn _ Ec). cbn in Hnn. lia.
    + assert (0 <= Zsum (omap (fun a0 => dict_get a0 d) ks))%Z; [| lia].
      apply Zsum_nonneg. apply Forall_forall. intros c Hc.
      apply list_elem_of_omap in Hc as (a' & _ & Hc). apply dict_get_elem in Hc.
      rewrite Forall_forall in Hnn. apply (Hnn _ Hc).
  - destruct (dict_get a d); cbn; lia.
Qed.

(** The loop of lines 190-197 over the ages [ks]. *)
Lemma place_all_of_age_loop_Ok ks nw nwu s nw' nwu' s' :
  fold_m place_all_of_age ks (nw, nwu) s = (Ok (nw', nwu'), s') ->
  exists ea eu,
    nw' = nw ++ ea /\ nwu' = nwu ++ eu /\ length ea = length eu /\
    pool_uids s ≡ₚ eu ++ pool_uids s' /\
    contact_matrix_W s' = contact_matrix_W s /\
    dict_keys (workers_by_age_to_assign_count s')
      = dict_keys (workers_by_age_to_assign_count s) /\
    (forall a, a ∈ ks -> dict_get a (workers_by_age_to_assign_count s') = Some 0%Z) /\
    (forall a, dict_get a (workers_by_age_to_assign_count s') = Some 0%Z \/
               dict_get a (workers_by_age_to_assign_count s')
                 = dict_get a (workers_by_age_to_assign_count s)) /\
    (counts_nonneg s ->
       counts_nonneg s' /\
       (Z.of_nat (length eu)
          <= Zsum (omap (fun a => dict_get a (workers_by_age_to_assign_count s)) ks))%Z).
Proof.
  revert nw nwu s. induction ks as [| k ks IH]; intros nw nwu s H; cbn in H; monad_inv.
  - exists [], []. rewrite !app_nil_r. repeat split; auto.
    + intros x Hx. by apply elem_of_nil in Hx.
    + cbn. lia.
  - match goal with x : (list nat * list nat)%type |- _ => destruct x as [nw1 nwu1] end.
    match goal with H : place_all_of_age _ _ _ = _ |- _ =>
      unfold place_all_of_age in H; monad_inv end.
    match goal with H : count_of _ _ = (Ok ?x, _) |- _ =>
      rename x into c; apply count_of_Ok in H as [-> Hc] end.
    match goal with H : repeat_m _ _ _ _ = _ |- _ =>
      apply place_next_of_age_loop_Ok in H
        as (ea1 & eu1 & -> & -> & Hla1 & Hlu1 & Hperm1 & Hc1 & HW1) end.
    apply IH in H as (ea2 & eu2 & -> & -> & Hlen2 & Hperm2 & HW2 & Hkeys & Hzero & Hsame & Hnn2).
    cbn in Hperm2, HW2, Hkeys, Hsame, Hnn2.
    rewrite Hc1 in Hkeys, Hsame, Hnn2.
    exists (ea1 ++ ea2), (eu1 ++ eu2). rewrite !app_assoc.
    do 2 (split; [reflexivity |]). rewrite !length_app.
    split; [lia |]. split; [by rewrite Hperm1, Hperm2, app_assoc |].
    split; [congruence |]. split.
    { rewrite Hkeys. apply dict_keys_set_present. eauto. }
    split.
    { intros x Hx. apply elem_of_cons in Hx as [-> | Hx]; [| by apply Hzero].
      destruct (Hsame k) as [Hk | Hk]; [exact Hk |].
      rewrite Hk, dict_get_set. by rewrite decide_True. }
    split.
    { intros x. destruct (Hsame x) as [Hx | Hx]; [by left |].
      rewrite Hx, dict_get_set. destruct (decide (k = x)); [by left | by right]. }
    intros Hnn.
    assert (Hnn1 : counts_nonneg
              (set_workers_by_age_to_assign_count (dict_set k 0%Z) s2)).
    { unfold counts_nonneg. cbn. rewrite Hc1.
      apply dict_set_Forall; [exact Hnn | cbn; lia]. }
    destruct (Hnn2 Hnn1) as [Hnn' Hbound]. split; [exact Hnn' |].
    cbn. rewrite Hc. cbn.
    pose proof (Zsum_omap_get_set_zero _ k ks Hnn) as Hmono.
    assert (0 <= c)%Z.
    { apply dict_get_elem in Hc. unfold counts_nonneg in Hnn.
      rewrite Forall_forall in Hnn. apply (Hnn _ Hc). }
    lia.
Qed.
Lemma Zsum_omap_zero {A : Type} (f : A -> option Z) (ks : list A) :
  (forall a, a ∈ ks -> f a = Some 0%Z) -> Zsum (omap f ks) = 0%Z.
Proof.
  induction ks as [| k ks IH]; intros H; cbn; [reflexivity |].
  rewrite (H k) by apply list_elem_of_here. cbn. rewrite IH; [reflexivity |].
  intros a Ha. apply H. by apply list_elem_of_further.
Qed.

(** Lines 190-198: the workers placed come out of the pools, no count is
    left, and with counts that are not negative no more workers are placed
    than the counts announced. *)
Lemma place_everyone_left_Ok nw nwu s nw' nwu' s' :
  place_everyone_left nw nwu s = (Ok (nw', nwu'), s') ->
  exists ea eu,
    nw' = nw ++ ea /\ nwu' = nwu ++ eu /\ length ea = length eu /\
    pool_uids s ≡ₚ eu ++ pool_uids s' /\
    contact_matrix_W s' = contact_matrix_W s /\
    workers_left s' = 0%Z /\
    (counts_nonneg s ->
       counts_nonneg s' /\ (Z.of_nat (length eu) <= workers_left s)%Z).
Proof.
  unfold place_everyone_left. intros H. monad_inv.
  apply place_all_of_age_loop_Ok in H
    as (ea & eu & -> & -> & Hlen & Hperm & HW & Hkeys & Hzero & _ & Hnn).
  exists ea, eu. do 5 (split; [done |]). split; [| exact Hnn].
  unfold workers_left, dict_self_values. rewrite Hkeys. by apply Zsum_omap_zero.
Qed.

(** The anchor is of an age that still has workers to assign. *)
Lemma anchor_has_count keys cs s g aindex g' c :
  Forall2 (fun a c => dict_get a (workers_by_age_to_assign_count s) = Some c) keys cs ->
  np_choice_p keys ((fun c => (inject_Z c / inject_Z (Zsum cs))%Q) <$> cs) g
    = (Ok aindex, g') ->
  counts_nonneg s ->
  dict_get aindex (workers_by_age_to_assign_count s) = Some c ->
  (0 < c)%Z.
Proof.
  intros Hcs Hdraw Hnn Hc.
  apply np_choice_p_Ok in Hdraw as (i & w & Hi & Hw & Hpos).
  rewrite list_lookup_fmap in Hw.
  destruct (cs !! i) as [c' |] eqn:Ei; [| discriminate]. cbn in Hw. injection Hw as <-.
  destruct (Forall2_lookup_r _ _ _ _ _ Hcs Ei) as (a' & Ha' & Hc').
  assert (a' = aindex) as -> by congruence. assert (c' = c) as -> by congruence.
  assert (0 <= c)%Z.
  { apply dict_get_elem in Hc. unfold counts_nonneg in Hnn.
    rewrite Forall_forall in Hnn. apply (Hnn _ Hc). }
  destruct (decide (c = 0%Z)) as [-> | Hne]; [| lia].
  exfalso. unfold Qdiv in Hpos. rewrite Qmult_0_l in Hpos. by apply Qlt_irrefl in Hpos.
Qed.

Lemma choose_anchor_Ok keys s aindex uid s' :
  choose_anchor keys s = (Ok (aindex, uid), s') ->
  exists c, placed_one s s' aindex uid c /\
    contact_matrix_W s' = contact_matrix_W s /\
    (counts_nonneg s -> (0 < c)%Z).
Proof.
  unfold choose_anchor. intros H. monad_inv.
  match goal with H : map_m count_of _ _ = _ |- _ =>
    apply map_m_count_of_Ok in H as [-> Hcs] end.
  match goal with H : w_random _ _ = _ |- _ =>
    apply w_random_Ok in H as (g' & Hdraw & ->) end.
  match goal with
  | Ht : take_first_worker _ _ = _, Hd : decrement_count _ _ = _ |- _ =>
      destruct (take_and_decrement_Ok _ _ _ _ _ _ Ht Hd) as (c & Hplaced & Hmat)
  end.
  exists c. split; [| split].
  - destruct Hplaced as (pool & Hpool & Hc & H1 & H2 & H3). exists pool.
    by repeat split.
  - exact Hmat.
  - intros Hnn. destruct Hplaced as (pool & _ & Hc & _). cbn in Hc.
    eapply anchor_has_count; eauto.
Qed.

Lemma anchor_row_Ok age_by_brackets_dic aindex s bindex b_prob s' :
  anchor_row age_by_brackets_dic aindex s = (Ok (bindex, b_prob), s') ->
  s' = s /\
  exists b row,
    dict_get aindex age_by_brackets_dic = Some b /\
    bindex = Nat.min b (length (rows (contact_matrix_W s)) - 1) /\
    rows (contact_matrix_W s) !! bindex = Some row /\
    b_prob = normalize_row row.
Proof.
  unfold anchor_row. intros H. monad_inv.
  match goal with H : (if ?c then _ else _) _ = _ |- _ => destruct c end;
    [discriminate |]. monad_inv.
  split; [reflexivity |]. eauto 10.
Qed.

Lemma clamp_size_le size n left : (clamp_size size n left <= size)%Z.
Proof.
  unfold clamp_size.
  destruct (Z.of_nat n - 1 <? size)%Z eqn:E1;
    [apply Z.ltb_lt in E1 | apply Z.ltb_ge in E1];
    match goal with |- context [(left <? ?x)%Z] =>
      destruct (left <? x)%Z eqn:E2; [apply Z.ltb_lt in E2 | apply Z.ltb_ge in E2]
    end; lia.
Qed.

Lemma clamp_size_lt_potential size n left : (clamp_size size n left < Z.of_nat n)%Z.
Proof.
  unfold clamp_size.
  destruct (Z.of_nat n - 1 <? size)%Z eqn:E1;
    [apply Z.ltb_lt in E1 | apply Z.ltb_ge in E1];
    match goal with |- context [(left <? ?x)%Z] =>
      destruct (left <? x)%Z eqn:E2; [apply Z.ltb_lt in E2 | apply Z.ltb_ge in E2]
    end; lia.
Qed.

(** Lines 189-230.  The workers that join the anchor come out of the pools;
    at most [max(size - 1, 0)] of them in the mixing loop, at most
    [workers_left] of them when everyone left is placed, which happens only
    if [workers_left <= size] or [len(potential_worker_uids) <= size]. *)
Lemma fill_workplace_Ok fast_choice fuel age_brackets size bindex bp nw nwu s
    nw' nwu' s' :
  fill_workplace fast_choice fuel age_brackets size bindex bp nw nwu s
    = (Ok (nw', nwu'), s') ->
  exists ea eu,
    nw' = nw ++ ea /\ nwu' = nwu ++ eu /\ length ea = length eu /\
    pool_uids s ≡ₚ eu ++ pool_uids s' /\
    (draws_by_weight fast_choice -> counts_nonneg s ->
       counts_nonneg s' /\
       ((Z.of_nat (length eu) <= Z.max (size - 1) 0)%Z \/
        ((Z.of_nat (length eu) <= workers_left s)%Z /\
         ((Z.of_nat (length (potential_worker_uids s)) <= size)%Z \/
          (workers_left s <= size)%Z)))) /\
    (Qeq_bool (Qsum bp) 0 = true -> row_is_zero (contact_matrix_W s) bindex ->
       eu = [] \/ workers_left s' = 0%Z).
Proof.
  unfold fill_workplace. intros H. monad_inv.
  match goal with H : (if ?c then _ else _) _ = _ |- _ => destruct c eqn:Ec end.
  - apply place_everyone_left_Ok in H
      as (ea & eu & -> & -> & Hlen & Hperm & _ & Hzero & Hnn).
    exists ea, eu. do 4 (split; [done |]). split.
    + intros _ Hs. destruct (Hnn Hs) as [Hs' Hle]. split; [exact Hs' |]. right.
      split; [exact Hle |]. apply orb_true_iff in Ec as [Ec | Ec];
        apply Z.leb_le in Ec; auto.
    + intros _ _. by right.
  - monad_inv.
    match goal with x : (list nat * list nat * list Q)%type |- _ =>
      destruct x as [[nw1 nwu1] bp1] end.
    cbn [fst snd].
    match goal with H : repeat_m _ _ _ _ = _ |- _ =>
      pose proof (mixing_loop_zero_row _ _ _ _ _ _ _ _ _ _ _ _ _ H) as Hzero;
      apply mixing_loop_Ok in H as (ea & eu & -> & -> & Hlen & Hle & Hperm & Hnn) end.
    exists ea, eu. do 4 (split; [done |]). split.
    + intros Hfc Hs. split; [by apply Hnn |]. left. lia.
    + intros Hbp Hrow. left. destruct (Hzero Hbp Hrow) as (_ & Hu & _).
      apply (f_equal length) in Hu. rewrite length_app in Hu.
      destruct eu; [reflexivity | cbn in Hu; lia].
Qed.
Lemma build_workplace_break fast_choice fuel age_brackets age_by_brackets_dic
    keys size s s' :
  build_workplace fast_choice fuel age_brackets age_by_brackets_dic keys size s
    = (Ok None, s') ->
  s' = s.
Proof.
  unfold build_workplace. intros H. monad_inv.
  match goal with H : (if ?c then _ else _) _ = _ |- _ => destruct c end;
    [by monad_inv |]. monad_inv.
  match goal with H : (if ?c then _ else _) _ = _ |- _ => destruct c end;
    [by monad_inv |]. monad_inv.
  repeat match goal with x : (_ * _)%type |- _ => destruct x end.
  cbv beta iota in *. monad_inv.
  repeat match goal with x : (_ * _)%type |- _ => destruct x end.
  cbv beta iota in *. monad_inv.
  repeat match goal with x : (_ * _)%type |- _ => destruct x end.
  cbv beta iota in *. monad_inv.
Qed.

(** The body of the loop over [workplace_sizes], when it builds a
    workplace: the anchor and the workers that join it come out of the
    pools; with counts that are not negative and draws by weight the
    workplace has at most one member more than [size] asks for; and when the
    row of the anchor carries no weight nobody joins the anchor, unless
    everyone left was placed. *)
Lemma build_workplace_Ok fast_choice fuel age_brackets age_by_brackets_dic
    keys size s nw nwu s' :
  build_workplace fast_choice fuel age_brackets age_by_brackets_dic keys size s
    = (Ok (Some (nw, nwu)), s') ->
  exists aindex uid ea eu,
    nw = aindex :: ea /\ nwu = uid :: eu /\ length ea = length eu /\
    pool_uids s ≡ₚ nwu ++ pool_uids s' /\
    (draws_by_weight fast_choice -> counts_nonneg s ->
       counts_nonneg s' /\ (Z.of_nat (length nwu) <= Z.max size 0 + 1)%Z) /\
    (exists b, dict_get aindex age_by_brackets_dic = Some b /\
       (row_is_zero (contact_matrix_W s)
          (Nat.min b (length (rows (contact_matrix_W s)) - 1)) ->
        eu = [] \/ workers_left s' = 0%Z)).
Proof.
  unfold build_workplace. intros H. monad_inv.
  match goal with H : (if ?c then _ else _) _ = _ |- _ => destruct c end;
    [by monad_inv |]. monad_inv.
  match goal with H : (if ?c then _ else _) _ = _ |- _ => destruct c end;
    [by monad_inv |]. monad_inv.
  match goal with H : choose_anchor _ _ = (Ok ?x, _) |- _ => destruct x as [aindex uid] end.
  cbv beta iota in H. monad_inv.
  match goal with H : anchor_row _ _ _ = (Ok ?x, _) |- _ => destruct x as [bindex bp] end.
  cbv beta iota in H. monad_inv.
  match goal with H : fill_workplace _ _ _ _ _ _ _ _ _ = (Ok ?x, _) |- _ =>
    destruct x as [nw1 nwu1] end.
  cbv beta iota in H. monad_inv.
  match goal with H : choose_anchor _ _ = _ |- _ =>
    apply choose_anchor_Ok in H as (c & Hone & HW & Hpos) end.
  match goal with H : anchor_row _ _ _ = _ |- _ =>
    apply anchor_row_Ok in H as (-> & b & row & Hb & Hbindex & Hrow & Hbp) end.
  match goal with H : fill_workplace _ _ _ _ _ _ _ _ _ = _ |- _ =>
    apply fill_workplace_Ok in H
      as (ea & eu & Hnw & Hnwu & Hlen & Hperm & Hnn & Hzero) end.
  cbn in Hnw, Hnwu. subst nw nwu.
  exists aindex, uid, ea, eu. do 3 (split; [done |]). split; [| split].
  - rewrite (placed_one_pool _ _ _ _ _ Hone). cbn. by constructor.
  - intros Hfc Hs.
    match type of Hone with placed_one _ ?t _ _ _ =>
      assert (Hs1 : counts_nonneg t) by (eapply placed_one_nonneg; eauto);
      pose proof (clamp_size_le size (length (potential_worker_uids t)) (workers_left t));
      pose proof (clamp_size_lt_potential size (length (potential_worker_uids t))
                    (workers_left t))
    end.
    destruct (Hnn Hfc Hs1) as [Hs' Hbound]. split; [exact Hs' |]. cbn [length].
    lia.
  - exists b. split; [exact Hb |]. intros Hz.
    rewrite <- HW in Hz. rewrite <- Hbindex in Hz. apply Hzero; [| exact Hz].
    rewrite Hbp. apply normalize_row_zero. by apply Hz.
Qed.
Lemma turn_off_empty_brackets_Ok age_brackets s u s' :
  turn_off_empty_brackets age_brackets s = (Ok u, s') -> placed_none s s'.
Proof.
  unfold turn_off_empty_brackets. intros H.
  eapply (for_each_invariant (placed_none s)); [| apply placed_none_refl | exact H].
  intros b t v t' _ Ht Hbody. cbv beta in Hbody. monad_inv.
  match goal with H : workers_in_bracket _ _ _ = _ |- _ =>
    apply workers_in_bracket_Ok in H as [-> _] end.
  match goal with H : (if ?c then _ else _) _ = _ |- _ => destruct c end; monad_inv;
    [| exact Ht].
  match goal with H : (if ?c then _ else _) _ = _ |- _ => destruct c end; monad_inv.
  exact Ht.
Qed.

(** The loop over [workplace_sizes]. *)
Lemma assign_workplaces_Ok fast_choice fuel age_brackets age_by_brackets_dic
    keys sizes s ws us s' :
  assign_workplaces fast_choice fuel age_brackets age_by_brackets_dic keys sizes s
    = (Ok (ws, us), s') ->
  pool_uids s ≡ₚ concat us ++ pool_uids s' /\
  Forall2 (fun w u => length w = length u) ws us /\
  (draws_by_weight fast_choice -> counts_nonneg s ->
     counts_nonneg s' /\
     forall k u size, us !! k = Some u -> sizes !! k = Some size ->
       (Z.of_nat (length u) <= Z.max size 0 + 1)%Z).
Proof.
  revert s ws us. induction sizes as [| size sizes IH]; intros s ws us H;
    cbn in H; monad_inv.
  - cbn. split; [reflexivity |]. split; [constructor |]. intros _ Hs.
    split; [exact Hs |]. intros k u size Hk. by rewrite lookup_nil in Hk.
  - match goal with H : build_workplace _ _ _ _ _ _ _ = (Ok ?x, _) |- _ =>
      destruct x as [[nw nwu] |] end.
    + monad_inv.
      match goal with x : (list (list nat) * list (list nat))%type |- _ =>
        destruct x as [ws1 us1] end.
      cbv beta iota in H. monad_inv.
      match goal with H : build_workplace _ _ _ _ _ _ _ = _ |- _ =>
        apply build_workplace_Ok in H
          as (aindex & uid & ea & eu & -> & -> & Hlen & Hperm & Hnn & _) end.
      match goal with H : assign_workplaces _ _ _ _ _ _ _ = _ |- _ =>
        apply IH in H as (Hperm' & Hall & Hnn') end.
      split; [| split].
      * cbn [concat]. rewrite Hperm, Hperm'. by rewrite <- app_assoc.
      * constructor; [cbn; lia | exact Hall].
      * intros Hfc Hs. destruct (Hnn Hfc Hs) as [Hs1 Hbound].
        destruct (Hnn' Hfc Hs1) as [Hs' Hbounds]. split; [exact Hs' |].
        intros [| k] u size'; cbn.
        -- intros [= <-] [= <-]. exact Hbound.
        -- apply Hbounds.
    + monad_inv.
      match goal with H : build_workplace _ _ _ _ _ _ _ = _ |- _ =>
        apply build_workplace_break in H as -> end.
      cbn. split; [reflexivity |]. split; [constructor |]. intros _ Hs.
      split; [exact Hs |]. intros k u size' Hk. by rewrite lookup_nil in Hk.
Qed.

Lemma assign_rest_of_workers_Ok fast_choice fuel age_brackets age_by_brackets_dic
    sizes s ws us s' :
  assign_rest_of_workers fast_choice fuel age_brackets age_by_brackets_dic sizes s
    = (Ok (ws, us), s') ->
  pool_uids s ≡ₚ concat us ++ pool_uids s' /\
  Forall2 (fun w u => length w = length u) ws us /\
  (draws_by_weight fast_choice -> counts_nonneg s ->
     counts_nonneg s' /\
     forall k u size, us !! k = Some u -> sizes !! k = Some size ->
       (Z.of_nat (length u) <= Z.max size 0 + 1)%Z).
Proof.
  unfold assign_rest_of_workers. intros H. monad_inv.
  match goal with H : turn_off_empty_brackets _ _ = _ |- _ =>
    apply turn_off_empty_brackets_Ok in H as Hnone end.
  apply assign_workplaces_Ok in H as (Hperm & Hall & Hnn).
  split; [by rewrite <- (placed_none_pool _ _ Hnone) | split; [exact Hall |]].
  intros Hfc Hs. apply Hnn; [exact Hfc |]. eapply placed_none_nonneg; eauto.
Qed.

(** C2, as amended.  The workplaces that [assign_rest_of_workers] returns,
    together with the pools it leaves, partition the pool it was given: the
    members of the workplaces and the uids left in the pools are, all
    together, the uids of the input pools.  With an input pool that holds no
    uid twice, no uid occurs in two workplaces or twice in one, no member of
    a workplace is still pooled, and every pooled uid is either in a
    workplace or still in the pool that is returned. *)
Theorem assign_rest_of_workers_partition fast_choice fuel age_brackets
    age_by_brackets_dic sizes s ws us s' :
  assign_rest_of_workers fast_choice fuel age_brackets age_by_brackets_dic sizes s
    = (Ok (ws, us), s') ->
  NoDup (pool_uids s) ->
  pool_uids s ≡ₚ concat us ++ pool_uids s' /\
  NoDup (concat us) /\
  (forall uid, uid ∈ concat us -> uid ∉ pool_uids s') /\
  (forall uid, uid ∈ pool_uids s <-> uid ∈ concat us \/ uid ∈ pool_uids s').
Proof.
  intros H Hnd. apply assign_rest_of_workers_Ok in H as (Hperm & _).
  rewrite Hperm in Hnd. apply NoDup_app in Hnd as (Hnd1 & Hdisj & _).
  split; [exact Hperm |]. split; [exact Hnd1 |]. split; [exact Hdisj |].
  intros uid. rewrite Hperm. apply elem_of_app.
Qed.
Lemma assign_rest_of_workers_partition_witness :
  NoDup (concat [[1; 2; 3]]) /\ (forall uid, uid ∈ concat [[1; 2; 3]] -> uid ∉ [4; 5]).
Proof.
  destruct (assign_rest_of_workers_partition fast_choice_weighted 5 ex_one_bracket
              ex_age_to_one_bracket [2; 1]%Z ex_five_potential_workers
              [[20; 20; 20]] [[1; 2; 3]]
              (WState [(4, 20); (5, 20)] [(20, [4; 5])] [(20, 0%Z)] ex_matrix_one []))
    as (_ & Hnd & Hdisj & _).
  - vm_compute. reflexivity.
  - compute_done.
  - split; [exact Hnd | exact Hdisj].
Defined.

(** C2 as stated fails.  Three pooled workers, all three to assign, and
    sizes [2; 1] that sum to three: the workplaces returned are [[1]; [2]]
    and uid 3 is left in the pool though no size is left.  And by design the
    pool holds the potential workers, of whom only as many as the counts say
    are assigned: with two pooled and one to assign, uid 2 stays in the pool
    that is returned. *)
Lemma assign_rest_of_workers_leaves_pooled_uids :
  (assign_rest_of_workers fast_choice_weighted 5 ex_one_bracket
     ex_age_to_one_bracket [2; 1]%Z ex_three_workers
   = (Ok ([[20]; [20]], [[1]; [2]]),
      WState [(3, 20)] [(20, [3])] [(20, 1%Z)] ex_matrix_one []) /\
   Zsum [2; 1]%Z = workers_left ex_three_workers /\
   3 ∈ pool_uids ex_three_workers /\ 3 ∉ concat [[1]; [2]]) /\
  (assign_rest_of_workers fast_choice_weighted 5 ex_one_bracket
     ex_age_to_one_bracket [1]%Z ex_two_potential_workers
   = (Ok ([[20]], [[1]]),
      WState [(2, 20)] [(20, [2])] [(20, 0%Z)] ex_matrix_one []) /\
   2 ∈ pool_uids ex_two_potential_workers /\ 2 ∉ concat [[1]]).
Proof.
  split; [split; [| split; [| split]] | split; [| split]].
  - vm_compute. reflexivity.
  - vm_compute. reflexivity.
  - compute_done.
  - compute_done.
  - vm_compute. reflexivity.
  - compute_done.
  - compute_done.
Qed.
Lemma support_from_nonempty (p : list Q) (i : nat) :
  Exists (fun x => (0 < x)%Q) p -> support_from i p <> [].
Proof.
  intros H. revert i. induction H as [x p Hx | x p _ IH]; intros i; cbn.
  - apply Qpositive_spec in Hx. by rewrite Hx.
  - destruct (Qpositive x); [done | apply IH].
Qed.

(** The instance of [fast_choice] that runs the model draws by weight. *)
Lemma fast_choice_weighted_by_weight : draws_by_weight fast_choice_weighted.
Proof.
  intros weights g k g' H _ Hex. unfold fast_choice_weighted in H.
  pose proof (support_from_nonempty weights 0 Hex) as Hne. fold (support weights) in Hne.
  assert (Hin : k ∈ support weights).
  { destruct (support weights) as [| i0 rest] eqn:Es; [congruence |].
    monad_inv. eapply list_elem_of_lookup_2. eassumption. }
  apply support_from_spec in Hin as (_ & x & Hx & Hpos).
  rewrite Nat.sub_0_r in Hx. exists x. split; [exact Hx | by apply Qpositive_spec].
Qed.

Lemma lookup_concat_length {A : Type} (ls : list (list A)) (k : nat) (l : list A) :
  ls !! k = Some l -> length (concat (take k ls)) + length l <= length (concat ls).
Proof.
  intros H. rewrite <- (take_drop_middle ls k l H) at 2.
  rewrite concat_app, length_app. cbn. rewrite length_app. lia.
Qed.

(** C7, as amended.  With draws by weight and no negative count on entry, a
    workplace that [assign_rest_of_workers] builds has at most one member
    more than its target size (targets below zero counted as zero): the
    anchor is always placed, and the branch that places everyone left is
    entered with as many workers left as the size allows, the anchor not
    counted.  And whatever the draws and counts, a workplace never has more
    members than the pools held when it was started: at the level of the
    loop body, and, for the k-th workplace returned, after the members of
    the workplaces before it were taken out of the input pool. *)
Theorem workplace_size_bounds fast_choice fuel age_brackets age_by_brackets_dic :
  draws_by_weight fast_choice ->
  (forall keys size t nw nwu t',
     build_workplace fast_choice fuel age_brackets age_by_brackets_dic keys size t
       = (Ok (Some (nw, nwu)), t') ->
     length nwu <= length (pool_uids t) /\
     (counts_nonneg t -> (Z.of_nat (length nwu) <= Z.max size 0 + 1)%Z)) /\
  (forall sizes s ws us s',
     assign_rest_of_workers fast_choice fuel age_brackets age_by_brackets_dic sizes s
       = (Ok (ws, us), s') ->
     (forall k u, us !! k = Some u ->
        length (concat (take k us)) + length u <= length (pool_uids s)) /\
     (counts_nonneg s ->
      forall k u size, us !! k = Some u -> sizes !! k = Some size ->
        (Z.of_nat (length u) <= Z.max size 0 + 1)%Z)).
Proof.
  intros Hfc. split.
  - intros keys size t nw nwu t' H.
    apply build_workplace_Ok in H
      as (aindex & uid & ea & eu & -> & -> & _ & Hperm & Hnn & _).
    split.
    + rewrite (Permutation_length Hperm), length_app. lia.
    + intros Ht. by apply Hnn.
  - intros sizes s ws us s' H.
    apply assign_rest_of_workers_Ok in H as (Hperm & _ & Hnn). split.
    + intros k u Hk. rewrite (Permutation_length Hperm), length_app.
      pose proof (lookup_concat_length us k u Hk). lia.
    + intros Hs. by apply Hnn.
Qed.

Lemma workplace_size_bounds_witness :
  (Z.of_nat (length [1; 2; 3]) <= Z.max 2 0 + 1)%Z /\
  length (concat (take 0 [[1; 2; 3]])) + length [1; 2; 3]
    <= length (pool_uids ex_five_potential_workers).
Proof.
  destruct (workplace_size_bounds fast_choice_weighted 5 ex_one_bracket
              ex_age_to_one_bracket fast_choice_weighted_by_weight) as [_ Hall].
  destruct (Hall [2; 1]%Z ex_five_potential_workers [[20; 20; 20]] [[1; 2; 3]]
              (WState [(4, 20); (5, 20)] [(20, [4; 5])] [(20, 0%Z)] ex_matrix_one []))
    as [Hpool Htarget].
  - vm_compute. reflexivity.
  - split.
    + apply (Htarget ltac:(compute_done) 0 [1; 2; 3] 2%Z); reflexivity.
    + apply (Hpool 0 [1; 2; 3]). reflexivity.
Defined.

(** C7 as stated fails.  Five potential workers, three of them to assign,
    sizes [2; 1]: after the anchor two workers are left for a size of two,
    everyone left is placed, and the first workplace has the three members
    1, 2 and 3 for a target size of 2. *)
Lemma workplace_exceeds_target_size :
  assign_rest_of_workers fast_choice_weighted 5 ex_one_bracket
    ex_age_to_one_bracket [2; 1]%Z ex_five_potential_workers
  = (Ok ([[20; 20; 20]], [[1; 2; 3]]),
     WState [(4, 20); (5, 20)] [(20, [4; 5])] [(20, 0%Z)] ex_matrix_one []) /\
  (2 < Z.of_nat (length [1; 2; 3]))%Z.
Proof. split; [vm_compute; reflexivity | cbn; lia]. Qed.

Lemma Qsum_zero_nonneg (row : list Q) :
  Forall (fun x => (0 <= x)%Q) row -> (Qsum row == 0)%Q ->
  Forall (fun x => (x == 0)%Q) row.
Proof.
  induction 1 as [| x row Hx Hrow IH]; cbn; intros Hs; [constructor |].
  pose proof (Qsum_nonneg row Hrow) as Hsum.
  assert (Hx0 : (x == 0)%Q).
  { apply Qle_antisym; [| exact Hx]. rewrite <- Hs.
    rewrite <- (Qplus_0_r x) at 1. apply Qplus_le_compat; [apply Qle_refl | exact Hsum]. }
  constructor; [exact Hx0 |]. apply IH. rewrite Hx0, Qplus_0_l in Hs. exact Hs.
Qed.

(** C6, as amended.  In a matrix without negative entries, when the row of
    the anchor's bracket sums to zero the mixing loop fills none of the
    remaining slots: the workplace built is the anchor alone and every other
    worker stays in the pools, unless everyone left was placed in this
    workplace (lines 189-198), after which no worker is left to assign.
    There is no uniform choice over the pools that are not empty. *)
Theorem zero_row_fills_no_slot fast_choice fuel age_brackets age_by_brackets_dic
    keys size s nw nwu s' :
  build_workplace fast_choice fuel age_brackets age_by_brackets_dic keys size s
    = (Ok (Some (nw, nwu)), s') ->
  matrix_nonneg (contact_matrix_W s) ->
  (forall a b row,
     head nw = Some a -> dict_get a age_by_brackets_dic = Some b ->
     rows (contact_matrix_W s) !! Nat.min b (length (rows (contact_matrix_W s)) - 1)
       = Some row ->
     (Qsum row == 0)%Q) ->
  pool_uids s ≡ₚ nwu ++ pool_uids s' /\
  (length nwu = 1 \/ workers_left s' = 0%Z).
Proof.
  intros H Hnn Hrow.
  apply build_workplace_Ok in H
    as (aindex & uid & ea & eu & -> & -> & _ & Hperm & _ & b & Hb & Hzero).
  split; [exact Hperm |].
  destruct Hzero as [-> | Hleft]; [| by left | by right].
  intros row Hr. apply Qsum_zero_nonneg.
  - unfold matrix_nonneg in Hnn. rewrite Forall_lookup in Hnn. eapply Hnn, Hr.
  - eapply Hrow; [reflexivity | exact Hb | exact Hr].
Qed.
Lemma zero_row_fills_no_slot_witness :
  pool_uids ex_zero_row_workers ≡ₚ [1] ++ [2; 3; 4; 5; 6; 7] /\
  (length [1] = 1 \/ 6%Z = 0%Z).
Proof.
  apply (zero_row_fills_no_slot fast_choice_weighted 5 ex_two_brackets
           ex_age_to_two_brackets [20; 30] 3%Z ex_zero_row_workers [20] [1]
           (WState [(2, 30); (3, 30); (4, 30); (5, 30); (6, 30); (7, 30)]
              [(20, []); (30, [2; 3; 4; 5; 6; 7])] [(20, 0%Z); (30, 6%Z)]
              (Matrix 2 [[0; 0]; [0; 1]]%Q) [])).
  - vm_compute. reflexivity.
  - repeat constructor; vm_compute; discriminate.
  - intros a b row [= <-] [= <-] [= <-]. reflexivity.
Defined.

(** C6 as stated fails.  The anchor (uid 1, age 20) is in the bracket whose
    row sums to zero, six workers wait in the pool of age 30, and the target
    size is 3: the two remaining slots are skipped and the workplace is the
    anchor alone.  The second workplace, whose anchor has a row with weight,
    is filled; at the end uids 6 and 7 are still in the pool. *)
Lemma zero_row_slots_are_skipped :
  assign_rest_of_workers fast_choice_weighted 5 ex_two_brackets
    ex_age_to_two_brackets [3; 4]%Z ex_zero_row_workers
  = (Ok ([[20]; [30; 30; 30; 30]], [[1]; [2; 3; 4; 5]]),
     WState [(6, 30); (7, 30)] [(20, []); (30, [6; 7])] [(20, 0%Z); (30, 2%Z)]
       (Matrix 2 [[0; 0]; [0; 1]]%Q) []) /\
  (Z.of_nat (length [1]) < 3)%Z.
Proof. split; [vm_compute; reflexivity | cbn; lia]. Qed.
(** ** Graphs *)

Lemma edge_lt (i j : nat) : i < j -> edge i j = (i, j).
Proof. intros H. unfold edge. destruct (i <=? j) eqn:E; [done |]. apply Nat.leb_gt in E. lia. Qed.

Lemma edge_comm (i j : nat) : edge i j = edge j i.
Proof.
  unfold edge. destruct (i <=? j) eqn:E1, (j <=? i) eqn:E2;
    try apply Nat.leb_le in E1; try apply Nat.leb_le in E2;
    try apply Nat.leb_gt in E1; try apply Nat.leb_gt in E2;
    try reflexivity; try lia.
  assert (i = j) as -> by lia. reflexivity.
Qed.

Lemma edge_inj (i j j' : nat) : edge i j = edge i j' -> j = j'.
Proof.
  unfold edge. destruct (i <=? j) eqn:E1, (i <=? j') eqn:E2;
    try apply Nat.leb_le in E1; try apply Nat.leb_le in E2;
    try apply Nat.leb_gt in E1; try apply Nat.leb_gt in E2;
    intros H; inversion H; lia.
Qed.

Lemma node_pairs_spec (n a b : nat) : (a, b) ∈ node_pairs n <-> a < b /\ b < n.
Proof.
  unfold node_pairs. rewrite list_elem_of_In, in_flat_map. split.
  - intros (i & Hi & Hin). apply in_flat_map in Hin as (j & Hj & Hin).
    apply in_seq in Hi, Hj. destruct (i <? j) eqn:E; [| destruct Hin].
    apply Nat.ltb_lt in E. destruct Hin as [[= <- <-] | []]. lia.
  - intros [Hab Hb]. exists a. split; [apply in_seq; lia |].
    apply in_flat_map. exists b. split; [apply in_seq; lia |].
    assert ((a <? b) = true) as -> by (apply Nat.ltb_lt; lia). by left.
Qed.

Lemma complete_graph_spec (n a b : nat) : (a, b) ∈ complete_graph n <-> a < b /\ b < n.
Proof.
  unfold complete_graph. rewrite elem_of_list_to_set. apply node_pairs_spec.
Qed.

Lemma wf_complete_graph (n : nat) : wf_graph n (complete_graph n).
Proof. intros a b H. by apply complete_graph_spec. Qed.

Lemma wf_graph_subseteq (n : nat) (G G' : gset (nat * nat)) :
  G' ⊆ G -> wf_graph n G -> wf_graph n G'.
Proof. intros Hsub Hwf a b H. apply Hwf. set_solver. Qed.

Lemma wf_add_edge (n : nat) (G : gset (nat * nat)) (i j : nat) :
  i < j -> j < n -> wf_graph n G -> wf_graph n (add_edge i j G).
Proof.
  intros Hij Hj Hwf a b H. unfold add_edge in H. rewrite (edge_lt _ _ Hij) in H.
  apply elem_of_union in H as [H | H]; [| by apply Hwf].
  apply elem_of_singleton in H. injection H as -> ->. lia.
Qed.

Lemma neighbors_spec (n : nat) (G : gset (nat * nat)) (i j : nat) :
  j ∈ neighbors n G i <-> j < n /\ edge i j ∈ G.
Proof.
  unfold neighbors. rewrite list_elem_of_In, filter_In, in_seq, bool_decide_eq_true.
  split; intros [H1 H2]; split; auto; lia.
Qed.

Lemma neighbors_in_spec (n : nat) (G : gset (nat * nat)) (nodes : list nat) (i j : nat) :
  j ∈ neighbors_in n G nodes i <-> j ∈ nodes /\ j < n /\ edge i j ∈ G.
Proof.
  unfold neighbors_in. rewrite list_elem_of_In, filter_In, bool_decide_eq_true.
  rewrite <- list_elem_of_In, neighbors_spec. tauto.
Qed.

Lemma NoDup_neighbors_in (n : nat) (G : gset (nat * nat)) (nodes : list nat) (i : nat) :
  NoDup (neighbors_in n G nodes i).
Proof.
  unfold neighbors_in, neighbors. apply NoDup_ListNoDup.
  do 2 apply List.NoDup_filter. apply seq_NoDup.
Qed.

Lemma remove_edge_total {St : Type} (i j : nat) (G : gset (nat * nat)) (s : St) :
  edge i j ∈ G -> remove_edge i j G s = (Ok (G ∖ {[edge i j]}), s).
Proof. intros H. unfold remove_edge. by rewrite decide_True. Qed.

Lemma remove_edge_Ok {St : Type} (i j : nat) (G : gset (nat * nat)) (s : St) G' s' :
  remove_edge i j G s = (Ok G', s') -> G' = G ∖ {[edge i j]} /\ s' = s.
Proof. unfold remove_edge. destruct (decide _); intros H; monad_inv; auto. Qed.

Lemma list_remove_first_length (x : nat) (l : list nat) :
  x ∈ l -> S (length (list_remove_first x l)) = length l.
Proof.
  induction l as [| y l IH]; cbn; [intros H; by apply elem_of_nil in H |].
  intros H. destruct (decide (y = x)); [reflexivity |]. cbn. f_equal. apply IH.
  apply elem_of_cons in H as [-> | H]; [congruence | exact H].
Qed.

Lemma list_remove_first_elem (x y : nat) (l : list nat) :
  NoDup l -> (y ∈ list_remove_first x l <-> y ∈ l /\ y <> x).
Proof.
  induction 1 as [| z l Hz Hnd IH]; cbn; [set_solver |].
  destruct (decide (z = x)) as [-> | Hne].
  - split; [intros H; split; [set_solver | intros ->; contradiction] | set_solver].
  - rewrite !elem_of_cons, IH. split; [intros [-> | [? ?]]; auto | tauto].
Qed.

Lemma list_remove_first_NoDup (x : nat) (l : list nat) :
  NoDup l -> NoDup (list_remove_first x l).
Proof.
  induction 1 as [| z l Hz Hnd IH]; cbn; [constructor |].
  destruct (decide (z = x)); [exact Hnd |]. constructor; [| exact IH].
  rewrite list_remove_first_elem by exact Hnd. tauto.
Qed.

(** ** The graph of [create_reduced_contacts_with_group_types] *)

Lemma cut_one_edge_total (n i : nat) (G0 : gset (nat * nat)) (len0 k : nat)
    (locals : gset (nat * nat) * list nat) (g : rng) :
  k < len0 -> cut_invariant n i G0 len0 k locals ->
  exists locals' g', cut_one_edge i locals g = (Ok locals', g') /\
    cut_invariant n i G0 len0 (S k) locals'.
Proof.
  destruct locals as [G l]. intros Hk (Hnd & Hadj & Hsub & Hlen). cbn in *.
  destruct (np_choice_total l g) as (j & g' & Hj).
  { destruct l; [cbn in Hlen; lia | done]. }
  pose proof (np_choice_Ok _ _ _ _ Hj) as Hin.
  exists (G ∖ {[edge i j]}, list_remove_first j l), g'. split.
  - rewrite (bind_Ok_intro _ _ _ _ _ Hj).
    rewrite (bind_Ok_intro _ _ _ _ _ (remove_edge_total i j G g' (Hadj j Hin))).
    reflexivity.
  - repeat split; cbn.
    + by apply list_remove_first_NoDup.
    + intros j' Hj'. apply list_remove_first_elem in Hj' as [Hj' Hne]; [| exact Hnd].
      apply elem_of_difference. split; [by apply Hadj |].
      intros Heq. apply elem_of_singleton in Heq. apply edge_inj in Heq. congruence.
    + set_solver.
    + pose proof (list_remove_first_length j l Hin). lia.
Qed.

Lemma cut_surplus_edges_total (n : nat) (n1 : list nat) (d : Z)
    (G : gset (nat * nat)) (i : nat) (g : rng) :
  (0 <= d)%Z ->
  exists G' g', cut_surplus_edges n n1 d G i g = (Ok G', g') /\ G' ⊆ G.
Proof.
  intros Hd. unfold cut_surplus_edges.
  set (l := neighbors_in n G n1 i).
  destruct (d <? Z.of_nat (length l))%Z eqn:E; [| exists G, g; split; [done | set_solver]].
  apply Z.ltb_lt in E.
  destruct (repeat_m_total
              (fun k locals (_ : rng) => cut_invariant n i G (length l) k locals)
              (Z.to_nat (Z.of_nat (length l) - d)) (cut_one_edge i))
    with (b := (G, l)) (s := g) as (locals' & g' & Hrun & Hinv).
  - intros k locals t Hk Hinv. apply cut_one_edge_total; [lia | exact Hinv].
  - repeat split; cbn.
    + apply NoDup_neighbors_in.
    + intros j Hj. by apply neighbors_in_spec in Hj as (_ & _ & Hj).
    + set_solver.
    + lia.
  - exists locals'.1, g'. rewrite (bind_Ok_intro _ _ _ _ _ Hrun).
    split; [reflexivity |]. by destruct Hinv as (_ & _ & Hsub & _).
Qed.

Lemma sbm_accepts_share (n_1 n_2 : nat) (d : Z) :
  (0 <= d)%Z -> (d < Z.of_nat (n_1 + n_2))%Z ->
  let k := (inject_Z d / inject_Z (Z.of_nat (foldr Nat.add 0%nat [n_1; n_2])))%Q in
  sbm_accepts [n_1; n_2] [[k; k]; [k; k]] = true.
Proof.
  intros Hd Hn k.
  assert (Hk0 : Qle_bool 0 k = true).
  { apply Qle_bool_iff. unfold k. cbn [foldr]. rewrite Nat.add_0_r.
    apply Qle_shift_div_l.
    - change 0%Q with (inject_Z 0). rewrite <- Zlt_Qlt. lia.
    - rewrite Qmult_0_l. change 0%Q with (inject_Z 0). rewrite <- Zle_Qle. lia. }
  assert (Hk1 : Qle_bool k 1 = true).
  { apply Qle_bool_iff. unfold k. cbn [foldr]. rewrite Nat.add_0_r.
    apply Qle_shift_div_r.
    - change 0%Q with (inject_Z 0). rewrite <- Zlt_Qlt. lia.
    - rewrite Qmult_1_l. rewrite <- Zle_Qle. lia. }
  assert (Hkk : Qeq_bool k k = true) by (apply Qeq_bool_iff; reflexivity).
  unfold sbm_accepts. cbn. rewrite Hk0, Hk1, Hkk. reflexivity.
Qed.

Lemma stochastic_block_model_total (sizes : list nat) (p : list (list Q)) (g : rng) :
  sbm_accepts sizes p = true ->
  exists G g', stochastic_block_model sizes p g = (Ok G, g') /\
    G ⊆ complete_graph (foldr Nat.add 0 sizes).
Proof.
  intros Hacc. unfold stochastic_block_model. rewrite Hacc. cbn [negb].
  apply (fold_m_total (fun (G : gset (nat * nat)) (_ : rng) =>
                         G ⊆ complete_graph (foldr Nat.add 0 sizes))); [| set_solver].
  intros [a b] G t Hin HG. cbv beta.
  assert (Hab : {[(a, b)]} ∪ G ⊆ complete_graph (foldr Nat.add 0 sizes)).
  { apply node_pairs_spec in Hin. apply complete_graph_spec in Hin. set_solver. }
  destruct (Qle_bool _ 0); [by eexists _, _ |].
  destruct (Qle_bool 1 _); [by eexists _, _ |].
  destruct (draw_Ok t) as (r & t' & Hr). rewrite (bind_Ok_intro _ _ _ _ _ Hr).
  destruct (r mod 2 =? 1); by eexists _, _.
Qed.
Lemma cross_edge_in_complete (n_1 n_2 i j : nat) :
  i ∈ seq 0 n_1 -> j ∈ seq n_1 n_2 ->
  edge i j = (i, j) /\ (i, j) ∈ complete_graph (n_1 + n_2).
Proof.
  intros Hi Hj. apply list_elem_of_In, in_seq in Hi, Hj.
  split; [apply edge_lt; lia | apply complete_graph_spec; lia].
Qed.

Lemma add_cross_edge_total (n_1 n_2 : nat) (G : gset (nat * nat)) (i : nat) (g : rng) :
  1 <= n_2 -> i ∈ seq 0 n_1 -> G ⊆ complete_graph (n_1 + n_2) ->
  exists G' g',
    add_cross_edge (n_1 + n_2) (seq n_1 n_2) G i g = (Ok G', g') /\
    G' ⊆ complete_graph (n_1 + n_2).
Proof.
  intros Hn Hi HG. unfold add_cross_edge.
  destruct (length _ =? 0); [| by exists G, g].
  destruct (np_choice_total (seq n_1 n_2) g) as (j & g' & Hj).
  { destruct n_2; [lia | done]. }
  rewrite (bind_Ok_intro _ _ _ _ _ Hj). apply np_choice_Ok in Hj.
  destruct (cross_edge_in_complete n_1 n_2 i j Hi Hj) as [He Hin].
  eexists _, _. split; [reflexivity |]. unfold add_edge. rewrite He. set_solver.
Qed.

Lemma swap_cross_edge_total (n_1 n_2 : nat) (G : gset (nat * nat)) (i : nat) (g : rng) :
  1 <= n_2 -> i ∈ seq 0 n_1 -> G ⊆ complete_graph (n_1 + n_2) ->
  exists G' g',
    swap_cross_edge (n_1 + n_2) (seq n_1 n_2) G i g = (Ok G', g') /\
    G' ⊆ complete_graph (n_1 + n_2).
Proof.
  intros Hn Hi HG. unfold swap_cross_edge.
  destruct (length _ =? 0); [| by exists G, g].
  destruct (np_choice_total (seq n_1 n_2) g) as (j & g' & Hj).
  { destruct n_2; [lia | done]. }
  rewrite (bind_Ok_intro _ _ _ _ _ Hj). apply np_choice_Ok in Hj.
  destruct (cross_edge_in_complete n_1 n_2 i j Hi Hj) as [He Hin].
  assert (Hadd : add_edge i j G ⊆ complete_graph (n_1 + n_2)).
  { unfold add_edge. rewrite He. set_solver. }
  set (l := neighbors_in (n_1 + n_2) G (seq n_1 n_2) j).
  destruct (0 <? length l) eqn:El; [| by eexists _, _].
  destruct (np_choice_total l g') as (c & g'' & Hc).
  { destruct l; [discriminate El | done]. }
  rewrite (bind_Ok_intro _ _ _ _ _ Hc). apply np_choice_Ok in Hc.
  apply neighbors_in_spec in Hc as (_ & _ & Hc).
  rewrite remove_edge_total; [| unfold add_edge; set_solver].
  eexists _, _. split; [reflexivity | set_solver].
Qed.

(** With two populated groups, a degree of two at least and a matrix that
    networkx accepts, the graph is built, and it joins distinct positions of
    [group] only. *)
Lemma reduced_graph_total (n_1 n_2 : nat) (d : Z) (pm : option (list (list Q)))
    (g : rng) :
  1 <= n_2 -> (2 <= d)%Z -> p_matrix_accepted n_1 n_2 pm ->
  exists G g',
    reduced_graph n_1 n_2 d pm g = (Ok G, g') /\ G ⊆ complete_graph (n_1 + n_2).
Proof.
  intros Hn Hd Hpm. unfold reduced_graph.
  destruct (Z.of_nat (n_1 + n_2) <=? d)%Z eqn:E1; [by eexists _, _ |].
  apply Z.leb_gt in E1.
  destruct (n_2 <? 2) eqn:E2.
  - apply (fold_m_total (fun (G : gset (nat * nat)) (_ : rng) =>
                           G ⊆ complete_graph (n_1 + n_2))); [| done].
    intros i G t _ HG.
    destruct (cut_surplus_edges_total (n_1 + n_2) (seq 0 n_1) d G i t)
      as (G' & t' & Hrun & Hsub); [lia |].
    exists G', t'. split; [exact Hrun | set_solver].
  - assert (Hacc : sbm_accepts [n_1; n_2]
              (default
                 (let k := (inject_Z d / inject_Z (Z.of_nat (foldr Nat.add 0%nat [n_1; n_2])))%Q in
                  [[k; k]; [k; k]]) pm) = true).
    { destruct pm as [p |]; [exact Hpm |]. apply sbm_accepts_share; lia. }
    destruct (stochastic_block_model_total _ _ g Hacc) as (G & g1 & Hsbm & HG).
    cbv zeta in Hsbm |- *. rewrite (bind_Ok_intro _ _ _ _ _ Hsbm).
    assert (Hsum : foldr Nat.add 0 [n_1; n_2] = n_1 + n_2) by (cbn; lia).
    rewrite Hsum in HG.
    destruct (length _ =? 0).
    + apply (fold_m_total (fun (G : gset (nat * nat)) (_ : rng) =>
                             G ⊆ complete_graph (n_1 + n_2))); [| exact HG].
      intros i G0 t Hi HG0. by apply add_cross_edge_total.
    + apply (fold_m_total (fun (G : gset (nat * nat)) (_ : rng) =>
                             G ⊆ complete_graph (n_1 + n_2))); [| exact HG].
      intros i G0 t Hi HG0. by apply swap_cross_edge_total.
Qed.

(** Whatever the matrix: a graph that is returned joins distinct positions
    of [group] only. *)
Lemma reduced_graph_Ok (n_1 n_2 : nat) (d : Z) (pm : option (list (list Q)))
    (g : rng) G g' :
  1 <= n_2 -> (2 <= d)%Z ->
  reduced_graph n_1 n_2 d pm g = (Ok G, g') ->
  G ⊆ complete_graph (n_1 + n_2).
Proof.
  intros Hn Hd Hrun.
  destruct pm as [p |].
  - destruct (sbm_accepts [n_1; n_2] p) eqn:Hacc.
    + destruct (reduced_graph_total n_1 n_2 d (Some p) g Hn Hd Hacc)
        as (G0 & g0 & Hrun0 & HG0).
      rewrite Hrun in Hrun0. by injection Hrun0 as <- <-.
    + destruct (reduced_graph_total n_1 n_2 d None g Hn Hd I)
        as (G0 & g0 & Hrun0 & HG0).
      unfold reduced_graph in Hrun, Hrun0.
      destruct (Z.of_nat (n_1 + n_2) <=? d)%Z;
        [rewrite Hrun in Hrun0; by injection Hrun0 as <- <- |].
      destruct (n_2 <? 2);
        [rewrite Hrun in Hrun0; by injection Hrun0 as <- <- |].
      cbv zeta in Hrun. cbn [default] in Hrun.
      unfold stochastic_block_model in Hrun at 1. unfold id in Hrun.
      rewrite Hacc in Hrun. discriminate Hrun.
  - destruct (reduced_graph_total n_1 n_2 d None g Hn Hd I)
      as (G0 & g0 & Hrun0 & HG0).
    rewrite Hrun in Hrun0. by injection Hrun0 as <- <-.
Qed.

(** ** Assignments to the population dictionary *)

Lemma person_of_Ok uid s p s' :
  person_of uid s = (Ok p, s') -> popdict s !! uid = Some p /\ s' = s.
Proof. unfold person_of. intros H. monad_inv. auto. Qed.

Lemma set_attr_Ok uid key v s u s' :
  set_attr uid key v s = (Ok u, s') ->
  write_attr uid (popdict s) (popdict s') /\ c_gen s' = c_gen s.
Proof.
  unfold set_attr. intros H. monad_inv.
  match goal with H : person_of _ _ = _ |- _ => apply person_of_Ok in H as [Hp ->] end.
  split; [| reflexivity]. eexists _, _. split; [exact Hp | reflexivity].
Qed.

Lemma set_contacts_Ok uid layer c s u s' :
  set_contacts uid layer c s = (Ok u, s') ->
  write_layer uid layer c (popdict s) (popdict s') /\ c_gen s' = c_gen s.
Proof.
  unfold set_contacts. intros H. monad_inv.
  match goal with H : person_of _ _ = _ |- _ => apply person_of_Ok in H as [Hp ->] end.
  split; [| reflexivity]. eexists. split; [exact Hp | reflexivity].
Qed.

Lemma get_contacts_Ok uid layer s c s' :
  get_contacts uid layer s = (Ok c, s') ->
  s' = s /\ exists p, popdict s !! uid = Some p /\ contacts p !! layer = Some c.
Proof.
  unfold get_contacts. intros H. monad_inv.
  match goal with H : person_of _ _ = _ |- _ => apply person_of_Ok in H as [Hp ->] end.
  eauto.
Qed.

Lemma add_contact_Ok uid layer v s u s' :
  add_contact uid layer v s = (Ok u, s') ->
  exists p c, popdict s !! uid = Some p /\ contacts p !! layer = Some c /\
    write_layer uid layer ({[v]} ∪ c) (popdict s) (popdict s') /\
    c_gen s' = c_gen s.
Proof.
  unfold add_contact. intros H. monad_inv.
  match goal with H : get_contacts _ _ _ = _ |- _ =>
    apply get_contacts_Ok in H as (-> & p & Hp & Hc) end.
  apply set_contacts_Ok in H as [Hw Hg]. eauto 10.
Qed.

Lemma add_contact_total uid layer v s :
  has_layer (popdict s) layer uid ->
  exists s', add_contact uid layer v s = (Ok tt, s') /\
    exists p c, popdict s !! uid = Some p /\ contacts p !! layer = Some c /\
      write_layer uid layer ({[v]} ∪ c) (popdict s) (popdict s') /\
      c_gen s' = c_gen s.
Proof.
  intros (p & c & Hp & Hc). unfold add_contact, get_contacts, set_contacts, person_of.
  unfold bind, gets, lift_opt, modify, ret. rewrite Hp. cbn. rewrite Hc. cbn. rewrite Hp.
  eexists. split; [reflexivity |]. exists p, c. repeat split; auto.
  exists p. split; [exact Hp | reflexivity].
Qed.

Lemma remove_contact_Ok uid layer v s u s' :
  remove_contact uid layer v s = (Ok u, s') ->
  exists p c, popdict s !! uid = Some p /\ contacts p !! layer = Some c /\
    write_layer uid layer (c ∖ {[v]}) (popdict s) (popdict s') /\
    c_gen s' = c_gen s.
Proof.
  unfold remove_contact. intros H. monad_inv.
  match goal with H : get_contacts _ _ _ = _ |- _ =>
    apply get_contacts_Ok in H as (-> & p & Hp & Hc) end.
  destruct (decide _); [| discriminate H].
  apply set_contacts_Ok in H as [Hw Hg]. eauto 10.
Qed.

(** ** What an assignment keeps *)

Lemma same_layer_refl layer pd : same_layer layer pd pd.
Proof. intros uid p Hp. eauto. Qed.

Lemma same_layer_trans layer pd1 pd2 pd3 :
  same_layer layer pd1 pd2 -> same_layer layer pd2 pd3 -> same_layer layer pd1 pd3.
Proof.
  intros H12 H23 uid p3 Hp3. destruct (H23 uid p3 Hp3) as (p2 & Hp2 & E23).
  destruct (H12 uid p2 Hp2) as (p1 & Hp1 & E12). exists p1. split; congruence.
Qed.

Lemma write_attr_same_layer uid layer pd pd' :
  write_attr uid pd pd' -> same_layer layer pd pd'.
Proof.
  intros (p & a & Hp & ->) u p' Hp'.
  destruct (decide (uid = u)) as [<- | Hne].
  - rewrite lookup_insert_eq in Hp'. injection Hp' as <-. eauto.
  - rewrite lookup_insert_ne in Hp' by done. eauto.
Qed.

Lemma write_layer_same_layer uid layer layer' c pd pd' :
  write_layer uid layer c pd pd' -> layer' <> layer -> same_layer layer' pd pd'.
Proof.
  intros (p & Hp & ->) Hne u p' Hp'.
  destruct (decide (uid = u)) as [<- | Hneu].
  - rewrite lookup_insert_eq in Hp'. injection Hp' as <-. exists p.
    split; [exact Hp |]. cbn. by rewrite lookup_insert_ne.
  - rewrite lookup_insert_ne in Hp' by done. eauto.
Qed.

Lemma write_attr_no_self uid pd pd' :
  write_attr uid pd pd' -> no_self_contact pd -> no_self_contact pd'.
Proof.
  intros (p & a & Hp & ->) Hns u p' l c Hp' Hc.
  destruct (decide (uid = u)) as [<- | Hne].
  - rewrite lookup_insert_eq in Hp'. injection Hp' as <-. cbn in Hc. eauto.
  - rewrite lookup_insert_ne in Hp' by done. eauto.
Qed.

Lemma write_layer_no_self uid layer c pd pd' :
  write_layer uid layer c pd pd' -> uid ∉ c ->
  no_self_contact pd -> no_self_contact pd'.
Proof.
  intros (p & Hp & ->) Hc Hns u p' l c' Hp' Hc'.
  destruct (decide (uid = u)) as [<- | Hne].
  - rewrite lookup_insert_eq in Hp'. injection Hp' as <-. cbn in Hc'.
    destruct (decide (layer = l)) as [<- | Hnl].
    + rewrite lookup_insert_eq in Hc'. by injection Hc' as <-.
    + rewrite lookup_insert_ne in Hc' by done. eauto.
  - rewrite lookup_insert_ne in Hp' by done. eauto.
Qed.

Lemma write_attr_has_layer uid pd pd' layer u :
  write_attr uid pd pd' -> has_layer pd layer u -> has_layer pd' layer u.
Proof.
  intros (p & a & Hp & ->) (q & c & Hq & Hc).
  destruct (decide (uid = u)) as [<- | Hne].
  - exists (Person a (contacts p)), c. rewrite lookup_insert_eq.
    split; [reflexivity |]. cbn. congruence.
  - exists q, c. by rewrite lookup_insert_ne.
Qed.

Lemma write_layer_has_layer uid layer c pd pd' layer' u :
  write_layer uid layer c pd pd' -> has_layer pd layer' u -> has_layer pd' layer' u.
Proof.
  intros (p & Hp & ->) (q & c' & Hq & Hc').
  destruct (decide (uid = u)) as [<- | Hne].
  - assert (q = p) as -> by congruence.
    destruct (decide (layer = layer')) as [<- | Hnl].
    + eexists _, c. rewrite lookup_insert_eq. split; [reflexivity |]. cbn.
      by rewrite lookup_insert_eq.
    + eexists _, c'. rewrite lookup_insert_eq. split; [reflexivity |]. cbn.
      by rewrite lookup_insert_ne.
  - exists q, c'. by rewrite lookup_insert_ne.
Qed.

Lemma write_layer_contact_set uid layer c pd pd' layer' u :
  write_layer uid layer c pd pd' ->
  contact_set pd' layer' u
    = if decide (uid = u /\ layer = layer') then c else contact_set pd layer' u.
Proof.
  intros (p & Hp & ->). unfold contact_set.
  destruct (decide (uid = u)) as [<- | Hne].
  - rewrite lookup_insert_eq, Hp. cbn.
    destruct (decide (layer = layer')) as [<- | Hnl].
    + rewrite lookup_insert_eq. by rewrite decide_True.
    + rewrite lookup_insert_ne by done. rewrite decide_False by tauto. reflexivity.
  - rewrite lookup_insert_ne by done. rewrite decide_False by tauto. reflexivity.
Qed.

Lemma write_attr_contact_set uid pd pd' layer u :
  write_attr uid pd pd' -> contact_set pd' layer u = contact_set pd layer u.
Proof.
  intros (p & a & Hp & ->). unfold contact_set.
  destruct (decide (uid = u)) as [<- | Hne].
  - by rewrite lookup_insert_eq, Hp.
  - by rewrite lookup_insert_ne.
Qed.

Lemma write_layer_dom uid layer c pd pd' :
  write_layer uid layer c pd pd' -> dom pd' = dom pd.
Proof.
  intros (p & Hp & ->). rewrite dom_insert_L.
  apply elem_of_dom_2 in Hp. set_solver.
Qed.

Lemma write_attr_dom uid pd pd' : write_attr uid pd pd' -> dom pd' = dom pd.
Proof.
  intros (p & a & Hp & ->). rewrite dom_insert_L.
  apply elem_of_dom_2 in Hp. set_solver.
Qed.
Lemma has_layer_contact_set pd layer uid p c :
  pd !! uid = Some p -> contacts p !! layer = Some c -> contact_set pd layer uid = c.
Proof. intros Hp Hc. unfold contact_set. by rewrite Hp; cbn; rewrite Hc. Qed.

Lemma add_contact_adds uid layer v s u s' :
  add_contact uid layer v s = (Ok u, s') ->
  adds_contact uid layer v (popdict s) (popdict s') /\ c_gen s' = c_gen s.
Proof.
  intros H. apply add_contact_Ok in H as (p & c & Hp & Hc & Hw & Hg).
  split; [| exact Hg]. split; [by exists p, c |].
  by rewrite (has_layer_contact_set _ _ _ _ _ Hp Hc).
Qed.

Lemma add_contact_returns uid layer v s :
  has_layer (popdict s) layer uid ->
  exists s', add_contact uid layer v s = (Ok tt, s') /\
    adds_contact uid layer v (popdict s) (popdict s') /\ c_gen s' = c_gen s.
Proof.
  intros Hl. destruct (add_contact_total uid layer v s Hl) as (s' & Hrun & _).
  exists s'. split; [exact Hrun |]. by apply add_contact_adds in Hrun.
Qed.

Lemma adds_contact_same_layer uid layer v pd pd' layer' :
  adds_contact uid layer v pd pd' -> layer' <> layer -> same_layer layer' pd pd'.
Proof. intros [_ Hw] Hne. by apply (write_layer_same_layer _ _ _ _ _ _ Hw). Qed.

Lemma adds_contact_has_layer uid layer v pd pd' layer' u :
  adds_contact uid layer v pd pd' -> has_layer pd layer' u -> has_layer pd' layer' u.
Proof. intros [_ Hw]. by apply (write_layer_has_layer _ _ _ _ _ _ _ Hw). Qed.

Lemma adds_contact_contact_set uid layer v pd pd' layer' u :
  adds_contact uid layer v pd pd' ->
  contact_set pd' layer' u
    = if decide (uid = u /\ layer = layer') then {[v]} ∪ contact_set pd layer' u
      else contact_set pd layer' u.
Proof.
  intros [_ Hw]. rewrite (write_layer_contact_set _ _ _ _ _ layer' u Hw).
  destruct (decide _) as [[<- <-] |]; reflexivity.
Qed.

Lemma adds_contact_mono uid layer v pd pd' layer' u :
  adds_contact uid layer v pd pd' ->
  contact_set pd layer' u ⊆ contact_set pd' layer' u.
Proof.
  intros H. rewrite (adds_contact_contact_set _ _ _ _ _ layer' u H).
  destruct (decide _); set_solver.
Qed.

Lemma adds_contact_elem uid layer v pd pd' :
  adds_contact uid layer v pd pd' -> v ∈ contact_set pd' layer uid.
Proof.
  intros H. rewrite (adds_contact_contact_set _ _ _ _ _ layer uid H).
  rewrite decide_True by done. set_solver.
Qed.

Lemma no_self_contact_set pd layer uid :
  no_self_contact pd -> uid ∉ contact_set pd layer uid.
Proof.
  intros Hns. unfold contact_set.
  destruct (pd !! uid) as [p |] eqn:Hp; cbn; [| set_solver].
  destruct (contacts p !! layer) as [c |] eqn:Hc; cbn; [| set_solver]. eauto.
Qed.

Lemma adds_contact_no_self uid layer v pd pd' :
  adds_contact uid layer v pd pd' -> uid <> v ->
  no_self_contact pd -> no_self_contact pd'.
Proof.
  intros [_ Hw] Hne Hns. apply (write_layer_no_self _ _ _ _ _ Hw); [| exact Hns].
  pose proof (no_self_contact_set pd layer uid Hns). set_solver.
Qed.

Lemma adds_contact_dom uid layer v pd pd' :
  adds_contact uid layer v pd pd' -> dom pd' = dom pd.
Proof. intros [_ Hw]. by apply write_layer_dom in Hw. Qed.

(** ** One edge of the graph, lines 376-383 *)

Lemma add_edge_contacts_Ok group setting e s u s' :
  add_edge_contacts group setting e s = (Ok u, s') ->
  exists id_i id_j pd1,
    group !! e.1 = Some id_i /\ group !! e.2 = Some id_j /\
    adds_contact id_i setting id_j (popdict s) pd1 /\
    adds_contact id_j setting id_i pd1 (popdict s') /\
    c_gen s' = c_gen s.
Proof.
  destruct e as [i j]. unfold add_edge_contacts. intros H. monad_inv.
  repeat match goal with H : add_contact _ _ _ _ = (Ok _, _) |- _ =>
    let Ha := fresh "Ha" in let Hg := fresh "Hg" in
    apply add_contact_adds in H as [Ha Hg] end.
  eexists _, _, _. do 4 (split; [eassumption |]). congruence.
Qed.

Lemma add_edge_contacts_returns group setting e s id_i id_j :
  group !! e.1 = Some id_i -> group !! e.2 = Some id_j ->
  has_layer (popdict s) setting id_i -> has_layer (popdict s) setting id_j ->
  exists s', add_edge_contacts group setting e s = (Ok tt, s').
Proof.
  destruct e as [i j]. cbn [fst snd]. intros Hi Hj Hli Hlj. unfold add_edge_contacts.
  rewrite Hi, Hj. cbn [lift_opt].
  destruct (add_contact_returns id_i setting id_j s Hli) as (s1 & Hrun1 & Ha1 & _).
  destruct (add_contact_returns id_j setting id_i s1) as (s2 & Hrun2 & _).
  { by apply (adds_contact_has_layer _ _ _ _ _ _ _ Ha1). }
  exists s2. unfold bind at 1. unfold ret at 1. unfold bind at 1. unfold ret at 1.
  by rewrite (bind_Ok_intro _ _ _ _ _ Hrun1).
Qed.
(** ** Lines 304-305: every person gets a contact set for the setting *)

Lemma setdefault_lookup_ne {V : Type} (k k' : string) (v : V) (d : gmap string V) :
  k' <> k -> setdefault k v d !! k' = d !! k'.
Proof.
  intros Hne. unfold setdefault. destruct (d !! k); [reflexivity |].
  by rewrite lookup_insert_ne.
Qed.

Lemma setdefault_lookup_eq {V : Type} (k : string) (v : V) (d : gmap string V) :
  setdefault k v d !! k = Some (default v (d !! k)).
Proof.
  unfold setdefault. destruct (d !! k) eqn:E; cbn; [exact E |].
  by rewrite lookup_insert_eq.
Qed.

Lemma setdefault_layer_lookup setting pd uid :
  setdefault_layer setting pd !! uid
    = (fun p => Person (attrs p) (setdefault setting ∅ (contacts p))) <$> pd !! uid.
Proof. unfold setdefault_layer. by rewrite lookup_fmap. Qed.

Lemma setdefault_layer_has_layer setting pd uid :
  is_Some (pd !! uid) -> has_layer (setdefault_layer setting pd) setting uid.
Proof.
  intros [p Hp]. eexists _, _. rewrite setdefault_layer_lookup, Hp. cbn.
  split; [reflexivity |]. cbn. apply setdefault_lookup_eq.
Qed.

Lemma setdefault_layer_keeps_layer setting pd layer uid :
  has_layer pd layer uid -> has_layer (setdefault_layer setting pd) layer uid.
Proof.
  intros (p & c & Hp & Hc). eexists _, c. rewrite setdefault_layer_lookup, Hp. cbn.
  split; [reflexivity |]. cbn. destruct (decide (layer = setting)) as [-> | Hne].
  - by rewrite setdefault_lookup_eq, Hc.
  - by rewrite setdefault_lookup_ne.
Qed.

Lemma setdefault_layer_contact_set setting pd layer uid :
  contact_set (setdefault_layer setting pd) layer uid = contact_set pd layer uid.
Proof.
  unfold contact_set. rewrite setdefault_layer_lookup.
  destruct (pd !! uid) as [p |]; cbn; [| reflexivity].
  destruct (decide (layer = setting)) as [-> | Hne].
  - rewrite setdefault_lookup_eq. by destruct (contacts p !! setting).
  - by rewrite setdefault_lookup_ne.
Qed.

Lemma setdefault_layer_same_layer setting pd layer :
  layer <> setting -> same_layer layer pd (setdefault_layer setting pd).
Proof.
  intros Hne uid p' Hp'. rewrite setdefault_layer_lookup in Hp'.
  destruct (pd !! uid) as [p |]; [| discriminate Hp']. injection Hp' as <-.
  exists p. split; [reflexivity |]. cbn. by apply setdefault_lookup_ne.
Qed.

Lemma setdefault_layer_no_self setting pd :
  no_self_contact pd -> no_self_contact (setdefault_layer setting pd).
Proof.
  intros Hns uid p' layer c Hp' Hc. rewrite setdefault_layer_lookup in Hp'.
  destruct (pd !! uid) as [p |] eqn:Hp; [| discriminate Hp']. injection Hp' as <-.
  cbn in Hc. destruct (decide (layer = setting)) as [-> | Hne].
  - rewrite setdefault_lookup_eq in Hc. injection Hc as <-.
    destruct (contacts p !! setting) as [c |] eqn:E; cbn; [eauto | set_solver].
  - rewrite setdefault_lookup_ne in Hc by done. eauto.
Qed.

Lemma setdefault_layer_dom setting pd : dom (setdefault_layer setting pd) = dom pd.
Proof. unfold setdefault_layer. by rewrite dom_fmap_L. Qed.
(** ** The loop over the edges, lines 375-383 *)

Lemma add_edge_contacts_same_layer group setting e s u s' layer :
  add_edge_contacts group setting e s = (Ok u, s') -> layer <> setting ->
  same_layer layer (popdict s) (popdict s').
Proof.
  intros H Hne. apply add_edge_contacts_Ok in H as (i & j & pd1 & _ & _ & H1 & H2 & _).
  eapply same_layer_trans; eapply adds_contact_same_layer; eauto.
Qed.

Lemma add_edge_contacts_has_layer group setting e s u s' layer uid :
  add_edge_contacts group setting e s = (Ok u, s') ->
  has_layer (popdict s) layer uid -> has_layer (popdict s') layer uid.
Proof.
  intros H Hl. apply add_edge_contacts_Ok in H as (i & j & pd1 & _ & _ & H1 & H2 & _).
  eapply adds_contact_has_layer; [exact H2 |].
  eapply adds_contact_has_layer; [exact H1 | exact Hl].
Qed.

Lemma add_edge_contacts_mono group setting e s u s' layer uid :
  add_edge_contacts group setting e s = (Ok u, s') ->
  contact_set (popdict s) layer uid ⊆ contact_set (popdict s') layer uid.
Proof.
  intros H. apply add_edge_contacts_Ok in H as (i & j & pd1 & _ & _ & H1 & H2 & _).
  pose proof (adds_contact_mono _ _ _ _ _ layer uid H1).
  pose proof (adds_contact_mono _ _ _ _ _ layer uid H2). set_solver.
Qed.

Lemma edge_loop_same_layer group setting es s u s' layer :
  for_each es (add_edge_contacts group setting) s = (Ok u, s') -> layer <> setting ->
  same_layer layer (popdict s) (popdict s').
Proof.
  intros Hrun Hne.
  apply (for_each_invariant (fun t => same_layer layer (popdict s) (popdict t))
           es (add_edge_contacts group setting)) with (s := s) (u := u);
    [| apply same_layer_refl | exact Hrun].
  intros e t v t' _ HI Hbody. eapply same_layer_trans; [exact HI |].
  eapply add_edge_contacts_same_layer; eauto.
Qed.

Lemma edge_loop_has_layer group setting es s u s' layer uid :
  for_each es (add_edge_contacts group setting) s = (Ok u, s') ->
  has_layer (popdict s) layer uid -> has_layer (popdict s') layer uid.
Proof.
  intros Hrun Hl.
  apply (for_each_invariant (fun t => has_layer (popdict t) layer uid)
           es (add_edge_contacts group setting)) with (s := s) (u := u);
    [| exact Hl | exact Hrun].
  intros e t v t' _ HI Hbody. eapply add_edge_contacts_has_layer; eauto.
Qed.

Lemma edge_loop_mono group setting es s u s' layer uid :
  for_each es (add_edge_contacts group setting) s = (Ok u, s') ->
  contact_set (popdict s) layer uid ⊆ contact_set (popdict s') layer uid.
Proof.
  intros Hrun.
  apply (for_each_invariant
           (fun t => contact_set (popdict s) layer uid ⊆ contact_set (popdict t) layer uid)
           es (add_edge_contacts group setting)) with (s := s) (u := u);
    [| done | exact Hrun].
  intros e t v t' _ HI Hbody.
  pose proof (add_edge_contacts_mono _ _ _ _ _ _ layer uid Hbody). set_solver.
Qed.

Lemma edge_loop_gen group setting es s u s' :
  for_each es (add_edge_contacts group setting) s = (Ok u, s') -> c_gen s' = c_gen s.
Proof.
  intros Hrun.
  apply (for_each_invariant (fun t => c_gen t = c_gen s)
           es (add_edge_contacts group setting)) with (s := s) (u := u);
    [| done | exact Hrun].
  intros e t v t' _ HI Hbody.
  apply add_edge_contacts_Ok in Hbody as (i & j & pd1 & _ & _ & _ & _ & Hg). congruence.
Qed.

Lemma edge_loop_dom group setting es s u s' :
  for_each es (add_edge_contacts group setting) s = (Ok u, s') ->
  dom (popdict s') = dom (popdict s).
Proof.
  intros Hrun.
  apply (for_each_invariant (fun t => dom (popdict t) = dom (popdict s))
           es (add_edge_contacts group setting)) with (s := s) (u := u);
    [| done | exact Hrun].
  intros e t v t' _ HI Hbody.
  apply add_edge_contacts_Ok in Hbody as (i & j & pd1 & _ & _ & H1 & H2 & _).
  apply adds_contact_dom in H1, H2. congruence.
Qed.

(** With each uid once in [group], an edge joins two different people. *)
Lemma edge_loop_no_self (group : list nat) (setting : string)
    (G : gset (nat * nat)) s u s' :
  wf_graph (length group) G -> NoDup group ->
  for_each (elements G) (add_edge_contacts group setting) s = (Ok u, s') ->
  no_self_contact (popdict s) -> no_self_contact (popdict s').
Proof.
  intros Hwf Hnd Hrun Hns.
  apply (for_each_invariant (fun t => no_self_contact (popdict t))
           (elements G) (add_edge_contacts group setting)) with (s := s) (u := u);
    [| exact Hns | exact Hrun].
  intros [a b] t v t' He HI Hbody. apply elem_of_elements, Hwf in He.
  apply add_edge_contacts_Ok in Hbody as (i & j & pd1 & Hi & Hj & H1 & H2 & _).
  cbn [fst snd] in Hi, Hj.
  assert (Hne : i <> j).
  { intros <-. pose proof (NoDup_lookup _ _ _ _ Hnd Hi Hj). lia. }
  eapply adds_contact_no_self; [exact H2 | congruence |].
  eapply adds_contact_no_self; [exact H1 | exact Hne | exact HI].
Qed.

(** Every edge visited joins its two ends, in both directions. *)
Lemma edge_loop_joins group setting es s u s' a b id_a id_b :
  for_each es (add_edge_contacts group setting) s = (Ok u, s') ->
  (a, b) ∈ es -> group !! a = Some id_a -> group !! b = Some id_b ->
  id_b ∈ contact_set (popdict s') setting id_a /\
  id_a ∈ contact_set (popdict s') setting id_b.
Proof.
  intros Hrun He Ha Hb.
  apply (for_each_steps
           (fun visited t => (a, b) ∈ visited ->
              id_b ∈ contact_set (popdict t) setting id_a /\
              id_a ∈ contact_set (popdict t) setting id_b)
           es (add_edge_contacts group setting)) with (s := s) (u := u);
    [| by intros ?%elem_of_nil | exact Hrun | exact He].
  intros visited e t v t' _ HI Hbody Hin.
  apply elem_of_app in Hin as [Hin | Hin].
  - destruct (HI Hin) as [H1 H2].
    pose proof (add_edge_contacts_mono _ _ _ _ _ _ setting id_a Hbody).
    pose proof (add_edge_contacts_mono _ _ _ _ _ _ setting id_b Hbody). set_solver.
  - apply list_elem_of_singleton in Hin as <-.
    apply add_edge_contacts_Ok in Hbody as (i & j & pd1 & Hi & Hj & H1 & H2 & _).
    cbn [fst snd] in Hi, Hj. assert (i = id_a) as -> by congruence.
    assert (j = id_b) as -> by congruence. split.
    + apply (adds_contact_mono _ _ _ _ _ setting id_a H2).
      by apply (adds_contact_elem _ _ _ _ _ H1).
    + by apply (adds_contact_elem _ _ _ _ _ H2).
Qed.

(** The loop returns when the people of [group] all have a contact set for
    the setting. *)
Lemma edge_loop_returns (group : list nat) (setting : string)
    (G : gset (nat * nat)) s :
  wf_graph (length group) G ->
  (forall uid, uid ∈ group -> has_layer (popdict s) setting uid) ->
  exists s', for_each (elements G) (add_edge_contacts group setting) s = (Ok tt, s').
Proof.
  intros Hwf Hl.
  destruct (for_each_total
              (fun t => forall uid, uid ∈ group -> has_layer (popdict t) setting uid)
              (elements G) (add_edge_contacts group setting)) with (s := s)
    as (s' & Hrun & _); [| exact Hl | by exists s'].
  intros [a b] t He HI. apply elem_of_elements, Hwf in He.
  destruct (lookup_lt_is_Some_2 group a) as [i Hi]; [lia |].
  destruct (lookup_lt_is_Some_2 group b) as [j Hj]; [lia |].
  destruct (add_edge_contacts_returns group setting (a, b) t i j) as (t' & Hrun);
    [exact Hi | exact Hj | | |].
  - apply HI. by apply list_elem_of_lookup_2 in Hi.
  - apply HI. by apply list_elem_of_lookup_2 in Hj.
  - exists t'. split; [exact Hrun |]. intros uid Hu.
    eapply add_edge_contacts_has_layer; [exact Hrun | by apply HI].
Qed.
(** ** [create_reduced_contacts_with_group_types] *)

Lemma create_reduced_Ok group_1 group_2 setting d pm fce s u s' :
  create_reduced_contacts_with_group_types group_1 group_2 setting d pm fce s
    = (Ok u, s') ->
  group_1 <> [] /\ group_2 <> [] /\ (2 <= d)%Z /\
  exists G g',
    reduced_graph (length group_1) (length group_2) d pm (c_gen s) = (Ok G, g') /\
    wf_graph (length (group_1 ++ group_2)) G /\
    for_each (elements G) (add_edge_contacts (group_1 ++ group_2) setting)
      (set_c_gen g' (set_popdict (setdefault_layer setting) s)) = (Ok u, s').
Proof.
  unfold create_reduced_contacts_with_group_types. intros H.
  destruct group_1 as [| x1 group_1]; [discriminate H |].
  destruct group_2 as [| x2 group_2]; [discriminate H |].
  cbn [length Nat.eqb orb] in H.
  destruct (d <? 2)%Z eqn:Hd; [discriminate H |]. apply Z.ltb_ge in Hd.
  monad_inv.
  match goal with Hr : c_random _ _ = _ |- _ =>
    apply zoom_Ok in Hr as (g & Hz & ->) end.
  do 3 (split; [done || lia |]).
  eexists _, g. split; [exact Hz |]. split; [| exact H].
  rewrite length_app. eapply wf_graph_subseteq; [| apply wf_complete_graph].
  eapply reduced_graph_Ok; [| exact Hd | exact Hz]. cbn. lia.
Qed.

Lemma create_reduced_same_layer group_1 group_2 setting d pm fce s u s' layer :
  create_reduced_contacts_with_group_types group_1 group_2 setting d pm fce s
    = (Ok u, s') ->
  layer <> setting -> same_layer layer (popdict s) (popdict s').
Proof.
  intros H Hne. apply create_reduced_Ok in H as (_ & _ & _ & G & g' & _ & _ & Hloop).
  eapply same_layer_trans; [| eapply edge_loop_same_layer; [exact Hloop | exact Hne]].
  cbn. by apply setdefault_layer_same_layer.
Qed.

Lemma create_reduced_has_layer group_1 group_2 setting d pm fce s u s' layer uid :
  create_reduced_contacts_with_group_types group_1 group_2 setting d pm fce s
    = (Ok u, s') ->
  has_layer (popdict s) layer uid -> has_layer (popdict s') layer uid.
Proof.
  intros H Hl. apply create_reduced_Ok in H as (_ & _ & _ & G & g' & _ & _ & Hloop).
  eapply edge_loop_has_layer; [exact Hloop |]. cbn.
  by apply setdefault_layer_keeps_layer.
Qed.

Lemma create_reduced_mono group_1 group_2 setting d pm fce s u s' layer uid :
  create_reduced_contacts_with_group_types group_1 group_2 setting d pm fce s
    = (Ok u, s') ->
  contact_set (popdict s) layer uid ⊆ contact_set (popdict s') layer uid.
Proof.
  intros H. apply create_reduced_Ok in H as (_ & _ & _ & G & g' & _ & _ & Hloop).
  pose proof (edge_loop_mono _ _ _ _ _ _ layer uid Hloop) as Hm. cbn in Hm.
  by rewrite setdefault_layer_contact_set in Hm.
Qed.

Lemma create_reduced_dom group_1 group_2 setting d pm fce s u s' :
  create_reduced_contacts_with_group_types group_1 group_2 setting d pm fce s
    = (Ok u, s') ->
  dom (popdict s') = dom (popdict s).
Proof.
  intros H. apply create_reduced_Ok in H as (_ & _ & _ & G & g' & _ & _ & Hloop).
  apply edge_loop_dom in Hloop. cbn in Hloop. by rewrite setdefault_layer_dom in Hloop.
Qed.

Lemma create_reduced_no_self group_1 group_2 setting d pm fce s u s' :
  create_reduced_contacts_with_group_types group_1 group_2 setting d pm fce s
    = (Ok u, s') ->
  NoDup (group_1 ++ group_2) ->
  no_self_contact (popdict s) -> no_self_contact (popdict s').
Proof.
  intros H Hnd Hns. apply create_reduced_Ok in H as (_ & _ & _ & G & g' & _ & Hwf & Hloop).
  eapply edge_loop_no_self; [exact Hwf | exact Hnd | exact Hloop |]. cbn.
  by apply setdefault_layer_no_self.
Qed.

Lemma create_reduced_returns group_1 group_2 setting d pm fce s :
  group_1 <> [] -> group_2 <> [] -> (2 <= d)%Z ->
  all_people (popdict s) (group_1 ++ group_2) ->
  p_matrix_accepted (length group_1) (length group_2) pm ->
  exists s',
    create_reduced_contacts_with_group_types group_1 group_2 setting d pm fce s
      = (Ok tt, s').
Proof.
  intros H1 H2 Hd Hall Hpm. unfold create_reduced_contacts_with_group_types.
  destruct group_1 as [| x1 group_1]; [done |].
  destruct group_2 as [| x2 group_2]; [done |].
  cbn [length Nat.eqb orb].
  assert ((d <? 2)%Z = false) as -> by (apply Z.ltb_ge; lia).
  destruct (reduced_graph_total (length (x1 :: group_1)) (length (x2 :: group_2))
              d pm (c_gen s)) as (G & g' & Hrun & HG); [cbn; lia | exact Hd | exact Hpm |].
  unfold bind at 1. unfold modify at 1. unfold bind at 1. unfold c_random, zoom.
  cbn [c_gen set_popdict]. cbn [length] in Hrun. rewrite Hrun.
  apply edge_loop_returns.
  - rewrite length_app. eapply wf_graph_subseteq; [exact HG | apply wf_complete_graph].
  - intros uid Hu. cbn. apply setdefault_layer_has_layer.
    unfold all_people in Hall. rewrite Forall_forall in Hall. by apply Hall.
Qed.
(** A contact of the setting after the loop was one before it, or is
    another position of [group]. *)
Lemma edge_loop_upper (group : list nat) (setting : string)
    (G : gset (nat * nat)) s r s' layer u v :
  wf_graph (length group) G ->
  for_each (elements G) (add_edge_contacts group setting) s = (Ok r, s') ->
  v ∈ contact_set (popdict s') layer u ->
  v ∈ contact_set (popdict s) layer u \/
  (layer = setting /\
   exists a b, a <> b /\ group !! a = Some u /\ group !! b = Some v).
Proof.
  intros Hwf Hrun.
  apply (for_each_invariant
           (fun t => v ∈ contact_set (popdict t) layer u ->
              v ∈ contact_set (popdict s) layer u \/
              (layer = setting /\
               exists a b, a <> b /\ group !! a = Some u /\ group !! b = Some v))
           (elements G) (add_edge_contacts group setting)) with (s := s) (u := r);
    [| tauto | exact Hrun].
  intros [a b] t w t' He HI Hbody Hv. apply elem_of_elements, Hwf in He.
  apply add_edge_contacts_Ok in Hbody as (i & j & pd1 & Hi & Hj & H1 & H2 & _).
  cbn [fst snd] in Hi, Hj.
  rewrite (adds_contact_contact_set _ _ _ _ _ layer u H2) in Hv.
  rewrite (adds_contact_contact_set _ _ _ _ _ layer u H1) in Hv.
  destruct (decide (j = u /\ setting = layer)) as [[-> ->] |].
  - apply elem_of_union in Hv as [Hv | Hv].
    + apply elem_of_singleton in Hv as ->. right. split; [reflexivity |].
      exists b, a. split; [lia | auto].
    + destruct (decide _) as [[-> _] |]; [| auto].
      apply elem_of_union in Hv as [Hv | Hv]; [| auto].
      apply elem_of_singleton in Hv as ->. right. split; [reflexivity |].
      exists a, b. split; [lia | auto].
  - destruct (decide _) as [[-> ->] |]; [| auto].
    apply elem_of_union in Hv as [Hv | Hv]; [| auto].
    apply elem_of_singleton in Hv as ->. right. split; [reflexivity |].
    exists a, b. split; [lia | auto].
Qed.

Lemma create_reduced_runs group_1 group_2 setting d pm fce s G g' :
  group_1 <> [] -> group_2 <> [] -> (2 <= d)%Z ->
  reduced_graph (length group_1) (length group_2) d pm (c_gen s) = (Ok G, g') ->
  create_reduced_contacts_with_group_types group_1 group_2 setting d pm fce s
  = for_each (elements G) (add_edge_contacts (group_1 ++ group_2) setting)
      (set_c_gen g' (set_popdict (setdefault_layer setting) s)).
Proof.
  intros H1 H2 Hd Hrun. unfold create_reduced_contacts_with_group_types.
  destruct group_1 as [| x1 group_1]; [done |].
  destruct group_2 as [| x2 group_2]; [done |].
  cbn [length Nat.eqb orb].
  assert ((d <? 2)%Z = false) as -> by (apply Z.ltb_ge; lia).
  unfold bind at 1. unfold modify at 1. unfold bind at 1. unfold c_random, zoom.
  cbn [c_gen set_popdict]. cbn [length] in Hrun. by rewrite Hrun.
Qed.

Lemma reduced_graph_small (n_1 n_2 : nat) (d : Z) pm (g : rng) :
  (Z.of_nat (n_1 + n_2) <= d)%Z ->
  reduced_graph n_1 n_2 d pm g = (Ok (complete_graph (n_1 + n_2)), g).
Proof.
  intros Hn. unfold reduced_graph.
  assert ((Z.of_nat (n_1 + n_2) <=? d)%Z = true) as -> by (apply Z.leb_le; lia).
  reflexivity.
Qed.

Lemma size_others (group : list nat) (u : nat) :
  NoDup group -> u ∈ group ->
  size (list_to_set group ∖ {[u]} : gset nat) = length group - 1.
Proof.
  intros Hnd Hu. rewrite size_difference by set_solver.
  by rewrite size_list_to_set, size_singleton.
Qed.
Lemma create_reduced_guard group_1 group_2 setting d pm fce s :
  group_1 = [] \/ group_2 = [] \/ (d < 2)%Z ->
  create_reduced_contacts_with_group_types group_1 group_2 setting d pm fce s
  = (Raise ValueError, s).
Proof.
  intros Hguard. unfold create_reduced_contacts_with_group_types.
  destruct ((length group_1 =? 0) || (length group_2 =? 0)) eqn:E; [reflexivity |].
  apply orb_false_elim in E as [E1 E2]. apply Nat.eqb_neq in E1, E2.
  destruct Hguard as [-> | [-> | Hd]]; [done | done |].
  apply Z.ltb_lt in Hd. by rewrite Hd.
Qed.

Lemma create_reduced_guard_dec (group_1 group_2 : list nat) (d : Z) :
  (group_1 = [] \/ group_2 = [] \/ (d < 2)%Z) \/
  (group_1 <> [] /\ group_2 <> [] /\ (2 <= d)%Z).
Proof.
  destruct group_1; [by left; left |]. destruct group_2; [by left; right; left |].
  destruct (Z.lt_ge_cases d 2); [left; tauto | right; done].
Qed.

(** C4.  With the members of both groups in the dictionary and a block
    matrix that networkx accepts (when one is passed),
    [create_reduced_contacts_with_group_types] raises if and only if a group
    is empty or the average degree is below 2; the exception is then the
    [ValueError] of lines 288-294 and the state, the dictionary included, is
    the one passed in; in every other case the function returns. *)
Theorem create_reduced_raises_iff_guard group_1 group_2 setting d pm fce s :
  all_people (popdict s) (group_1 ++ group_2) ->
  p_matrix_accepted (length group_1) (length group_2) pm ->
  ((exists e s',
      create_reduced_contacts_with_group_types group_1 group_2 setting d pm fce s
      = (Raise e, s'))
   <-> group_1 = [] \/ group_2 = [] \/ (d < 2)%Z) /\
  (forall e s',
      create_reduced_contacts_with_group_types group_1 group_2 setting d pm fce s
      = (Raise e, s') -> e = ValueError /\ s' = s) /\
  (group_1 <> [] -> group_2 <> [] -> (2 <= d)%Z ->
   exists s',
      create_reduced_contacts_with_group_types group_1 group_2 setting d pm fce s
      = (Ok tt, s')).
Proof.
  intros Hall Hpm.
  assert (Hret : group_1 <> [] -> group_2 <> [] -> (2 <= d)%Z ->
            exists s',
              create_reduced_contacts_with_group_types group_1 group_2 setting d pm fce s
              = (Ok tt, s')).
  { intros H1 H2 Hd. by apply create_reduced_returns. }
  split; [| split; [| exact Hret]].
  - split.
    + intros (e & s' & Hrun).
      destruct (create_reduced_guard_dec group_1 group_2 d) as [Hg | (H1 & H2 & Hd)];
        [exact Hg |].
      destruct (Hret H1 H2 Hd) as (s'' & Hok). rewrite Hok in Hrun. discriminate Hrun.
    + intros Hg. exists ValueError, s. by apply create_reduced_guard.
  - intros e s' Hrun.
    destruct (create_reduced_guard_dec group_1 group_2 d) as [Hg | (H1 & H2 & Hd)].
    + rewrite (create_reduced_guard _ _ setting d pm fce s Hg) in Hrun.
      by injection Hrun as <- <-.
    + destruct (Hret H1 H2 Hd) as (s'' & Hok). rewrite Hok in Hrun. discriminate Hrun.
Qed.

Lemma create_reduced_raises_iff_guard_witness :
  create_reduced_contacts_with_group_types [1] [] "W" 2 None true
    (ex_cstate [1; 2; 3] ex_stream)
  = (Raise ValueError, ex_cstate [1; 2; 3] ex_stream) /\
  exists s',
    create_reduced_contacts_with_group_types [1] [2; 3] "W" 2 None true
      (ex_cstate [1; 2; 3] ex_stream)
    = (Ok tt, s').
Proof.
  split.
  - destruct (create_reduced_raises_iff_guard [1] [] "W" 2%Z None true
                (ex_cstate [1; 2; 3] ex_stream)) as (Hiff & Hsame & _).
    + repeat constructor; by eexists.
    + exact I.
    + destruct Hiff as [_ Hraise].
      destruct Hraise as (e & s' & Hrun); [right; left; reflexivity |].
      destruct (Hsame e s' Hrun) as [-> ->]. exact Hrun.
  - destruct (create_reduced_raises_iff_guard [1] [2; 3] "W" 2%Z None true
                (ex_cstate [1; 2; 3] ex_stream)) as (_ & _ & Hret).
    + repeat constructor; by eexists.
    + exact I.
    + apply Hret; [done | done | lia].
Defined.

(** C4 as stated fails.  Both groups are populated and the average degree
    is 2, so neither guard of lines 288-294 applies; uid 9 is not a key of
    the dictionary.  The graph on the two positions is complete, its one edge
    is written (lines 382-383): [popdict[1]['contacts']['W'].add(9)] succeeds
    and [popdict[9]] raises a [KeyError].  The call raises although no group
    is empty and the degree is not below 2, and the dictionary it leaves is
    not the one passed in: uid 1 has the contact 9.  A block matrix that
    networkx refuses raises at line 336, after lines 304-305 have given
    every person a contact set for the setting. *)
Lemma create_reduced_raises_after_writing :
  ~ ([1] = [] \/ [9] = [] \/ (2 < 2)%Z) /\
  (exists s',
     create_reduced_contacts_with_group_types [1] [9] "W" 2 None true
       (ex_cstate [1] ex_stream) = (Raise KeyError, s') /\
     9 ∉ contact_set (ex_people [1]) "W" 1 /\
     9 ∈ contact_set (popdict s') "W" 1 /\
     popdict s' <> ex_people [1]) /\
  (exists s',
     create_reduced_contacts_with_group_types [1; 2] [3; 4] "W" 2
       (Some [[1%Q]]) true (ex_cstate [1; 2; 3; 4] ex_stream)
     = (Raise NetworkXException, s') /\
     contacts <$> (ex_people [1; 2; 3; 4] !! 1) = Some ∅ /\
     contacts <$> (popdict s' !! 1) = Some {["W" := ∅]}).
Proof.
  split; [| split].
  - intros [H | [H | H]]; [discriminate H | discriminate H | lia].
  - eexists. split; [vm_compute; reflexivity |].
    split; [| split].
    + vm_compute. set_solver.
    + apply (bool_decide_unpack _). vm_compute. reflexivity.
    + intros H. apply (f_equal (fun pd => contact_set pd "W" 1)) in H.
      revert H. vm_compute. discriminate.
  - eexists. split; [vm_compute; reflexivity |].
    split; [reflexivity |]. vm_compute. reflexivity.
Qed.
(** C5.  Both groups populated, [2 <= d] and [n = |group_1| + |group_2| <= d],
    the members being people of the dictionary: the graph is
    [nx.complete_graph(n)], the call returns, and afterwards the contact set
    of every member for the setting holds every other member.  When each uid
    is listed once these others are [n - 1] people, and they are the whole
    contact set of a member who had no contact outside them before. *)
Theorem small_groups_get_complete_graph group_1 group_2 setting d pm fce s :
  group_1 <> [] -> group_2 <> [] -> (2 <= d)%Z ->
  (Z.of_nat (length group_1 + length group_2) <= d)%Z ->
  all_people (popdict s) (group_1 ++ group_2) ->
  reduced_graph (length group_1) (length group_2) d pm (c_gen s)
  = (Ok (complete_graph (length group_1 + length group_2)), c_gen s) /\
  exists s',
    create_reduced_contacts_with_group_types group_1 group_2 setting d pm fce s
    = (Ok tt, s') /\
    (forall u v, u ∈ group_1 ++ group_2 -> v ∈ group_1 ++ group_2 -> u <> v ->
       v ∈ contact_set (popdict s') setting u) /\
    (NoDup (group_1 ++ group_2) ->
     forall u, u ∈ group_1 ++ group_2 ->
       size (list_to_set (group_1 ++ group_2) ∖ {[u]} : gset nat)
         = length group_1 + length group_2 - 1 /\
       (contact_set (popdict s) setting u ⊆ list_to_set (group_1 ++ group_2) ∖ {[u]} ->
        contact_set (popdict s') setting u = list_to_set (group_1 ++ group_2) ∖ {[u]})).
Proof.
  intros H1 H2 Hd Hn Hall.
  pose proof (reduced_graph_small (length group_1) (length group_2) d pm (c_gen s) Hn)
    as Hgraph.
  split; [exact Hgraph |].
  pose proof (create_reduced_runs group_1 group_2 setting d pm fce s _ _
                H1 H2 Hd Hgraph) as Hruns.
  assert (Hwf : wf_graph (length (group_1 ++ group_2))
                  (complete_graph (length group_1 + length group_2))).
  { rewrite length_app. apply wf_complete_graph. }
  destruct (edge_loop_returns (group_1 ++ group_2) setting
              (complete_graph (length group_1 + length group_2))
              (set_c_gen (c_gen s) (set_popdict (setdefault_layer setting) s)) Hwf)
    as (s' & Hloop).
  { intros uid Hu. cbn. apply setdefault_layer_has_layer.
    unfold all_people in Hall. rewrite Forall_forall in Hall. by apply Hall. }
  exists s'. split; [by rewrite Hruns |].
  assert (Hall_others : forall u v, u ∈ group_1 ++ group_2 -> v ∈ group_1 ++ group_2 ->
            u <> v -> v ∈ contact_set (popdict s') setting u).
  { intros u v Hu Hv Hne.
    apply list_elem_of_lookup_1 in Hu as [a Ha]. apply list_elem_of_lookup_1 in Hv as [b Hb].
    pose proof (lookup_lt_Some _ _ _ Ha) as Hla. pose proof (lookup_lt_Some _ _ _ Hb) as Hlb.
    rewrite length_app in Hla, Hlb.
    assert (Hab : a <> b) by congruence.
    destruct (Nat.lt_ge_cases a b) as [Hlt | Hge].
    - apply (edge_loop_joins _ _ _ _ _ _ a b u v Hloop); [| exact Ha | exact Hb].
      apply elem_of_elements, complete_graph_spec. lia.
    - apply (edge_loop_joins _ _ _ _ _ _ b a v u Hloop); [| exact Hb | exact Ha].
      apply elem_of_elements, complete_graph_spec. lia. }
  split; [exact Hall_others |].
  intros Hnd u Hu. split.
  - rewrite (size_others _ _ Hnd Hu), length_app. reflexivity.
  - intros Hbefore. apply set_eq. intros v. split.
    + intros Hv.
      destruct (edge_loop_upper _ _ _ _ _ _ setting u v Hwf Hloop Hv)
        as [Hold | (_ & a & b & Hab & Ha & Hb)].
      * cbn in Hold. rewrite setdefault_layer_contact_set in Hold. by apply Hbefore.
      * apply elem_of_difference. split.
        -- apply elem_of_list_to_set. by apply list_elem_of_lookup_2 in Hb.
        -- intros ->%elem_of_singleton. apply Hab.
           exact (NoDup_lookup _ _ _ _ Hnd Ha Hb).
    + intros [Hv Hne]%elem_of_difference. apply elem_of_list_to_set in Hv.
      apply Hall_others; [exact Hu | exact Hv |]. set_solver.
Qed.

Lemma small_groups_get_complete_graph_witness :
  exists s',
    create_reduced_contacts_with_group_types [1] [2; 3] "W" 5 None true
      (ex_cstate [1; 2; 3] ex_stream)
    = (Ok tt, s') /\
    contact_set (popdict s') "W" 1 = {[2; 3]} /\
    contact_set (popdict s') "W" 2 = {[1; 3]} /\
    contact_set (popdict s') "W" 3 = {[1; 2]}.
Proof.
  destruct (small_groups_get_complete_graph [1] [2; 3] "W" 5%Z None true
              (ex_cstate [1; 2; 3] ex_stream))
    as (_ & s' & Hrun & _ & Hexact); [done | done | lia | cbn; lia | |].
  - repeat constructor; by eexists.
  - exists s'. split; [exact Hrun |].
    assert (Hnd : NoDup ([1] ++ [2; 3])) by (apply NoDup_ListNoDup; repeat constructor; set_solver).
    split; [| split].
    + destruct (Hexact Hnd 1) as [_ ->]; [set_solver | by vm_compute | set_solver].
    + destruct (Hexact Hnd 2) as [_ ->]; [set_solver | by vm_compute | set_solver].
    + destruct (Hexact Hnd 3) as [_ ->]; [set_solver | by vm_compute | set_solver].
Defined.
(** ** Steps that change attributes only *)

Lemma same_contacts_refl pd : same_contacts pd pd.
Proof. by intros uid. Qed.

Lemma same_contacts_trans pd1 pd2 pd3 :
  same_contacts pd1 pd2 -> same_contacts pd2 pd3 -> same_contacts pd1 pd3.
Proof. intros H12 H23 uid. by rewrite H23, H12. Qed.

Lemma write_attr_same_contacts uid pd pd' : write_attr uid pd pd' -> same_contacts pd pd'.
Proof.
  intros (p & a & Hp & ->) u. destruct (decide (uid = u)) as [<- | Hne].
  - by rewrite lookup_insert_eq, Hp.
  - by rewrite lookup_insert_ne.
Qed.

Lemma same_contacts_contact_set pd pd' layer uid :
  same_contacts pd pd' -> contact_set pd' layer uid = contact_set pd layer uid.
Proof.
  intros H. unfold contact_set. specialize (H uid).
  destruct (pd' !! uid) as [p' |], (pd !! uid) as [p |]; cbn in *; congruence.
Qed.

Lemma same_contacts_same_layer pd pd' layer :
  same_contacts pd pd' -> same_layer layer pd pd'.
Proof.
  intros H uid p' Hp'. specialize (H uid). rewrite Hp' in H.
  destruct (pd !! uid) as [p |] eqn:Hp; [| discriminate H]. exists p.
  split; [reflexivity |]. cbn in H. congruence.
Qed.

Lemma same_contacts_no_self pd pd' :
  same_contacts pd pd' -> no_self_contact pd -> no_self_contact pd'.
Proof.
  intros H Hns uid p' layer c Hp' Hc. specialize (H uid). rewrite Hp' in H.
  destruct (pd !! uid) as [p |] eqn:Hp; [| discriminate H]. cbn in H.
  apply (Hns uid p layer c Hp). congruence.
Qed.

Lemma same_contacts_has_layer pd pd' layer uid :
  same_contacts pd pd' -> has_layer pd layer uid -> has_layer pd' layer uid.
Proof.
  intros H (p & c & Hp & Hc). specialize (H uid). rewrite Hp in H.
  destruct (pd' !! uid) as [p' |] eqn:Hp'; [| discriminate H]. exists p', c.
  split; [exact Hp' |]. cbn in H. congruence.
Qed.

Lemma same_contacts_dom pd pd' : same_contacts pd pd' -> dom pd' = dom pd.
Proof.
  intros H. apply set_eq. intros uid. rewrite !elem_of_dom. specialize (H uid).
  destruct (pd' !! uid), (pd !! uid); cbn in H; try discriminate H;
    split; intros [? ?]; eauto; discriminate.
Qed.

Lemma set_attr_same_contacts uid key v s u s' :
  set_attr uid key v s = (Ok u, s') ->
  same_contacts (popdict s) (popdict s') /\ c_gen s' = c_gen s.
Proof.
  intros H. apply set_attr_Ok in H as [Hw Hg]. split; [| exact Hg].
  exact (write_attr_same_contacts _ _ _ Hw).
Qed.

(** ** Two assignments to the same contact set *)

Lemma write_layer_twice uid layer c1 c2 pd pd1 pd2 :
  write_layer uid layer c1 pd pd1 -> write_layer uid layer c2 pd1 pd2 ->
  write_layer uid layer c2 pd pd2.
Proof.
  intros (p & Hp & ->) (p1 & Hp1 & ->). rewrite lookup_insert_eq in Hp1.
  injection Hp1 as <-. exists p. split; [exact Hp |]. cbn.
  by rewrite insert_insert_eq, insert_insert_eq.
Qed.

Lemma write_layer_then_attrs uid layer c pd pd1 pd2 :
  write_layer uid layer c pd pd1 -> same_contacts pd1 pd2 ->
  contact_set pd2 layer uid = c.
Proof.
  intros Hw Hs. rewrite (same_contacts_contact_set _ _ _ _ Hs).
  rewrite (write_layer_contact_set _ _ _ _ _ layer uid Hw). by rewrite decide_True.
Qed.

(** [popdict[uid]['contacts'][layer] = c] followed by [.remove(uid)]. *)
Lemma set_then_remove_Ok uid layer c s u s' :
  (set_contacts uid layer c >> remove_contact uid layer uid) s = (Ok u, s') ->
  uid ∈ c /\ write_layer uid layer (c ∖ {[uid]}) (popdict s) (popdict s') /\
  c_gen s' = c_gen s.
Proof.
  intros H. monad_inv.
  apply set_contacts_Ok in Hm as [Hw1 Hg1].
  unfold remove_contact in H. monad_inv.
  apply get_contacts_Ok in Hm as (-> & p & Hp & Hc).
  destruct (decide _) as [Hin |]; [| discriminate H].
  apply set_contacts_Ok in H as [Hw2 Hg2].
  pose proof (write_layer_contact_set _ _ _ _ _ layer uid Hw1) as Hcs.
  rewrite decide_True in Hcs by done.
  rewrite (has_layer_contact_set _ _ _ _ _ Hp Hc) in Hcs. subst.
  split; [exact Hin |]. split; [| congruence].
  eapply write_layer_twice; eauto.
Qed.

Lemma connect_to_facility_Ok facility facility_staff uid s u s' :
  connect_to_facility facility facility_staff uid s = (Ok u, s') ->
  write_layer uid "LTCF"
    ((list_to_set facility ∪ list_to_set facility_staff) ∖ {[uid]})
    (popdict s) (popdict s') /\
  c_gen s' = c_gen s.
Proof.
  unfold connect_to_facility. intros H. monad_inv.
  match goal with Hx : set_contacts _ _ (list_to_set facility) _ = _ |- _ =>
    apply set_contacts_Ok in Hx as [Hw1 Hg1] end.
  match goal with Hx : get_contacts _ _ _ = _ |- _ =>
    apply get_contacts_Ok in Hx as (-> & p & Hp & Hc) end.
  pose proof (write_layer_contact_set _ _ _ _ _ "LTCF"%string uid Hw1) as Hcs.
  rewrite decide_True in Hcs by done.
  rewrite (has_layer_contact_set _ _ _ _ _ Hp Hc) in Hcs. subst.
  assert (Hboth : (set_contacts uid "LTCF" (list_to_set facility ∪ list_to_set facility_staff)
                   >> remove_contact uid "LTCF" uid) s0 = (Ok u, s')).
  { by rewrite (bind_Ok_intro _ _ _ _ _ Hm1). }
  apply set_then_remove_Ok in Hboth as (_ & Hw2 & Hg2). split; [| congruence].
  eapply write_layer_twice; eauto.
Qed.

Lemma np_choice_noreplace_Ok {A : Type} (a : list A) (size : Z) g out g' :
  np_choice_noreplace a size g = (Ok out, g') ->
  (0 <= size)%Z /\ length out = Z.to_nat size /\ exists rest, a ≡ₚ out ++ rest.
Proof.
  unfold np_choice_noreplace. intros H.
  destruct (size <? 0)%Z eqn:E1; [discriminate H |]. apply Z.ltb_ge in E1.
  destruct (Z.of_nat (length a) <? size)%Z; [discriminate H |].
  apply sample_without_replacement_Ok in H. tauto.
Qed.
Lemma for_each_same_contacts {A : Type} (xs : list A) (body : A -> M cstate unit) :
  (forall x s u s', x ∈ xs -> body x s = (Ok u, s') ->
     same_contacts (popdict s) (popdict s')) ->
  forall s u s', for_each xs body s = (Ok u, s') ->
    same_contacts (popdict s) (popdict s').
Proof.
  intros Hbody s u s' Hrun.
  apply (for_each_invariant (fun t => same_contacts (popdict s) (popdict t)) xs body)
    with (s := s) (u := u); [| apply same_contacts_refl | exact Hrun].
  intros x t v t' Hx HI Hb. eapply same_contacts_trans; [exact HI |]. eauto.
Qed.

Lemma c_random_popdict {A : Type} (m : M rng A) s a s' :
  c_random m s = (Ok a, s') ->
  popdict s' = popdict s /\ m (c_gen s) = (Ok a, c_gen s').
Proof.
  unfold c_random. intros H. apply zoom_Ok in H as (t & Hm & ->). auto.
Qed.

Ltac inv_attrs :=
  repeat match goal with
  | Hx : set_attr _ _ _ _ = (Ok _, _) |- _ =>
      let Hs := fresh "Hsame" in
      apply set_attr_same_contacts in Hx as [Hs _]
  end.

Ltac chain_same_contacts :=
  repeat first
    [ assumption
    | apply same_contacts_refl
    | eapply same_contacts_trans; [eassumption |] ].

Lemma tag_school_members_same_contacts ns role ty mix members s u s' :
  tag_school_members ns role ty mix members s = (Ok u, s') ->
  same_contacts (popdict s) (popdict s').
Proof.
  apply for_each_same_contacts. intros uid t v t' _ Hb. cbv beta in Hb.
  monad_inv. inv_attrs. chain_same_contacts.
Qed.

Lemma industry_code_same_contacts (codes : option (list Z)) (nw uid : nat) s u s' :
  match codes with
  | None => ret tt
  | Some codes =>
      let* code := lift_opt IndexError (codes !! nw) in
      set_attr uid "wpindcode" (PyInt code)
  end s = (Ok u, s') ->
  same_contacts (popdict s) (popdict s').
Proof.
  destruct codes as [codes |]; intros H; monad_inv; inv_attrs;
    chain_same_contacts.
Qed.
(** ** Lines 233-251: workplace contacts under a cap *)

Lemma size_list_to_set_le (l : list nat) : size (list_to_set l : gset nat) <= length l.
Proof.
  induction l as [| x l IH]; cbn; [by rewrite size_empty |].
  destruct (decide (x ∈ (list_to_set l : gset nat))) as [Hin | Hnin].
  - assert (({[x]} ∪ list_to_set l : gset nat) = list_to_set l) as -> by set_solver. lia.
  - rewrite size_union by set_solver. rewrite size_singleton. lia.
Qed.

Lemma sample_contacts_of_worker_Ok max_W_size codes nw workplace uid s u s' :
  sample_contacts_of_worker max_W_size codes nw workplace uid s = (Ok u, s') ->
  exists c pd1,
    uid ∈ workplace /\ c ⊆ list_to_set workplace ∖ {[uid]} /\
    (Z.of_nat (size c) <= max_W_size)%Z /\
    write_layer uid "W" c (popdict s) pd1 /\ same_contacts pd1 (popdict s').
Proof.
  unfold sample_contacts_of_worker. intros H.
  apply bind_Ok in H as (uids & t0 & Hrem & H).
  apply lift_opt_Ok in Hrem as [Hrem ->]. unfold set_remove in Hrem.
  destruct (decide _) as [Hin |]; [| discriminate Hrem]. injection Hrem as <-.
  apply elem_of_list_to_set in Hin.
  apply bind_Ok in H as (c & t1 & Hc & H).
  apply bind_Ok in H as (a1 & t2 & Hset & H).
  apply bind_Ok in H as (a2 & t3 & Hwpid & H).
  apply set_contacts_Ok in Hset as [Hw _].
  apply set_attr_same_contacts in Hwpid as [Hs1 _].
  apply industry_code_same_contacts in H.
  assert (Hc' : popdict t1 = popdict s /\
                c ⊆ list_to_set workplace ∖ {[uid]} /\
                (Z.of_nat (size c) <= max_W_size)%Z).
  { destruct (max_W_size <? _)%Z eqn:E.
    - apply bind_Ok in Hc as (drawn & t & Hd & Hc). inversion Hc; subst; clear Hc.
      apply c_random_popdict in Hd as [Hpd Hd]. split; [exact Hpd |].
      apply np_choice_noreplace_Ok in Hd as (Hm & Hlen & rest & Hperm). split.
      + intros x Hx. apply elem_of_list_to_set in Hx.
        apply elem_of_elements. rewrite Hperm. apply elem_of_app. by left.
      + pose proof (size_list_to_set_le drawn). lia.
    - inversion Hc; subst; clear Hc. apply Z.ltb_ge in E. auto. }
  destruct Hc' as (Hpd & Hsub & Hsize). rewrite Hpd in Hw.
  exists c, (popdict t2). do 3 (split; [assumption |]). split; [exact Hw |].
  chain_same_contacts.
Qed.

Lemma sample_contacts_of_worker_contact_set max_W_size codes nw workplace uid s u s' :
  sample_contacts_of_worker max_W_size codes nw workplace uid s = (Ok u, s') ->
  exists c,
    uid ∈ workplace /\ c ⊆ list_to_set workplace ∖ {[uid]} /\
    (Z.of_nat (size c) <= max_W_size)%Z /\
    forall layer x,
      contact_set (popdict s') layer x
      = if decide (uid = x /\ "W"%string = layer) then c
        else contact_set (popdict s) layer x.
Proof.
  intros H. apply sample_contacts_of_worker_Ok in H
    as (c & pd1 & Hin & Hsub & Hsize & Hw & Hs).
  exists c. do 3 (split; [assumption |]). intros layer x.
  rewrite (same_contacts_contact_set _ _ _ _ Hs).
  apply (write_layer_contact_set _ _ _ _ _ _ _ Hw).
Qed.

Lemma sample_workplace_contacts_Ok max_W_size codes workplaces_by_uids s u s' :
  sample_workplace_contacts max_W_size codes workplaces_by_uids s = (Ok u, s') ->
  forall uid,
    contact_set (popdict s') "W" uid = contact_set (popdict s) "W" uid \/
    sampled_from workplaces_by_uids max_W_size uid (contact_set (popdict s') "W" uid).
Proof.
  unfold sample_workplace_contacts. intros Hrun uid.
  apply (for_each_invariant
           (fun t => contact_set (popdict t) "W" uid = contact_set (popdict s) "W" uid \/
              sampled_from workplaces_by_uids max_W_size uid
                (contact_set (popdict t) "W" uid)))
    with (s := s) (u := u) (3 := Hrun); [| by left].
  intros [nw workplace] t v t' Hw HI Hb.
  assert (Hwp : workplace ∈ workplaces_by_uids).
  { unfold enumerate in Hw. apply list_elem_of_lookup_1 in Hw as [i Hi].
    rewrite list_lookup_imap in Hi.
    destruct (workplaces_by_uids !! i) as [w |] eqn:E; [| discriminate Hi].
    injection Hi as <- <-. by apply list_elem_of_lookup_2 in E. }
  apply (for_each_invariant
           (fun t => contact_set (popdict t) "W" uid = contact_set (popdict s) "W" uid \/
              sampled_from workplaces_by_uids max_W_size uid
                (contact_set (popdict t) "W" uid)))
    with (s := t) (u := v) (3 := Hb); [| exact HI].
  intros x t1 v1 t2 Hx HI1 Hb1.
  apply sample_contacts_of_worker_contact_set in Hb1
    as (c & Hin & Hsub & Hsize & Hcs).
  rewrite (Hcs "W"%string uid). destruct (decide _) as [[-> _] |]; [| exact HI1].
  right. split; [exact Hsize |]. intros y Hy. apply Hsub in Hy.
  apply elem_of_difference in Hy as [Hy Hne]. apply elem_of_list_to_set in Hy.
  split; [set_solver |]. exists workplace. auto.
Qed.
Lemma contact_set_dom pd layer uid v : v ∈ contact_set pd layer uid -> uid ∈ dom pd.
Proof.
  unfold contact_set. intros H. apply elem_of_dom.
  destruct (pd !! uid); [eauto | cbn in H; set_solver].
Qed.

(** Lines 250-251 for one [uid]: [uid] is added to the contact set of each
    of their contacts. *)
Lemma pair_contacts_of_Ok uid s r s' :
  pair_contacts_of uid s = (Ok r, s') ->
  forall layer u v,
    v ∈ contact_set (popdict s') layer u
    <-> v ∈ contact_set (popdict s) layer u \/
        (layer = "W"%string /\ u ∈ contact_set (popdict s) "W" uid /\ v = uid).
Proof.
  unfold pair_contacts_of. intros H layer u v.
  apply bind_Ok in H as (c & t & Hget & H).
  apply get_contacts_Ok in Hget as (-> & p & Hp & Hc).
  rewrite (has_layer_contact_set _ _ _ _ _ Hp Hc).
  assert (Hgen : v ∈ contact_set (popdict s') layer u
            <-> v ∈ contact_set (popdict s) layer u \/
                (layer = "W"%string /\ u ∈ elements c /\ v = uid)).
  { apply (for_each_steps
             (fun visited t => v ∈ contact_set (popdict t) layer u
                <-> v ∈ contact_set (popdict s) layer u \/
                    (layer = "W"%string /\ u ∈ visited /\ v = uid))
             (elements c) (fun c => add_contact c "W" uid)) with (s := s) (u := r);
      [| | exact H].
    - intros visited x t w t' _ HI Hb. apply add_contact_adds in Hb as [Ha _].
      rewrite (adds_contact_contact_set _ _ _ _ _ layer u Ha).
      rewrite elem_of_app, list_elem_of_singleton.
      destruct (decide (x = u /\ "W"%string = layer)) as [[-> <-] | Hno].
      + rewrite elem_of_union, elem_of_singleton, HI. intuition.
      + rewrite HI. split; [tauto |].
        intros [Hold | (-> & [Hin | ->] & ->)]; [tauto | tauto | tauto].
    - split; [tauto |]. intros [Hold | (_ & []%elem_of_nil & _)]. exact Hold. }
  rewrite Hgen, elem_of_elements. reflexivity.
Qed.

(** The loop of lines 250-251 over the keys in any order [uids] that
    reaches every person: afterwards the workplace contacts of [u] are the
    ones [u] had and the people who had [u].  The order in which the keys
    are visited does not show in the result. *)
Lemma pairing_loop_Ok (uids : list nat) s r s' :
  for_each uids pair_contacts_of s = (Ok r, s') ->
  (forall uid, uid ∈ dom (popdict s) -> uid ∈ uids) ->
  forall u v,
    v ∈ contact_set (popdict s') "W" u
    <-> v ∈ contact_set (popdict s) "W" u \/ u ∈ contact_set (popdict s) "W" v.
Proof.
  intros H Hall.
  pose (cs0 := contact_set (popdict s) "W").
  assert (Hinv :
    (forall u v, v ∈ contact_set (popdict s') "W" u -> v ∈ cs0 u \/ u ∈ cs0 v) /\
    (forall u, cs0 u ⊆ contact_set (popdict s') "W" u) /\
    (forall u, u ∈ uids ->
       forall x, x ∈ cs0 u -> u ∈ contact_set (popdict s') "W" x)).
  { apply (for_each_steps
             (fun visited t' =>
                (forall u v, v ∈ contact_set (popdict t') "W" u -> v ∈ cs0 u \/ u ∈ cs0 v) /\
                (forall u, cs0 u ⊆ contact_set (popdict t') "W" u) /\
                (forall u, u ∈ visited ->
                   forall x, x ∈ cs0 u -> u ∈ contact_set (popdict t') "W" x))
             uids pair_contacts_of) with (s := s) (u := r);
      [| | exact H].
    - intros visited uid t1 v1 t2 _ (HA & HB & HC) Hb.
      pose proof (pair_contacts_of_Ok _ _ _ _ Hb "W"%string) as Hcs.
      split; [| split].
      + intros u v Hv. apply Hcs in Hv as [Hv | (_ & Hin & ->)]; [by apply HA |].
        destruct (HA _ _ Hin); auto.
      + intros u x Hx. apply Hcs. left. by apply HB.
      + intros u Hu x Hx. apply Hcs.
        apply elem_of_app in Hu as [Hu | Hu].
        * left. by apply HC.
        * apply list_elem_of_singleton in Hu as ->. right.
          split; [reflexivity |]. split; [by apply HB | reflexivity].
    - split; [by left | split; [done |]]. by intros u []%elem_of_nil. }
  destruct Hinv as (HA & HB & HC). intros u v. split; [apply HA |].
  intros [Hv | Hu]; [by apply HB |].
  apply (HC v); [| exact Hu]. apply Hall.
  by apply (contact_set_dom _ _ _ _ Hu).
Qed.

(** The repair pass, lines 249-251. *)
Lemma add_pairing_contacts_Ok s r s' :
  add_pairing_contacts s = (Ok r, s') ->
  forall u v,
    v ∈ contact_set (popdict s') "W" u
    <-> v ∈ contact_set (popdict s) "W" u \/ u ∈ contact_set (popdict s) "W" v.
Proof.
  unfold add_pairing_contacts. intros H.
  apply bind_Ok in H as (pd0 & t & Hpd & H). inversion Hpd; subst; clear Hpd.
  apply (pairing_loop_Ok _ _ _ _ H). intros uid Hu. by apply elem_of_elements.
Qed.

Lemma add_pairing_contacts_symmetric s r s' :
  add_pairing_contacts s = (Ok r, s') -> symmetric_layer (popdict s') "W".
Proof.
  intros H u v. rewrite !(add_pairing_contacts_Ok _ _ _ H). tauto.
Qed.

(** ** Lines 116-137: the people *)

Lemma new_person_contacts use_ltcf age sex layer c :
  contacts (new_person use_ltcf age sex) !! layer = Some c -> c = ∅.
Proof.
  unfold new_person. cbn [contacts]. intros H.
  apply elem_of_list_to_map_2 in H. apply list_elem_of_fmap in H as (k & [= _ ->] & _).
  reflexivity.
Qed.

Lemma new_person_layer use_ltcf age sex layer :
  layer ∈ ["H"; "S"; "W"; "C"]%string ->
  contacts (new_person use_ltcf age sex) !! layer = Some ∅.
Proof.
  intros Hin. unfold new_person. cbn [contacts].
  destruct (list_to_map _ !! layer) as [c |] eqn:E.
  - apply elem_of_list_to_map_2 in E.
    apply list_elem_of_fmap in E as (k & [= _ ->] & _). reflexivity.
  - apply not_elem_of_list_to_map_2 in E. exfalso. apply E.
    rewrite <- list_fmap_compose. cbn. rewrite list_fmap_id.
    destruct use_ltcf; cbn; set_solver.
Qed.

Lemma create_people_Ok use_ltcf age_by_uid_dic sexes s u s' :
  create_people use_ltcf age_by_uid_dic sexes s = (Ok u, s') ->
  c_gen s' = c_gen s /\
  forall uid p, popdict s' !! uid = Some p ->
    popdict s !! uid = Some p \/ exists age sex, p = new_person use_ltcf age sex.
Proof.
  unfold create_people. intros H.
  apply (for_each_invariant
           (fun t => c_gen t = c_gen s /\
              forall uid p, popdict t !! uid = Some p ->
                popdict s !! uid = Some p \/
                exists age sex, p = new_person use_ltcf age sex))
    with (s := s) (u := u) (3 := H); [| by auto].
  intros [i uid] t v t' _ [Hg HI] Hb. cbv beta iota in Hb. monad_inv.
  split; [exact Hg |]. intros x p Hp. cbn in Hp.
  destruct (decide (uid = x)) as [<- | Hne].
  - rewrite lookup_insert_eq in Hp. injection Hp as <-. right. eauto.
  - rewrite lookup_insert_ne in Hp by done. by apply HI.
Qed.

Lemma fresh_people_no_self use_ltcf pd : fresh_people use_ltcf pd -> no_self_contact pd.
Proof.
  intros Hf uid p layer c Hp Hc. destruct (Hf uid p Hp) as (age & sex & ->).
  apply new_person_contacts in Hc as ->. set_solver.
Qed.

Lemma fresh_people_community use_ltcf pd :
  fresh_people use_ltcf pd -> community_layer_empty pd.
Proof.
  intros Hf uid p Hp. destruct (Hf uid p Hp) as (age & sex & ->).
  apply new_person_layer. set_solver.
Qed.

Lemma fresh_people_contact_set use_ltcf pd layer uid :
  fresh_people use_ltcf pd -> contact_set pd layer uid = ∅.
Proof.
  intros Hf. unfold contact_set. destruct (pd !! uid) as [p |] eqn:Hp; [| reflexivity].
  destruct (Hf uid p Hp) as (age & sex & ->).
  change (default ∅ (contacts (new_person use_ltcf age sex) !! layer) = (∅ : gset nat)).
  destruct (contacts (new_person use_ltcf age sex) !! layer) as [c |] eqn:Hc;
    [| reflexivity].
  by apply new_person_contacts in Hc as ->.
Qed.

Lemma same_layer_community pd pd' :
  same_layer "C" pd pd' -> community_layer_empty pd -> community_layer_empty pd'.
Proof.
  intros Hs Hc uid p' Hp'. destruct (Hs uid p' Hp') as (p & Hp & ->). eauto.
Qed.

Lemma same_layer_contact_set layer pd pd' uid :
  same_layer layer pd pd' ->
  contact_set pd' layer uid ⊆ contact_set pd layer uid.
Proof.
  intros Hs. unfold contact_set. destruct (pd' !! uid) as [p' |] eqn:Hp'; [| set_solver].
  destruct (Hs uid p' Hp') as (p & Hp & He). rewrite Hp. cbn. by rewrite He.
Qed.
(** ** The phases of [make_contacts_from_microstructure_objects] *)

Lemma enumerate_elem {A : Type} (l : list A) (i : nat) (x : A) :
  (i, x) ∈ enumerate l <-> l !! i = Some x.
Proof.
  unfold enumerate. split.
  - intros H. apply list_elem_of_lookup_1 in H as [k Hk]. rewrite list_lookup_imap in Hk.
    destruct (l !! k) as [y |] eqn:E; [| discriminate Hk]. by injection Hk as <- <-.
  - intros H. apply (list_elem_of_lookup_2 _ i). by rewrite list_lookup_imap, H.
Qed.

Lemma make_contacts_Ok
    add_school_edges generate_random_contacts_across_school
    add_contacts_from_edgelist school_type_by_age
    age_by_uid_dic homes_by_uids schools_by_uids teachers_by_uids
    non_teaching_staff_uids workplaces_by_uids facilities_by_uids
    facilities_staff_uids use_two_group_reduction average_LTCF_degree
    with_school_types school_mixing_type workplaces_by_industry_codes max_contacts
    s pd' s' :
  make_contacts_from_microstructure_objects
    add_school_edges generate_random_contacts_across_school
    add_contacts_from_edgelist school_type_by_age
    age_by_uid_dic homes_by_uids schools_by_uids teachers_by_uids
    non_teaching_staff_uids workplaces_by_uids facilities_by_uids
    facilities_staff_uids use_two_group_reduction average_LTCF_degree
    with_school_types school_mixing_type workplaces_by_industry_codes max_contacts
    s = (Ok pd', s') ->
  exists mixing_dic s1 s2 s3 s4,
    fresh_people (bool_decide (is_Some facilities_by_uids)) (popdict s1) /\
    add_facilities facilities_by_uids facilities_staff_uids use_two_group_reduction
      average_LTCF_degree s1 = (Ok tt, s2) /\
    for_each (enumerate homes_by_uids) add_household s2 = (Ok tt, s3) /\
    for_each (enumerate schools_by_uids)
      (add_school add_school_edges generate_random_contacts_across_school
         add_contacts_from_edgelist school_type_by_age age_by_uid_dic
         teachers_by_uids non_teaching_staff_uids with_school_types mixing_dic)
      s3 = (Ok tt, s4) /\
    add_workplaces max_contacts workplaces_by_industry_codes workplaces_by_uids s4
      = (Ok tt, s') /\
    pd' = popdict s'.
Proof.
  unfold make_contacts_from_microstructure_objects. intros H. cbv zeta in H.
  apply bind_Ok in H as (a0 & t0 & Hclear & H). inversion Hclear; subst; clear Hclear.
  apply bind_Ok in H as (sexes & t1 & Hsex & H).
  apply c_random_popdict in Hsex as [Hpd _].
  apply bind_Ok in H as ([] & s1 & Hpeople & H).
  apply bind_Ok in H as ([] & s2 & Hfac & H).
  apply bind_Ok in H as ([] & s3 & Hhome & H).
  apply bind_Ok in H as ([] & s4 & Hschool & H).
  apply bind_Ok in H as ([] & s5 & Hwork & H).
  inversion H; subst; clear H.
  eexists _, s1, s2, s3, s4. split; [| by repeat split; eauto].
  apply create_people_Ok in Hpeople as [_ Hfresh].
  intros uid p Hp. destruct (Hfresh uid p Hp) as [Hold | Hnew]; [| exact Hnew].
  rewrite Hpd in Hold. cbn in Hold. by rewrite lookup_empty in Hold.
Qed.

(** ** Relations that every block of the assembly keeps

    [R] relates the dictionary before a step to the dictionary after it.
    It is kept by every step that changes attributes only and by every
    assignment of a contact set that concerns an allowed layer and, as long
    as nobody is their own contact, does not hold its owner.  [uids_once]
    says whether the relation needs the groups given to the two-group
    reduction to list each uid once. *)

Section kept_by_the_assembly.

Variable R : gmap nat person -> gmap nat person -> Prop.
Variable ok_layer : string -> Prop.
Variable uids_once : Prop.

Hypothesis R_refl : forall pd, R pd pd.
Hypothesis R_trans : forall pd1 pd2 pd3, R pd1 pd2 -> R pd2 pd3 -> R pd1 pd3.
Hypothesis R_attrs : forall pd pd', same_contacts pd pd' -> R pd pd'.
Hypothesis R_layer :
  forall uid layer c pd pd',
    write_layer uid layer c pd pd' -> ok_layer layer ->
    (no_self_contact pd -> uid ∉ c) -> R pd pd'.
Hypothesis R_reduced :
  forall group_1 group_2 setting d pm fce s u s',
    create_reduced_contacts_with_group_types group_1 group_2 setting d pm fce s
      = (Ok u, s') ->
    ok_layer setting -> (uids_once -> NoDup (group_1 ++ group_2)) ->
    R (popdict s) (popdict s').

Lemma for_each_kept {A : Type} (xs : list A) (body : A -> M cstate unit) :
  (forall x s u s', x ∈ xs -> body x s = (Ok u, s') -> R (popdict s) (popdict s')) ->
  forall s u s', for_each xs body s = (Ok u, s') -> R (popdict s) (popdict s').
Proof.
  intros Hbody s u s' Hrun.
  apply (for_each_invariant (fun t => R (popdict s) (popdict t)) xs body)
    with (s := s) (u := u); [| apply R_refl | exact Hrun].
  intros x t v t' Hx HI Hb. eapply R_trans; [exact HI |]. eauto.
Qed.

Lemma add_household_kept nh_household s u s' :
  ok_layer "H" ->
  add_household nh_household s = (Ok u, s') -> R (popdict s) (popdict s').
Proof.
  intros Hok. destruct nh_household as [nh household]. unfold add_household.
  apply for_each_kept. intros uid t v t' _ Hb. cbv beta in Hb.
  apply bind_Ok in Hb as (a1 & t1 & Hset & Hb).
  apply bind_Ok in Hb as (a2 & t2 & Hrem & Hb).
  assert (Hboth : (set_contacts uid "H" (list_to_set household)
                   >> remove_contact uid "H" uid) t = (Ok a2, t2)).
  { by rewrite (bind_Ok_intro _ _ _ _ _ Hset). }
  apply set_then_remove_Ok in Hboth as (_ & Hw & _).
  apply set_attr_same_contacts in Hb as [Hs _].
  eapply R_trans; [| apply R_attrs; exact Hs].
  eapply R_layer; [exact Hw | exact Hok | set_solver].
Qed.

Lemma connect_to_facility_kept facility facility_staff uid s u s' :
  ok_layer "LTCF" ->
  connect_to_facility facility facility_staff uid s = (Ok u, s') ->
  R (popdict s) (popdict s').
Proof.
  intros Hok Hrun. apply connect_to_facility_Ok in Hrun as [Hw _].
  eapply R_layer; [exact Hw | exact Hok | set_solver].
Qed.

Lemma add_facility_kept facilities_staff_uids use_two_group_reduction d nf_facility
    s u s' :
  ok_layer "LTCF" ->
  (uids_once -> use_two_group_reduction = true ->
   forall staff, facilities_staff_uids !! nf_facility.1 = Some staff ->
     NoDup (nf_facility.2 ++ staff)) ->
  add_facility facilities_staff_uids use_two_group_reduction d nf_facility s
    = (Ok u, s') ->
  R (popdict s) (popdict s').
Proof.
  intros Hok Hnd. destruct nf_facility as [nf facility]. cbn [fst snd] in Hnd.
  unfold add_facility. intros H.
  apply bind_Ok in H as (staff & t0 & Hstaff & H).
  apply lift_opt_Ok in Hstaff as [Hstaff ->].
  apply bind_Ok in H as (a1 & t1 & Hres & H).
  apply bind_Ok in H as (a2 & t2 & Hstf & H).
  assert (Hattrs : same_contacts (popdict s) (popdict t2)).
  { eapply same_contacts_trans.
    - eapply for_each_same_contacts; [| exact Hres].
      intros x t v t' _ Hb. cbv beta in Hb. monad_inv. inv_attrs. chain_same_contacts.
    - eapply for_each_same_contacts; [| exact Hstf].
      intros x t v t' _ Hb. cbv beta in Hb. monad_inv. inv_attrs. chain_same_contacts. }
  eapply R_trans; [apply R_attrs; exact Hattrs |].
  destruct use_two_group_reduction.
  - eapply R_reduced; [exact H | exact Hok | intros Honce; by apply Hnd].
  - apply bind_Ok in H as (a3 & t3 & Hf & H).
    eapply R_trans.
    + eapply for_each_kept; [| exact Hf].
      intros x t v t' _ Hb. by eapply connect_to_facility_kept.
    + eapply for_each_kept; [| exact H].
      intros x t v t' _ Hb. by eapply connect_to_facility_kept.
Qed.

Lemma sample_contacts_of_worker_kept max_W_size codes nw workplace uid s u s' :
  ok_layer "W" ->
  sample_contacts_of_worker max_W_size codes nw workplace uid s = (Ok u, s') ->
  R (popdict s) (popdict s').
Proof.
  intros Hok H. apply sample_contacts_of_worker_Ok in H
    as (c & pd1 & _ & Hsub & _ & Hw & Hs).
  eapply R_trans; [| apply R_attrs; exact Hs].
  eapply R_layer; [exact Hw | exact Hok | set_solver].
Qed.

Lemma sample_workplace_contacts_kept max_W_size codes workplaces_by_uids s u s' :
  ok_layer "W" ->
  sample_workplace_contacts max_W_size codes workplaces_by_uids s = (Ok u, s') ->
  R (popdict s) (popdict s').
Proof.
  intros Hok. unfold sample_workplace_contacts. apply for_each_kept.
  intros [nw workplace] t v t' _. apply for_each_kept.
  intros uid t1 v1 t2 _. by apply sample_contacts_of_worker_kept.
Qed.

Lemma pair_contacts_of_kept uid s u s' :
  ok_layer "W" ->
  pair_contacts_of uid s = (Ok u, s') -> R (popdict s) (popdict s').
Proof.
  intros Hok. unfold pair_contacts_of. intros H.
  apply bind_Ok in H as (c & t & Hget & H).
  apply get_contacts_Ok in Hget as (-> & p & Hp & Hc).
  pose proof (has_layer_contact_set _ _ _ _ _ Hp Hc) as Hcs.
  apply (for_each_invariant
           (fun t => R (popdict s) (popdict t) /\ c ⊆ contact_set (popdict t) "W" uid)
           (elements c) (fun c => add_contact c "W" uid)) with (s := s) (u := u) (3 := H);
    [| split; [apply R_refl | by rewrite Hcs]].
  intros x t v t' Hx [HR Hsub] Hb. apply elem_of_elements in Hx.
  apply add_contact_adds in Hb as [Ha _]. split.
  - eapply R_trans; [exact HR |]. destruct Ha as [Hl Hw].
    eapply R_layer; [exact Hw | exact Hok |]. intros Hns.
    pose proof (no_self_contact_set _ "W"%string x Hns).
    pose proof (no_self_contact_set _ "W"%string uid Hns).
    assert (x <> uid) by (intros ->; set_solver). set_solver.
  - pose proof (adds_contact_mono _ _ _ _ _ "W"%string uid Ha). set_solver.
Qed.

Lemma add_pairing_contacts_kept s u s' :
  ok_layer "W" ->
  add_pairing_contacts s = (Ok u, s') -> R (popdict s) (popdict s').
Proof.
  intros Hok. unfold add_pairing_contacts. intros H.
  apply bind_Ok in H as (pd0 & t & Hpd & H). inversion Hpd; subst; clear Hpd.
  eapply for_each_kept; [| exact H]. intros uid t1 v1 t2 _.
  by apply pair_contacts_of_kept.
Qed.

Lemma connect_workplaces_kept codes workplaces_by_uids s u s' :
  ok_layer "W" ->
  connect_workplaces codes workplaces_by_uids s = (Ok u, s') ->
  R (popdict s) (popdict s').
Proof.
  intros Hok. unfold connect_workplaces. apply for_each_kept.
  intros [nw workplace] t v t' _. apply for_each_kept.
  intros uid t1 v1 t2 _ Hb. cbv beta in Hb.
  apply bind_Ok in Hb as (a1 & t3 & Hset & Hb).
  apply bind_Ok in Hb as (a2 & t4 & Hrem & Hb).
  assert (Hboth : (set_contacts uid "W" (list_to_set workplace)
                   >> remove_contact uid "W" uid) t1 = (Ok a2, t4)).
  { by rewrite (bind_Ok_intro _ _ _ _ _ Hset). }
  apply set_then_remove_Ok in Hboth as (_ & Hw & _).
  apply bind_Ok in Hb as (a3 & t5 & Hwpid & Hb).
  apply set_attr_same_contacts in Hwpid as [Hs1 _].
  apply industry_code_same_contacts in Hb.
  eapply R_trans; [eapply R_layer; [exact Hw | exact Hok | set_solver] |].
  apply R_attrs. chain_same_contacts.
Qed.

Lemma add_workplaces_kept max_contacts codes workplaces_by_uids s u s' :
  ok_layer "W" ->
  add_workplaces max_contacts codes workplaces_by_uids s = (Ok u, s') ->
  R (popdict s) (popdict s').
Proof.
  intros Hok. unfold add_workplaces. cbv zeta.
  destruct (_ && _).
  - intros H. apply bind_Ok in H as (cap & t0 & Hcap & H).
    apply lift_opt_Ok in Hcap as [_ ->].
    apply bind_Ok in H as (a1 & t1 & Hsample & H).
    eapply R_trans; [by eapply sample_workplace_contacts_kept |].
    by eapply add_pairing_contacts_kept.
  - by apply connect_workplaces_kept.
Qed.

Variable add_school_edges :
  list nat -> list Z -> list nat -> list nat -> pyval -> M cstate unit.
Variable generate_random_contacts_across_school :
  list nat -> M rng (list (nat * nat)).
Variable add_contacts_from_edgelist : list (nat * nat) -> string -> M cstate unit.
Variable school_type_by_age : Z -> option string.

Hypothesis add_school_edges_kept :
  forall students ages teachers staff mixing s u s',
    add_school_edges students ages teachers staff mixing s = (Ok u, s') ->
    R (popdict s) (popdict s').
Hypothesis add_contacts_from_edgelist_kept :
  forall school g edges g' s u s',
    generate_random_contacts_across_school school g = (Ok edges, g') ->
    add_contacts_from_edgelist edges "S" s = (Ok u, s') ->
    R (popdict s) (popdict s').

Lemma add_school_contacts_kept age_by_uid_dic with_school_types mixing_dic
    students teachers staff s r s' :
  add_school_contacts add_school_edges generate_random_contacts_across_school
    add_contacts_from_edgelist school_type_by_age age_by_uid_dic with_school_types
    mixing_dic students teachers staff s = (Ok r, s') ->
  R (popdict s) (popdict s').
Proof.
  unfold add_school_contacts. destruct with_school_types; intros H.
  - apply bind_Ok in H as (ages & t1 & Hages & H).
    assert (t1 = s) as ->.
    { clear H. revert ages s t1 Hages.
      induction students as [| x xs IH]; intros ages s t1 H; cbn in H.
      - by inversion H.
      - monad_inv. eauto. }
    monad_inv. eauto.
  - cbv zeta in H. monad_inv.
    match goal with Hx : c_random _ _ = _ |- _ =>
      apply c_random_popdict in Hx as [Hpd Hgen] end.
    rewrite <- Hpd. eauto.
Qed.

Lemma add_school_kept age_by_uid_dic teachers_by_uids non_teaching_staff_uids
    with_school_types mixing_dic ns_students s u s' :
  add_school add_school_edges generate_random_contacts_across_school
    add_contacts_from_edgelist school_type_by_age age_by_uid_dic teachers_by_uids
    non_teaching_staff_uids with_school_types mixing_dic ns_students s
    = (Ok u, s') ->
  R (popdict s) (popdict s').
Proof.
  destruct ns_students as [ns students]. unfold add_school. intros H.
  apply bind_Ok in H as (teachers & t0 & Ht & H).
  apply lift_opt_Ok in Ht as [Ht ->].
  apply bind_Ok in H as (staff & t1 & Hst & H).
  assert (t1 = s) as ->.
  { destruct non_teaching_staff_uids as [[| l0 l] |]; monad_inv; reflexivity. }
  apply bind_Ok in H as ([ty mix] & t2 & Hc & H). cbv beta iota in H.
  apply bind_Ok in H as (a1 & t3 & H1 & H).
  apply bind_Ok in H as (a2 & t4 & H2 & H).
  apply tag_school_members_same_contacts in H1, H2, H.
  eapply R_trans; [eapply add_school_contacts_kept; exact Hc |].
  apply R_attrs. chain_same_contacts.
Qed.

Lemma add_facilities_kept facilities_by_uids facilities_staff_uids
    use_two_group_reduction d s u s' :
  ok_layer "LTCF" ->
  (uids_once ->
   facility_members_distinct use_two_group_reduction facilities_by_uids
     facilities_staff_uids) ->
  add_facilities facilities_by_uids facilities_staff_uids use_two_group_reduction d s
    = (Ok u, s') ->
  R (popdict s) (popdict s').
Proof.
  intros Hok Hnd. unfold add_facilities.
  destruct facilities_by_uids as [facilities |].
  - apply for_each_kept. intros [nf facility] t v t' Hin.
    apply add_facility_kept; [exact Hok |]. cbn [fst snd].
    intros Honce Htwo staff Hstaff.
    apply enumerate_elem in Hin. by eapply (Hnd Honce).
  - intros H. inversion H; subst. apply R_refl.
Qed.

(** From the people as created to the dictionary before the workplaces. *)
Lemma assembly_kept age_by_uid_dic homes_by_uids schools_by_uids teachers_by_uids
    non_teaching_staff_uids facilities_by_uids
    facilities_staff_uids use_two_group_reduction average_LTCF_degree
    with_school_types mixing_dic s1 s2 s3 s4 :
  ok_layer "LTCF" -> ok_layer "H" ->
  (uids_once ->
   facility_members_distinct use_two_group_reduction facilities_by_uids
     facilities_staff_uids) ->
  add_facilities facilities_by_uids facilities_staff_uids use_two_group_reduction
    average_LTCF_degree s1 = (Ok tt, s2) ->
  for_each (enumerate homes_by_uids) add_household s2 = (Ok tt, s3) ->
  for_each (enumerate schools_by_uids)
    (add_school add_school_edges generate_random_contacts_across_school
       add_contacts_from_edgelist school_type_by_age age_by_uid_dic
       teachers_by_uids non_teaching_staff_uids with_school_types mixing_dic)
    s3 = (Ok tt, s4) ->
  R (popdict s1) (popdict s4).
Proof.
  intros HL HH Hnd Hfac Hhome Hschool.
  eapply R_trans; [by eapply add_facilities_kept |].
  eapply R_trans.
  - eapply for_each_kept; [| exact Hhome].
    intros x t v t' _. by apply add_household_kept.
  - eapply for_each_kept; [| exact Hschool].
    intros x t v t' _. by apply add_school_kept.
Qed.

End kept_by_the_assembly.
(** ** The two relations the statements need *)

Lemma keeps_no_self_refl (pd : gmap nat person) : no_self_contact pd -> no_self_contact pd.
Proof. done. Qed.

Lemma write_layer_keeps_no_self uid layer c pd pd' :
  write_layer uid layer c pd pd' -> True ->
  (no_self_contact pd -> uid ∉ c) ->
  no_self_contact pd -> no_self_contact pd'.
Proof. intros Hw _ Hc Hns. apply (write_layer_no_self _ _ _ _ _ Hw); auto. Qed.

Lemma create_reduced_keeps_no_self group_1 group_2 setting d pm fce s u s' :
  create_reduced_contacts_with_group_types group_1 group_2 setting d pm fce s
    = (Ok u, s') ->
  True -> (True -> NoDup (group_1 ++ group_2)) ->
  no_self_contact (popdict s) -> no_self_contact (popdict s').
Proof. intros H _ Hnd. eapply create_reduced_no_self; [exact H | by apply Hnd]. Qed.

Lemma write_layer_keeps_layer layer0 uid layer c pd pd' :
  write_layer uid layer c pd pd' -> layer <> layer0 ->
  (no_self_contact pd -> uid ∉ c) -> same_layer layer0 pd pd'.
Proof. intros Hw Hne _. apply (write_layer_same_layer _ _ _ _ _ _ Hw). congruence. Qed.

Lemma create_reduced_keeps_layer layer0 group_1 group_2 setting d pm fce s u s' :
  create_reduced_contacts_with_group_types group_1 group_2 setting d pm fce s
    = (Ok u, s') ->
  setting <> layer0 -> (False -> NoDup (group_1 ++ group_2)) ->
  same_layer layer0 (popdict s) (popdict s').
Proof. intros H Hne _. apply (create_reduced_same_layer _ _ _ _ _ _ _ _ _ _ H). congruence. Qed.
(** ** The assembly keeps people out of their own contact sets *)

Lemma assembly_no_self
    add_school_edges generate_random_contacts_across_school
    add_contacts_from_edgelist school_type_by_age
    age_by_uid_dic homes_by_uids schools_by_uids teachers_by_uids
    non_teaching_staff_uids workplaces_by_uids facilities_by_uids
    facilities_staff_uids use_two_group_reduction average_LTCF_degree
    with_school_types school_mixing_type workplaces_by_industry_codes max_contacts
    s pd' s' :
  (forall students ages teachers staff mixing,
     keeps_no_self_contact (add_school_edges students ages teachers staff mixing)) ->
  (forall school g edges g',
     generate_random_contacts_across_school school g = (Ok edges, g') ->
     keeps_no_self_contact (add_contacts_from_edgelist edges "S"%string)) ->
  facility_members_distinct use_two_group_reduction facilities_by_uids
    facilities_staff_uids ->
  make_contacts_from_microstructure_objects
    add_school_edges generate_random_contacts_across_school
    add_contacts_from_edgelist school_type_by_age
    age_by_uid_dic homes_by_uids schools_by_uids teachers_by_uids
    non_teaching_staff_uids workplaces_by_uids facilities_by_uids
    facilities_staff_uids use_two_group_reduction average_LTCF_degree
    with_school_types school_mixing_type workplaces_by_industry_codes max_contacts
    s = (Ok pd', s') ->
  no_self_contact pd'.
Proof.
  intros Hedges Hlist Hnd Hrun.
  apply make_contacts_Ok in Hrun
    as (mixing_dic & s1 & s2 & s3 & s4 & Hfresh & Hfac & Hhome & Hschool & Hwork & ->).
  pose (R := fun pd pd' : gmap nat person => no_self_contact pd -> no_self_contact pd').
  assert (R_refl : forall pd, R pd pd) by (intros pd; exact (fun H => H)).
  assert (R_trans : forall pd1 pd2 pd3, R pd1 pd2 -> R pd2 pd3 -> R pd1 pd3)
    by (intros pd1 pd2 pd3 H12 H23 H; auto).
  assert (R_attrs : forall pd pd', same_contacts pd pd' -> R pd pd')
    by (intros pd1 pd2 Hs; exact (same_contacts_no_self _ _ Hs)).
  assert (R_layer : forall uid layer c pd pd',
            write_layer uid layer c pd pd' -> True ->
            (no_self_contact pd -> uid ∉ c) -> R pd pd')
    by (intros uid layer c pd1 pd2 H1 H2 H3;
        exact (write_layer_keeps_no_self uid layer c pd1 pd2 H1 H2 H3)).
  assert (R_reduced : forall group_1 group_2 setting d pm fce s u s',
            create_reduced_contacts_with_group_types group_1 group_2 setting d pm fce s
              = (Ok u, s') ->
            True -> (True -> NoDup (group_1 ++ group_2)) ->
            R (popdict s) (popdict s'))
    by (intros g1 g2 setting d pm fce t u t' H1 H2 H3;
        exact (create_reduced_keeps_no_self g1 g2 setting d pm fce t u t' H1 H2 H3)).
  assert (H14 : R (popdict s1) (popdict s4)).
  { eapply (assembly_kept R (fun _ => True) True R_refl R_trans R_attrs R_layer R_reduced
              add_school_edges generate_random_contacts_across_school
              add_contacts_from_edgelist school_type_by_age);
      [| | exact I | exact I | intros _; exact Hnd | exact Hfac | exact Hhome | exact Hschool].
    - intros students ages teachers staff mixing t u t' Ht.
      exact (Hedges _ _ _ _ _ t u t' Ht).
    - intros school g edges g' t u t' Hg Ht. exact (Hlist _ _ _ _ Hg t u t' Ht). }
  assert (H45 : R (popdict s4) (popdict s')).
  { eapply (add_workplaces_kept R (fun _ => True) True R_refl R_trans R_attrs R_layer
              R_reduced); [exact I | exact Hwork]. }
  apply H45, H14. by eapply fresh_people_no_self.
Qed.

Lemma assembly_same_layer (layer0 : string)
    add_school_edges generate_random_contacts_across_school
    add_contacts_from_edgelist school_type_by_age
    age_by_uid_dic homes_by_uids schools_by_uids teachers_by_uids
    non_teaching_staff_uids facilities_by_uids
    facilities_staff_uids use_two_group_reduction average_LTCF_degree
    with_school_types mixing_dic s1 s2 s3 s4 :
  layer0 <> "LTCF"%string -> layer0 <> "H"%string -> layer0 <> "S"%string ->
  (forall students ages teachers staff mixing,
     touches_school_layer_only (add_school_edges students ages teachers staff mixing)) ->
  (forall school g edges g',
     generate_random_contacts_across_school school g = (Ok edges, g') ->
     touches_school_layer_only (add_contacts_from_edgelist edges "S"%string)) ->
  add_facilities facilities_by_uids facilities_staff_uids use_two_group_reduction
    average_LTCF_degree s1 = (Ok tt, s2) ->
  for_each (enumerate homes_by_uids) add_household s2 = (Ok tt, s3) ->
  for_each (enumerate schools_by_uids)
    (add_school add_school_edges generate_random_contacts_across_school
       add_contacts_from_edgelist school_type_by_age age_by_uid_dic
       teachers_by_uids non_teaching_staff_uids with_school_types mixing_dic)
    s3 = (Ok tt, s4) ->
  same_layer layer0 (popdict s1) (popdict s4).
Proof.
  intros HL HH HS Hedges Hlist Hfac Hhome Hschool.
  eapply (assembly_kept (same_layer layer0) (fun l => l <> layer0) False
            (same_layer_refl layer0) (same_layer_trans layer0)
            (fun pd pd' H => same_contacts_same_layer pd pd' layer0 H)
            (write_layer_keeps_layer layer0) (create_reduced_keeps_layer layer0)
            add_school_edges generate_random_contacts_across_school
            add_contacts_from_edgelist school_type_by_age);
    [| | congruence | congruence | tauto | exact Hfac | exact Hhome | exact Hschool].
  - intros students ages teachers staff mixing t u t' Ht.
    apply (Hedges _ _ _ _ _ t u t' layer0 Ht HS).
  - intros school g edges g' t u t' Hg Ht. apply (Hlist _ _ _ _ Hg t u t' layer0 Ht HS).
Qed.

Lemma add_workplaces_same_layer (layer0 : string) max_contacts codes workplaces_by_uids
    s u s' :
  layer0 <> "W"%string ->
  add_workplaces max_contacts codes workplaces_by_uids s = (Ok u, s') ->
  same_layer layer0 (popdict s) (popdict s').
Proof.
  intros HW Hrun.
  eapply (add_workplaces_kept (same_layer layer0) (fun l => l <> layer0) False
            (same_layer_refl layer0) (same_layer_trans layer0)
            (fun pd pd' H => same_contacts_same_layer pd pd' layer0 H)
            (write_layer_keeps_layer layer0) (create_reduced_keeps_layer layer0));
    [congruence | exact Hrun].
Qed.
(** ** The instances of the school functions used by the examples *)

Lemma draw_no_school_edge_popdict students ages teachers staff mixing s u s' :
  draw_no_school_edge students ages teachers staff mixing s = (Ok u, s') -> s' = s.
Proof. intros H. by inversion H. Qed.

Lemma no_random_contact_edge_list school g edges g' s u s' :
  draw_no_random_contact school g = (Ok edges, g') ->
  add_contacts_edge_by_edge edges "S" s = (Ok u, s') -> s' = s.
Proof. intros Hg H. inversion Hg; subst. by inversion H. Qed.

(** C9.  Whenever the functions of [schools.py] put nobody into their own
    contact set: in the dictionary that
    [make_contacts_from_microstructure_objects] returns nobody is in a contact
    set of their own, for any layer, provided that with the two-group
    reduction no uid is listed twice among the residents and the staff of a
    facility taken together; and
    [create_reduced_contacts_with_group_types], called with groups that list
    each uid once on a dictionary in which nobody is their own contact,
    leaves such a dictionary. *)
Theorem nobody_is_their_own_contact
    (add_school_edges :
       list nat -> list Z -> list nat -> list nat -> pyval -> M cstate unit)
    (generate_random_contacts_across_school : list nat -> M rng (list (nat * nat)))
    (add_contacts_from_edgelist : list (nat * nat) -> string -> M cstate unit)
    (school_type_by_age : Z -> option string) :
  (forall students ages teachers staff mixing,
     keeps_no_self_contact (add_school_edges students ages teachers staff mixing)) ->
  (forall school g edges g',
     generate_random_contacts_across_school school g = (Ok edges, g') ->
     keeps_no_self_contact (add_contacts_from_edgelist edges "S"%string)) ->
  (forall age_by_uid_dic homes_by_uids schools_by_uids teachers_by_uids
     non_teaching_staff_uids workplaces_by_uids facilities_by_uids
     facilities_staff_uids use_two_group_reduction average_LTCF_degree
     with_school_types school_mixing_type workplaces_by_industry_codes max_contacts
     s pd' s',
     facility_members_distinct use_two_group_reduction facilities_by_uids
       facilities_staff_uids ->
     make_contacts_from_microstructure_objects
       add_school_edges generate_random_contacts_across_school
       add_contacts_from_edgelist school_type_by_age
       age_by_uid_dic homes_by_uids schools_by_uids teachers_by_uids
       non_teaching_staff_uids workplaces_by_uids facilities_by_uids
       facilities_staff_uids use_two_group_reduction average_LTCF_degree
       with_school_types school_mixing_type workplaces_by_industry_codes
       max_contacts s = (Ok pd', s') ->
     forall uid p layer c,
       pd' !! uid = Some p -> contacts p !! layer = Some c -> uid ∉ c) /\
  (forall group_1 group_2 setting d pm fce s u s',
     NoDup (group_1 ++ group_2) ->
     no_self_contact (popdict s) ->
     create_reduced_contacts_with_group_types group_1 group_2 setting d pm fce s
       = (Ok u, s') ->
     forall uid p layer c,
       popdict s' !! uid = Some p -> contacts p !! layer = Some c -> uid ∉ c).
Proof.
  intros Hedges Hlist. split.
  - intros age_by_uid_dic homes_by_uids schools_by_uids teachers_by_uids
      non_teaching_staff_uids workplaces_by_uids facilities_by_uids
      facilities_staff_uids use_two_group_reduction average_LTCF_degree
      with_school_types school_mixing_type workplaces_by_industry_codes max_contacts
      s pd' s' Hnd Hrun.
    exact (assembly_no_self _ _ _ _ _ _ _ _ _ _ _ _ _ _ _ _ _ _ _ _ _
             Hedges Hlist Hnd Hrun).
  - intros group_1 group_2 setting d pm fce s u s' Hnd Hns Hrun.
    exact (create_reduced_no_self _ _ _ _ _ _ _ _ _ Hrun Hnd Hns).
Qed.

Lemma nobody_is_their_own_contact_witness :
  (exists pd' s',
     ex_make_contacts None (CState ∅ ex_stream) = (Ok pd', s') /\
     no_self_contact pd') /\
  (exists s',
     create_reduced_contacts_with_group_types [1] [2; 3] "W" 2 None true
       (ex_cstate [1; 2; 3] ex_stream) = (Ok tt, s') /\
     no_self_contact (popdict s')).
Proof.
  destruct (nobody_is_their_own_contact draw_no_school_edge draw_no_random_contact
              add_contacts_edge_by_edge no_school_type) as [Hmake Hreduced].
  - intros students ages teachers staff mixing s u s' Hrun.
    by apply draw_no_school_edge_popdict in Hrun as ->.
  - intros school g edges g' Hg s u s' Hrun.
    by apply (no_random_contact_edge_list _ _ _ _ _ _ _ Hg) in Hrun as ->.
  - split.
    + assert (Hrun : exists pd' s',
                ex_make_contacts None (CState ∅ ex_stream) = (Ok pd', s')).
      { vm_compute. eexists _, _. reflexivity. }
      destruct Hrun as (pd' & s' & Hrun). exists pd', s'. split; [exact Hrun |].
      intros uid p layer c. unfold ex_make_contacts in Hrun.
      refine (Hmake _ _ _ _ _ _ _ _ _ _ _ _ _ _ _ _ _ _ Hrun uid p layer c).
      intros Htwo. discriminate Htwo.
    + assert (Hrun : exists s',
                create_reduced_contacts_with_group_types [1] [2; 3] "W" 2 None true
                  (ex_cstate [1; 2; 3] ex_stream) = (Ok tt, s')).
      { vm_compute. eexists. reflexivity. }
      destruct Hrun as (s' & Hrun). exists s'. split; [exact Hrun |].
      intros uid0 p0 layer0 c0.
      refine (Hreduced _ _ _ _ _ _ _ _ _ _ _ Hrun uid0 p0 layer0 c0).
      * apply NoDup_ListNoDup. repeat constructor; set_solver.
      * intros uid p layer c Hp Hc.
        change (ex_people [1; 2; 3] !! uid = Some p) in Hp.
        assert (p = ex_person) as ->.
        { unfold ex_people in Hp. apply elem_of_list_to_map_2 in Hp.
          apply list_elem_of_fmap in Hp as (k & [= _ ->] & _). reflexivity. }
        cbn in Hc. by rewrite lookup_empty in Hc.
Defined.

(** C9 as stated fails.  The facility lists uid 1 among its residents and
    among its staff; each of the two lists holds every uid once.  With the
    two-group reduction line 302 joins the lists, [group = [1; 2; 1; 3]], the
    graph on the four positions is complete for an average degree of 20, and
    the edge between the positions 0 and 2 makes uid 1 a contact of uid 1
    (lines 382-383). *)
Lemma shared_resident_and_staff_is_own_contact :
  NoDup [1; 2] /\ NoDup [1; 3] /\
  exists pd' s',
    make_contacts_from_microstructure_objects
      draw_no_school_edge draw_no_random_contact add_contacts_edge_by_edge
      no_school_type
      ex_ages [[4; 5]] [] [] None [[3; 4; 5]] (Some [[1; 2]]) [[1; 3]]
      true 20%Z false (inl "random"%string) None None (CState ∅ ex_stream)
    = (Ok pd', s') /\
    1 ∈ contact_set pd' "LTCF" 1.
Proof.
  split; [| split].
  - apply NoDup_ListNoDup. repeat constructor; set_solver.
  - apply NoDup_ListNoDup. repeat constructor; set_solver.
  - eexists _, _. split; [vm_compute; reflexivity |].
    apply (bool_decide_unpack _). vm_compute. reflexivity.
Qed.

(** C10.  Whenever the functions of [schools.py] leave the layers other
    than the school layer as they are: every person of the dictionary that
    [make_contacts_from_microstructure_objects] returns has a contact set for
    the community layer ['C'], and it is empty. *)
Theorem community_layer_stays_empty
    (add_school_edges :
       list nat -> list Z -> list nat -> list nat -> pyval -> M cstate unit)
    (generate_random_contacts_across_school : list nat -> M rng (list (nat * nat)))
    (add_contacts_from_edgelist : list (nat * nat) -> string -> M cstate unit)
    (school_type_by_age : Z -> option string)
    age_by_uid_dic homes_by_uids schools_by_uids teachers_by_uids
    non_teaching_staff_uids workplaces_by_uids facilities_by_uids
    facilities_staff_uids use_two_group_reduction average_LTCF_degree
    with_school_types school_mixing_type workplaces_by_industry_codes max_contacts
    s pd' s' :
  (forall students ages teachers staff mixing,
     touches_school_layer_only (add_school_edges students ages teachers staff mixing)) ->
  (forall school g edges g',
     generate_random_contacts_across_school school g = (Ok edges, g') ->
     touches_school_layer_only (add_contacts_from_edgelist edges "S"%string)) ->
  make_contacts_from_microstructure_objects
    add_school_edges generate_random_contacts_across_school
    add_contacts_from_edgelist school_type_by_age
    age_by_uid_dic homes_by_uids schools_by_uids teachers_by_uids
    non_teaching_staff_uids workplaces_by_uids facilities_by_uids
    facilities_staff_uids use_two_group_reduction average_LTCF_degree
    with_school_types school_mixing_type workplaces_by_industry_codes max_contacts
    s = (Ok pd', s') ->
  forall uid p, pd' !! uid = Some p -> contacts p !! "C"%string = Some ∅.
Proof.
  intros Hedges Hlist Hrun.
  apply make_contacts_Ok in Hrun
    as (mixing_dic & s1 & s2 & s3 & s4 & Hfresh & Hfac & Hhome & Hschool & Hwork & ->).
  apply (same_layer_community (popdict s4));
    [by eapply add_workplaces_same_layer |].
  apply (same_layer_community (popdict s1)); [| by eapply fresh_people_community].
  by eapply (assembly_same_layer "C" add_school_edges
               generate_random_contacts_across_school add_contacts_from_edgelist
               school_type_by_age).
Qed.

Lemma community_layer_stays_empty_witness :
  exists pd' s',
    ex_make_contacts None (CState ∅ ex_stream) = (Ok pd', s') /\
    community_layer_empty pd'.
Proof.
  assert (Hrun : exists pd' s',
            ex_make_contacts None (CState ∅ ex_stream) = (Ok pd', s')).
  { vm_compute. eexists _, _. reflexivity. }
  destruct Hrun as (pd' & s' & Hrun). exists pd', s'. split; [exact Hrun |].
  intros uid p. unfold ex_make_contacts in Hrun.
  refine (community_layer_stays_empty draw_no_school_edge draw_no_random_contact
            add_contacts_edge_by_edge no_school_type _ _ _ _ _ _ _ _ _ _ _ _ _ _ _ _ _
            _ _ Hrun uid p).
  - intros students ages teachers staff mixing s u s0 layer Hr _.
    apply draw_no_school_edge_popdict in Hr as ->. apply same_layer_refl.
  - intros school g edges g' Hg s u s0 layer Hr _.
    apply (no_random_contact_edge_list _ _ _ _ _ _ _ Hg) in Hr as ->.
    apply same_layer_refl.
Defined.
(** ** Lines 232-251 with a cap configured *)

Lemma add_workplaces_capped (mc : gmap string Z) codes workplaces_by_uids s u s' :
  add_workplaces (Some mc) codes workplaces_by_uids s = (Ok u, s') ->
  exists s1,
    sample_workplace_contacts (default 20%Z (mc !! "W"%string) / 2) codes
      workplaces_by_uids s = (Ok tt, s1) /\
    add_pairing_contacts s1 = (Ok tt, s').
Proof.
  unfold add_workplaces. cbv zeta. cbn [default].
  assert (Hcap : (mc ∪ {["W"%string := 20%Z]}) !! "W"%string
                 = Some (default 20%Z (mc !! "W"%string))).
  { destruct (mc !! "W"%string) as [c |] eqn:E; cbn.
    - by apply lookup_union_Some_l.
    - rewrite lookup_union_r by exact E. by rewrite lookup_singleton_eq. }
  unfold id. rewrite Hcap. rewrite bool_decide_eq_true_2 by eauto.
  rewrite bool_decide_eq_true_2 by eauto. cbn [andb lift_opt].
  intros H. apply bind_Ok in H as (cap & t0 & Hret & H). inversion Hret; subst; clear Hret.
  apply bind_Ok in H as ([] & s1 & Hsample & H). destruct u. eauto.
Qed.

Lemma sampled_or_empty_co_members workplaces_by_uids m pd u v :
  (forall uid, contact_set pd "W" uid = ∅ \/
               sampled_from workplaces_by_uids m uid (contact_set pd "W" uid)) ->
  v ∈ contact_set pd "W" u ->
  v <> u /\ exists workplace,
    workplace ∈ workplaces_by_uids /\ u ∈ workplace /\ v ∈ workplace.
Proof.
  intros Hall Hv. destruct (Hall u) as [He | [_ Hs]]; [rewrite He in Hv; set_solver |].
  by apply Hs.
Qed.

Lemma size_co_members (workplace : list nat) (uid : nat) (c : gset nat) :
  (forall v, v ∈ c -> v <> uid /\ uid ∈ workplace /\ v ∈ workplace) ->
  size c <= length workplace - 1.
Proof.
  intros Hc. destruct (decide (c = ∅)) as [-> | Hne]; [rewrite size_empty; lia |].
  apply set_choose_L in Hne as [v Hv]. destruct (Hc v Hv) as (_ & Hu & _).
  assert (Hsub : c ⊆ list_to_set workplace ∖ {[uid]}).
  { intros x Hx. destruct (Hc x Hx) as (Hne & _ & Hin). set_solver. }
  apply subseteq_size in Hsub. rewrite size_difference in Hsub by set_solver.
  rewrite size_singleton in Hsub. pose proof (size_list_to_set_le workplace). lia.
Qed.
(** C8.  With a cap configured ([max_contacts] given; the cap [c] is its
    entry for ['W'], 20 by default) and functions of [schools.py] that leave
    the workplace layer alone, every run of
    [make_contacts_from_microstructure_objects] that returns goes through the
    sampling of lines 237-246 and then the repair pass of lines 249-251.
    After the sampling the workplace contacts of a person are at most
    [c // 2] other members of a workplace of theirs (or none, for someone
    without a workplace).  After the repair pass [v] is a contact of [u]
    exactly when one of the two had sampled the other, so the relation is
    symmetric.  For a single workplace of 5 people and a cap of 4 nobody
    samples more than 2 contacts and nobody ends with more than 4. *)
Theorem capped_workplace_contacts_are_symmetric
    (add_school_edges :
       list nat -> list Z -> list nat -> list nat -> pyval -> M cstate unit)
    (generate_random_contacts_across_school : list nat -> M rng (list (nat * nat)))
    (add_contacts_from_edgelist : list (nat * nat) -> string -> M cstate unit)
    (school_type_by_age : Z -> option string)
    age_by_uid_dic homes_by_uids schools_by_uids teachers_by_uids
    non_teaching_staff_uids workplaces_by_uids facilities_by_uids
    facilities_staff_uids use_two_group_reduction average_LTCF_degree
    with_school_types school_mixing_type workplaces_by_industry_codes
    (max_contacts : gmap string Z) s pd' s' :
  (forall students ages teachers staff mixing,
     touches_school_layer_only (add_school_edges students ages teachers staff mixing)) ->
  (forall school g edges g',
     generate_random_contacts_across_school school g = (Ok edges, g') ->
     touches_school_layer_only (add_contacts_from_edgelist edges "S"%string)) ->
  make_contacts_from_microstructure_objects
    add_school_edges generate_random_contacts_across_school
    add_contacts_from_edgelist school_type_by_age
    age_by_uid_dic homes_by_uids schools_by_uids teachers_by_uids
    non_teaching_staff_uids workplaces_by_uids facilities_by_uids
    facilities_staff_uids use_two_group_reduction average_LTCF_degree
    with_school_types school_mixing_type workplaces_by_industry_codes
    (Some max_contacts) s = (Ok pd', s') ->
  exists s4 s5,
    sample_workplace_contacts (default 20%Z (max_contacts !! "W"%string) / 2)
      workplaces_by_industry_codes workplaces_by_uids s4 = (Ok tt, s5) /\
    add_pairing_contacts s5 = (Ok tt, s') /\
    pd' = popdict s' /\
    (forall uid,
       contact_set (popdict s5) "W" uid = ∅ \/
       sampled_from workplaces_by_uids
         (default 20%Z (max_contacts !! "W"%string) / 2) uid
         (contact_set (popdict s5) "W" uid)) /\
    (forall u v,
       v ∈ contact_set pd' "W" u
       <-> v ∈ contact_set (popdict s5) "W" u \/ u ∈ contact_set (popdict s5) "W" v) /\
    symmetric_layer pd' "W" /\
    (forall workplace,
       workplaces_by_uids = [workplace] -> length workplace = 5 ->
       max_contacts !! "W"%string = Some 4%Z ->
       forall uid,
         size (contact_set (popdict s5) "W" uid) <= 2 /\
         size (contact_set pd' "W" uid) <= 4).
Proof.
  intros Hedges Hlist Hrun.
  apply make_contacts_Ok in Hrun
    as (mixing_dic & s1 & s2 & s3 & s4 & Hfresh & Hfac & Hhome & Hschool & Hwork & ->).
  apply add_workplaces_capped in Hwork as (s5 & Hsample & Hpair).
  exists s4, s5. do 3 (split; [done |]).
  assert (Hempty : forall uid, contact_set (popdict s4) "W" uid = ∅).
  { intros uid.
    pose proof (assembly_same_layer "W" add_school_edges
                  generate_random_contacts_across_school add_contacts_from_edgelist
                  school_type_by_age _ _ _ _ _ _ _ _ _ _ _ _ _ _ _
                  ltac:(done) ltac:(done) ltac:(done) Hedges Hlist Hfac Hhome Hschool)
      as Hsame.
    apply (same_layer_contact_set _ _ _ uid) in Hsame.
    rewrite (fresh_people_contact_set _ _ _ _ Hfresh) in Hsame. set_solver. }
  assert (Hsampled : forall uid,
            contact_set (popdict s5) "W" uid = ∅ \/
            sampled_from workplaces_by_uids
              (default 20%Z (max_contacts !! "W"%string) / 2) uid
              (contact_set (popdict s5) "W" uid)).
  { intros uid.
    destruct (sample_workplace_contacts_Ok _ _ _ _ _ _ Hsample uid) as [Heq | Hs];
      [left; by rewrite Heq | by right]. }
  split; [exact Hsampled |].
  split; [exact (add_pairing_contacts_Ok _ _ _ Hpair) |].
  split; [exact (add_pairing_contacts_symmetric _ _ _ Hpair) |].
  intros workplace Hw Hlen Hcap uid. rewrite Hcap in Hsampled. cbn [default] in Hsampled.
  split.
  - destruct (Hsampled uid) as [-> | [Hsize _]]; [rewrite size_empty; lia |].
    change (Z.of_nat (size (contact_set (popdict s5) "W" uid)) <= 2)%Z in Hsize. lia.
  - replace 4 with (length workplace - 1) by lia. apply (size_co_members _ uid).
    intros v Hv. apply (add_pairing_contacts_Ok _ _ _ Hpair) in Hv as [Hv | Hv].
    + destruct (sampled_or_empty_co_members _ _ _ _ _ Hsampled Hv)
        as (Hne & w & Hin & Hu & Hvw).
      rewrite Hw in Hin. apply list_elem_of_singleton in Hin as ->. auto.
    + destruct (sampled_or_empty_co_members _ _ _ _ _ Hsampled Hv)
        as (Hne & w & Hin & Hu & Hvw).
      rewrite Hw in Hin. apply list_elem_of_singleton in Hin as ->. auto.
Qed.

Lemma capped_workplace_contacts_are_symmetric_witness :
  exists pd' s',
    ex_make_contacts (Some {["W"%string := 4%Z]}) (CState ∅ ex_stream) = (Ok pd', s') /\
    symmetric_layer pd' "W" /\
    forall uid, size (contact_set pd' "W" uid) <= 4.
Proof.
  assert (Hrun : exists pd' s',
            ex_make_contacts (Some {["W"%string := 4%Z]}) (CState ∅ ex_stream)
            = (Ok pd', s')).
  { vm_compute. eexists _, _. reflexivity. }
  destruct Hrun as (pd' & s' & Hrun). exists pd', s'. split; [exact Hrun |].
  unfold ex_make_contacts in Hrun.
  assert (Hedges : forall students ages teachers staff mixing,
            touches_school_layer_only
              (draw_no_school_edge students ages teachers staff mixing)).
  { intros students ages teachers staff mixing s u s0 layer Hr _.
    apply draw_no_school_edge_popdict in Hr as ->. apply same_layer_refl. }
  assert (Hlist : forall school g edges g',
            draw_no_random_contact school g = (Ok edges, g') ->
            touches_school_layer_only (add_contacts_edge_by_edge edges "S"%string)).
  { intros school g edges g' Hg s u s0 layer Hr _.
    apply (no_random_contact_edge_list _ _ _ _ _ _ _ Hg) in Hr as ->.
    apply same_layer_refl. }
  destruct (capped_workplace_contacts_are_symmetric draw_no_school_edge
              draw_no_random_contact add_contacts_edge_by_edge no_school_type
              _ _ _ _ _ _ _ _ _ _ _ _ _ _ _ _ _ Hedges Hlist Hrun)
    as (s4 & s5 & _ & _ & _ & _ & _ & Hsym & Hfive).
  split; [exact Hsym |]. intros uid.
  apply (Hfive [1; 2; 3; 4; 5] eq_refl eq_refl); reflexivity.
Defined.
(** ** pop.py: [Pop] with and without a seed *)

Lemma Pop_seeded seeded earlier_stages fast_choice fuel add_school_edges
    generate_random_contacts_across_school add_contacts_from_edgelist
    school_type_by_age (seed : Z) (pars : pop_pars) (g : rng) :
  Pop seeded earlier_stages fast_choice fuel add_school_edges
    generate_random_contacts_across_school add_contacts_from_edgelist
    school_type_by_age (Some seed) pars g
  = generate earlier_stages fast_choice fuel add_school_edges
      generate_random_contacts_across_school add_contacts_from_edgelist
      school_type_by_age pars (seeded seed).
Proof. reflexivity. Qed.

Lemma Pop_unseeded seeded earlier_stages fast_choice fuel add_school_edges
    generate_random_contacts_across_school add_contacts_from_edgelist
    school_type_by_age (pars : pop_pars) (g : rng) :
  Pop seeded earlier_stages fast_choice fuel add_school_edges
    generate_random_contacts_across_school add_contacts_from_edgelist
    school_type_by_age None pars g
  = generate earlier_stages fast_choice fuel add_school_edges
      generate_random_contacts_across_school add_contacts_from_edgelist
      school_type_by_age pars g.
Proof. reflexivity. Qed.

(** Without a seed the run depends on the state the generator is in: the
    same arguments give other workplaces.  With the seed 1 the two states
    give the same run. *)
Lemma unseeded_runs_can_differ :
  (exists population g', ex_Pop None [] = (Ok ([[1]; [2]; [3]], population), g')) /\
  (exists population g', ex_Pop None [1] = (Ok ([[1]], population), g')) /\
  ex_Pop (Some 1%Z) [] = ex_Pop (Some 1%Z) [1].
Proof.
  split; [| split].
  - vm_compute. eexists _, _. reflexivity.
  - vm_compute. eexists _, _. reflexivity.
  - reflexivity.
Qed.

(** ** More facts about dictionaries *)

Section pydict_pop_facts.
Context {V : Type}.
Implicit Types (d : list (nat * V)) (k : nat) (v : V).

Lemma dict_get_None d k : dict_get k d = None <-> k ∉ dict_keys d.
Proof.
  split.
  - intros H Hin. apply dict_get_is_Some in Hin as [v Hv]. congruence.
  - intros H. destruct (dict_get k d) as [v |] eqn:E; [| reflexivity].
    apply dict_get_key in E. contradiction.
Qed.

Lemma dict_get_NoDup d k v : NoDup (dict_keys d) -> (k, v) ∈ d -> dict_get k d = Some v.
Proof.
  induction d as [| [k' v'] d IH]; cbn; intros Hnd Hin.
  - by apply elem_of_nil in Hin.
  - apply NoDup_cons in Hnd as [Hk Hnd].
    apply elem_of_cons in Hin as [[= -> ->] | Hin].
    + by rewrite decide_True.
    + destruct (decide (k' = k)) as [-> | Hne]; [| by apply IH].
      exfalso. apply Hk. apply list_elem_of_fmap. by exists (k, v).
Qed.

Lemma dict_pop_sublist d k : sublist (dict_pop k d) d.
Proof.
  induction d as [| [k' v'] d IH]; cbn; [constructor |].
  destruct (decide (k' = k)); [by apply sublist_cons | by apply sublist_skip].
Qed.

Lemma dict_keys_sublist d d' : sublist d d' -> sublist (dict_keys d) (dict_keys d').
Proof. intros H. unfold dict_keys. by apply fmap_sublist. Qed.

Lemma dict_pop_NoDup d k : NoDup (dict_keys d) -> NoDup (dict_keys (dict_pop k d)).
Proof. intros H. eapply sublist_NoDup; [exact H | apply dict_keys_sublist, dict_pop_sublist]. Qed.

Lemma dict_get_pop_ne d k k' : k <> k' -> dict_get k' (dict_pop k d) = dict_get k' d.
Proof.
  intros Hne. induction d as [| [k0 v0] d IH]; cbn; [reflexivity |].
  destruct (decide (k0 = k)) as [-> | Hk].
  - by rewrite decide_False.
  - cbn. by rewrite IH.
Qed.

Lemma dict_get_pop_eq d k : NoDup (dict_keys d) -> dict_get k (dict_pop k d) = None.
Proof.
  induction d as [| [k0 v0] d IH]; cbn; intros Hnd; [reflexivity |].
  apply NoDup_cons in Hnd as [Hk Hnd].
  destruct (decide (k0 = k)) as [-> | Hne].
  - by apply dict_get_None.
  - cbn. rewrite decide_False by done. by apply IH.
Qed.

Lemma dict_get_pop d k k' :
  NoDup (dict_keys d) ->
  dict_get k' (dict_pop k d) = if decide (k = k') then None else dict_get k' d.
Proof.
  intros Hnd. destruct (decide (k = k')) as [<- | Hne].
  - by apply dict_get_pop_eq.
  - by apply dict_get_pop_ne.
Qed.

Lemma dict_keys_set d k v :
  dict_keys (dict_set k v d)
  = if bool_decide (k ∈ dict_keys d) then dict_keys d else dict_keys d ++ [k].
Proof.
  unfold dict_keys. induction d as [| [k0 v0] d IH]; cbn; [reflexivity |].
  destruct (decide (k0 = k)) as [-> | Hne]; cbn.
  - rewrite bool_decide_eq_true_2 by apply list_elem_of_here. reflexivity.
  - rewrite IH. destruct (bool_decide (k ∈ d.*1)) eqn:E.
    + apply bool_decide_eq_true in E.
      rewrite bool_decide_eq_true_2 by (by apply list_elem_of_further). reflexivity.
    + apply bool_decide_eq_false in E.
      rewrite bool_decide_eq_false_2; [reflexivity |].
      intros [? | ?]%elem_of_cons; [congruence | contradiction].
Qed.

Lemma dict_get_sublist d d' k v :
  NoDup (dict_keys d') -> sublist d d' -> dict_get k d = Some v -> dict_get k d' = Some v.
Proof.
  intros Hnd Hsub Hget. apply dict_get_NoDup; [exact Hnd |].
  apply dict_get_elem in Hget. by eapply elem_of_sublist.
Qed.
End pydict_pop_facts.

Lemma dict_self_values_NoDup {V : Type} (d : list (nat * V)) :
  NoDup (dict_keys d) -> dict_self_values d = dict_values d.
Proof.
  intros Hnd. unfold dict_self_values, dict_values.
  assert (Hgen : forall l, l ⊆ d -> omap (fun a => dict_get a d) (l.*1) = l.*2).
  { induction l as [| [k v] l IH]; intros Hl; cbn; [reflexivity |].
    rewrite (dict_get_NoDup d k v Hnd) by set_solver. cbn. rewrite IH by set_solver.
    reflexivity. }
  by apply Hgen.
Qed.

(** ** workplaces.py: [get_uids_potential_workers] *)

Lemma pop_all_spec (school : list nat) (d : list (nat * nat)) :
  NoDup (dict_keys d) ->
  let d' := foldl (fun pw uid => dict_pop uid pw) d school in
  sublist d' d /\ NoDup (dict_keys d') /\
  (forall uid, uid ∈ school -> dict_get uid d' = None) /\
  (forall uid, uid ∉ school -> dict_get uid d' = dict_get uid d).
Proof.
  revert d. induction school as [| x school IH]; intros d Hnd; cbn.
  - split; [reflexivity |]. split; [exact Hnd |]. split; [| done].
    intros uid []%elem_of_nil.
  - destruct (IH (dict_pop x d) (dict_pop_NoDup d x Hnd)) as (Hsub & Hnd' & Hin & Hout).
    cbn zeta in Hsub, Hnd', Hin, Hout.
    split; [etrans; [exact Hsub | apply dict_pop_sublist] |].
    split; [exact Hnd' |]. split.
    + intros uid Hu. destruct (decide (uid ∈ school)) as [Hs | Hs]; [by apply Hin |].
      apply elem_of_cons in Hu as [-> | Hu]; [| contradiction].
      rewrite Hout by exact Hs. by apply dict_get_pop_eq.
    + intros uid Hu. apply not_elem_of_cons in Hu as [Hne Hu].
      rewrite Hout by exact Hu. by apply dict_get_pop_ne.
Qed.

Lemma is_student_cons school syn uid :
  is_student (school :: syn) uid <-> uid ∈ school \/ is_student syn uid.
Proof. unfold is_student. apply Exists_cons. Qed.

Lemma remove_students_spec (syn_school_uids : list (list nat)) (d : list (nat * nat)) :
  NoDup (dict_keys d) ->
  sublist (remove_students syn_school_uids d) d /\
  NoDup (dict_keys (remove_students syn_school_uids d)) /\
  (forall uid, is_student syn_school_uids uid ->
     dict_get uid (remove_students syn_school_uids d) = None) /\
  (forall uid, ~ is_student syn_school_uids uid ->
     dict_get uid (remove_students syn_school_uids d) = dict_get uid d).
Proof.
  unfold remove_students. revert d.
  induction syn_school_uids as [| school syn IH]; intros d Hnd; cbn.
  - split; [reflexivity |]. split; [exact Hnd |]. split; [| done].
    intros uid Hs. by apply Exists_nil in Hs.
  - destruct (pop_all_spec school d Hnd) as (Hsub1 & Hnd1 & Hin1 & Hout1).
    cbn zeta in Hsub1, Hnd1, Hin1, Hout1.
    destruct (IH _ Hnd1) as (Hsub & Hnd' & Hin & Hout).
    split; [etrans; eassumption |]. split; [exact Hnd' |]. split.
    + intros uid [Hu | Hs]%is_student_cons.
      * destruct (decide (is_student syn uid)) as [Hs | Hs]; [by apply Hin |].
        rewrite Hout by exact Hs. by apply Hin1.
      * by apply Hin.
    + intros uid Hu. rewrite is_student_cons in Hu.
      rewrite Hout by tauto. apply Hout1. tauto.
Qed.

(** Lines 37-39 return, and drop the uids of [keys] whose age has no
    employment rate. *)
Lemma remove_unrated_spec {R : Type} (employment_rates : list (nat * R))
    (age_by_uid_dic : list (nat * nat)) (keys : list nat) (pw : list (nat * nat))
    (g : rng) :
  (forall uid, uid ∈ keys -> is_Some (dict_get uid age_by_uid_dic)) ->
  NoDup (dict_keys pw) ->
  exists pw',
    fold_m (remove_if_unrated employment_rates age_by_uid_dic) keys pw g = (Ok pw', g) /\
    sublist pw' pw /\ NoDup (dict_keys pw') /\
    forall uid a,
      dict_get uid pw' = Some a <->
      dict_get uid pw = Some a /\
      (uid ∈ keys ->
       exists a0, dict_get uid age_by_uid_dic = Some a0 /\
                  is_Some (dict_get a0 employment_rates)).
Proof.
  revert pw. induction keys as [| k keys IH]; intros pw Hkeys Hnd; cbn.
  - exists pw. split; [reflexivity |]. split; [reflexivity |]. split; [exact Hnd |].
    intros uid a. split; [intros H; split; [exact H | by intros ?%elem_of_nil] | tauto].
  - destruct (Hkeys k) as [a0 Ha0]; [apply list_elem_of_here |].
    unfold remove_if_unrated at 1. rewrite Ha0. cbn [lift_opt].
    unfold bind at 1. unfold ret at 1. unfold bind at 1.
    assert (Hrest : forall uid, uid ∈ keys -> is_Some (dict_get uid age_by_uid_dic)).
    { intros uid Hu. apply Hkeys. by apply list_elem_of_further. }
    destruct (dict_get a0 employment_rates) as [r |] eqn:Hr; unfold ret at 1.
    + destruct (IH pw Hrest Hnd) as (pw' & Hrun & Hsub & Hnd' & Hspec).
      exists pw'. split; [exact Hrun |]. split; [exact Hsub |]. split; [exact Hnd' |].
      intros uid a. rewrite Hspec. split; intros [Hget Hin]; (split; [exact Hget |]).
      * intros [-> | Hu]%elem_of_cons; [eauto | by apply Hin].
      * intros Hu. apply Hin. by apply list_elem_of_further.
    + destruct (IH (dict_pop k pw) Hrest (dict_pop_NoDup pw k Hnd))
        as (pw' & Hrun & Hsub & Hnd' & Hspec).
      exists pw'. split; [exact Hrun |].
      split; [etrans; [exact Hsub | apply dict_pop_sublist] |]. split; [exact Hnd' |].
      intros uid a. rewrite Hspec, (dict_get_pop pw k uid Hnd).
      destruct (decide (k = uid)) as [<- | Hne].
      * split; [intros [[=] _] |]. intros [_ Hin].
        destruct Hin as (a1 & Ha1 & [r Hr']); [apply list_elem_of_here |]. congruence.
      * split; intros [Hget Hin]; (split; [exact Hget |]).
        -- intros [-> | Hu]%elem_of_cons; [congruence | by apply Hin].
        -- intros Hu. apply Hin. by apply list_elem_of_further.
Qed.

Lemma uids_of_age_cons (a uid a0 : nat) (items : list (nat * nat)) :
  uids_of_age a ((uid, a0) :: items)
  = if decide (a0 = a) then uid :: uids_of_age a items else uids_of_age a items.
Proof.
  unfold uids_of_age. cbn. destruct (decide (a0 = a)) as [-> | Hne].
  - by rewrite bool_decide_eq_true_2.
  - by rewrite bool_decide_eq_false_2.
Qed.

(** Lines 41-49 return; every worker is appended to the pool of their age,
    when there is one, and counted. *)
Lemma pool_workers_spec (pw items : list (nat * nat))
    (by_age : list (nat * list nat)) (left_count : list (nat * Z)) (g : rng) :
  (forall uid a, (uid, a) ∈ items -> dict_get uid pw = Some a) ->
  dict_keys left_count = dict_keys by_age ->
  exists by_age' left_count',
    fold_m (pool_worker pw) (dict_keys items) (by_age, left_count) g
      = (Ok (by_age', left_count'), g) /\
    dict_keys by_age' = dict_keys by_age /\
    dict_keys left_count' = dict_keys by_age /\
    (forall a, dict_get a by_age'
               = (fun pool => pool ++ uids_of_age a items) <$> dict_get a by_age) /\
    (forall a, dict_get a left_count'
               = (fun c => (c + Z.of_nat (length (uids_of_age a items)))%Z)
                 <$> dict_get a left_count).
Proof.
  revert by_age left_count.
  induction items as [| [uid a0] items IH]; intros by_age left_count Hpw Hkeys.
  - cbn. exists by_age, left_count. split; [reflexivity |]. split; [reflexivity |].
    split; [exact Hkeys |]. split; intros a.
    + destruct (dict_get a by_age); cbn; [by rewrite app_nil_r | reflexivity].
    + destruct (dict_get a left_count); cbn; [f_equal; lia | reflexivity].
  - change (dict_keys ((uid, a0) :: items)) with (uid :: dict_keys items).
    cbn [fold_m].
    assert (Hrest : forall uid a, (uid, a) ∈ items -> dict_get uid pw = Some a).
    { intros u a Hu. apply Hpw. by apply list_elem_of_further. }
    unfold pool_worker at 1. rewrite (Hpw uid a0) by apply list_elem_of_here.
    cbn [lift_opt]. unfold bind at 1. unfold ret at 1. unfold bind at 1.
    destruct (bool_decide (a0 ∈ dict_keys by_age)) eqn:Hin.
    + apply bool_decide_eq_true in Hin.
      destruct (dict_get_is_Some by_age a0 Hin) as [pool Hpool].
      assert (Hin' : a0 ∈ dict_keys left_count) by (by rewrite Hkeys).
      destruct (dict_get_is_Some left_count a0 Hin') as [c Hc].
      rewrite Hpool, Hc. cbn [lift_opt bind ret].
      destruct (IH (dict_set a0 (pool ++ [uid]) by_age)
                  (dict_set a0 (c + 1)%Z left_count) Hrest)
        as (by' & left' & Hrun & Hk1 & Hk2 & Hby & Hleft).
      { rewrite !dict_keys_set_present by eauto. exact Hkeys. }
      exists by', left'. split; [exact Hrun |].
      rewrite dict_keys_set_present in Hk1, Hk2 by eauto.
      split; [exact Hk1 |]. split; [exact Hk2 |]. split; intros a.
      * rewrite Hby, dict_get_set, uids_of_age_cons.
        destruct (decide (a0 = a)) as [-> | Hne]; [| reflexivity].
        rewrite Hpool. cbn. by rewrite <- app_assoc.
      * rewrite Hleft, dict_get_set, uids_of_age_cons.
        destruct (decide (a0 = a)) as [-> | Hne]; [| reflexivity].
        rewrite Hc. cbn. f_equal. lia.
    + apply bool_decide_eq_false in Hin. unfold ret at 1.
      destruct (IH by_age left_count Hrest Hkeys)
        as (by' & left' & Hrun & Hk1 & Hk2 & Hby & Hleft).
      exists by', left'. split; [exact Hrun |]. split; [exact Hk1 |].
      split; [exact Hk2 |]. split; intros a.
      * rewrite Hby, uids_of_age_cons.
        destruct (decide (a0 = a)) as [-> | Hne]; [| reflexivity].
        apply dict_get_None in Hin. by rewrite Hin.
      * rewrite Hleft, uids_of_age_cons.
        destruct (decide (a0 = a)) as [-> | Hne]; [| reflexivity].
        rewrite <- Hkeys in Hin. apply dict_get_None in Hin. by rewrite Hin.
Qed.

Lemma pools_shuffled_refl by_age : pools_shuffled by_age by_age.
Proof. apply Forall2_same_length_lookup_2; [done |]. intros i x y Hx Hy.
  assert (x = y) as -> by congruence. done. Qed.

Lemma pools_shuffled_set by_age by_age1 a pool pool' :
  pools_shuffled by_age by_age1 ->
  dict_get a by_age1 = Some pool -> pool ≡ₚ pool' ->
  pools_shuffled by_age (dict_set a pool' by_age1).
Proof.
  intros H. induction H as [| [k l] [k1 l1] d d1 [Hk Hl] Hrest IH]; cbn; [discriminate |].
  cbn in Hk, Hl. subst k1. destruct (decide (k = a)) as [-> | Hne].
  - intros [= ->] Hp. constructor; [| exact Hrest]. cbn. split; [reflexivity |].
    by rewrite Hl.
  - intros Hget Hp. constructor; [done |]. by apply IH.
Qed.

Lemma pools_shuffled_keys by_age by_age' :
  pools_shuffled by_age by_age' -> dict_keys by_age' = dict_keys by_age.
Proof.
  unfold dict_keys. induction 1 as [| [k l] [k1 l1] d d1 [Hk Hl] Hrest IH]; cbn;
    [reflexivity |]. cbn in Hk. by rewrite IH, Hk.
Qed.

Lemma pools_shuffled_get by_age by_age' a pool :
  pools_shuffled by_age by_age' -> dict_get a by_age = Some pool ->
  exists pool', dict_get a by_age' = Some pool' /\ pool ≡ₚ pool'.
Proof.
  induction 1 as [| [k l] [k1 l1] d d1 [Hk Hl] Hrest IH]; cbn; [discriminate |].
  cbn in Hk, Hl. subst k1. destruct (decide (k = a)); [| exact IH].
  intros [= ->]. eauto.
Qed.

Lemma pools_shuffled_concat by_age by_age' :
  pools_shuffled by_age by_age' ->
  concat (dict_values by_age') ≡ₚ concat (dict_values by_age).
Proof.
  unfold dict_values. induction 1 as [| [k l] [k1 l1] d d1 [Hk Hl] Hrest IH]; cbn;
    [reflexivity |]. cbn in Hl. by rewrite IH, Hl.
Qed.

(** Lines 52-53 return; the pools are rearranged under their keys. *)
Lemma shuffle_pools_spec (keys : list nat) (by_age0 by_age : list (nat * list nat))
    (g : rng) :
  pools_shuffled by_age0 by_age ->
  (forall a, a ∈ keys -> a ∈ dict_keys by_age0) ->
  exists by_age' g',
    fold_m shuffle_pool keys by_age g = (Ok by_age', g') /\
    pools_shuffled by_age0 by_age'.
Proof.
  revert by_age g. induction keys as [| a keys IH]; intros by_age g Hsh Hkeys; cbn.
  - by exists by_age, g.
  - assert (Ha : a ∈ dict_keys by_age).
    { rewrite (pools_shuffled_keys _ _ Hsh). apply Hkeys, list_elem_of_here. }
    destruct (dict_get_is_Some by_age a Ha) as [pool Hpool].
    unfold shuffle_pool at 1. rewrite Hpool. cbn [lift_opt].
    unfold bind at 1. unfold ret at 1. unfold bind at 1.
    destruct (np_shuffle_total pool g) as (pool' & g1 & Hrun).
    rewrite (bind_Ok_intro _ _ _ _ _ Hrun). unfold ret at 1.
    apply IH.
    + apply (pools_shuffled_set _ _ _ pool); [exact Hsh | exact Hpool |].
      symmetry. by apply np_shuffle_Ok in Hrun.
    + intros b Hb. apply Hkeys. by apply list_elem_of_further.
Qed.

Lemma dict_get_fmap_const {V : Type} (f : nat -> V) (keys : list nat) (a : nat) :
  dict_get a ((fun k => (k, f k)) <$> keys)
  = if decide (a ∈ keys) then Some (f a) else None.
Proof.
  induction keys as [| k keys IH]; cbn.
  - rewrite decide_False; [reflexivity | apply not_elem_of_nil].
  - destruct (decide (k = a)) as [-> | Hne].
    + rewrite decide_True; [reflexivity | apply list_elem_of_here].
    + rewrite IH. destruct (decide (a ∈ keys)) as [Hin | Hout].
      * rewrite decide_True; [reflexivity | by apply list_elem_of_further].
      * rewrite decide_False; [reflexivity |].
        intros [? | ?]%elem_of_cons; [congruence | contradiction].
Qed.

Lemma dict_keys_fmap_const {V : Type} (f : nat -> V) (keys : list nat) :
  dict_keys ((fun k => (k, f k)) <$> keys) = keys.
Proof.
  unfold dict_keys. rewrite <- list_fmap_compose. apply list_fmap_id.
Qed.

Lemma working_ages_range : working_ages = seq 15 86.
Proof. reflexivity. Qed.

Lemma elem_of_working_ages (a : nat) : a ∈ working_ages <-> 15 <= a <= 100.
Proof.
  rewrite working_ages_range, list_elem_of_In, in_seq. lia.
Qed.

Lemma elem_of_uids_of_age (a uid : nat) (pw : list (nat * nat)) :
  uid ∈ uids_of_age a pw <-> (uid, a) ∈ pw.
Proof.
  unfold uids_of_age. rewrite list_elem_of_fmap. split.
  - intros ([u a'] & -> & Hin). apply list_elem_of_In, filter_In in Hin as [Hin Ha].
    apply bool_decide_eq_true in Ha. cbn in Ha. subst a'. by apply list_elem_of_In.
  - intros Hin. exists (uid, a). split; [reflexivity |].
    apply list_elem_of_In, filter_In. split; [by apply list_elem_of_In |].
    by apply bool_decide_eq_true.
Qed.

Lemma uids_of_age_NoDup (a : nat) (pw : list (nat * nat)) :
  NoDup (dict_keys pw) -> NoDup (uids_of_age a pw).
Proof.
  intros Hnd. unfold uids_of_age. eapply sublist_NoDup; [exact Hnd |].
  apply fmap_sublist. induction pw as [| kv pw IH]; cbn; [constructor |].
  apply NoDup_cons in Hnd as [_ Hnd]. destruct (bool_decide _).
  - apply sublist_skip. by apply IH.
  - apply sublist_cons. by apply IH.
Qed.

Lemma pooled_by_age_NoDup (ages : list nat) (pw : list (nat * nat)) :
  NoDup ages -> NoDup (dict_keys pw) ->
  NoDup (concat ((fun a => uids_of_age a pw) <$> ages)).
Proof.
  intros Hages Hnd. induction Hages as [| a ages Ha Hages IH]; cbn; [constructor |].
  apply NoDup_app. split; [by apply uids_of_age_NoDup |]. split; [| exact IH].
  intros uid Hu Hin. apply elem_of_uids_of_age in Hu.
  apply list_elem_of_In, in_concat in Hin as (l & Hl & Hin).
  apply list_elem_of_In, list_elem_of_fmap in Hl as (a' & -> & Ha').
  apply list_elem_of_In in Hin.
  apply elem_of_uids_of_age in Hin.
  apply (dict_get_NoDup pw uid a Hnd) in Hu. apply (dict_get_NoDup pw uid a' Hnd) in Hin.
  congruence.
Qed.

Lemma dict_values_of_keys {V : Type} (d : list (nat * V)) (keys : list nat)
    (f : nat -> V) :
  NoDup keys -> dict_keys d = keys -> (forall a, a ∈ keys -> dict_get a d = Some (f a)) ->
  dict_values d = f <$> keys.
Proof.
  intros Hnd Hkeys Hget. rewrite <- (dict_self_values_NoDup d) by (by rewrite Hkeys).
  unfold dict_self_values. rewrite Hkeys. clear Hkeys Hnd.
  induction keys as [| k keys IH]; cbn; [reflexivity |].
  rewrite Hget by apply list_elem_of_here. cbn. f_equal. apply IH.
  intros a Ha. apply Hget. by apply list_elem_of_further.
Qed.

(** What a run of [get_uids_potential_workers] is made of. *)
Lemma get_uids_potential_workers_run {R : Type} (syn_school_uids : list (list nat))
    (employment_rates : list (nat * R)) (age_by_uid_dic : list (nat * nat)) (g : rng) :
  NoDup (dict_keys age_by_uid_dic) ->
  exists pw by_age left_count g',
    get_uids_potential_workers syn_school_uids employment_rates age_by_uid_dic g
      = (Ok (pw, by_age, left_count), g') /\
    sublist pw age_by_uid_dic /\
    (forall uid a,
       dict_get uid pw = Some a <->
       dict_get uid age_by_uid_dic = Some a /\ ~ is_student syn_school_uids uid /\
       is_Some (dict_get a employment_rates)) /\
    pools_shuffled ((fun a => (a, uids_of_age a pw)) <$> working_ages) by_age /\
    left_count
      = (fun a => (a, Z.of_nat (length (uids_of_age a pw)))) <$> working_ages.
Proof.
  intros Hnd. unfold get_uids_potential_workers. cbv zeta.
  destruct (remove_students_spec syn_school_uids age_by_uid_dic Hnd)
    as (Hsub1 & Hnd1 & Hin1 & Hout1).
  destruct (remove_unrated_spec employment_rates age_by_uid_dic
              (dict_keys age_by_uid_dic)
              (remove_students syn_school_uids age_by_uid_dic) g)
    as (pw & Hrun2 & Hsub2 & Hnd2 & Hspec2);
    [by apply dict_get_is_Some | exact Hnd1 |].
  rewrite (bind_Ok_intro _ _ _ _ _ Hrun2).
  destruct (pool_workers_spec pw pw ((fun a => (a, [])) <$> working_ages)
              ((fun a => (a, 0%Z)) <$> working_ages) g)
    as (by1 & left1 & Hrun3 & Hk1 & Hk2 & Hby & Hleft).
  { intros uid a. by apply dict_get_NoDup. }
  { by rewrite (dict_keys_fmap_const (fun _ => 0%Z)), (dict_keys_fmap_const (fun _ => [])). }
  rewrite (bind_Ok_intro _ _ _ _ _ Hrun3). cbv beta iota.
  rewrite (dict_keys_fmap_const (fun _ => [])) in Hk1, Hk2.
  assert (Hages : NoDup working_ages).
  { rewrite working_ages_range. apply NoDup_seq. }
  assert (Hby1 : by1 = (fun a => (a, uids_of_age a pw)) <$> working_ages).
  { apply (list_eq_same_length _ _ (length working_ages)).
    - by rewrite length_fmap.
    - rewrite <- Hk1. unfold dict_keys. by rewrite length_fmap.
    - intros i [k l] [k' l'] _ H1 H2. rewrite list_lookup_fmap in H2.
      assert (Hki : working_ages !! i = Some k).
      { rewrite <- Hk1. unfold dict_keys. by rewrite list_lookup_fmap, H1. }
      rewrite Hki in H2. injection H2 as <- <-. f_equal.
      assert (Hget : dict_get k by1 = Some l).
      { apply dict_get_NoDup; [by rewrite Hk1 | by apply list_elem_of_lookup_2 in H1]. }
      rewrite Hby, (dict_get_fmap_const (fun _ => [])) in Hget.
      rewrite decide_True in Hget by (by apply list_elem_of_lookup_2 in Hki).
      cbn in Hget. by injection Hget as <-. }
  assert (Hleft1 : left1
            = (fun a => (a, Z.of_nat (length (uids_of_age a pw)))) <$> working_ages).
  { apply (list_eq_same_length _ _ (length working_ages)).
    - by rewrite length_fmap.
    - rewrite <- Hk2. unfold dict_keys. by rewrite length_fmap.
    - intros i [k l] [k' l'] _ H1 H2. rewrite list_lookup_fmap in H2.
      assert (Hki : working_ages !! i = Some k).
      { rewrite <- Hk2. unfold dict_keys. by rewrite list_lookup_fmap, H1. }
      rewrite Hki in H2. injection H2 as <- <-. f_equal.
      assert (Hget : dict_get k left1 = Some l).
      { apply dict_get_NoDup; [by rewrite Hk2 | by apply list_elem_of_lookup_2 in H1]. }
      rewrite Hleft, (dict_get_fmap_const (fun _ => 0%Z)) in Hget.
      rewrite decide_True in Hget by (by apply list_elem_of_lookup_2 in Hki).
      cbn in Hget. by injection Hget as <-. }
  destruct (shuffle_pools_spec (dict_keys by1) by1 by1 g (pools_shuffled_refl by1))
    as (by' & g' & Hrun4 & Hsh); [done |].
  rewrite (bind_Ok_intro _ _ _ _ _ Hrun4).
  exists pw, by', left1, g'. split; [reflexivity |].
  split; [etrans; eassumption |]. split; [| split; [by rewrite <- Hby1 | exact Hleft1]].
  intros uid a. rewrite Hspec2. split.
  - intros [Hget Hrated].
    assert (Hns : ~ is_student syn_school_uids uid).
    { intros Hs. rewrite (Hin1 uid Hs) in Hget. discriminate. }
    rewrite (Hout1 uid Hns) in Hget. split; [exact Hget |]. split; [exact Hns |].
    destruct Hrated as (a0 & Ha0 & Hr); [by eapply dict_get_key |]. congruence.
  - intros (Hget & Hns & Hr). rewrite (Hout1 uid Hns). split; [exact Hget |].
    intros _. eauto.
Qed.

(** X1.  With a uid listed once in [age_by_uid_dic],
    [get_uids_potential_workers] returns, and [potential_worker_uids] is
    [age_by_uid_dic] without the students and without the people whose age
    has no employment rate, in the same order: a uid is a potential worker,
    with age [a], exactly when [age_by_uid_dic] gives it the age [a], it is
    in no school and [a] is a key of [employment_rates]. *)
Theorem potential_workers_are_rated_non_students {R : Type}
    (syn_school_uids : list (list nat)) (employment_rates : list (nat * R))
    (age_by_uid_dic : list (nat * nat)) (g : rng) :
  NoDup (dict_keys age_by_uid_dic) ->
  exists pw by_age left_count g',
    get_uids_potential_workers syn_school_uids employment_rates age_by_uid_dic g
      = (Ok (pw, by_age, left_count), g') /\
    sublist pw age_by_uid_dic /\
    forall uid a,
      dict_get uid pw = Some a <->
      dict_get uid age_by_uid_dic = Some a /\ ~ is_student syn_school_uids uid /\
      is_Some (dict_get a employment_rates).
Proof.
  intros Hnd.
  destruct (get_uids_potential_workers_run syn_school_uids employment_rates
              age_by_uid_dic g Hnd)
    as (pw & by_age & left_count & g' & Hrun & Hsub & Hspec & _).
  exists pw, by_age, left_count, g'. auto.
Qed.

Lemma potential_workers_are_rated_non_students_witness :
  exists by_age left_count g',
    get_uids_potential_workers [[3]] ex_employment_rates ex_population_ages [3; 1; 4]
      = (Ok (ex_potential_workers, by_age, left_count), g').
Proof.
  destruct (potential_workers_are_rated_non_students [[3]] ex_employment_rates
              ex_population_ages [3; 1; 4])
    as (pw & by_age & left_count & g' & Hrun & _ & _).
  - apply NoDup_ListNoDup. vm_compute. repeat constructor; cbn; intuition lia.
  - exists by_age, left_count, g'. rewrite Hrun. vm_compute in Hrun.
    injection Hrun as <- _ _ _. reflexivity.
Defined.

(** X2.  The pools by age that [get_uids_potential_workers] returns have
    the keys 15 to 100, in this order, as has the table of counts.  The pool
    of age [a] is a rearrangement of the potential workers of age [a], and
    the count of [a] is its length.  No uid is pooled twice: the pools are as
    needed by [assign_rest_of_workers].  A potential worker younger than 15
    or older than 100 is in [potential_worker_uids] and in no pool. *)
Theorem pools_hold_working_age_potential_workers {R : Type}
    (syn_school_uids : list (list nat)) (employment_rates : list (nat * R))
    (age_by_uid_dic : list (nat * nat)) (g : rng) pw by_age left_count g' :
  NoDup (dict_keys age_by_uid_dic) ->
  get_uids_potential_workers syn_school_uids employment_rates age_by_uid_dic g
    = (Ok (pw, by_age, left_count), g') ->
  dict_keys by_age = seq 15 86 /\
  dict_keys left_count = seq 15 86 /\
  (forall a, 15 <= a <= 100 ->
     exists pool,
       dict_get a by_age = Some pool /\ pool ≡ₚ uids_of_age a pw /\
       dict_get a left_count = Some (Z.of_nat (length pool))) /\
  (forall counts W gen, NoDup (pool_uids (WState pw by_age counts W gen))) /\
  (forall uid,
     uid ∈ concat (dict_values by_age) <->
     exists a, dict_get uid pw = Some a /\ 15 <= a <= 100).
Proof.
  intros Hnd Hrun.
  destruct (get_uids_potential_workers_run syn_school_uids employment_rates
              age_by_uid_dic g Hnd)
    as (pw0 & by0 & left0 & g0 & Hrun0 & Hsub & Hspec & Hsh & Hleft).
  rewrite Hrun in Hrun0. injection Hrun0 as <- <- <- <-.
  assert (Hndpw : NoDup (dict_keys pw)).
  { eapply sublist_NoDup; [exact Hnd | by apply dict_keys_sublist]. }
  assert (Hages : NoDup working_ages).
  { rewrite working_ages_range. apply NoDup_seq. }
  assert (Hconcat : concat (dict_values by_age)
                    ≡ₚ concat ((fun a => uids_of_age a pw) <$> working_ages)).
  { rewrite (pools_shuffled_concat _ _ Hsh). unfold dict_values.
    by rewrite <- list_fmap_compose. }
  split; [| split; [| split; [| split]]].
  - rewrite (pools_shuffled_keys _ _ Hsh), dict_keys_fmap_const.
    apply working_ages_range.
  - rewrite Hleft, dict_keys_fmap_const. apply working_ages_range.
  - intros a Ha. apply elem_of_working_ages in Ha.
    destruct (pools_shuffled_get _ _ a (uids_of_age a pw) Hsh) as (pool & Hpool & Hperm).
    { rewrite (dict_get_NoDup _ a (uids_of_age a pw)); [reflexivity | |].
      - by rewrite dict_keys_fmap_const.
      - apply list_elem_of_fmap. by exists a. }
    exists pool. split; [exact Hpool |]. split; [by symmetry |].
    rewrite Hleft. rewrite (dict_get_NoDup _ a (Z.of_nat (length (uids_of_age a pw)))).
    + by rewrite Hperm.
    + by rewrite dict_keys_fmap_const.
    + apply list_elem_of_fmap. by exists a.
  - intros counts W gen. unfold pool_uids. cbn [potential_worker_uids_by_age].
    rewrite Hconcat. by apply pooled_by_age_NoDup.
  - intros uid. rewrite Hconcat, list_elem_of_In, in_concat. split.
    + intros (l & Hl & Hin). apply list_elem_of_In, list_elem_of_fmap in Hl as (a & -> & Ha).
      apply list_elem_of_In, elem_of_uids_of_age in Hin. exists a.
      split; [by apply dict_get_NoDup | by apply elem_of_working_ages].
    + intros (a & Hget & Ha). exists (uids_of_age a pw). split.
      * apply list_elem_of_In, list_elem_of_fmap. exists a.
        split; [reflexivity | by apply elem_of_working_ages].
      * apply list_elem_of_In, elem_of_uids_of_age. by apply dict_get_elem.
Qed.

Lemma pools_hold_working_age_potential_workers_witness :
  exists pool,
    dict_get 30 ex_pools = Some pool /\ pool ≡ₚ uids_of_age 30 ex_potential_workers.
Proof.
  destruct (pools_hold_working_age_potential_workers [[3]] ex_employment_rates
              ex_population_ages [3; 1; 4] ex_potential_workers ex_pools
              ex_left_count [])
    as (_ & _ & Hpools & _).
  - apply NoDup_ListNoDup. vm_compute. repeat constructor; cbn; intuition lia.
  - vm_compute. reflexivity.
  - destruct (Hpools 30) as (pool & Hget & Hperm & _); [lia |]. eauto.
Defined.

(** ** workplaces.py: [get_workers_by_age_to_assign] *)

Lemma count_workers_spec {R : Type} (int_of_scaled : R -> nat -> option Z)
    (employment_rates : list (nat * R)) (left_count : list (nat * Z))
    (uids_by_age_dic : list (nat * list nat)) (keys : list nat)
    (result : list (nat * Z)) :
  (forall a, a ∈ keys -> is_Some (dict_get a left_count)) ->
  exists result',
    fold_m (count_workers_of_age int_of_scaled employment_rates left_count
              uids_by_age_dic) keys result tt = (Ok result', tt) /\
    (forall a, a ∈ dict_keys result -> a ∈ dict_keys result') /\
    forall a,
      dict_get a result'
      = if decide (a ∈ keys) then
          match assigned_count int_of_scaled employment_rates left_count
                  uids_by_age_dic a with
          | Some v => Some v
          | None => dict_get a result
          end
        else dict_get a result.
Proof.
  revert result. induction keys as [| k keys IH]; intros result Hkeys; cbn [fold_m].
  - exists result. split; [reflexivity |]. split; [done |]. intros a.
    rewrite decide_False; [reflexivity | apply not_elem_of_nil].
  - assert (Hrest : forall a, a ∈ keys -> is_Some (dict_get a left_count)).
    { intros a Ha. apply Hkeys. by apply list_elem_of_further. }
    destruct (Hkeys k) as [n Hn]; [apply list_elem_of_here |].
    unfold count_workers_of_age at 1.
    destruct (dict_get k employment_rates) as [r |] eqn:Hr.
    + rewrite Hn. cbn [lift_opt]. unfold bind at 1. unfold ret at 1.
      unfold bind at 1. unfold ret at 1.
      destruct (IH (dict_set k (Z.min (employed_count int_of_scaled r uids_by_age_dic k) n)
                      result) Hrest) as (result' & Hrun & Hmono & Hspec).
      exists result'. split; [exact Hrun |]. split.
      * intros a Ha. apply Hmono. rewrite dict_keys_set.
        destruct (bool_decide _); [exact Ha | apply elem_of_app; by left].
      * intros a. rewrite Hspec, dict_get_set.
        destruct (decide (k = a)) as [<- | Hne].
        -- rewrite (decide_True (P := k ∈ k :: keys)) by apply list_elem_of_here.
           unfold assigned_count. rewrite Hr, Hn. cbn. by destruct (decide (k ∈ keys)).
        -- destruct (decide (a ∈ keys)) as [Hin | Hout].
           ++ rewrite decide_True by (by apply list_elem_of_further). reflexivity.
           ++ rewrite decide_False; [reflexivity |].
              intros [? | ?]%elem_of_cons; [congruence | contradiction].
    + unfold bind at 1. unfold ret at 1.
      destruct (IH result Hrest) as (result' & Hrun & Hmono & Hspec).
      exists result'. split; [exact Hrun |]. split; [exact Hmono |].
      intros a. rewrite Hspec. destruct (decide (k = a)) as [<- | Hne].
      * rewrite (decide_True (P := k ∈ k :: keys)) by apply list_elem_of_here.
        unfold assigned_count. rewrite Hr. cbn. by destruct (decide (k ∈ keys)).
      * destruct (decide (a ∈ keys)) as [Hin | Hout].
        -- rewrite decide_True by (by apply list_elem_of_further). reflexivity.
        -- rewrite decide_False; [reflexivity |].
           intros [? | ?]%elem_of_cons; [congruence | contradiction].
Qed.

(** The table returned, entry by entry. *)
Lemma get_workers_by_age_to_assign_run {R : Type}
    (int_of_scaled : R -> nat -> option Z)
    (employment_rates : list (nat * R)) (left_count : list (nat * Z))
    (uids_by_age_dic : list (nat * list nat)) :
  exists counts,
    get_workers_by_age_to_assign int_of_scaled employment_rates left_count
      uids_by_age_dic tt = (Ok counts, tt) /\
    forall a,
      dict_get a counts
      = match assigned_count int_of_scaled employment_rates left_count
                uids_by_age_dic a with
        | Some v => Some v
        | None => if decide (a <= 100) then Some 0%Z else None
        end.
Proof.
  unfold get_workers_by_age_to_assign. cbv zeta.
  destruct (count_workers_spec int_of_scaled employment_rates left_count
              uids_by_age_dic (dict_keys left_count)
              ((fun a => (a, 0%Z)) <$> seq 0 101))
    as (counts & Hrun & _ & Hspec); [by apply dict_get_is_Some |].
  exists counts. split; [exact Hrun |]. intros a. rewrite Hspec.
  assert (Hinit : dict_get a ((fun a => (a, 0%Z)) <$> seq 0 101)
                  = if decide (a <= 100) then Some 0%Z else None).
  { rewrite (dict_get_fmap_const (fun _ => 0%Z)).
    destruct (decide (a ∈ seq 0 101)) as [Hin | Hout];
      rewrite list_elem_of_In, in_seq in *.
    - rewrite decide_True by lia. reflexivity.
    - rewrite decide_False by lia. reflexivity. }
  destruct (decide (a ∈ dict_keys left_count)) as [Hin | Hout].
  - by rewrite Hinit.
  - rewrite Hinit. unfold assigned_count.
    apply dict_get_None in Hout. rewrite Hout.
    by destruct (dict_get a employment_rates).
Qed.

(** X3.  [get_workers_by_age_to_assign] always returns.  The table has an
    entry for every age from 0 to 100.  The entry of an age that has an
    employment rate and a count of potential workers left is the smaller of
    [int(rate * len(uids_by_age_dic[a]))] (0 when that raises) and that
    count, so it never exceeds the potential workers left; every other entry
    is 0. *)
Theorem workers_to_assign_never_exceed_potential_workers {R : Type}
    (int_of_scaled : R -> nat -> option Z)
    (employment_rates : list (nat * R)) (left_count : list (nat * Z))
    (uids_by_age_dic : list (nat * list nat)) :
  exists counts,
    get_workers_by_age_to_assign int_of_scaled employment_rates left_count
      uids_by_age_dic tt = (Ok counts, tt) /\
    (forall a, a <= 100 -> is_Some (dict_get a counts)) /\
    (forall a r n,
       dict_get a employment_rates = Some r -> dict_get a left_count = Some n ->
       dict_get a counts
         = Some (Z.min (employed_count int_of_scaled r uids_by_age_dic a) n) /\
       (Z.min (employed_count int_of_scaled r uids_by_age_dic a) n <= n)%Z) /\
    (forall a v,
       dict_get a counts = Some v ->
       dict_get a employment_rates = None \/ dict_get a left_count = None ->
       v = 0%Z /\ a <= 100).
Proof.
  destruct (get_workers_by_age_to_assign_run int_of_scaled employment_rates
              left_count uids_by_age_dic) as (counts & Hrun & Hspec).
  exists counts. split; [exact Hrun |]. split; [| split].
  - intros a Ha. rewrite Hspec. destruct (assigned_count _ _ _ _ a); [eauto |].
    rewrite decide_True by exact Ha. eauto.
  - intros a r n Hr Hn. rewrite Hspec. unfold assigned_count. rewrite Hr, Hn. cbn.
    split; [reflexivity | lia].
  - intros a v Hv Hnone. rewrite Hspec in Hv.
    assert (Hassigned : assigned_count int_of_scaled employment_rates left_count
                          uids_by_age_dic a = None).
    { unfold assigned_count. destruct Hnone as [-> | Hl]; [reflexivity |].
      rewrite Hl. by destruct (dict_get a employment_rates). }
    rewrite Hassigned in Hv. destruct (decide (a <= 100)); [| discriminate].
    by injection Hv as <-.
Qed.

Lemma dict_set_NoDup {V : Type} (d : list (nat * V)) (k : nat) (v : V) :
  NoDup (dict_keys d) -> NoDup (dict_keys (dict_set k v d)).
Proof.
  intros Hnd. rewrite dict_keys_set. destruct (bool_decide (k ∈ dict_keys d)) eqn:E;
    [exact Hnd |]. apply bool_decide_eq_false in E.
  apply NoDup_app. split; [exact Hnd |]. split; [| apply NoDup_singleton].
  intros x Hx ->%list_elem_of_singleton. contradiction.
Qed.

Lemma get_workers_by_age_to_assign_NoDup {R : Type}
    (int_of_scaled : R -> nat -> option Z)
    (employment_rates : list (nat * R)) (left_count : list (nat * Z))
    (uids_by_age_dic : list (nat * list nat)) counts u u' :
  get_workers_by_age_to_assign int_of_scaled employment_rates left_count
    uids_by_age_dic u = (Ok counts, u') ->
  NoDup (dict_keys counts).
Proof.
  unfold get_workers_by_age_to_assign. cbv zeta. intros H.
  refine (fold_m_invariant (fun (b : list (nat * Z)) (_ : unit) => NoDup (dict_keys b))
            _ _ _ _ _ _ _ _ H).
  - intros a b s b' s' _ Hb Hbody. unfold count_workers_of_age in Hbody.
    destruct (dict_get a employment_rates); monad_inv; [| exact Hb].
    by apply dict_set_NoDup.
  - rewrite (dict_keys_fmap_const (fun _ => 0%Z)). apply NoDup_seq.
Qed.

(** X4.  The two functions together: when the counts of potential workers
    left that [get_uids_potential_workers] returns are handed to
    [get_workers_by_age_to_assign], the number of workers to assign of every
    age is at most the length of the pool of that age (and 0 for an age
    without a pool); and when [int(rate * n)] is never negative no count is
    negative.  So a positive count always has a worker to take. *)
Theorem counts_to_assign_fit_the_pools {R : Type}
    (int_of_scaled : R -> nat -> option Z)
    (syn_school_uids : list (list nat)) (employment_rates : list (nat * R))
    (age_by_uid_dic : list (nat * nat)) (uids_by_age_dic : list (nat * list nat))
    (g : rng) pw by_age left_count g' counts :
  NoDup (dict_keys age_by_uid_dic) ->
  get_uids_potential_workers syn_school_uids employment_rates age_by_uid_dic g
    = (Ok (pw, by_age, left_count), g') ->
  get_workers_by_age_to_assign int_of_scaled employment_rates left_count
    uids_by_age_dic tt = (Ok counts, tt) ->
  (forall a c,
     dict_get a counts = Some c ->
     (c <= Z.of_nat (length (default [] (dict_get a by_age))))%Z) /\
  ((forall r n z, int_of_scaled r n = Some z -> (0 <= z)%Z) ->
   forall W gen, counts_nonneg (WState pw by_age counts W gen)).
Proof.
  intros Hnd Hrun1 Hrun2.
  destruct (get_uids_potential_workers_run syn_school_uids employment_rates
              age_by_uid_dic g Hnd)
    as (pw0 & by0 & left0 & g0 & Hrun0 & _ & _ & Hsh & Hleft).
  rewrite Hrun1 in Hrun0. injection Hrun0 as <- <- <- <-.
  pose proof (get_workers_by_age_to_assign_NoDup _ _ _ _ _ _ _ Hrun2) as Hndc.
  destruct (get_workers_by_age_to_assign_run int_of_scaled employment_rates
              left_count uids_by_age_dic) as (counts0 & Hrun0 & Hspec).
  rewrite Hrun2 in Hrun0. injection Hrun0 as <-.
  assert (Hpool : forall a n, dict_get a left_count = Some n ->
            n = Z.of_nat (length (default [] (dict_get a by_age)))).
  { intros a n Hn. rewrite Hleft, dict_get_fmap_const in Hn.
    destruct (decide (a ∈ working_ages)) as [Ha |]; [| discriminate].
    injection Hn as <-.
    destruct (pools_shuffled_get _ _ a (uids_of_age a pw) Hsh) as (pool & -> & Hperm).
    - rewrite dict_get_fmap_const. by rewrite decide_True.
    - cbn. by rewrite Hperm. }
  split.
  - intros a c Hc. rewrite Hspec in Hc. unfold assigned_count in Hc.
    destruct (dict_get a employment_rates) as [r |] eqn:Hr; cbn in Hc.
    + destruct (dict_get a left_count) as [n |] eqn:Hn; cbn in Hc.
      * injection Hc as <-. rewrite <- (Hpool a n Hn). lia.
      * destruct (decide (a <= 100)); [| discriminate]. injection Hc as <-. lia.
    + destruct (decide (a <= 100)); [| discriminate]. injection Hc as <-. lia.
  - intros Hnn W gen. unfold counts_nonneg. cbn [workers_by_age_to_assign_count].
    apply Forall_forall. intros [a c] Hin. cbn.
    apply (dict_get_NoDup counts a c Hndc) in Hin. rewrite Hspec in Hin.
    unfold assigned_count in Hin.
    destruct (dict_get a employment_rates) as [r |] eqn:Hr; cbn in Hin.
    + destruct (dict_get a left_count) as [n |] eqn:Hn; cbn in Hin.
      * injection Hin as <-. apply Z.min_glb; [| rewrite (Hpool a n Hn); lia].
        unfold employed_count. destruct (dict_get a uids_by_age_dic) as [uids |]; cbn; [| lia].
        destruct (int_of_scaled r (length uids)) as [z |] eqn:Hz; cbn; [| lia].
        by eapply Hnn.
      * destruct (decide (a <= 100)); [| discriminate]. injection Hin as <-. lia.
    + destruct (decide (a <= 100)); [| discriminate]. injection Hin as <-. lia.
Qed.

Lemma counts_to_assign_fit_the_pools_witness :
  dict_get 30 ex_counts_to_assign = Some 1%Z /\
  (1 <= Z.of_nat (length (default [] (dict_get 30 ex_pools))))%Z.
Proof.
  destruct (counts_to_assign_fit_the_pools int_of_scaled_Q [[3]] ex_employment_rates
              ex_population_ages ex_uids_by_age [3; 1; 4]
              ex_potential_workers ex_pools ex_left_count [] ex_counts_to_assign)
    as [Hfit _].
  - apply NoDup_ListNoDup. vm_compute. repeat constructor; cbn; intuition lia.
  - vm_compute. reflexivity.
  - vm_compute. reflexivity.
  - split; [reflexivity |]. apply (Hfit 30 1%Z). reflexivity.
Defined.

(** ** [generate_workplace_sizes]: where the sizes come from, and its errors *)

Lemma map_m_lookup_Forall2 {St A B : Type} (e : exn) (f : A -> option B)
    (xs : list A) (s : St) ys s' :
  map_m (fun x => lift_opt e (f x)) xs s = (Ok ys, s') ->
  Forall2 (fun x y => f x = Some y) xs ys.
Proof.
  revert s ys s'. induction xs as [| x xs IH]; intros s ys s' H; cbn in H.
  - monad_inv. constructor.
  - monad_inv. constructor; [exact Ho | by eapply IH].
Qed.

Lemma map_m_lookup_raises {St A B : Type} (e : exn) (f : A -> option B)
    (xs : list A) (s : St) x :
  x ∈ xs -> f x = None ->
  map_m (fun x => lift_opt e (f x)) xs s = (Raise e, s).
Proof.
  intros Hx Hf. induction xs as [| y xs IH]; [by apply elem_of_nil in Hx |].
  change (map_m (fun x => lift_opt e (f x)) (y :: xs) s)
    with (bind (lift_opt e (f y)) (fun y' => bind (map_m (fun x => lift_opt e (f x)) xs)
            (fun ys => ret (y' :: ys))) s).
  unfold bind at 1. destruct (f y) as [v |] eqn:Ey; cbn; [| reflexivity].
  apply elem_of_cons in Hx as [-> | Hx]; [congruence |].
  unfold bind. by rewrite (IH Hx).
Qed.

(** A size that the sampling loop can draw: it is listed in a bracket that
    carries positive weight. *)
Definition drawn_from (sorted : list nat) (prob : list Q)
    (brackets : list (nat * list Z)) (size : Z) : Prop :=
  exists i b w l,
    sorted !! i = Some b /\ prob !! i = Some w /\ (0 < w)%Q /\
    dict_get b brackets = Some l /\ size ∈ l.

Lemma draw_workplace_sizes_drawn_from fuel sorted prob brackets nworkers sizes g
    nworkers' sizes' g' :
  draw_workplace_sizes fuel sorted prob brackets nworkers sizes g
    = (Ok (nworkers', sizes'), g') ->
  exists drawn, sizes' = sizes ++ drawn /\
    Forall (drawn_from sorted prob brackets) drawn.
Proof.
  revert nworkers sizes g. induction fuel as [| fuel IH]; intros nworkers sizes g H;
    cbn in H; destruct (0 <? nworkers)%Z eqn:Epos.
  - discriminate H.
  - monad_inv. exists []. by rewrite app_nil_r.
  - monad_inv. apply IH in H as (drawn & -> & Hd).
    exists (a1 :: drawn). rewrite <- app_assoc. split; [reflexivity |].
    constructor; [| exact Hd].
    apply np_choice_p_Ok in Hm as (i & w & Hi & Hw & Hpos).
    apply np_choice_Ok in Hm1. by exists i, a, w, a0.
  - monad_inv. exists []. by rewrite app_nil_r.
Qed.

Lemma norm_dic_get_positive (d : list (nat * Q)) (b : nat) (w : Q) :
  dict_get b (norm_dic d) = Some w -> (0 < w)%Q ->
  exists w0, dict_get b d = Some w0 /\ ~ (w0 == 0)%Q.
Proof.
  unfold norm_dic. destruct (Qeq_bool _ _).
  - intros Hget Hpos. exists w. split; [exact Hget |].
    intros H0. rewrite H0 in Hpos. by apply Qlt_irrefl in Hpos.
  - rewrite (dict_get_fmap_value (fun v => (v / Qsum (dict_self_values d))%Q)).
    destruct (dict_get b d) as [w0 |]; [| discriminate].
    cbn. intros [= <-] Hpos. exists w0. split; [reflexivity |].
    intros H0. rewrite H0 in Hpos. unfold Qdiv in Hpos. rewrite Qmult_0_l in Hpos.
    by apply Qlt_irrefl in Hpos.
Qed.

(** A size of the list returned: a size [y] listed in a bracket whose weight
    in the table is not zero, or a positive size below such a [y]. *)
Definition size_of_weighted_bracket (distr : list (nat * Q))
    (brackets : list (nat * list Z)) (size : Z) : Prop :=
  exists b w l y,
    dict_get b distr = Some w /\ ~ (w == 0)%Q /\
    dict_get b brackets = Some l /\ y ∈ l /\
    (size = y \/ (0 < size < y)%Z).

(** X5.  Every size that [generate_workplace_sizes] returns is a size listed in
    a bracket whose weight in the distribution table is not zero, or (for the
    one draw that the overshoot is subtracted from) a positive size smaller
    than such a listed size.  So when the brackets list sizes of at least one
    only, no workplace size returned is below one. *)
Theorem workplace_sizes_come_from_weighted_brackets fuel distr brackets counts g
    out g' :
  generate_workplace_sizes fuel distr brackets counts g = (Ok out, g') ->
  Forall (size_of_weighted_bracket distr brackets) out /\
  (Forall (fun kv => Forall (fun x => (1 <= x)%Z) kv.2) brackets ->
   Forall (fun size => (1 <= size)%Z) out).
Proof.
  intros Hrun.
  assert (Hout : Forall (size_of_weighted_bracket distr brackets) out).
  { destruct (generate_workplace_sizes_Ok _ _ _ _ _ _ _ Hrun)
      as (drawn & g1 & Hloop & _ & _ & Hle & Hgt).
    unfold generate_workplace_sizes in Hrun. monad_inv.
    pose proof (map_m_lookup_Forall2 _ _ _ _ _ _ Hm) as Hprob.
    apply map_m_lookup_Ok in Hm as (-> & _ & ->).
    apply draw_workplace_sizes_drawn_from in Hloop as (drawn' & Hd & Hfrom).
    cbn in Hd. subst drawn'.
    assert (Hlisted : Forall (fun y => exists b w l,
              dict_get b distr = Some w /\ ~ (w == 0)%Q /\
              dict_get b brackets = Some l /\ y ∈ l) drawn).
    { eapply Forall_impl; [exact Hfrom |].
      intros y (i & b & w & l & Hi & Hw & Hpos & Hl & Hy).
      destruct (Forall2_lookup_l _ _ _ _ _ Hprob Hi) as (w' & Hw' & Hget).
      rewrite Hw in Hw'. injection Hw' as <-.
      destruct (norm_dic_get_positive _ _ _ Hget Hpos) as (w0 & Hw0 & Hne).
      by exists b, w0, l. }
    destruct (Z_le_gt_dec (Zsum drawn) (Zsum (dict_self_values counts))) as [Hs | Hs].
    - rewrite (Hle Hs). eapply Forall_impl; [exact Hlisted |].
      intros y (b & w & l & H1 & H2 & H3 & H4). exists b, w, l, y.
      do 4 (split; [assumption |]). by left.
    - destruct Hgt as (pre & l & -> & Hperm & Hpos); [lia |].
      rewrite Hperm. apply Forall_app in Hlisted as [Hpre Hl].
      apply Forall_app. split.
      + eapply Forall_impl; [exact Hpre |].
        intros y (b & w & l0 & H1 & H2 & H3 & H4). exists b, w, l0, y.
        do 4 (split; [assumption |]). by left.
      + apply Forall_singleton in Hl as (b & w & l0 & H1 & H2 & H3 & H4).
        apply Forall_singleton. exists b, w, l0, l.
        do 4 (split; [assumption |]). right. lia. }
  split; [exact Hout |].
  intros Hbr. eapply Forall_impl; [exact Hout |].
  intros size (b & w & l & y & _ & _ & Hl & Hy & Hsize).
  apply dict_get_elem in Hl. rewrite Forall_forall in Hbr.
  specialize (Hbr _ Hl). cbn in Hbr. rewrite Forall_forall in Hbr.
  specialize (Hbr _ Hy). lia.
Qed.

Lemma workplace_sizes_come_from_weighted_brackets_witness :
  exists out g',
    generate_workplace_sizes 7 ex_size_distr ex_size_brackets ex_counts_7 ex_stream
      = (Ok out, g') /\
    Forall (size_of_weighted_bracket ex_size_distr ex_size_brackets) out.
Proof.
  destruct (generate_workplace_sizes 7 ex_size_distr ex_size_brackets ex_counts_7
              ex_stream) as [[out | e |] g'] eqn:Hrun; try (vm_compute in Hrun; discriminate).
  exists out, g'. split; [reflexivity |].
  exact (proj1 (workplace_sizes_come_from_weighted_brackets _ _ _ _ _ _ _ Hrun)).
Defined.

(** X6.  A size bracket that the distribution table has no entry for makes
    [generate_workplace_sizes] raise [KeyError] (line 77) whatever the head
    count is, before any number is drawn from the generator. *)
Theorem generate_workplace_sizes_missing_bracket fuel distr brackets counts g b :
  b ∈ dict_keys brackets ->
  b ∉ dict_keys distr ->
  generate_workplace_sizes fuel distr brackets counts g = (Raise KeyError, g).
Proof.
  intros Hb Hnot. unfold generate_workplace_sizes.
  assert (Hraise : map_m (fun b => lift_opt KeyError (dict_get b (norm_dic distr)))
            (merge_sort Nat.le (dict_keys brackets)) g = (Raise KeyError, g)).
  { apply (map_m_lookup_raises KeyError (fun b => dict_get b (norm_dic distr)) _ g b).
    - by rewrite merge_sort_Permutation.
    - destruct (dict_get b (norm_dic distr)) as [w |] eqn:Hget; [| reflexivity].
      apply dict_get_key in Hget. rewrite norm_dic_keys in Hget. contradiction. }
  unfold bind at 1. by rewrite Hraise.
Qed.

Lemma generate_workplace_sizes_missing_bracket_witness :
  generate_workplace_sizes 7 [(1, 1%Q)] ex_size_brackets ex_counts_7 ex_stream
    = (Raise KeyError, ex_stream).
Proof.
  apply (generate_workplace_sizes_missing_bracket 7 [(1, 1%Q)] ex_size_brackets
           ex_counts_7 ex_stream 0).
  - apply (bool_decide_unpack _). reflexivity.
  - apply (bool_decide_unpack _). reflexivity.
Defined.

(** X7.  With an entry for every bracket and a head count that is not positive
    the loop of [generate_workplace_sizes] is not entered and no number is
    drawn: a head count of zero gives the empty list, and a negative one
    raises [IndexError], line 87 indexing the empty list. *)
Theorem generate_workplace_sizes_without_workers fuel distr brackets counts g :
  let N := Zsum (dict_self_values counts) in
  dict_keys brackets ⊆ dict_keys distr ->
  (N <= 0)%Z ->
  generate_workplace_sizes fuel distr brackets counts g
    = (if (N <? 0)%Z then Raise IndexError else Ok [], g).
Proof.
  intros N Hkeys HN. unfold generate_workplace_sizes. fold N.
  assert (Hsome : Forall (fun b => is_Some (dict_get b (norm_dic distr)))
            (merge_sort Nat.le (dict_keys brackets))).
  { apply Forall_forall. intros b Hb. apply dict_get_is_Some.
    rewrite norm_dic_keys. apply Hkeys. by rewrite merge_sort_Permutation in Hb. }
  rewrite (bind_Ok_intro _ _ _ _ _ (map_m_lookup_total KeyError _ _ g Hsome)).
  assert (Hloop : forall sorted prob,
            draw_workplace_sizes fuel sorted prob brackets N [] g = (Ok (N, []), g)).
  { intros sorted prob. destruct fuel; cbn;
      destruct (0 <? N)%Z eqn:Epos; try reflexivity; apply Z.ltb_lt in Epos; lia. }
  rewrite (bind_Ok_intro _ _ _ _ _ (Hloop _ _)). cbv beta iota.
  destruct (N <? 0)%Z; reflexivity.
Qed.

Lemma generate_workplace_sizes_without_workers_witness :
  generate_workplace_sizes 0 ex_size_distr ex_size_brackets [(20, (-1)%Z)] ex_stream
    = (Raise IndexError, ex_stream).
Proof.
  apply (generate_workplace_sizes_without_workers 0 ex_size_distr ex_size_brackets
           [(20, (-1)%Z)] ex_stream).
  - apply (bool_decide_unpack _). reflexivity.
  - vm_compute. discriminate.
Defined.

(** ** [assign_rest_of_workers]: the workers taken, one after the other *)

Lemma dict_set_set {V : Type} (d : list (nat * V)) (k : nat) (v v' : V) :
  dict_set k v (dict_set k v' d) = dict_set k v d.
Proof.
  induction d as [| [k0 v0] d IH]; cbn.
  - by rewrite decide_True.
  - destruct (decide (k0 = k)) as [-> | Hne]; cbn.
    + by rewrite decide_True.
    + rewrite decide_False by exact Hne. by rewrite IH.
Qed.

Lemma dict_set_same {V : Type} (d : list (nat * V)) (k : nat) (v : V) :
  dict_get k d = Some v -> dict_set k v d = d.
Proof.
  induction d as [| [k0 v0] d IH]; cbn; [discriminate |].
  destruct (decide (k0 = k)) as [-> | Hne].
  - by intros [= ->].
  - intros H. by rewrite IH.
Qed.

Lemma take_from_pools_app ages1 ages2 pw ba u1 pw1 ba1 u2 pw2 ba2 :
  take_from_pools ages1 pw ba = Some (u1, pw1, ba1) ->
  take_from_pools ages2 pw1 ba1 = Some (u2, pw2, ba2) ->
  take_from_pools (ages1 ++ ages2) pw ba = Some (u1 ++ u2, pw2, ba2).
Proof.
  revert pw ba u1. induction ages1 as [| ai ages1 IH]; intros pw ba u1 H1 H2; cbn in *.
  - injection H1 as <- <- <-. exact H2.
  - destruct (dict_get ai ba) as [[| uid pool] |]; try discriminate.
    destruct (take_from_pools ages1 _ _) as [[[us pw'] ba'] |] eqn:E; [| discriminate].
    injection H1 as <- <- <-. by rewrite (IH _ _ _ E H2).
Qed.

Lemma decrement_counts_app ages1 ages2 cn cn1 cn2 :
  decrement_counts ages1 cn = Some cn1 ->
  decrement_counts ages2 cn1 = Some cn2 ->
  decrement_counts (ages1 ++ ages2) cn = Some cn2.
Proof.
  revert cn. induction ages1 as [| ai ages1 IH]; intros cn H1 H2; cbn in *.
  - injection H1 as <-. exact H2.
  - destruct (dict_get ai cn); [| discriminate]. by apply IH.
Qed.

Lemma decrement_counts_replicate ai n cn c :
  dict_get ai cn = Some c ->
  decrement_counts (replicate n ai) cn = Some (dict_set ai (c - Z.of_nat n)%Z cn).
Proof.
  revert cn c. induction n as [| n IH]; intros cn c Hc.
  - cbn. rewrite Z.sub_0_r. by rewrite dict_set_same.
  - cbn [replicate decrement_counts]. rewrite Hc.
    rewrite (IH _ (c - 1)%Z) by (by rewrite dict_get_set, decide_True).
    rewrite dict_set_set. do 2 f_equal. lia.
Qed.

Lemma workers_moved_none fast_choice s s' :
  placed_none s s' -> workers_moved fast_choice s [] [] s'.
Proof.
  intros (H1 & H2 & H3). unfold workers_moved, counts_nonneg. cbn.
  rewrite H1, H2, H3. auto.
Qed.

Lemma workers_moved_one fast_choice s s' ai uid c :
  placed_one s s' ai uid c ->
  (draws_by_weight fast_choice -> counts_nonneg s -> (0 < c)%Z) ->
  workers_moved fast_choice s [ai] [uid] s'.
Proof.
  intros Hone Hpos. pose proof Hone as (pool & Hpool & Hc & H1 & H2 & H3).
  split; [| split].
  - cbn. rewrite Hpool. by rewrite H1, H2.
  - rewrite H3. apply dict_keys_set_present. eauto.
  - intros Hfc Hnn. split.
    + eapply placed_one_nonneg; eauto.
    + cbn. rewrite Hc. by rewrite H3.
Qed.

Lemma workers_moved_trans fast_choice s1 s2 s3 a1 u1 a2 u2 :
  workers_moved fast_choice s1 a1 u1 s2 ->
  workers_moved fast_choice s2 a2 u2 s3 ->
  workers_moved fast_choice s1 (a1 ++ a2) (u1 ++ u2) s3.
Proof.
  intros (Ht1 & Hk1 & Hc1) (Ht2 & Hk2 & Hc2). split; [| split].
  - eapply take_from_pools_app; eassumption.
  - congruence.
  - intros Hfc Hnn. destruct (Hc1 Hfc Hnn) as [Hnn2 Hd1].
    destruct (Hc2 Hfc Hnn2) as [Hnn3 Hd2]. split; [exact Hnn3 |].
    eapply decrement_counts_app; eassumption.
Qed.

(** The mixing loop. *)
Lemma mixing_loop_moved fast_choice fuel age_brackets bindex n nw nwu bp s
    nw' nwu' bp' s' :
  repeat_m n (fill_one_slot fast_choice fuel age_brackets bindex) (nw, nwu, bp) s
    = (Ok (nw', nwu', bp'), s') ->
  exists ea eu,
    nw' = nw ++ ea /\ nwu' = nwu ++ eu /\ workers_moved fast_choice s ea eu s'.
Proof.
  intros H.
  pose (I := fun (k : nat) (b : list nat * list nat * list Q) (t : wstate) =>
    exists ea eu,
      b.1.1 = nw ++ ea /\ b.1.2 = nwu ++ eu /\ workers_moved fast_choice s ea eu t).
  assert (HI : I n (nw', nwu', bp') s').
  { eapply (repeat_m_invariant I); [| | exact H].
    - intros k [[nwk nwuk] bpk] t [[nwk' nwuk'] bpk'] t' Hk
        (ea & eu & Ha & Hu & Hmoved) Hstep.
      cbn in Ha, Hu. subst nwk nwuk.
      apply fill_one_slot_Ok in Hstep
        as [[(_ & -> & -> & Hnone) | (_ & ai & uid & c & -> & -> & Hone & Hpos)] _].
      + exists ea, eu. cbn. do 2 (split; [done |]).
        rewrite <- (app_nil_r ea), <- (app_nil_r eu).
        eapply workers_moved_trans; [exact Hmoved |].
        by apply workers_moved_none.
      + exists (ea ++ [ai]), (eu ++ [uid]). cbn. rewrite !app_assoc.
        do 2 (split; [done |]).
        eapply workers_moved_trans; [exact Hmoved |].
        eapply workers_moved_one; [exact Hone |].
        intros Hfc Hnn. by apply Hpos.
    - exists [], []. cbn. rewrite !app_nil_r. do 2 (split; [done |]).
      apply workers_moved_none, placed_none_refl. }
  exact HI.
Qed.

(** The loop of lines 191-196 for one age. *)
Lemma place_next_of_age_loop_moved ai n nw nwu s nw' nwu' s' :
  repeat_m n (place_next_of_age ai) (nw, nwu) s = (Ok (nw', nwu'), s') ->
  exists eu,
    nw' = nw ++ replicate n ai /\ nwu' = nwu ++ eu /\
    take_from_pools (replicate n ai) (potential_worker_uids s)
        (potential_worker_uids_by_age s)
      = Some (eu, potential_worker_uids s', potential_worker_uids_by_age s') /\
    workers_by_age_to_assign_count s' = workers_by_age_to_assign_count s.
Proof.
  revert nw nwu s. induction n as [| n IH]; intros nw nwu s H; cbn in H; monad_inv.
  - exists []. rewrite !app_nil_r. by repeat split.
  - match goal with H : take_first_worker _ _ = (Ok ?u, _) |- _ =>
      rename u into uid; apply take_first_worker_Ok in H as (pool & Hpool & ->) end.
    apply IH in H as (eu & -> & -> & Htake & Hc).
    cbn in Htake, Hc.
    exists (uid :: eu). rewrite <- !app_assoc. cbn [replicate app].
    do 2 (split; [reflexivity |]). split; [| exact Hc].
    cbn [take_from_pools]. rewrite Hpool. by rewrite Htake.
Qed.

(** The loop of lines 190-197 over the ages [ks]. *)
Lemma place_all_of_age_loop_moved fast_choice ks nw nwu s nw' nwu' s' :
  fold_m place_all_of_age ks (nw, nwu) s = (Ok (nw', nwu'), s') ->
  exists ea eu,
    nw' = nw ++ ea /\ nwu' = nwu ++ eu /\ workers_moved fast_choice s ea eu s'.
Proof.
  revert nw nwu s. induction ks as [| k ks IH]; intros nw nwu s H; cbn in H; monad_inv.
  - exists [], []. rewrite !app_nil_r. do 2 (split; [done |]).
    apply workers_moved_none, placed_none_refl.
  - match goal with x : (list nat * list nat)%type |- _ => destruct x as [nw1 nwu1] end.
    match goal with H : place_all_of_age _ _ _ = _ |- _ =>
      unfold place_all_of_age in H; monad_inv end.
    match goal with H : count_of _ _ = (Ok ?x, _) |- _ =>
      rename x into c; apply count_of_Ok in H as [-> Hc] end.
    match goal with H : repeat_m _ _ _ _ = _ |- _ =>
      apply place_next_of_age_loop_moved in H as (eu1 & -> & -> & Htake & Hc1) end.
    apply IH in H as (ea2 & eu2 & -> & -> & Hmoved).
    exists (replicate (Z.to_nat c) k ++ ea2), (eu1 ++ eu2). rewrite !app_assoc.
    do 2 (split; [reflexivity |]).
    eapply workers_moved_trans; [| exact Hmoved].
    split; [exact Htake | split].
    + cbn. rewrite Hc1. apply dict_keys_set_present. eauto.
    + intros _ Hnn. cbn. rewrite Hc1.
      assert (0 <= c)%Z.
      { apply dict_get_elem in Hc. unfold counts_nonneg in Hnn.
        rewrite Forall_forall in Hnn. apply (Hnn _ Hc). }
      split.
      * unfold counts_nonneg. cbn. rewrite Hc1.
        apply dict_set_Forall; [exact Hnn | cbn; lia].
      * rewrite (decrement_counts_replicate _ _ _ _ Hc). do 2 f_equal. lia.
Qed.

Lemma fill_workplace_moved fast_choice fuel age_brackets size bindex bp nw nwu s
    nw' nwu' s' :
  fill_workplace fast_choice fuel age_brackets size bindex bp nw nwu s
    = (Ok (nw', nwu'), s') ->
  exists ea eu,
    nw' = nw ++ ea /\ nwu' = nwu ++ eu /\ workers_moved fast_choice s ea eu s'.
Proof.
  unfold fill_workplace. intros H. monad_inv.
  match goal with H : (if ?c then _ else _) _ = _ |- _ => destruct c eqn:Ec end.
  - unfold place_everyone_left in H. monad_inv.
    by apply (place_all_of_age_loop_moved fast_choice) in H.
  - monad_inv.
    match goal with x : (list nat * list nat * list Q)%type |- _ =>
      destruct x as [[nw1 nwu1] bp1] end.
    cbn [fst snd].
    match goal with H : repeat_m _ _ _ _ = _ |- _ =>
      by apply mixing_loop_moved in H end.
Qed.

Lemma build_workplace_break_test fast_choice fuel age_brackets age_by_brackets_dic
    keys size s s' :
  build_workplace fast_choice fuel age_brackets age_by_brackets_dic keys size s
    = (Ok None, s') ->
  s' = s /\ loop_breaks s.
Proof.
  intros H. pose proof (build_workplace_break _ _ _ _ _ _ _ _ H) as ->.
  split; [reflexivity |].
  unfold build_workplace in H. monad_inv. unfold loop_breaks.
  match goal with H : (if ?c then _ else _) _ = _ |- _ => destruct c eqn:E1 end;
    [by left |]. monad_inv.
  match goal with H : (if ?c then _ else _) _ = _ |- _ => destruct c eqn:E2 end;
    [right; by apply Z.eqb_eq |]. monad_inv.
  repeat match goal with x : (_ * _)%type |- _ => destruct x end.
  cbv beta iota in *. monad_inv.
  repeat match goal with x : (_ * _)%type |- _ => destruct x end.
  cbv beta iota in *. monad_inv.
  repeat match goal with x : (_ * _)%type |- _ => destruct x end.
  cbv beta iota in *. monad_inv.
Qed.

Lemma build_workplace_moved fast_choice fuel age_brackets age_by_brackets_dic
    keys size s nw nwu s' :
  build_workplace fast_choice fuel age_brackets age_by_brackets_dic keys size s
    = (Ok (Some (nw, nwu)), s') ->
  nwu <> [] /\ workers_moved fast_choice s nw nwu s'.
Proof.
  unfold build_workplace. intros H. monad_inv.
  match goal with H : (if ?c then _ else _) _ = _ |- _ => destruct c end;
    [by monad_inv |]. monad_inv.
  match goal with H : (if ?c then _ else _) _ = _ |- _ => destruct c end;
    [by monad_inv |]. monad_inv.
  match goal with H : choose_anchor _ _ = (Ok ?x, _) |- _ => destruct x as [aindex uid] end.
  cbv beta iota in H. monad_inv.
  match goal with H : anchor_row _ _ _ = (Ok ?x, _) |- _ => destruct x as [bindex bp] end.
  cbv beta iota in H. monad_inv.
  match goal with H : fill_workplace _ _ _ _ _ _ _ _ _ = (Ok ?x, _) |- _ =>
    destruct x as [nw1 nwu1] end.
  cbv beta iota in H. monad_inv.
  match goal with H : choose_anchor _ _ = _ |- _ =>
    apply choose_anchor_Ok in H as (c & Hone & HW & Hpos) end.
  match goal with H : anchor_row _ _ _ = _ |- _ =>
    apply anchor_row_Ok in H as (-> & _) end.
  match goal with H : fill_workplace _ _ _ _ _ _ _ _ _ = _ |- _ =>
    apply fill_workplace_moved in H as (ea & eu & -> & -> & Hmoved) end.
  split; [discriminate |].
  eapply workers_moved_trans; [| exact Hmoved].
  eapply workers_moved_one; [exact Hone |]. intros _ Hnn. by apply Hpos.
Qed.

(** The loop over [workplace_sizes]. *)
Lemma assign_workplaces_moved fast_choice fuel age_brackets age_by_brackets_dic
    keys sizes s ws us s' :
  assign_workplaces fast_choice fuel age_brackets age_by_brackets_dic keys sizes s
    = (Ok (ws, us), s') ->
  workers_moved fast_choice s (concat ws) (concat us) s' /\
  length us <= length sizes /\
  Forall (fun u => u <> []) us /\
  (length us < length sizes -> loop_breaks s').
Proof.
  revert s ws us. induction sizes as [| size sizes IH]; intros s ws us H;
    cbn in H; monad_inv.
  - cbn. split; [apply workers_moved_none, placed_none_refl |].
    split; [lia |]. split; [constructor | lia].
  - match goal with H : build_workplace _ _ _ _ _ _ _ = (Ok ?x, _) |- _ =>
      destruct x as [[nw nwu] |] end.
    + monad_inv.
      match goal with x : (list (list nat) * list (list nat))%type |- _ =>
        destruct x as [ws1 us1] end.
      cbv beta iota in H. monad_inv.
      match goal with H : build_workplace _ _ _ _ _ _ _ = _ |- _ =>
        apply build_workplace_moved in H as (Hne & Hmoved) end.
      match goal with H : assign_workplaces _ _ _ _ _ _ _ = _ |- _ =>
        apply IH in H as (Hmoved' & Hlen & Hall & Hbreak) end.
      cbn [concat length]. split; [| split; [lia | split]].
      * eapply workers_moved_trans; eassumption.
      * by constructor.
      * intros Hlt. apply Hbreak. lia.
    + monad_inv.
      match goal with H : build_workplace _ _ _ _ _ _ _ = _ |- _ =>
        apply build_workplace_break_test in H as (-> & Hbreak) end.
      cbn. split; [apply workers_moved_none, placed_none_refl |].
      split; [lia |]. split; [constructor | by intros _].
Qed.

Lemma assign_rest_of_workers_moved fast_choice fuel age_brackets age_by_brackets_dic
    sizes s ws us s' :
  assign_rest_of_workers fast_choice fuel age_brackets age_by_brackets_dic sizes s
    = (Ok (ws, us), s') ->
  workers_moved fast_choice s (concat ws) (concat us) s' /\
  length us <= length sizes /\
  Forall (fun u => u <> []) us /\
  (length us < length sizes -> loop_breaks s').
Proof.
  unfold assign_rest_of_workers. intros H. monad_inv.
  match goal with H : turn_off_empty_brackets _ _ = _ |- _ =>
    apply turn_off_empty_brackets_Ok in H as Hnone end.
  apply assign_workplaces_moved in H as (Hmoved & Hrest).
  split; [| exact Hrest].
  change (concat ws) with ([] ++ concat ws). change (concat us) with ([] ++ concat us).
  eapply workers_moved_trans; [| exact Hmoved]. by apply workers_moved_none.
Qed.

(** ** [assign_rest_of_workers]: pools, counts and workplaces *)

Lemma placed_of_age_cons (a ai uid : nat) (ages uids : list nat) :
  placed_of_age a (ai :: ages) (uid :: uids)
  = if decide (ai = a) then uid :: placed_of_age a ages uids
    else placed_of_age a ages uids.
Proof.
  unfold placed_of_age. cbn. destruct (decide (ai = a)) as [-> | Hne].
  - by rewrite bool_decide_eq_true_2.
  - by rewrite bool_decide_eq_false_2.
Qed.

Lemma number_placed_cons (a ai : nat) (ages : list nat) :
  number_placed a (ai :: ages)
  = ((if decide (ai = a) then 1 else 0) + number_placed a ages)%Z.
Proof.
  unfold number_placed. cbn. destruct (decide (ai = a)) as [-> | Hne].
  - rewrite bool_decide_eq_true_2 by reflexivity. cbn [length]. lia.
  - rewrite bool_decide_eq_false_2 by exact Hne. lia.
Qed.

Lemma number_placed_nonneg (a : nat) (ages : list nat) : (0 <= number_placed a ages)%Z.
Proof. unfold number_placed. lia. Qed.

(** What is left after taking workers: each pool lost, from its front, the
    workers taken with its age. *)
Lemma take_from_pools_spec ages pw ba uids pw' ba' :
  take_from_pools ages pw ba = Some (uids, pw', ba') ->
  length uids = length ages /\
  pw' = foldl (fun d uid => dict_pop uid d) pw uids /\
  dict_keys ba' = dict_keys ba /\
  (forall a pool, dict_get a ba = Some pool ->
     exists pool', dict_get a ba' = Some pool' /\
       pool = placed_of_age a ages uids ++ pool').
Proof.
  revert pw ba uids. induction ages as [| ai ages IH]; intros pw ba uids H; cbn in H.
  - injection H as <- <- <-. repeat split. intros a pool Hpool. by exists pool.
  - destruct (dict_get ai ba) as [[| uid pool0] |] eqn:Hai; try discriminate.
    destruct (take_from_pools ages _ _) as [[[us pw1] ba1] |] eqn:E; [| discriminate].
    injection H as <- <- <-.
    apply IH in E as (Hlen & Hpw & Hkeys & Hpools).
    split; [cbn; lia |]. split; [exact Hpw |]. split.
    { rewrite Hkeys. apply dict_keys_set_present. eauto. }
    intros a pool Hpool. rewrite placed_of_age_cons.
    destruct (decide (ai = a)) as [-> | Hne].
    + rewrite Hai in Hpool. injection Hpool as <-.
      destruct (Hpools a pool0) as (pool' & Hget & ->).
      { by rewrite dict_get_set, decide_True. }
      by exists pool'.
    + apply Hpools. by rewrite dict_get_set, decide_False.
Qed.

(** Every worker taken was in the pool of the age it was taken with. *)
Lemma take_from_pools_pooled ages pw ba uids pw' ba' :
  take_from_pools ages pw ba = Some (uids, pw', ba') ->
  Forall2 (fun a uid => exists pool, dict_get a ba = Some pool /\ uid ∈ pool) ages uids.
Proof.
  revert pw ba uids. induction ages as [| ai ages IH]; intros pw ba uids H; cbn in H.
  - injection H as <- <- <-. constructor.
  - destruct (dict_get ai ba) as [[| uid pool0] |] eqn:Hai; try discriminate.
    destruct (take_from_pools ages _ _) as [[[us pw1] ba1] |] eqn:E; [| discriminate].
    injection H as <- <- <-. constructor.
    + exists (uid :: pool0). split; [exact Hai | apply list_elem_of_here].
    + eapply Forall2_impl; [exact (IH _ _ _ E) |].
      intros a uid' (pool & Hpool & Hin). cbn beta in *.
      rewrite dict_get_set in Hpool. destruct (decide (ai = a)) as [-> | Hne].
      * injection Hpool as <-. exists (uid :: pool0).
        split; [exact Hai | by apply list_elem_of_further].
      * by exists pool.
Qed.

Lemma decrement_counts_spec ages cn cn' :
  decrement_counts ages cn = Some cn' ->
  forall a c, dict_get a cn = Some c ->
    dict_get a cn' = Some (c - number_placed a ages)%Z.
Proof.
  revert cn. induction ages as [| ai ages IH]; intros cn H a c Hc; cbn in H.
  - injection H as <-. unfold number_placed. cbn. by rewrite Z.sub_0_r.
  - destruct (dict_get ai cn) as [c0 |] eqn:Hai; [| discriminate].
    rewrite number_placed_cons. destruct (decide (ai = a)) as [-> | Hne].
    + rewrite Hai in Hc. injection Hc as <-.
      rewrite (IH _ H a (c0 - 1)%Z) by (by rewrite dict_get_set, decide_True).
      f_equal. lia.
    + rewrite (IH _ H a c) by (by rewrite dict_get_set, decide_False).
      f_equal.
Qed.

Lemma Forall2_concat_inv {A B : Type} (P : A -> B -> Prop)
    (ls : list (list A)) (ks : list (list B)) :
  Forall2 (fun l k => length l = length k) ls ks ->
  Forall2 P (concat ls) (concat ks) ->
  Forall2 (Forall2 P) ls ks.
Proof.
  induction 1 as [| l k ls ks Hlen _ IH]; cbn; intros H; [constructor |].
  apply Forall2_app_inv in H as [H1 H2]; [| exact Hlen].
  constructor; [exact H1 | by apply IH].
Qed.

(** X8.  [assign_rest_of_workers] empties every pool from the front: the pool
    of an age that was passed in is the list of the workers placed with that
    age, in the order in which they were placed, followed by the pool of that
    age that is returned.  So the age listed at a position of a workplace in
    [syn_workplaces] is the age under which the uid at that position of
    [syn_workplace_uids] was pooled; and [potential_worker_uids] loses the
    workers placed and nothing else. *)
Theorem workers_leave_their_pools_in_order fast_choice fuel age_brackets
    age_by_brackets_dic sizes s ws us s' :
  assign_rest_of_workers fast_choice fuel age_brackets age_by_brackets_dic sizes s
    = (Ok (ws, us), s') ->
  Forall2 (Forall2 (fun a uid =>
     exists pool, dict_get a (potential_worker_uids_by_age s) = Some pool /\
                  uid ∈ pool)) ws us /\
  (forall a pool, dict_get a (potential_worker_uids_by_age s) = Some pool ->
     exists pool', dict_get a (potential_worker_uids_by_age s') = Some pool' /\
       pool = placed_of_age a (concat ws) (concat us) ++ pool') /\
  dict_keys (potential_worker_uids_by_age s')
    = dict_keys (potential_worker_uids_by_age s) /\
  potential_worker_uids s'
    = foldl (fun d uid => dict_pop uid d) (potential_worker_uids s) (concat us).
Proof.
  intros Hrun.
  pose proof (assign_rest_of_workers_Ok _ _ _ _ _ _ _ _ _ Hrun) as (_ & Hlens & _).
  apply assign_rest_of_workers_moved in Hrun as ((Htake & _) & _).
  pose proof (take_from_pools_pooled _ _ _ _ _ _ Htake) as Hpooled.
  apply take_from_pools_spec in Htake as (_ & Hpw & Hkeys & Hpools).
  split; [by apply Forall2_concat_inv |]. by repeat split.
Qed.

Lemma workers_leave_their_pools_in_order_witness :
  dict_get 20 (potential_worker_uids_by_age ex_five_potential_workers)
    = Some (placed_of_age 20 (concat [[20; 20; 20]]) (concat [[1; 2; 3]]) ++ [4; 5]).
Proof.
  destruct (workers_leave_their_pools_in_order fast_choice_weighted 5 ex_one_bracket
              ex_age_to_one_bracket [2; 1]%Z ex_five_potential_workers
              [[20; 20; 20]] [[1; 2; 3]]
              (WState [(4, 20); (5, 20)] [(20, [4; 5])] [(20, 0%Z)] ex_matrix_one []))
    as (_ & Hpools & _).
  - vm_compute. reflexivity.
  - destruct (Hpools 20 [1; 2; 3; 4; 5]) as (pool' & Hget & Heq); [reflexivity |].
    cbn in Hget. injection Hget as <-. rewrite <- Heq. reflexivity.
Defined.

(** X9.  With draws by weight and no negative count on entry,
    [assign_rest_of_workers] lowers the count of every age by the number of
    workers it placed with that age and leaves no count negative: it never
    places more workers of an age than [workers_by_age_to_assign_count]
    allows. *)
Theorem counts_drop_by_the_workers_placed fast_choice fuel age_brackets
    age_by_brackets_dic sizes s ws us s' :
  draws_by_weight fast_choice ->
  counts_nonneg s ->
  assign_rest_of_workers fast_choice fuel age_brackets age_by_brackets_dic sizes s
    = (Ok (ws, us), s') ->
  counts_nonneg s' /\
  dict_keys (workers_by_age_to_assign_count s')
    = dict_keys (workers_by_age_to_assign_count s) /\
  (forall a c, dict_get a (workers_by_age_to_assign_count s) = Some c ->
     dict_get a (workers_by_age_to_assign_count s')
       = Some (c - number_placed a (concat ws))%Z /\
     (number_placed a (concat ws) <= c)%Z).
Proof.
  intros Hfc Hnn Hrun.
  apply assign_rest_of_workers_moved in Hrun as ((_ & Hkeys & Hcounts) & _).
  destruct (Hcounts Hfc Hnn) as [Hnn' Hdec].
  split; [exact Hnn' |]. split; [exact Hkeys |].
  intros a c Hc. pose proof (decrement_counts_spec _ _ _ Hdec a c Hc) as Hc'.
  split; [exact Hc' |].
  apply dict_get_elem in Hc'. unfold counts_nonneg in Hnn'.
  rewrite Forall_forall in Hnn'. specialize (Hnn' _ Hc'). cbn in Hnn'. lia.
Qed.

Lemma counts_drop_by_the_workers_placed_witness :
  dict_get 20 [(20, 0%Z)]
    = Some (Z.sub 3 (number_placed 20 (concat [[20; 20; 20]%nat]))).
Proof.
  destruct (counts_drop_by_the_workers_placed fast_choice_weighted 5 ex_one_bracket
              ex_age_to_one_bracket [2; 1]%Z ex_five_potential_workers
              [[20; 20; 20]] [[1; 2; 3]]
              (WState [(4, 20); (5, 20)] [(20, [4; 5])] [(20, 0%Z)] ex_matrix_one []))
    as (_ & _ & Hcounts).
  - exact fast_choice_weighted_by_weight.
  - repeat constructor; cbn; lia.
  - vm_compute. reflexivity.
  - exact (proj1 (Hcounts 20 3%Z eq_refl)).
Defined.

Lemma Zsum_lengths_zero {A : Type} (ls : list (list A)) :
  Zsum ((fun v => Z.of_nat (length v)) <$> ls) = 0%Z -> concat ls = [].
Proof.
  induction ls as [| l ls IH]; cbn; [reflexivity |]. intros H.
  assert (0 <= Zsum ((fun v => Z.of_nat (length v)) <$> ls))%Z.
  { apply Zsum_nonneg. apply Forall_fmap, Forall_forall. intros x _. cbn. lia. }
  destruct l; [| cbn in H; lia]. apply IH. cbn in H. lia.
Qed.

Lemma Qsum_inject_Z (l : list Z) : (Qsum (inject_Z <$> l) == inject_Z (Zsum l))%Q.
Proof.
  induction l as [| x l IH]; cbn; [reflexivity |].
  rewrite IH. by rewrite inject_Z_plus.
Qed.

(** The test of line 154 on a dictionary of counts that lists no age twice:
    the normalised counts sum to zero only if the counts do. *)
Lemma normalised_counts_sum_zero (counts : list (nat * Z)) :
  NoDup (dict_keys counts) ->
  Qeq_bool (Qsum (dict_values
     (norm_dic ((fun kv => (kv.1, inject_Z kv.2)) <$> counts)))) 0 = true ->
  Zsum (dict_self_values counts) = 0%Z.
Proof.
  intros Hnd Hz. apply Qeq_bool_iff in Hz.
  set (cq := (fun kv => (kv.1, inject_Z kv.2)) <$> counts) in *.
  assert (Hndq : NoDup (dict_keys cq)).
  { unfold cq. by rewrite (dict_keys_fmap_value inject_Z). }
  assert (Htotal : (Qsum (dict_self_values cq)
                    == inject_Z (Zsum (dict_self_values counts)))%Q).
  { unfold cq. rewrite (dict_self_values_fmap_value inject_Z). apply Qsum_inject_Z. }
  unfold norm_dic in Hz. destruct (Qeq_bool (Qsum (dict_self_values cq)) 0) eqn:E.
  - apply Qeq_bool_iff in E. rewrite Htotal in E.
    exact (proj1 (inject_Z_injective _ 0%Z) E).
  - exfalso. apply Qeq_bool_neq in E. apply E.
    assert (Hv : dict_values ((fun kv => (kv.1, (kv.2 / Qsum (dict_self_values cq))%Q))
                                <$> cq)
                 = (fun v => (v / Qsum (dict_self_values cq))%Q) <$> dict_values cq).
    { unfold dict_values. rewrite <- !list_fmap_compose. reflexivity. }
    rewrite Hv, Qsum_scale, <- (dict_self_values_NoDup cq Hndq) in Hz.
    destruct (Qeq_dec (Qsum (dict_self_values cq)) 0) as [H0 | H0]; [exact H0 |].
    exfalso. unfold Qdiv in Hz. rewrite Qmult_inv_r in Hz by exact H0.
    discriminate Hz.
Qed.

(** X10.  [assign_rest_of_workers] returns no empty workplace, lists as many
    ages as uids for each, and builds at most one workplace for every size
    asked for.  When the counts list no age twice it builds fewer only if, in
    the state it returns, no worker is left to assign or every pool is
    empty. *)
Theorem workplaces_are_never_empty fast_choice fuel age_brackets
    age_by_brackets_dic sizes s ws us s' :
  assign_rest_of_workers fast_choice fuel age_brackets age_by_brackets_dic sizes s
    = (Ok (ws, us), s') ->
  Forall (fun u => u <> []) us /\
  Forall2 (fun w u => length w = length u) ws us /\
  length us <= length sizes /\
  (NoDup (dict_keys (workers_by_age_to_assign_count s)) ->
   length us < length sizes ->
   workers_left s' = 0%Z \/ pool_uids s' = []).
Proof.
  intros Hrun.
  pose proof (assign_rest_of_workers_Ok _ _ _ _ _ _ _ _ _ Hrun) as (_ & Hlens & _).
  apply assign_rest_of_workers_moved in Hrun
    as ((_ & Hkeys & _) & Hle & Hne & Hbreak).
  do 3 (split; [assumption |]). intros Hnd Hlt.
  destruct (Hbreak Hlt) as [Hz | Hz].
  - left. apply normalised_counts_sum_zero; [by rewrite Hkeys | exact Hz].
  - right. by apply Zsum_lengths_zero.
Qed.

Lemma workplaces_are_never_empty_witness :
  Forall (fun u : list nat => u <> []) [[1]; [2]] /\ length [[1]; [2]] <= length [2; 1]%Z.
Proof.
  destruct (workplaces_are_never_empty fast_choice_weighted 5 ex_one_bracket
              ex_age_to_one_bracket [2; 1]%Z ex_three_workers
              [[20]; [20]] [[1]; [2]]
              (WState [(3, 20)] [(20, [3])] [(20, 1%Z)] ex_matrix_one []))
    as (Hne & _ & Hle & _).
  - vm_compute. reflexivity.
  - split; [exact Hne | exact Hle].
Defined.

(** ** [Pop.generate], lines 252-260: the residents of the facilities *)

Lemma filter_Forall_id {A : Type} (P : A -> Prop) `{!forall x, Decision (P x)}
    (l : list A) :
  Forall P l -> filter P l = l.
Proof.
  induction 1 as [| x l Hx _ IH]; [reflexivity |].
  rewrite filter_cons_True by exact Hx. by rewrite IH.
Qed.

Lemma list_remove_spec (x : nat) (l l' : list nat) :
  list_remove x l = Some l' ->
  x ∈ l /\ (NoDup l -> l' = filter (fun y => y ∉ [x]) l).
Proof.
  revert l'. induction l as [| y l IH]; intros l' H; cbn in H; [discriminate |].
  destruct (decide (y = x)) as [-> | Hne].
  - injection H as <-. split; [apply list_elem_of_here |].
    intros [Hx _]%NoDup_cons. rewrite filter_cons_False by set_solver.
    symmetry. apply filter_Forall_id, Forall_forall. set_solver.
  - destruct (list_remove x l) as [l0 |]; [| discriminate]. injection H as <-.
    destruct (IH l0 eq_refl) as [Hin Hl0]. split; [by apply list_elem_of_further |].
    intros [_ Hnd]%NoDup_cons. rewrite filter_cons_True by set_solver.
    by rewrite <- Hl0.
Qed.

Lemma dict_pop_absent {V : Type} (d : list (nat * V)) (k : nat) :
  dict_get k d = None -> dict_pop k d = d.
Proof.
  induction d as [| [k0 v0] d IH]; cbn; [reflexivity |].
  destruct (decide (k0 = k)); [discriminate |]. intros H. by rewrite IH.
Qed.

Lemma dict_get_pools_without (a : nat) (removed : list nat) (d : list (nat * list nat)) :
  dict_get a (pools_without removed d)
  = filter (fun uid => uid ∉ removed) <$> dict_get a d.
Proof. apply (dict_get_fmap_value (filter (fun uid => uid ∉ removed))). Qed.

Lemma dict_keys_pools_without (removed : list nat) (d : list (nat * list nat)) :
  dict_keys (pools_without removed d) = dict_keys d.
Proof. apply (dict_keys_fmap_value (filter (fun uid => uid ∉ removed))). Qed.

Lemma concat_pools_without (removed : list nat) (d : list (nat * list nat)) :
  concat (dict_values (pools_without removed d))
  = filter (fun uid => uid ∉ removed) (concat (dict_values d)).
Proof.
  induction d as [| [k v] d IH]; cbn; [reflexivity |].
  rewrite filter_app. f_equal. exact IH.
Qed.

Lemma pools_without_id (removed : list nat) (d : list (nat * list nat)) :
  (forall uid, uid ∈ removed -> uid ∉ concat (dict_values d)) ->
  pools_without removed d = d.
Proof.
  induction d as [| [k v] d IH]; cbn; intros H; [reflexivity |].
  rewrite filter_Forall_id.
  - f_equal. apply IH. intros uid Hu Hin. apply (H uid Hu). set_solver.
  - apply Forall_forall. intros uid Hin Hu. apply (H uid Hu). set_solver.
Qed.

Lemma pools_without_app (r1 r2 : list nat) (d : list (nat * list nat)) :
  pools_without r2 (pools_without r1 d) = pools_without (r1 ++ r2) d.
Proof.
  unfold pools_without. rewrite <- list_fmap_compose. apply list_fmap_ext.
  intros _ [k v] _. cbn. f_equal. rewrite list_filter_filter.
  apply list_filter_iff. set_solver.
Qed.

Lemma dict_get_concat_values {A : Type} (d : list (nat * list A)) (a : nat)
    (pool : list A) (x : A) :
  dict_get a d = Some pool -> x ∈ pool -> x ∈ concat (dict_values d).
Proof.
  intros Hget Hx. apply dict_get_elem in Hget.
  apply list_elem_of_In, in_concat. exists pool. split; [| by apply list_elem_of_In].
  apply list_elem_of_In, list_elem_of_fmap. by exists (a, pool).
Qed.

(** Taking a uid out of the pool that holds it is taking it out of every
    pool, when no uid is pooled twice. *)
Lemma dict_set_pools_without (d : list (nat * list nat)) (a : nat) (pool : list nat)
    (uid : nat) :
  NoDup (concat (dict_values d)) ->
  dict_get a d = Some pool -> uid ∈ pool ->
  dict_set a (filter (fun y => y ∉ [uid]) pool) d = pools_without [uid] d.
Proof.
  induction d as [| [k v] d IH]; cbn; [discriminate |].
  intros [Hv [Hdisj Hnd]]%NoDup_app Hget Hin.
  destruct (decide (k = a)) as [-> | Hne].
  - injection Hget as ->. f_equal. symmetry. apply pools_without_id.
    intros x ->%list_elem_of_singleton Hx. by apply (Hdisj uid).
  - rewrite (filter_Forall_id _ v).
    + f_equal. by apply IH.
    + apply Forall_forall. intros x Hx ->%list_elem_of_singleton.
      apply (Hdisj uid Hx). by eapply dict_get_concat_values.
Qed.

Lemma foldl_pop_get (removed : list nat) (d : list (nat * nat)) (uid : nat) :
  uid ∉ removed ->
  dict_get uid (foldl (fun d uid => dict_pop uid d) d removed) = dict_get uid d.
Proof.
  revert d. induction removed as [| x removed IH]; intros d Hu; cbn; [reflexivity |].
  apply not_elem_of_cons in Hu as [Hne Hu]. rewrite IH by exact Hu.
  by apply dict_get_pop_ne.
Qed.

Lemma counts_lowered_refl counts : counts_lowered counts counts.
Proof. split; [reflexivity |]. intros a c Hc. exists c. split; [exact Hc | lia]. Qed.

Lemma counts_lowered_trans c1 c2 c3 :
  counts_lowered c1 c2 -> counts_lowered c2 c3 -> counts_lowered c1 c3.
Proof.
  intros [Hk1 H1] [Hk2 H2]. split; [congruence |].
  intros a c Hc. destruct (H1 a c Hc) as (c' & Hc' & Hb).
  destruct (H2 a c' Hc') as (c'' & Hc'' & Hb'). exists c''. split; [exact Hc'' | lia].
Qed.

Lemma counts_lowered_decrement counts a c :
  dict_get a counts = Some c -> (0 < c)%Z ->
  counts_lowered counts (dict_set a (c - 1)%Z counts).
Proof.
  intros Hc Hpos. split; [apply dict_keys_set_present; eauto |].
  intros a' c' Hc'. rewrite dict_get_set. destruct (decide (a = a')) as [-> | Hne].
  - rewrite Hc in Hc'. injection Hc' as <-. exists (c - 1)%Z. split; [reflexivity | lia].
  - exists c'. split; [exact Hc' | lia].
Qed.

Lemma residents_removed_nil age_by_uid_dic s : residents_removed age_by_uid_dic [] s s.
Proof.
  repeat split; try reflexivity.
  - unfold pools_without. symmetry. rewrite <- (list_fmap_id (potential_worker_uids_by_age s)) at 2.
    apply list_fmap_ext. intros _ [k v] _. cbn. f_equal.
    apply filter_Forall_id, Forall_forall. set_solver.
  - intros a c Hc. exists c. split; [exact Hc | lia].
  - intros uid []%elem_of_nil.
  - intros uid []%elem_of_nil.
Qed.

Lemma residents_removed_agree age_by_uid_dic removed s s' :
  pools_agree s -> residents_removed age_by_uid_dic removed s s' -> pools_agree s'.
Proof.
  intros (Hnd & Hkeys & Hpools & Hagree) (Hpw & Hba & _).
  destruct (pop_all_spec removed (potential_worker_uids s) Hnd) as (_ & Hnd' & _ & Hout).
  cbn zeta in Hnd', Hout. split; [by rewrite Hpw | split; [| split]].
  - by rewrite Hba, dict_keys_pools_without.
  - unfold pool_uids. rewrite Hba, concat_pools_without. by apply NoDup_filter.
  - intros a pool uid. rewrite Hba, dict_get_pools_without, Hpw.
    destruct (dict_get a (potential_worker_uids_by_age s)) as [pool0 |] eqn:E;
      [| discriminate].
    cbn. intros [= <-] [Hu Hin]%list_elem_of_filter.
    rewrite Hout by exact Hu. by eapply Hagree.
Qed.

Lemma residents_removed_app age_by_uid_dic r1 r2 s1 s2 s3 :
  pools_agree s1 ->
  residents_removed age_by_uid_dic r1 s1 s2 ->
  residents_removed age_by_uid_dic r2 s2 s3 ->
  residents_removed age_by_uid_dic (r1 ++ r2) s1 s3.
Proof.
  intros Hagree (Hpw1 & Hba1 & Hc1 & HW1 & Hg1 & Hage1 & Hin1)
    (Hpw2 & Hba2 & Hc2 & HW2 & Hg2 & Hage2 & Hin2).
  split; [by rewrite foldl_app, <- Hpw1 |].
  split; [by rewrite Hba2, Hba1, pools_without_app |].
  split; [by eapply counts_lowered_trans |].
  split; [congruence |]. split; [congruence |]. split.
  - intros uid [Hu | Hu]%elem_of_app; auto.
  - intros uid Hu Hsome. destruct (decide (uid ∈ r1)) as [Hr1 | Hr1]; [by apply Hin1 |].
    apply elem_of_app in Hu as [Hu | Hu]; [contradiction |].
    destruct (Hin2 uid Hu) as (a & pool & Ha & Hpool & Hin).
    { by rewrite Hpw1, foldl_pop_get. }
    rewrite Hba1, dict_get_pools_without in Hpool.
    destruct (dict_get a (potential_worker_uids_by_age s1)) as [pool0 |] eqn:E;
      [| discriminate].
    cbn in Hpool. injection Hpool as <-. apply list_elem_of_filter in Hin as [_ Hin].
    by exists a, pool0.
Qed.

Lemma NoDup_concat_elem {A : Type} (ls : list (list A)) (l : list A) :
  NoDup (concat ls) -> l ∈ ls -> NoDup l.
Proof.
  induction ls as [| l0 ls IH]; cbn; intros Hnd Hl; [by apply elem_of_nil in Hl |].
  apply NoDup_app in Hnd as (Hl0 & _ & Hls).
  apply elem_of_cons in Hl as [-> | Hl]; [exact Hl0 | by apply IH].
Qed.

(** Lines 254-260 for one resident. *)
Lemma remove_facility_resident_Ok age_by_uid_dic uid s u s' :
  pools_agree s ->
  remove_facility_resident age_by_uid_dic uid s = (Ok u, s') ->
  residents_removed age_by_uid_dic [uid] s s'.
Proof.
  intros (Hnd & Hkeys & Hpools & Hagree) H.
  assert (Hresult : forall aindex pool t,
    dict_get uid age_by_uid_dic = Some aindex ->
    dict_get aindex (potential_worker_uids_by_age s) = Some pool ->
    uid ∈ pool ->
    potential_worker_uids t = dict_pop uid (potential_worker_uids s) ->
    potential_worker_uids_by_age t
      = dict_set aindex (filter (fun y => y ∉ [uid]) pool)
          (potential_worker_uids_by_age s) ->
    counts_lowered (workers_by_age_to_assign_count s)
      (workers_by_age_to_assign_count t) ->
    contact_matrix_W t = contact_matrix_W s -> w_gen t = w_gen s ->
    residents_removed age_by_uid_dic [uid] s t).
  { intros aindex pool t Ha Hpool Hin H1 H2 H3 H4 H5. split; [exact H1 |]. split.
    { rewrite H2. by apply dict_set_pools_without. }
    do 3 (split; [assumption |]). split.
    - intros x ->%list_elem_of_singleton. eauto.
    - intros x ->%list_elem_of_singleton _. by exists aindex, pool. }
  assert (Hnone : dict_get uid (potential_worker_uids s) = None ->
    is_Some (dict_get uid age_by_uid_dic) ->
    residents_removed age_by_uid_dic [uid] s s).
  { intros Hpw Hage. split; [cbn; by rewrite dict_pop_absent |]. split.
    { symmetry. apply pools_without_id. intros x ->%list_elem_of_singleton Hx.
      apply list_elem_of_In, in_concat in Hx as (pool & Hp & Hx).
      apply list_elem_of_In in Hx.
      apply list_elem_of_In, list_elem_of_fmap in Hp as ([a pool'] & -> & Hp). cbn in Hx.
      rewrite (Hagree a pool' uid) in Hpw; [discriminate | | exact Hx].
      by apply dict_get_NoDup. }
    split; [apply counts_lowered_refl |]. do 2 (split; [reflexivity |]). split.
    + by intros x ->%list_elem_of_singleton.
    + intros x ->%list_elem_of_singleton Hsome. rewrite Hpw in Hsome.
      by destruct Hsome. }
  assert (Hpooled : forall a pool,
    dict_get a (potential_worker_uids_by_age s) = Some pool -> NoDup pool).
  { intros a pool Hpool. apply dict_get_elem in Hpool.
    apply (NoDup_concat_elem _ pool Hpools).
    apply list_elem_of_fmap. by exists (a, pool). }
  unfold remove_facility_resident in H.
  apply bind_Ok in H as (aindex & s1 & Hage & H).
  apply lift_opt_Ok in Hage as [Hage ->].
  apply bind_Ok in H as (potential & s1 & Hp & H).
  inversion Hp; subst potential s1; clear Hp.
  destruct (dict_get uid (potential_worker_uids s)) as [a0 |] eqn:Hpw.
  - apply bind_Ok in H as (pools & s1 & Hp & H).
    inversion Hp; subst pools s1; clear Hp.
    apply bind_Ok in H as (pool & s1 & Hpool & H).
    apply lift_opt_Ok in Hpool as [Hpool ->].
    apply bind_Ok in H as (pool1 & s1 & Hrem & H).
    apply lift_opt_Ok in Hrem as [Hrem ->].
    apply list_remove_spec in Hrem as [Hin Hfilter].
    rewrite (Hfilter (Hpooled _ _ Hpool)) in H. clear Hfilter.
    apply bind_Ok in H as (u1 & s1 & Hm1 & H). inversion Hm1; subst u1 s1; clear Hm1.
    apply bind_Ok in H as (u2 & s2 & Hm2 & H). inversion Hm2; subst u2 s2; clear Hm2.
    apply bind_Ok in H as (c & s3 & Hc & H).
    apply count_of_Ok in Hc as [-> Hc]. cbn in Hc.
    destruct (0 <? c)%Z eqn:Epos.
    + apply decrement_count_Ok in H as (c' & Hc' & ->). cbn in Hc'.
      rewrite Hc in Hc'. injection Hc' as <-. apply Z.ltb_lt in Epos.
      apply (Hresult aindex pool); try reflexivity; try assumption.
      cbn. by apply counts_lowered_decrement.
    + inversion H; subst. apply (Hresult aindex pool); try reflexivity; try assumption.
      apply counts_lowered_refl.
  - inversion H; subst. apply Hnone; eauto.
Qed.

Lemma remove_residents_of_facility_Ok age_by_uid_dic fc s u s' :
  pools_agree s ->
  for_each fc (remove_facility_resident age_by_uid_dic) s = (Ok u, s') ->
  residents_removed age_by_uid_dic fc s s'.
Proof.
  revert s. induction fc as [| uid fc IH]; intros s Hagree H; cbn in H; monad_inv.
  - apply residents_removed_nil.
  - match goal with H : remove_facility_resident _ _ _ = _ |- _ =>
      apply remove_facility_resident_Ok in H as Hone; [| exact Hagree] end.
    change (uid :: fc) with ([uid] ++ fc).
    eapply residents_removed_app; [exact Hagree | exact Hone |].
    apply IH; [| exact H]. by eapply residents_removed_agree.
Qed.

Lemma remove_facility_residents_Ok age_by_uid_dic facilities s u s' :
  pools_agree s ->
  remove_facility_residents age_by_uid_dic facilities s = (Ok u, s') ->
  residents_removed age_by_uid_dic (concat facilities) s s'.
Proof.
  unfold remove_facility_residents.
  revert s. induction facilities as [| fc facilities IH]; intros s Hagree H;
    cbn in H; monad_inv.
  - apply residents_removed_nil.
  - match goal with H : for_each fc _ _ = _ |- _ =>
      apply remove_residents_of_facility_Ok in H as Hone; [| exact Hagree] end.
    cbn [concat]. eapply residents_removed_app; [exact Hagree | exact Hone |].
    apply IH; [| exact H]. by eapply residents_removed_agree.
Qed.

(** X11.  When the pools agree with [potential_worker_uids] and the loop of
    lines 252-260 of [Pop.generate] returns, no resident of a facility is a
    potential worker or pooled any more, and nothing else has changed in the
    two dictionaries: everybody else is a potential worker as before, and
    every pool is the pool it was without the residents, in the same order.
    No count went up, and none fell below zero.  The loop returns only if
    every resident has an age in [age_by_uid_dic] and every resident who was a
    potential worker was in the pool of that age. *)
Theorem facility_residents_leave_the_pools age_by_uid_dic facilities s u s' :
  pools_agree s ->
  remove_facility_residents age_by_uid_dic facilities s = (Ok u, s') ->
  let resident uid := uid ∈ concat facilities in
  (forall uid, dict_get uid (potential_worker_uids s')
     = if decide (resident uid) then None else dict_get uid (potential_worker_uids s)) /\
  sublist (potential_worker_uids s') (potential_worker_uids s) /\
  dict_keys (potential_worker_uids_by_age s')
    = dict_keys (potential_worker_uids_by_age s) /\
  (forall a pool, dict_get a (potential_worker_uids_by_age s) = Some pool ->
     dict_get a (potential_worker_uids_by_age s')
       = Some (filter (fun uid => ~ resident uid) pool)) /\
  counts_lowered (workers_by_age_to_assign_count s) (workers_by_age_to_assign_count s') /\
  pools_agree s' /\
  (forall uid, resident uid ->
     exists a, dict_get uid age_by_uid_dic = Some a /\
       (is_Some (dict_get uid (potential_worker_uids s)) ->
        exists pool, dict_get a (potential_worker_uids_by_age s) = Some pool /\
                     uid ∈ pool)).
Proof.
  intros Hagree Hrun resident.
  pose proof (remove_facility_residents_Ok _ _ _ _ _ Hagree Hrun) as Hrem.
  pose proof (residents_removed_agree _ _ _ _ Hagree Hrem) as Hagree'.
  destruct Hrem as (Hpw & Hba & Hc & _ & _ & Hage & Hin).
  destruct Hagree as (Hnd & _).
  destruct (pop_all_spec (concat facilities) (potential_worker_uids s) Hnd)
    as (Hsub & _ & Hgone & Hkept).
  cbn zeta in Hsub, Hgone, Hkept. rewrite <- Hpw in Hsub, Hgone, Hkept.
  split; [| split; [exact Hsub | split; [| split; [| split; [exact Hc | split]]]]].
  - intros uid. destruct (decide (resident uid)) as [Hr | Hr]; [by apply Hgone |].
    by apply Hkept.
  - by rewrite Hba, dict_keys_pools_without.
  - intros a pool Hpool. by rewrite Hba, dict_get_pools_without, Hpool.
  - exact Hagree'.
  - intros uid Hr. destruct (Hage uid Hr) as [a Ha]. exists a. split; [exact Ha |].
    intros Hsome. destruct (Hin uid Hr Hsome) as (a' & pool & Ha' & Hpool & Hu).
    rewrite Ha in Ha'. injection Ha' as <-. by exists pool.
Qed.

(** ** From the potential workers to the workplaces *)

Lemma pools_agree_intro (s : wstate) :
  NoDup (dict_keys (potential_worker_uids s)) ->
  NoDup (dict_keys (potential_worker_uids_by_age s)) ->
  NoDup (pool_uids s) ->
  Forall (fun kv => Forall (fun uid => dict_get uid (potential_worker_uids s) = Some kv.1)
                      kv.2) (potential_worker_uids_by_age s) ->
  pools_agree s.
Proof.
  intros H1 H2 H3 H4. do 3 (split; [assumption |]).
  intros a pool uid Hpool Hin. apply dict_get_elem in Hpool.
  rewrite Forall_forall in H4. specialize (H4 _ Hpool). cbn in H4.
  rewrite Forall_forall in H4. by apply H4.
Qed.

Lemma facility_residents_leave_the_pools_witness :
  let s' := (remove_facility_residents ex_population_ages [[5]] ex_pooled_workers).2 in
  dict_get 30 (potential_worker_uids_by_age ex_pooled_workers) = Some [5; 1] /\
  dict_get 30 (potential_worker_uids_by_age s') = Some [1] /\
  dict_get 5 (potential_worker_uids s') = None.
Proof.
  intros s'. split; [reflexivity |].
  destruct (facility_residents_leave_the_pools ex_population_ages [[5]]
              ex_pooled_workers tt s') as (Hpw & _ & _ & Hpools & _).
  - apply pools_agree_intro; apply (bool_decide_unpack _); vm_compute; reflexivity.
  - vm_compute. reflexivity.
  - split.
    + rewrite (Hpools 30 [5; 1] eq_refl). reflexivity.
    + rewrite (Hpw 5). reflexivity.
Defined.

Lemma pools_shuffled_get_inv by_age by_age' a pool' :
  pools_shuffled by_age by_age' -> dict_get a by_age' = Some pool' ->
  exists pool, dict_get a by_age = Some pool /\ pool ≡ₚ pool'.
Proof.
  induction 1 as [| [k l] [k1 l1] d d1 [Hk Hl] Hrest IH]; cbn; [discriminate |].
  cbn in Hk, Hl. subst k1. destruct (decide (k = a)); [| exact IH].
  intros [= <-]. eauto.
Qed.

(** What [get_uids_potential_workers] returns is as the later stages need
    it: the pools agree with the potential workers. *)
Lemma get_uids_potential_workers_agree {R : Type} (syn_school_uids : list (list nat))
    (employment_rates : list (nat * R)) (age_by_uid_dic : list (nat * nat)) (g : rng)
    pw by_age left_count g' counts W gen :
  NoDup (dict_keys age_by_uid_dic) ->
  get_uids_potential_workers syn_school_uids employment_rates age_by_uid_dic g
    = (Ok (pw, by_age, left_count), g') ->
  pools_agree (WState pw by_age counts W gen) /\
  dict_keys by_age = working_ages /\
  (forall uid a,
     dict_get uid pw = Some a <->
     dict_get uid age_by_uid_dic = Some a /\ ~ is_student syn_school_uids uid /\
     is_Some (dict_get a employment_rates)).
Proof.
  intros Hnd Hrun.
  destruct (get_uids_potential_workers_run syn_school_uids employment_rates
              age_by_uid_dic g Hnd)
    as (pw0 & by0 & left0 & g0 & Hrun0 & Hsub & Hspec & Hsh & Hleft).
  rewrite Hrun in Hrun0. injection Hrun0 as <- <- <- <-.
  assert (Hndpw : NoDup (dict_keys pw)).
  { eapply sublist_NoDup; [exact Hnd | by apply dict_keys_sublist]. }
  assert (Hages : NoDup working_ages).
  { rewrite working_ages_range. apply NoDup_seq. }
  assert (Hkeys : dict_keys by_age = working_ages).
  { by rewrite (pools_shuffled_keys _ _ Hsh), dict_keys_fmap_const. }
  split; [| split; [exact Hkeys | exact Hspec]].
  split; [exact Hndpw |].
  split; [cbn [potential_worker_uids_by_age]; by rewrite Hkeys |]. split.
  - unfold pool_uids. cbn [potential_worker_uids_by_age].
    rewrite (pools_shuffled_concat _ _ Hsh). unfold dict_values.
    rewrite <- list_fmap_compose. by apply pooled_by_age_NoDup.
  - cbn. intros a pool uid Hpool Hin.
    destruct (pools_shuffled_get_inv _ _ _ _ Hsh Hpool) as (pool0 & Hpool0 & Hperm).
    rewrite dict_get_fmap_const in Hpool0.
    destruct (decide (a ∈ working_ages)); [| discriminate].
    injection Hpool0 as <-. rewrite <- Hperm in Hin.
    apply elem_of_uids_of_age in Hin. by apply dict_get_NoDup.
Qed.

(** X12.  When [get_uids_potential_workers], the removal of the residents
    of the facilities (lines 252-260 of [Pop.generate]) and
    [assign_rest_of_workers] follow one another, whatever the counts and the
    matrix are: nobody is a member of two workplaces or twice of one, and
    every member of a workplace is listed in [syn_workplaces] with the age
    that [age_by_uid_dic] gives them, which is between 15 and 100 and has an
    employment rate; no member is a student, and none lives in a facility. *)
Theorem workplace_members_are_potential_workers {R : Type}
    (syn_school_uids : list (list nat)) (employment_rates : list (nat * R))
    (age_by_uid_dic : list (nat * nat)) (g : rng) pw by_age left_count g1
    (facilities_by_uids : list (list nat)) counts W u s1
    fast_choice fuel age_brackets age_by_brackets_dic sizes ws us s' :
  NoDup (dict_keys age_by_uid_dic) ->
  get_uids_potential_workers syn_school_uids employment_rates age_by_uid_dic g
    = (Ok (pw, by_age, left_count), g1) ->
  remove_facility_residents age_by_uid_dic facilities_by_uids
    (WState pw by_age counts W g1) = (Ok u, s1) ->
  assign_rest_of_workers fast_choice fuel age_brackets age_by_brackets_dic sizes s1
    = (Ok (ws, us), s') ->
  NoDup (concat us) /\
  Forall2 (Forall2 (fun a uid =>
     dict_get uid age_by_uid_dic = Some a /\ 15 <= a <= 100 /\
     is_Some (dict_get a employment_rates) /\
     ~ is_student syn_school_uids uid /\
     uid ∉ concat facilities_by_uids)) ws us.
Proof.
  intros Hnd Hget Hrem Hassign.
  destruct (get_uids_potential_workers_agree _ _ _ _ _ _ _ _ counts W g1 Hnd Hget)
    as (Hagree & Hkeys & Hspec).
  pose proof (remove_facility_residents_Ok _ _ _ _ _ Hagree Hrem) as Hremoved.
  pose proof (residents_removed_agree _ _ _ _ Hagree Hremoved)
    as (Hnd1 & Hkeys1 & Hpools1 & Hagree1).
  destruct Hremoved as (Hpw1 & Hba1 & _).
  cbn [potential_worker_uids potential_worker_uids_by_age] in Hpw1, Hba1.
  pose proof (assign_rest_of_workers_Ok _ _ _ _ _ _ _ _ _ Hassign) as (Hperm & Hlens & _).
  apply assign_rest_of_workers_moved in Hassign as ((Htake & _) & _).
  apply take_from_pools_pooled in Htake.
  split.
  { rewrite Hperm in Hpools1. by apply NoDup_app in Hpools1 as (? & _). }
  apply Forall2_concat_inv; [exact Hlens |].
  eapply Forall2_impl; [exact Htake |]. cbn beta.
  intros a uid (pool & Hpool & Hin).
  pose proof (Hagree1 a pool uid Hpool Hin) as Hpw.
  assert (Hres : uid ∉ concat facilities_by_uids).
  { intros Hres. rewrite Hpw1 in Hpw.
    destruct (pop_all_spec (concat facilities_by_uids) pw) as (_ & _ & Hgone & _).
    { by destruct Hagree. }
    cbn zeta in Hgone. rewrite (Hgone uid Hres) in Hpw. discriminate. }
  rewrite Hpw1, foldl_pop_get in Hpw by exact Hres.
  apply Hspec in Hpw as (Hage & Hstudent & Hrate).
  split; [exact Hage |]. split.
  { apply elem_of_working_ages. rewrite <- Hkeys.
    rewrite <- (dict_keys_pools_without (concat facilities_by_uids)), <- Hba1.
    by eapply dict_get_key. }
  auto.
Qed.

Lemma workplace_members_are_potential_workers_witness :
  NoDup (concat [[1; 2]]) /\
  Forall2 (Forall2 (fun a uid => dict_get uid ex_population_ages = Some a))
    [[30; 40]] [[1; 2]].
Proof.
  destruct (workplace_members_are_potential_workers [[3]] ex_employment_rates
              ex_population_ages [3; 1; 4] ex_potential_workers ex_pools
              ex_left_count [] [[5]] ex_left_count
              (Matrix 2 [[1%Q; 1%Q]; [1%Q; 1%Q]]) tt
              (remove_facility_residents ex_population_ages [[5]] ex_pooled_workers).2
              fast_choice_weighted 5 ex_brackets_30_40 ex_age_to_brackets_30_40
              [2; 2]%Z [[30; 40]] [[1; 2]]
              (assign_rest_of_workers fast_choice_weighted 5 ex_brackets_30_40
                 ex_age_to_brackets_30_40 [2; 2]%Z
                 (remove_facility_residents ex_population_ages [[5]]
                    ex_pooled_workers).2).2)
    as (Hnd & Hall).
  - apply NoDup_ListNoDup. vm_compute. repeat constructor; cbn; intuition lia.
  - vm_compute. reflexivity.
  - vm_compute. reflexivity.
  - vm_compute. reflexivity.
  - split; [exact Hnd |].
    eapply Forall2_impl; [exact Hall |]. intros w u Hwu.
    eapply Forall2_impl; [exact Hwu |]. by intros a uid (Hage & _).
Defined.

(** ** [create_reduced_contacts_with_group_types]: what the graph guarantees *)

Lemma fold_m_steps {St A B : Type} (I : list A -> B -> St -> Prop) (xs : list A)
    (body : B -> A -> M St B) :
  (forall visited x b s b' s',
     x ∈ xs -> I visited b s -> body b x s = (Ok b', s') -> I (visited ++ [x]) b' s') ->
  forall b s b' s', I [] b s -> fold_m body xs b s = (Ok b', s') -> I xs b' s'.
Proof.
  intros Hbody.
  assert (Hgen : forall ys visited b s b' s',
            (forall y, y ∈ ys -> y ∈ xs) -> I visited b s ->
            fold_m body ys b s = (Ok b', s') -> I (visited ++ ys) b' s').
  { induction ys as [| y ys IH]; intros visited b s b' s' Hin HI Hrun; cbn in Hrun.
    - monad_inv. by rewrite app_nil_r.
    - monad_inv. rewrite (cons_middle y visited ys), app_assoc.
      eapply IH; [| | exact Hrun].
      + intros z Hz. apply Hin. by apply list_elem_of_further.
      + eapply Hbody; [apply Hin, list_elem_of_here | exact HI | exact Hm]. }
  intros b s b' s' HI Hrun. exact (Hgen xs [] b s b' s' (fun _ H => H) HI Hrun).
Qed.

Lemma edge_ends (i j : nat) : edge i j = (Nat.min i j, Nat.max i j).
Proof.
  unfold edge. destruct (i <=? j) eqn:E;
    [apply Nat.leb_le in E | apply Nat.leb_gt in E]; f_equal; lia.
Qed.

Lemma list_remove_first_subseteq (x y : nat) (l : list nat) :
  y ∈ list_remove_first x l -> y ∈ l.
Proof.
  induction l as [| z l IH]; cbn; [done |].
  destruct (decide (z = x)); [by apply list_elem_of_further |].
  intros [-> | H]%elem_of_cons; [apply list_elem_of_here |].
  by apply list_elem_of_further, IH.
Qed.

(** Lines 316-326 cut edges inside group 1 only. *)
Lemma cut_surplus_edges_cross (n n_1 : nat) (d : Z) (G : gset (nat * nat)) (i : nat)
    (g : rng) G' g' :
  i < n_1 ->
  cut_surplus_edges n (seq 0 n_1) d G i g = (Ok G', g') ->
  forall a b, (a, b) ∈ G -> n_1 <= b -> (a, b) ∈ G'.
Proof.
  intros Hi H. unfold cut_surplus_edges in H.
  destruct (d <? _)%Z; [| by monad_inv]. monad_inv.
  match goal with H : repeat_m _ _ _ _ = (Ok ?x, _) |- _ => destruct x as [Gk lk] end.
  cbn [fst].
  pose (I := fun (k : nat) (locals : gset (nat * nat) * list nat) (_ : rng) =>
    (forall j, j ∈ locals.2 -> j < n_1) /\
    (forall a b, (a, b) ∈ G -> n_1 <= b -> (a, b) ∈ locals.1)).
  assert (HI : I (Z.to_nat (Z.of_nat (length (neighbors_in n G (seq 0 n_1) i)) - d))
                 (Gk, lk) g').
  { eapply (repeat_m_invariant I); [| | exact Hm].
    - intros k [G1 l1] t [G2 l2] t' _ [Hl HG] Hstep. cbn in Hl, HG.
      unfold cut_one_edge in Hstep. monad_inv.
      match goal with H : np_choice _ _ = _ |- _ => apply np_choice_Ok in H as Hj end.
      match goal with H : remove_edge _ _ _ _ = _ |- _ =>
        apply remove_edge_Ok in H as [-> ->] end.
      split; cbn.
      + intros j' Hj'. apply Hl. by eapply list_remove_first_subseteq.
      + intros e1 e2 Hab Hb. apply elem_of_difference. split; [by apply HG |].
        intros Heq%elem_of_singleton. rewrite edge_ends in Heq.
        injection Heq as -> ->. specialize (Hl _ Hj). lia.
    - split; cbn; [| auto]. intros j Hj.
      apply neighbors_in_spec in Hj as (Hj & _). apply list_elem_of_In, in_seq in Hj. lia. }
  exact (proj2 HI).
Qed.

(** Lines 348-354 give a node of group 1 a neighbour in group 2 and remove
    nothing. *)
Lemma add_cross_edge_Ok (n_1 n_2 : nat) (G : gset (nat * nat)) (i : nat) (g : rng)
    G' g' :
  i < n_1 ->
  add_cross_edge (n_1 + n_2) (seq n_1 n_2) G i g = (Ok G', g') ->
  G ⊆ G' /\ cross_linked n_1 n_2 G' i.
Proof.
  intros Hi H. unfold add_cross_edge in H.
  destruct (length _ =? 0) eqn:E.
  - monad_inv.
    match goal with H : np_choice _ _ = (Ok ?x, _) |- _ =>
      rename x into j; apply np_choice_Ok in H as Hj end.
    apply list_elem_of_In, in_seq in Hj. unfold add_edge.
    rewrite edge_lt by lia. split; [set_solver |]. exists j. split; [lia | set_solver].
  - monad_inv. split; [done |]. apply Nat.eqb_neq in E.
    destruct (neighbors_in (n_1 + n_2) G' (seq n_1 n_2) i) as [| j l] eqn:El;
      [done |].
    assert (Hj : j ∈ neighbors_in (n_1 + n_2) G' (seq n_1 n_2) i)
      by (rewrite El; apply list_elem_of_here).
    apply neighbors_in_spec in Hj as (Hj & _ & He).
    apply list_elem_of_In, in_seq in Hj. rewrite edge_lt in He by lia.
    exists j. split; [lia | exact He].
Qed.

(** Lines 359-373 do the same, and remove an edge inside group 2 at most. *)
Lemma swap_cross_edge_Ok (n_1 n_2 : nat) (G : gset (nat * nat)) (i : nat) (g : rng)
    G' g' :
  i < n_1 ->
  swap_cross_edge (n_1 + n_2) (seq n_1 n_2) G i g = (Ok G', g') ->
  (forall a b, (a, b) ∈ G -> a < n_1 -> (a, b) ∈ G') /\ cross_linked n_1 n_2 G' i.
Proof.
  intros Hi H. unfold swap_cross_edge in H.
  destruct (length _ =? 0) eqn:E.
  - monad_inv.
    match goal with H : np_choice (seq _ _) _ = (Ok ?x, _) |- _ =>
      rename x into j; apply np_choice_Ok in H as Hj end.
    apply list_elem_of_In, in_seq in Hj.
    destruct (0 <? length _) eqn:El.
    + monad_inv.
      match goal with H : np_choice _ _ = (Ok ?x, _) |- _ =>
        rename x into cut; apply np_choice_Ok in H as Hcut end.
      apply neighbors_in_spec in Hcut as (Hcut & _ & _).
      apply list_elem_of_In, in_seq in Hcut.
      match goal with H : remove_edge _ _ _ _ = _ |- _ =>
        apply remove_edge_Ok in H as [-> ->] end.
      unfold add_edge. rewrite (edge_lt i j) by lia.
      assert (Hkeep : forall e1 e2, e1 < n_1 -> (e1, e2) <> edge j cut).
      { intros e1 e2 Ha Heq. rewrite edge_ends in Heq. injection Heq as -> ->. lia. }
      split.
      * intros e1 e2 Hab Ha. apply elem_of_difference.
        split; [set_solver |]. intros Heq%elem_of_singleton. by apply (Hkeep e1 e2).
      * exists j. split; [lia |]. apply elem_of_difference.
        split; [set_solver |]. intros Heq%elem_of_singleton. by apply (Hkeep i j).
    + monad_inv. unfold add_edge. rewrite (edge_lt i j) by lia.
      split; [set_solver |]. exists j. split; [lia | set_solver].
  - monad_inv. split; [done |]. apply Nat.eqb_neq in E.
    destruct (neighbors_in (n_1 + n_2) G' (seq n_1 n_2) i) as [| j l] eqn:El;
      [done |].
    assert (Hj : j ∈ neighbors_in (n_1 + n_2) G' (seq n_1 n_2) i)
      by (rewrite El; apply list_elem_of_here).
    apply neighbors_in_spec in Hj as (Hj & _ & He).
    apply list_elem_of_In, in_seq in Hj. rewrite edge_lt in He by lia.
    exists j. split; [lia | exact He].
Qed.

(** In the graph of lines 308-373 every node of group 1 has a neighbour in
    group 2, on each of the three paths. *)
Lemma reduced_graph_cross (n_1 n_2 : nat) (d : Z) (pm : option (list (list Q)))
    (g : rng) G g' :
  1 <= n_2 ->
  reduced_graph n_1 n_2 d pm g = (Ok G, g') ->
  forall i, i < n_1 -> cross_linked n_1 n_2 G i.
Proof.
  intros Hn H. unfold reduced_graph in H.
  destruct (Z.of_nat (n_1 + n_2) <=? d)%Z.
  { monad_inv. intros i Hi. exists n_1. split; [lia |]. apply complete_graph_spec. lia. }
  destruct (n_2 <? 2).
  { intros i Hi.
    assert (HI : forall a b, (a, b) ∈ complete_graph (n_1 + n_2) -> n_1 <= b -> (a, b) ∈ G).
    { eapply (fold_m_invariant
                (fun (G1 : gset (nat * nat)) (_ : rng) =>
                   forall a b, (a, b) ∈ complete_graph (n_1 + n_2) -> n_1 <= b ->
                     (a, b) ∈ G1)); [| | exact H]; [| auto].
      intros x G1 t G2 t' Hx HG Hstep e1 e2 Hab Hb.
      apply list_elem_of_In, in_seq in Hx.
      eapply cut_surplus_edges_cross; [| exact Hstep | by apply HG | exact Hb]. lia. }
    exists n_1. split; [lia |]. apply HI; [| lia]. apply complete_graph_spec. lia. }
  cbv zeta in H. monad_inv.
  match goal with H : stochastic_block_model _ _ _ = (Ok ?x, _) |- _ =>
    rename x into G0; clear H end.
  pose (I := fun (visited : list nat) (G1 : gset (nat * nat)) (_ : rng) =>
    forall i, i ∈ visited -> i < n_1 /\ cross_linked n_1 n_2 G1 i).
  assert (HI : I (seq 0 n_1) G g').
  { destruct (length _ =? 0).
    - eapply (fold_m_steps I); [| | exact H]; [| by intros i ?%elem_of_nil].
      intros visited x G1 t G2 t' Hx HG Hstep i Hin.
      apply list_elem_of_In, in_seq in Hx.
      apply add_cross_edge_Ok in Hstep as [Hsub Hlinked]; [| lia].
      apply elem_of_app in Hin as [Hin | ->%list_elem_of_singleton].
      + destruct (HG i Hin) as [Hi (j & Hj & He)]. split; [exact Hi |].
        exists j. split; [exact Hj | set_solver].
      + split; [lia | exact Hlinked].
    - eapply (fold_m_steps I); [| | exact H]; [| by intros i ?%elem_of_nil].
      intros visited x G1 t G2 t' Hx HG Hstep i Hin.
      apply list_elem_of_In, in_seq in Hx.
      apply swap_cross_edge_Ok in Hstep as [Hkeep Hlinked]; [| lia].
      apply elem_of_app in Hin as [Hin | ->%list_elem_of_singleton].
      + destruct (HG i Hin) as [Hi (j & Hj & He)]. split; [exact Hi |].
        exists j. split; [exact Hj | by apply Hkeep].
      + split; [lia | exact Hlinked]. }
  intros i Hi. apply HI. apply list_elem_of_In, in_seq. lia.
Qed.

(** X13.  Whenever [create_reduced_contacts_with_group_types] returns, every
    member of group 1 has a contact in group 2 for the setting, and is a
    contact of that member of group 2 in turn: on the path of the complete
    graph, on the path that cuts edges for a lone member of group 2, and on
    the two paths of the stochastic block model.  The argument
    [force_cross_edges] makes no difference. *)
Theorem group_1_members_meet_group_2 group_1 group_2 setting d pm fce s u s' :
  create_reduced_contacts_with_group_types group_1 group_2 setting d pm fce s
    = (Ok u, s') ->
  forall uid, uid ∈ group_1 ->
    exists v, v ∈ group_2 /\
      v ∈ contact_set (popdict s') setting uid /\
      uid ∈ contact_set (popdict s') setting v.
Proof.
  intros Hrun uid Huid.
  apply create_reduced_Ok in Hrun as (_ & H2 & _ & G & g' & Hgraph & _ & Hloop).
  apply list_elem_of_lookup_1 in Huid as [i Hi].
  pose proof (lookup_lt_Some _ _ _ Hi) as Hlt.
  assert (Hn2 : 1 <= length group_2) by (destruct group_2; [done | cbn; lia]).
  destruct (reduced_graph_cross _ _ _ _ _ _ _ Hn2 Hgraph i Hlt) as (j & Hj & He).
  destruct (lookup_lt_is_Some_2 group_2 (j - length group_1)) as [v Hv]; [lia |].
  exists v. split; [by eapply list_elem_of_lookup_2 |].
  eapply (edge_loop_joins _ _ _ _ _ _ i j uid v Hloop).
  - by apply elem_of_elements.
  - by apply lookup_app_l_Some.
  - rewrite lookup_app_r by lia. exact Hv.
Qed.

Lemma group_1_members_meet_group_2_witness :
  exists s',
    create_reduced_contacts_with_group_types [1; 2] [3] "W" 2 None false
      (ex_cstate [1; 2; 3] ex_stream) = (Ok tt, s') /\
    3 ∈ contact_set (popdict s') "W" 1 /\ 3 ∈ contact_set (popdict s') "W" 2.
Proof.
  destruct (create_reduced_returns [1; 2] [3] "W" 2%Z None false
              (ex_cstate [1; 2; 3] ex_stream)) as (s' & Hrun);
    [done | done | lia | repeat constructor; by eexists | exact I |].
  exists s'. split; [exact Hrun |].
  pose proof (group_1_members_meet_group_2 _ _ _ _ _ _ _ _ _ Hrun) as Hmeet.
  split.
  - destruct (Hmeet 1) as (v & Hv & Hin & _); [set_solver |].
    apply list_elem_of_singleton in Hv as ->. exact Hin.
  - destruct (Hmeet 2) as (v & Hv & Hin & _); [set_solver |].
    apply list_elem_of_singleton in Hv as ->. exact Hin.
Defined.

(** ** [create_reduced_contacts_with_group_types]: what it leaves alone *)

Lemma edge_loop_symmetric group setting es s u s' :
  for_each es (add_edge_contacts group setting) s = (Ok u, s') ->
  symmetric_layer (popdict s) setting -> symmetric_layer (popdict s') setting.
Proof.
  intros Hrun Hsym.
  apply (for_each_invariant (fun t => symmetric_layer (popdict t) setting)
           es (add_edge_contacts group setting)) with (s := s) (u := u);
    [| exact Hsym | exact Hrun].
  intros e t w t' _ HI Hbody x y.
  apply add_edge_contacts_Ok in Hbody as (i & j & pd1 & _ & _ & H1 & H2 & _).
  rewrite !(adds_contact_contact_set _ _ _ _ _ setting _ H2).
  rewrite !(adds_contact_contact_set _ _ _ _ _ setting _ H1).
  specialize (HI x y).
  repeat destruct (decide _); set_solver.
Qed.

(** X14.  [create_reduced_contacts_with_group_types] changes contact sets of
    one layer and of the two groups only: the dictionary keeps its people,
    the contact sets of every other layer are as before, no contact of the
    setting is lost, and a contact that is new joins two members of the
    groups who stand at different positions of [group_1 + group_2].  A
    contact relation of the setting that was symmetric is symmetric
    afterwards. *)
Theorem reduced_contacts_stay_within_the_groups group_1 group_2 setting d pm fce
    s u s' :
  create_reduced_contacts_with_group_types group_1 group_2 setting d pm fce s
    = (Ok u, s') ->
  dom (popdict s') = dom (popdict s) /\
  (forall layer uid, layer <> setting ->
     contact_set (popdict s') layer uid = contact_set (popdict s) layer uid) /\
  (forall uid,
     contact_set (popdict s) setting uid ⊆ contact_set (popdict s') setting uid) /\
  (forall uid v, v ∈ contact_set (popdict s') setting uid ->
     v ∈ contact_set (popdict s) setting uid \/
     exists a b, a <> b /\ (group_1 ++ group_2) !! a = Some uid /\
                 (group_1 ++ group_2) !! b = Some v) /\
  (symmetric_layer (popdict s) setting -> symmetric_layer (popdict s') setting).
Proof.
  intros Hrun.
  split; [by eapply create_reduced_dom |]. split; [| split; [| split]].
  - intros layer uid Hne. apply set_eq. intros v. split.
    + apply same_layer_contact_set. by eapply create_reduced_same_layer.
    + by apply (create_reduced_mono _ _ _ _ _ _ _ _ _ layer uid Hrun).
  - intros uid. by eapply create_reduced_mono.
  - intros uid v Hv.
    apply create_reduced_Ok in Hrun as (_ & _ & _ & G & g' & _ & Hwf & Hloop).
    destruct (edge_loop_upper _ _ _ _ _ _ setting uid v Hwf Hloop Hv) as [Hold | [_ Hnew]].
    + left. cbn in Hold. by rewrite setdefault_layer_contact_set in Hold.
    + by right.
  - intros Hsym.
    apply create_reduced_Ok in Hrun as (_ & _ & _ & G & g' & _ & _ & Hloop).
    eapply edge_loop_symmetric; [exact Hloop |]. cbn.
    intros x y. rewrite !setdefault_layer_contact_set. apply Hsym.
Qed.

Lemma reduced_contacts_stay_within_the_groups_witness :
  exists s',
    create_reduced_contacts_with_group_types [1; 2] [3] "W" 2 None false
      (ex_cstate [1; 2; 3; 4] ex_stream) = (Ok tt, s') /\
    dom (popdict s') = dom (ex_people [1; 2; 3; 4]) /\
    contact_set (popdict s') "H" 1 = contact_set (ex_people [1; 2; 3; 4]) "H" 1.
Proof.
  destruct (create_reduced_returns [1; 2] [3] "W" 2%Z None false
              (ex_cstate [1; 2; 3; 4] ex_stream)) as (s' & Hrun);
    [done | done | lia | repeat constructor; by eexists | exact I |].
  exists s'. split; [exact Hrun |].
  destruct (reduced_contacts_stay_within_the_groups _ _ _ _ _ _ _ _ _ Hrun)
    as (Hdom & Hother & _).
  split; [exact Hdom |]. by apply Hother.
Defined.

(** ** Loops that connect the members of a group with each other *)

Lemma contacts_are_transfer pd pd' layer uid c :
  contacts <$> pd' !! uid = contacts <$> pd !! uid ->
  contacts_are pd layer uid c -> contacts_are pd' layer uid c.
Proof.
  intros He (p & Hp & Hc). rewrite Hp in He.
  destruct (pd' !! uid) as [p' |] eqn:Hp'; [| discriminate He]. cbn in He.
  injection He as He. exists p'. split; [exact Hp' | by rewrite He].
Qed.

Lemma write_then_attrs_own uid layer c pd pd1 pd' :
  write_layer uid layer c pd pd1 -> same_contacts pd1 pd' ->
  contacts_are pd' layer uid c.
Proof.
  intros (p & Hp & ->) Hs. apply (contacts_are_transfer _ _ _ _ _ (Hs uid)).
  eexists. split; [apply lookup_insert_eq |]. cbn. apply lookup_insert_eq.
Qed.

Lemma write_then_attrs_other uid layer c pd pd1 pd' u :
  write_layer uid layer c pd pd1 -> same_contacts pd1 pd' -> u <> uid ->
  contacts <$> pd' !! u = contacts <$> pd !! u.
Proof.
  intros (p & Hp & ->) Hs Hne. rewrite (Hs u). by rewrite lookup_insert_ne.
Qed.

Lemma connects_nil layer X pd : connects layer [] X pd pd.
Proof. split; [by intros uid ?%elem_of_nil | done]. Qed.

(** A loop over the members of one group. *)
Lemma members_loop_connects (layer : string) (X : gset nat)
    (body : nat -> M cstate unit) (members : list nat) :
  (forall uid t u t', body uid t = (Ok u, t') ->
     exists pd1, write_layer uid layer (X ∖ {[uid]}) (popdict t) pd1 /\
                 same_contacts pd1 (popdict t')) ->
  forall s u s', for_each members body s = (Ok u, s') ->
    connects layer members X (popdict s) (popdict s').
Proof.
  intros Hbody. induction members as [| x members IH]; intros s u s' Hrun;
    cbn in Hrun; monad_inv; [apply connects_nil |].
  destruct (Hbody _ _ _ _ Hm) as (pd1 & Hw & Hs).
  destruct (IH _ _ _ Hrun) as [Hin Hout]. split.
  - intros uid Hu. destruct (decide (uid ∈ members)) as [Hmem | Hmem]; [by apply Hin |].
    apply elem_of_cons in Hu as [-> | Hu]; [| contradiction].
    apply (contacts_are_transfer _ _ _ _ _ (Hout x Hmem)).
    by eapply write_then_attrs_own.
  - intros w Hw'. apply not_elem_of_cons in Hw' as [Hne Hw'].
    rewrite (Hout w Hw'). by eapply write_then_attrs_other.
Qed.

Lemma connects_after_attrs layer members X pd0 pd pd' :
  same_contacts pd0 pd -> connects layer members X pd pd' ->
  connects layer members X pd0 pd'.
Proof.
  intros Hs [Hin Hout]. split; [exact Hin |].
  intros w Hw. by rewrite (Hout w Hw), (Hs w).
Qed.

(** A loop over groups: everybody who is in a group ends with the other
    members of one of their groups (the last one) as contacts, and the
    contact sets of the people who are in no group are not touched. *)
Lemma groups_loop_connects {A : Type} (layer : string) (members : A -> list nat)
    (X : A -> gset nat) (step : A -> M cstate unit) (items : list A) :
  (forall it t u t', it ∈ items -> step it t = (Ok u, t') ->
     connects layer (members it) (X it) (popdict t) (popdict t')) ->
  forall s u s', for_each items step s = (Ok u, s') ->
    (forall uid, Exists (fun it => uid ∈ members it) items ->
       exists it', it' ∈ items /\ uid ∈ members it' /\
         contacts_are (popdict s') layer uid (X it' ∖ {[uid]})) /\
    (forall w, Forall (fun it => w ∉ members it) items ->
       contacts <$> popdict s' !! w = contacts <$> popdict s !! w).
Proof.
  induction items as [| it items IH]; intros Hstep s u s' Hrun; cbn in Hrun; monad_inv.
  - split; [by intros uid ?%Exists_nil | done].
  - destruct (Hstep it _ _ _ (list_elem_of_here _ _) Hm) as [Hin Hout].
    destruct (IH (fun it' t u t' Hit => Hstep it' t u t' (list_elem_of_further _ _ _ Hit))
                _ _ _ Hrun) as [Hlater Hrest].
    split.
    + intros uid Hex.
      destruct (decide (Exists (fun it' => uid ∈ members it') items)) as [Hl | Hl].
      * destruct (Hlater uid Hl) as (it' & Hit' & Hu & Hc).
        exists it'. split; [by apply list_elem_of_further | by split].
      * apply Exists_cons in Hex as [Hu | Hex]; [| contradiction].
        exists it. split; [apply list_elem_of_here |]. split; [exact Hu |].
        apply not_Exists_Forall in Hl; [| intros it'; apply _].
        apply (contacts_are_transfer _ _ _ _ _ (Hrest uid Hl)). by apply Hin.
    + intros w [Hw Hall]%Forall_cons. by rewrite (Hrest w Hall), (Hout w Hw).
Qed.


Lemma Exists_enumerate {A : Type} (P : A -> Prop) (l : list A) :
  Exists (fun it : nat * A => P it.2) (enumerate l) <-> Exists P l.
Proof.
  rewrite !Exists_exists. split.
  - intros ([i x] & Hin & HP). apply enumerate_elem in Hin.
    exists x. split; [by eapply list_elem_of_lookup_2 | exact HP].
  - intros (x & Hin & HP). apply list_elem_of_lookup_1 in Hin as [i Hi].
    exists (i, x). split; [by apply enumerate_elem | exact HP].
Qed.

Lemma Forall_enumerate {A : Type} (P : A -> Prop) (l : list A) :
  Forall (fun it : nat * A => P it.2) (enumerate l) <-> Forall P l.
Proof.
  rewrite !Forall_forall. split.
  - intros H x Hin. apply list_elem_of_lookup_1 in Hin as [i Hi].
    apply (H (i, x)). by apply enumerate_elem.
  - intros H [i x] Hin. apply enumerate_elem in Hin. apply H.
    by eapply list_elem_of_lookup_2.
Qed.


(** Two lists of a list of lists without duplicates that share an element
    are the same list. *)
Lemma NoDup_concat_same {A : Type} (ls : list (list A)) (l1 l2 : list A) (x : A) :
  NoDup (concat ls) -> l1 ∈ ls -> l2 ∈ ls -> x ∈ l1 -> x ∈ l2 -> l1 = l2.
Proof.
  induction ls as [| l ls IH]; cbn; intros Hnd H1 H2 Hx1 Hx2;
    [by apply elem_of_nil in H1 |].
  apply NoDup_app in Hnd as (_ & Hdisj & Hnd).
  assert (Hlater : forall l', l' ∈ ls -> x ∈ l' -> x ∈ concat ls).
  { intros l' Hl' Hx. apply list_elem_of_In, in_concat. exists l'.
    split; by apply list_elem_of_In. }
  apply elem_of_cons in H1 as [-> | H1], H2 as [-> | H2].
  - reflexivity.
  - exfalso. apply (Hdisj x Hx1). by apply (Hlater l2).
  - exfalso. apply (Hdisj x Hx2). by apply (Hlater l1).
  - by apply IH.
Qed.

Lemma for_each_same_layer {A : Type} (layer : string) (xs : list A)
    (body : A -> M cstate unit) :
  (forall x s u s', x ∈ xs -> body x s = (Ok u, s') ->
     same_layer layer (popdict s) (popdict s')) ->
  forall s u s', for_each xs body s = (Ok u, s') ->
    same_layer layer (popdict s) (popdict s').
Proof.
  apply (for_each_kept (same_layer layer) (same_layer_refl layer)
           (same_layer_trans layer)).
Qed.

(** The schools leave the other layers alone when the functions of
    [schools.py] do. *)
Lemma schools_same_layer (layer0 : string)
    add_school_edges generate_random_contacts_across_school
    add_contacts_from_edgelist school_type_by_age
    age_by_uid_dic schools_by_uids teachers_by_uids non_teaching_staff_uids
    with_school_types mixing_dic s u s' :
  layer0 <> "S"%string ->
  (forall students ages teachers staff mixing,
     touches_school_layer_only (add_school_edges students ages teachers staff mixing)) ->
  (forall school g edges g',
     generate_random_contacts_across_school school g = (Ok edges, g') ->
     touches_school_layer_only (add_contacts_from_edgelist edges "S"%string)) ->
  for_each (enumerate schools_by_uids)
    (add_school add_school_edges generate_random_contacts_across_school
       add_contacts_from_edgelist school_type_by_age age_by_uid_dic
       teachers_by_uids non_teaching_staff_uids with_school_types mixing_dic)
    s = (Ok u, s') ->
  same_layer layer0 (popdict s) (popdict s').
Proof.
  intros HS Hedges Hlist. apply for_each_same_layer.
  intros x t v t' _.
  apply (add_school_kept (same_layer layer0) (same_layer_refl layer0)
           (same_layer_trans layer0)
           (fun pd pd' H => same_contacts_same_layer pd pd' layer0 H)
           add_school_edges generate_random_contacts_across_school
           add_contacts_from_edgelist school_type_by_age).
  - intros students ages teachers staff mixing t0 u0 t0' Ht.
    apply (Hedges _ _ _ _ _ t0 u0 t0' layer0 Ht HS).
  - intros school g edges g' t0 u0 t0' Hg Ht.
    apply (Hlist _ _ _ _ Hg t0 u0 t0' layer0 Ht HS).
Qed.


Lemma households_same_layer (layer0 : string) homes_by_uids s u s' :
  layer0 <> "H"%string ->
  for_each (enumerate homes_by_uids) add_household s = (Ok u, s') ->
  same_layer layer0 (popdict s) (popdict s').
Proof.
  intros HH. apply for_each_same_layer. intros x t v t' _.
  apply (add_household_kept (same_layer layer0) (fun l => l <> layer0) False
           (same_layer_refl layer0) (same_layer_trans layer0)
           (fun pd pd' H => same_contacts_same_layer pd pd' layer0 H)
           (write_layer_keeps_layer layer0) (create_reduced_keeps_layer layer0)).
  congruence.
Qed.

(** A person of [pd'] has the contact set that the person had in [pd]. *)
Lemma same_layer_contacts_are layer pd pd' uid p' c :
  same_layer layer pd pd' -> pd' !! uid = Some p' ->
  contacts_are pd layer uid c -> contacts p' !! layer = Some c.
Proof.
  intros Hs Hp' (p & Hp & Hc). destruct (Hs uid p' Hp') as (p0 & Hp0 & He).
  rewrite Hp in Hp0. injection Hp0 as <-. by rewrite He.
Qed.



(** ** Workplaces without a cap, and facilities without the reduction *)

Lemma connect_workplace_connects (codes : option (list Z)) nw workplace s u s' :
  for_each workplace (fun uid =>
    set_contacts uid "W" (list_to_set workplace) >>
    remove_contact uid "W" uid >>
    set_attr uid "wpid" (PyInt (Z.of_nat nw)) >>
    match codes with
    | None => ret tt
    | Some codes =>
        let* code := lift_opt IndexError (codes !! nw) in
        set_attr uid "wpindcode" (PyInt code)
    end) s = (Ok u, s') ->
  connects "W" workplace (list_to_set workplace) (popdict s) (popdict s').
Proof.
  apply members_loop_connects. intros uid t1 v1 t2 Hb.
  apply bind_Ok in Hb as (a1 & t3 & Hset & Hb).
  apply bind_Ok in Hb as (a2 & t4 & Hrem & Hb).
  assert (Hboth : (set_contacts uid "W" (list_to_set workplace)
                   >> remove_contact uid "W" uid) t1 = (Ok a2, t4)).
  { by rewrite (bind_Ok_intro _ _ _ _ _ Hset). }
  apply set_then_remove_Ok in Hboth as (_ & Hw & _).
  apply bind_Ok in Hb as (a3 & t5 & Hwpid & Hb).
  apply set_attr_same_contacts in Hwpid as [Hs1 _].
  apply industry_code_same_contacts in Hb.
  exists (popdict t4). split; [exact Hw |]. by eapply same_contacts_trans.
Qed.

Lemma workplaces_connect codes workplaces_by_uids s u s' :
  connect_workplaces codes workplaces_by_uids s = (Ok u, s') ->
  (forall uid, Exists (fun workplace => uid ∈ workplace) workplaces_by_uids ->
     exists workplace, workplace ∈ workplaces_by_uids /\ uid ∈ workplace /\
       contacts_are (popdict s') "W" uid (list_to_set workplace ∖ {[uid]})) /\
  (forall w, Forall (fun workplace => w ∉ workplace) workplaces_by_uids ->
     contacts <$> popdict s' !! w = contacts <$> popdict s !! w).
Proof.
  unfold connect_workplaces. intros Hrun.
  apply (groups_loop_connects "W" (fun it : nat * list nat => it.2)
           (fun it : nat * list nat => list_to_set it.2)) in Hrun as [Hin Hout];
    [| intros [nw workplace] t v t' _ Hb; by apply connect_workplace_connects in Hb].
  split.
  - intros uid Hex. destruct (Hin uid) as ([nw workplace] & Hit & Hu & Hc).
    { by apply (Exists_enumerate (fun workplace => uid ∈ workplace)). }
    apply enumerate_elem in Hit. exists workplace.
    split; [by eapply list_elem_of_lookup_2 | by split].
  - intros w Hall. apply Hout.
    by apply (Forall_enumerate (fun workplace => w ∉ workplace)).
Qed.

(** X16.  Called without [max_contacts], and whenever the functions of
    [schools.py] leave the layers other than the school layer as they are,
    [make_contacts_from_microstructure_objects] makes every workplace a
    clique: everybody listed in a workplace is a person of the dictionary
    returned whose workplace contacts are the other members of a workplace
    that lists them, which is their workplace when nobody is listed twice;
    and a person listed in no workplace has no workplace contact. *)
Theorem uncapped_workplaces_are_cliques
    add_school_edges generate_random_contacts_across_school
    add_contacts_from_edgelist school_type_by_age
    age_by_uid_dic homes_by_uids schools_by_uids teachers_by_uids
    non_teaching_staff_uids workplaces_by_uids facilities_by_uids
    facilities_staff_uids use_two_group_reduction average_LTCF_degree
    with_school_types school_mixing_type workplaces_by_industry_codes
    s pd' s' :
  (forall students ages teachers staff mixing,
     touches_school_layer_only (add_school_edges students ages teachers staff mixing)) ->
  (forall school g edges g',
     generate_random_contacts_across_school school g = (Ok edges, g') ->
     touches_school_layer_only (add_contacts_from_edgelist edges "S"%string)) ->
  make_contacts_from_microstructure_objects
    add_school_edges generate_random_contacts_across_school
    add_contacts_from_edgelist school_type_by_age
    age_by_uid_dic homes_by_uids schools_by_uids teachers_by_uids
    non_teaching_staff_uids workplaces_by_uids facilities_by_uids
    facilities_staff_uids use_two_group_reduction average_LTCF_degree
    with_school_types school_mixing_type workplaces_by_industry_codes None
    s = (Ok pd', s') ->
  (forall workplace uid, workplace ∈ workplaces_by_uids -> uid ∈ workplace ->
     (exists workplace', workplace' ∈ workplaces_by_uids /\ uid ∈ workplace' /\
        contacts_are pd' "W" uid (list_to_set workplace' ∖ {[uid]})) /\
     (NoDup (concat workplaces_by_uids) ->
        contacts_are pd' "W" uid (list_to_set workplace ∖ {[uid]}))) /\
  (forall uid p, pd' !! uid = Some p ->
     (forall workplace, workplace ∈ workplaces_by_uids -> uid ∉ workplace) ->
     contacts p !! "W"%string = Some ∅).
Proof.
  intros Hedges Hlist Hrun.
  apply make_contacts_Ok in Hrun
    as (mixing_dic & s1 & s2 & s3 & s4 & Hfresh & Hfac & Hhome & Hschool & Hwork & ->).
  assert (Hconnect : connect_workplaces workplaces_by_industry_codes workplaces_by_uids s4
                     = (Ok tt, s')) by exact Hwork.
  destruct (workplaces_connect _ _ _ _ _ Hconnect) as [Hin Hout].
  split.
  - intros workplace uid Hw Hu.
    destruct (Hin uid) as (workplace' & Hw' & Hu' & Hc).
    { apply Exists_exists. by exists workplace. }
    split; [by exists workplace' |].
    intros Hnd.
    by rewrite (NoDup_concat_same _ workplace workplace' uid Hnd Hw Hw' Hu Hu').
  - intros uid p Hp Hnone.
    assert (Hall : Forall (fun workplace => uid ∉ workplace) workplaces_by_uids)
      by (apply Forall_forall; exact Hnone).
    specialize (Hout uid Hall). rewrite Hp in Hout.
    destruct (popdict s4 !! uid) as [p4 |] eqn:Hp4; [| discriminate Hout].
    cbn in Hout. injection Hout as ->.
    assert (H14 : same_layer "W" (popdict s1) (popdict s4)).
    { eapply (assembly_same_layer "W" add_school_edges
                generate_random_contacts_across_school add_contacts_from_edgelist
                school_type_by_age); eauto; done. }
    destruct (H14 uid p4 Hp4) as (p1 & Hp1 & ->).
    destruct (Hfresh uid p1 Hp1) as (age & sex & ->).
    apply new_person_layer. set_solver.
Qed.

Lemma uncapped_workplaces_are_cliques_witness :
  exists pd' s',
    ex_make_contacts None (CState ∅ ex_stream) = (Ok pd', s') /\
    contacts_are pd' "W" 4 (list_to_set [1; 2; 3; 4; 5] ∖ {[4]}).
Proof.
  destruct (ex_make_contacts None (CState ∅ ex_stream)) as [[pd' | e |] s'] eqn:Hrun;
    try (vm_compute in Hrun; discriminate Hrun).
  exists pd', s'. split; [reflexivity |].
  unfold ex_make_contacts in Hrun.
  destruct (uncapped_workplaces_are_cliques
              draw_no_school_edge draw_no_random_contact add_contacts_edge_by_edge
              no_school_type _ _ _ _ _ _ _ _ _ _ _ _ _ _ _ _
              ltac:(intros students ages teachers staff mixing t u t' layer Ht _;
                    apply draw_no_school_edge_popdict in Ht as ->;
                    apply same_layer_refl)
              ltac:(intros school g edges g' Hg t u t' layer Ht _;
                    apply (no_random_contact_edge_list _ _ _ _ _ _ _ Hg) in Ht as ->;
                    apply same_layer_refl)
              Hrun) as [Hin _].
  destruct (Hin [1; 2; 3; 4; 5] 4) as [_ Hexact];
    [apply list_elem_of_here
    | do 3 apply list_elem_of_further; apply list_elem_of_here |].
  apply Hexact. apply (bool_decide_unpack _). vm_compute. reflexivity.
Defined.

Lemma connects_app layer m1 m2 X pd pd1 pd2 :
  connects layer m1 X pd pd1 -> connects layer m2 X pd1 pd2 ->
  connects layer (m1 ++ m2) X pd pd2.
Proof.
  intros [Hin1 Hout1] [Hin2 Hout2]. split.
  - intros uid Hu. destruct (decide (uid ∈ m2)) as [H2 | H2]; [by apply Hin2 |].
    apply elem_of_app in Hu as [Hu | Hu]; [| contradiction].
    apply (contacts_are_transfer _ _ _ _ _ (Hout2 uid H2)). by apply Hin1.
  - intros w Hw. apply not_elem_of_app in Hw as [Hw1 Hw2].
    by rewrite (Hout2 w Hw2), (Hout1 w Hw1).
Qed.

(** Lines 141-167 without the two-group reduction: one facility. *)
Lemma add_facility_connects facilities_staff_uids d nf facility s u s' :
  add_facility facilities_staff_uids false d (nf, facility) s = (Ok u, s') ->
  exists staff, facilities_staff_uids !! nf = Some staff /\
    connects "LTCF" (facility ++ staff) (list_to_set facility ∪ list_to_set staff)
      (popdict s) (popdict s').
Proof.
  unfold add_facility. intros H.
  apply bind_Ok in H as (staff & t0 & Hstaff & H).
  apply lift_opt_Ok in Hstaff as [Hstaff ->].
  apply bind_Ok in H as (a1 & t1 & Hres & H).
  apply bind_Ok in H as (a2 & t2 & Hstf & H).
  assert (Hattrs : same_contacts (popdict s) (popdict t2)).
  { eapply same_contacts_trans.
    - eapply for_each_same_contacts; [| exact Hres].
      intros x t v t' _ Hb. cbv beta in Hb. monad_inv. inv_attrs. chain_same_contacts.
    - eapply for_each_same_contacts; [| exact Hstf].
      intros x t v t' _ Hb. cbv beta in Hb. monad_inv. inv_attrs. chain_same_contacts. }
  apply bind_Ok in H as (a3 & t3 & Hf & H).
  exists staff. split; [exact Hstaff |].
  eapply connects_after_attrs; [exact Hattrs |].
  assert (Hbody : forall uid t v t',
            connect_to_facility facility staff uid t = (Ok v, t') ->
            exists pd1,
              write_layer uid "LTCF"
                ((list_to_set facility ∪ list_to_set staff) ∖ {[uid]}) (popdict t) pd1 /\
              same_contacts pd1 (popdict t')).
  { intros uid t v t' Hb. apply connect_to_facility_Ok in Hb as [Hw _].
    exists (popdict t'). split; [exact Hw | apply same_contacts_refl]. }
  eapply connects_app.
  - eapply members_loop_connects; [exact Hbody | exact Hf].
  - eapply members_loop_connects; [exact Hbody | exact H].
Qed.

Lemma new_person_facility_layer age sex :
  contacts (new_person true age sex) !! "LTCF"%string = Some ∅.
Proof. reflexivity. Qed.

(** X17.  With facilities, without the two-group reduction, and whenever the
    functions of [schools.py] leave the layers other than the school layer as
    they are: in the dictionary that
    [make_contacts_from_microstructure_objects] returns, a resident or member
    of the staff of a facility has as ['LTCF'] contacts all the other
    residents and all the other staff of a facility that lists them, and a
    person whom no facility lists has none. *)
Theorem facility_members_are_each_others_contacts
    add_school_edges generate_random_contacts_across_school
    add_contacts_from_edgelist school_type_by_age
    age_by_uid_dic homes_by_uids schools_by_uids teachers_by_uids
    non_teaching_staff_uids workplaces_by_uids facilities
    facilities_staff_uids average_LTCF_degree
    with_school_types school_mixing_type workplaces_by_industry_codes max_contacts
    s pd' s' :
  (forall students ages teachers staff mixing,
     touches_school_layer_only (add_school_edges students ages teachers staff mixing)) ->
  (forall school g edges g',
     generate_random_contacts_across_school school g = (Ok edges, g') ->
     touches_school_layer_only (add_contacts_from_edgelist edges "S"%string)) ->
  make_contacts_from_microstructure_objects
    add_school_edges generate_random_contacts_across_school
    add_contacts_from_edgelist school_type_by_age
    age_by_uid_dic homes_by_uids schools_by_uids teachers_by_uids
    non_teaching_staff_uids workplaces_by_uids (Some facilities)
    facilities_staff_uids false average_LTCF_degree
    with_school_types school_mixing_type workplaces_by_industry_codes max_contacts
    s = (Ok pd', s') ->
  let listed_in nf uid :=
    exists facility staff,
      facilities !! nf = Some facility /\ facilities_staff_uids !! nf = Some staff /\
      uid ∈ facility ++ staff in
  let others_of nf uid (c : gset nat) :=
    exists facility staff,
      facilities !! nf = Some facility /\ facilities_staff_uids !! nf = Some staff /\
      c = (list_to_set facility ∪ list_to_set staff) ∖ {[uid]} in
  forall uid p, pd' !! uid = Some p ->
    (forall nf, listed_in nf uid ->
       exists nf' c, listed_in nf' uid /\ others_of nf' uid c /\
         contacts p !! "LTCF"%string = Some c) /\
    ((forall nf, ~ listed_in nf uid) -> contacts p !! "LTCF"%string = Some ∅).
Proof.
  intros Hedges Hlist Hrun listed_in others_of uid p Hp.
  apply make_contacts_Ok in Hrun
    as (mixing_dic & s1 & s2 & s3 & s4 & Hfresh & Hfac & Hhome & Hschool & Hwork & ->).
  assert (H2 : same_layer "LTCF" (popdict s2) (popdict s')).
  { eapply same_layer_trans; [eapply households_same_layer; [| exact Hhome]; done |].
    eapply same_layer_trans.
    - eapply schools_same_layer; [| exact Hedges | exact Hlist | exact Hschool]. done.
    - eapply add_workplaces_same_layer; [| exact Hwork]. done. }
  cbn [add_facilities] in Hfac.
  pose (members := fun it : nat * list nat =>
                     it.2 ++ default [] (facilities_staff_uids !! it.1)).
  pose (X := fun it : nat * list nat =>
               (list_to_set it.2
                ∪ list_to_set (default [] (facilities_staff_uids !! it.1)) : gset nat)).
  pose proof Hfac as Hloop.
  apply (groups_loop_connects "LTCF" members X) in Hloop as [Hin Hout];
    [| intros [nf facility] t v t' _ Hb;
       apply add_facility_connects in Hb as (staff & Hstaff & Hc);
       unfold members, X; cbn [fst snd]; rewrite Hstaff; exact Hc].
  assert (Hstaffed : forall nf facility, facilities !! nf = Some facility ->
            is_Some (facilities_staff_uids !! nf)).
  { intros nf facility Hnf.
    assert (Hit : (nf, facility) ∈ enumerate facilities) by (by apply enumerate_elem).
    revert Hit Hfac. generalize (enumerate facilities). clear.
    intros items Hit. revert s1.
    induction items as [| it items IH]; intros s1 Hrun;
      [by apply elem_of_nil in Hit |].
    cbn in Hrun. apply bind_Ok in Hrun as (a & t & Hstep & Hrun).
    apply elem_of_cons in Hit as [<- | Hit]; [| by eapply IH].
    apply add_facility_connects in Hstep as (staff & Hstaff & _). eauto. }
  split.
  - intros nf (facility & staff & Hnf & Hstaff & Hu).
    destruct (Hin uid) as ([nf' facility'] & Hit & Hu' & Hc).
    { apply Exists_exists. exists (nf, facility).
      split; [by apply enumerate_elem |]. unfold members. cbn [fst snd]. by rewrite Hstaff. }
    apply enumerate_elem in Hit.
    destruct (Hstaffed _ _ Hit) as [staff' Hstaff'].
    unfold members, X in Hu', Hc. cbn [fst snd] in Hu', Hc. rewrite Hstaff' in Hu', Hc.
    cbn [default] in Hu', Hc.
    exists nf', ((list_to_set facility' ∪ list_to_set staff') ∖ {[uid]}).
    split; [by exists facility', staff' |]. split; [by exists facility', staff' |].
    by eapply same_layer_contacts_are.
  - intros Hnone.
    destruct (H2 uid p Hp) as (p2 & Hp2 & ->).
    assert (Hall : Forall (fun it => uid ∉ members it) (enumerate facilities)).
    { apply Forall_forall. intros [nf facility] Hit Hu. apply enumerate_elem in Hit.
      destruct (Hstaffed _ _ Hit) as [staff Hstaff].
      unfold members in Hu. cbn [fst snd] in Hu. rewrite Hstaff in Hu.
      apply (Hnone nf). by exists facility, staff. }
    specialize (Hout uid Hall). rewrite Hp2 in Hout.
    destruct (popdict s1 !! uid) as [p1 |] eqn:Hp1; [| discriminate Hout].
    cbn in Hout. injection Hout as ->.
    destruct (Hfresh uid p1 Hp1) as (age & sex & ->).
    rewrite bool_decide_eq_true_2 by eauto. apply new_person_facility_layer.
Qed.

Lemma facility_members_are_each_others_contacts_witness :
  exists pd' s' p,
    ex_make_contacts_ltcf (CState ∅ ex_stream) = (Ok pd', s') /\
    pd' !! 3 = Some p /\
    exists c, contacts p !! "LTCF"%string = Some c /\
      c = (list_to_set [1; 2] ∪ list_to_set [3]) ∖ {[3]}.
Proof.
  assert (Hlook : match (ex_make_contacts_ltcf (CState ∅ ex_stream)).1 with
                  | Ok pd => is_Some (pd !! 3)
                  | _ => False
                  end).
  { vm_compute. eauto. }
  destruct (ex_make_contacts_ltcf (CState ∅ ex_stream)) as [[pd' | e |] s'] eqn:Hrun;
    try contradiction.
  cbn [fst] in Hlook. destruct Hlook as [p Hp].
  exists pd', s', p. split; [reflexivity |]. split; [exact Hp |].
  unfold ex_make_contacts_ltcf in Hrun.
  destruct (facility_members_are_each_others_contacts
              draw_no_school_edge draw_no_random_contact add_contacts_edge_by_edge
              no_school_type _ _ _ _ _ _ _ _ _ _ _ _ _ _ _ _
              ltac:(intros students ages teachers staff mixing t u t' layer Ht _;
                    apply draw_no_school_edge_popdict in Ht as ->;
                    apply same_layer_refl)
              ltac:(intros school g edges g' Hg t u t' layer Ht _;
                    apply (no_random_contact_edge_list _ _ _ _ _ _ _ Hg) in Ht as ->;
                    apply same_layer_refl)
              Hrun 3 p Hp) as [Hin _].
  destruct (Hin 0) as (nf' & c & _ & (facility & staff & Hf & Hs & ->) & Hc).
  { exists [1; 2], [3]. split; [reflexivity |]. split; [reflexivity |].
    do 2 apply list_elem_of_further. apply list_elem_of_here. }
  destruct nf' as [| nf']; [| discriminate Hf].
  injection Hf as <-. injection Hs as <-. eauto.
Defined.
